(** * cc65 debug-info reader (src/dbginfo/dbginfo.c): model and properties

    A shallow embedding of the reader for the debug-info files written by
    the cc65 linker: the collections, the record store, the record-level
    parsers, the post-processing passes that turn ids into references, the
    span-by-address table and the lookup functions built on them.

    Conventions of the embedding.
    - C [unsigned] is 32 bits wide, [long] and [unsigned long] 64 bits (LP64);
      a value of such a type is a [Z] and every wrap-around of the source is
      written out with [to_unsigned], [to_int] or [to_long].
    - A pointer to a record is the index of the record in the store of its
      type (records are never freed while a database is alive); [None] is the
      null pointer.
    - A function of the source that can run into undefined behaviour
      (a failed [assert], a null dereference, a write outside an allocated
      block, a loop that never exits) returns [option]; [None] stands for
      such a run, [Some] for a run that returns.
    - The attribute loops of the [Parse...] functions are outside the
      model: an input line is given by the values its attribute loop
      collected. The scanner ([NextToken]) is modelled on its own, over the
      characters of the file. *)

From Stdlib Require Import ZArith Lia List String Ascii Bool Permutation.
From Stdlib Require OrderedTypeEx.
From stdpp Require Import base option list sorting.

Local Open Scope Z_scope.

(** ** Machine integers *)

Definition UINT_MOD : Z := 4294967296.
Definition UINT_MAX : Z := 4294967295.
Definition INT_MAX : Z := 2147483647.

(** Conversion to [unsigned]. *)
Definition to_unsigned (z : Z) : Z := z mod UINT_MOD.

(** Conversion to [int] (two's complement). *)
Definition to_int (z : Z) : Z := (z + 2147483648) mod UINT_MOD - 2147483648.

(** Conversion to [long] (two's complement, 64 bits). *)
Definition to_long (z : Z) : Z :=
  (z + 9223372036854775808) mod 18446744073709551616 - 9223372036854775808.

(** Conversion to [unsigned long]. *)
Definition to_ulong (z : Z) : Z := z mod 18446744073709551616.

(** Modelled from the spec: the header dbginfo.h is not among the sources.
    It declares the invalid id [CC65_INV_ID] as [~0U], the types [cc65_addr],
    [cc65_line] and [cc65_size] as [unsigned], and the enumerations below. *)
Definition CC65_INV_ID : Z := UINT_MAX.

Inductive cc65_error_severity := CC65_WARNING | CC65_ERROR.
Inductive cc65_symbol_type := CC65_SYM_EQUATE | CC65_SYM_LABEL.
Inductive cc65_scope_type :=
  CC65_SCOPE_GLOBAL | CC65_SCOPE_MODULE | CC65_SCOPE_SCOPE
| CC65_SCOPE_STRUCT | CC65_SCOPE_ENUM.

Definition VER_MAJOR : Z := 2.
Definition VER_MINOR : Z := 0.

(** [strcmp], through its sign only. *)
Definition strcmp (a b : string) : Z :=
  match String.compare a b with Lt => -1 | Eq => 0 | Gt => 1 end.

(** ** Collections *)

(** [union CollEntry]: an id until it is resolved, then a pointer. The same
    shape is used for the id-or-pointer unions inside the records. *)
Inductive CollEntry :=
| EId (Id : Z)
| EPtr (Ptr : option nat).

Abbreviation ENull := (EPtr None).

Record Collection := mkColl {
  Size : Z;                    (* size of the allocated array *)
  Items : list CollEntry       (* the [Count] items in use *)
}.

Definition COLLECTION_INITIALIZER : Collection := mkColl 0 [].

Definition CollInit : Collection := mkColl 0 [].

Definition CollCount (C : Collection) : Z := Z.of_nat (length (Items C)).

(** Reading the [Ptr] member; an entry last written as an id has no pointer
    value. *)
Definition entry_ptr (e : CollEntry) : option (option nat) :=
  match e with EPtr p => Some p | EId _ => None end.

Definition entry_id (e : CollEntry) : option Z :=
  match e with EId n => Some n | EPtr _ => None end.

Definition CollGrow (C : Collection) (NewSize : Z) : Collection :=
  if NewSize <=? Size C then C else mkColl NewSize (Items C).

(** The doubling loop of [CollReplaceExpand]: [while (Index >= Size) Size *= 2].
    The size is an [unsigned]: thirty-three doublings turn any value into 0,
    after which the loop cannot exit. *)
Fixpoint expand_size (fuel : nat) (Index Sz : Z) : option Z :=
  if Index <? Sz then Some Sz
  else match fuel with
       | O => None
       | S fuel' => expand_size fuel' Index (to_unsigned (Sz * 2))
       end.

Definition CollReplaceExpand (C : Collection) (Item : option nat) (Index : Z)
  : option Collection :=
  if Index <? CollCount C then
    Some (mkColl (Size C) (<[Z.to_nat Index := EPtr Item]> (Items C)))
  else
    let Sz := if Size C =? 0 then 8 else Size C in
    Sz ← expand_size 33 Index Sz;
    let C := CollGrow C Sz in
    Some (mkColl (Size C)
            (Items C ++ replicate (Z.to_nat Index - length (Items C)) ENull
                     ++ [EPtr Item])).

(** [CollPrepareInsert] at the end of the collection, as [CollAppend] and
    [CollAppendId] use it. When doubling the size wraps around, the array is
    not grown and the store that follows is outside the block. *)
Definition CollPrepareAppend (C : Collection) : option Collection :=
  let C := if CollCount C >=? Size C
           then CollGrow C (if Size C =? 0 then 8 else to_unsigned (Size C * 2))
           else C in
  if CollCount C <? Size C then Some C else None.

Definition CollAppend (C : Collection) (Item : option nat) : option Collection :=
  C ← CollPrepareAppend C; Some (mkColl (Size C) (Items C ++ [EPtr Item])).

Definition CollAppendId (C : Collection) (Id : Z) : option Collection :=
  C ← CollPrepareAppend C; Some (mkColl (Size C) (Items C ++ [EId Id])).

(** [assert (Index < C->Count)] guards each access. *)
Definition CollAt (C : Collection) (Index : nat) : option (option nat) :=
  e ← Items C !! Index; entry_ptr e.

Definition CollIdAt (C : Collection) (Index : nat) : option Z :=
  e ← Items C !! Index; entry_id e.

Definition CollReplace (C : Collection) (Item : option nat) (Index : nat)
  : option Collection :=
  if decide (Index < length (Items C))%nat
  then Some (mkColl (Size C) (<[Index := EPtr Item]> (Items C)))
  else None.

(** ** Records

    Field names are those of the source; [File], [Type] and [End], which
    Rocq reserves, carry a trailing underscore. *)

Module FileInfo.
Record t := mk {
  Id : Z;
  Size : Z;
  MTime : Z;
  ModInfoByName : Collection;     (* modules in which this file is used *)
  LineInfoByLine : Collection;    (* line infos sorted by line *)
  Name : string
}.
Definition set_ModInfoByName (C : Collection) (F : t) : t :=
  mk (Id F) (Size F) (MTime F) C (LineInfoByLine F) (Name F).
Definition set_LineInfoByLine (C : Collection) (F : t) : t :=
  mk (Id F) (Size F) (MTime F) (ModInfoByName F) C (Name F).
End FileInfo.

Module LibInfo.
Record t := mk { Id : Z; Name : string }.
End LibInfo.

Module LineInfo.
Record t := mk {
  Id : Z;
  Line : Z;
  File_ : CollEntry;               (* id of the file, then pointer to it *)
  Type_ : Z;
  Count : Z;
  SpanInfoList : Collection       (* list of spans for this line *)
}.
Definition set_File (e : CollEntry) (L : t) : t :=
  mk (Id L) (Line L) e (Type_ L) (Count L) (SpanInfoList L).
End LineInfo.

Module ModInfo.
Record t := mk {
  Id : Z;
  File_ : CollEntry;
  Lib : CollEntry;
  MainScope : option nat;
  FileInfoByName : Collection;
  ScopeInfoByName : Collection;
  Name : string
}.
Definition set_File (e : CollEntry) (M : t) : t :=
  mk (Id M) e (Lib M) (MainScope M) (FileInfoByName M) (ScopeInfoByName M) (Name M).
Definition set_Lib (e : CollEntry) (M : t) : t :=
  mk (Id M) (File_ M) e (MainScope M) (FileInfoByName M) (ScopeInfoByName M) (Name M).
Definition set_MainScope (p : option nat) (M : t) : t :=
  mk (Id M) (File_ M) (Lib M) p (FileInfoByName M) (ScopeInfoByName M) (Name M).
Definition set_FileInfoByName (C : Collection) (M : t) : t :=
  mk (Id M) (File_ M) (Lib M) (MainScope M) C (ScopeInfoByName M) (Name M).
Definition set_ScopeInfoByName (C : Collection) (M : t) : t :=
  mk (Id M) (File_ M) (Lib M) (MainScope M) (FileInfoByName M) C (Name M).
End ModInfo.

Module ScopeInfo.
Record t := mk {
  Id : Z;
  Type_ : cc65_scope_type;
  Size : Z;
  Mod : CollEntry;
  Parent : CollEntry;
  Label : CollEntry;
  SpanInfoList : Collection;
  Name : string
}.
Definition set_Mod (e : CollEntry) (S : t) : t :=
  mk (Id S) (Type_ S) (Size S) e (Parent S) (Label S) (SpanInfoList S) (Name S).
Definition set_Parent (e : CollEntry) (S : t) : t :=
  mk (Id S) (Type_ S) (Size S) (Mod S) e (Label S) (SpanInfoList S) (Name S).
Definition set_Label (e : CollEntry) (S : t) : t :=
  mk (Id S) (Type_ S) (Size S) (Mod S) (Parent S) e (SpanInfoList S) (Name S).
Definition set_SpanInfoList (C : Collection) (S : t) : t :=
  mk (Id S) (Type_ S) (Size S) (Mod S) (Parent S) (Label S) C (Name S).
End ScopeInfo.

Module SegInfo.
Record t := mk {
  Id : Z;
  Start : Z;
  Size : Z;
  OutputName : option string;
  OutputOffs : Z;
  Name : string
}.
End SegInfo.

Module SpanInfo.
Record t := mk {
  Id : Z;
  Start : Z;
  End_ : Z;                             (* [End] in the source *)
  Seg : CollEntry;
  ScopeInfoList : option Collection;    (* scopes for this span *)
  LineInfoList : option Collection      (* lines for this span *)
}.
Definition set_Seg (e : CollEntry) (S : t) : t :=
  mk (Id S) (Start S) (End_ S) e (ScopeInfoList S) (LineInfoList S).
Definition set_Start (a : Z) (S : t) : t :=
  mk (Id S) a (End_ S) (Seg S) (ScopeInfoList S) (LineInfoList S).
Definition set_End (a : Z) (S : t) : t :=
  mk (Id S) (Start S) a (Seg S) (ScopeInfoList S) (LineInfoList S).
Definition set_ScopeInfoList (C : option Collection) (S : t) : t :=
  mk (Id S) (Start S) (End_ S) (Seg S) C (LineInfoList S).
End SpanInfo.

Module SymInfo.
Record t := mk {
  Id : Z;
  Type_ : cc65_symbol_type;
  Value : Z;
  Size : Z;
  Seg : CollEntry;
  Scope : CollEntry;
  Parent : CollEntry;
  Name : string
}.
Definition set_Seg (e : CollEntry) (S : t) : t :=
  mk (Id S) (Type_ S) (Value S) (Size S) e (Scope S) (Parent S) (Name S).
Definition set_Scope (e : CollEntry) (S : t) : t :=
  mk (Id S) (Type_ S) (Value S) (Size S) (Seg S) e (Parent S) (Name S).
Definition set_Parent (e : CollEntry) (S : t) : t :=
  mk (Id S) (Type_ S) (Value S) (Size S) (Seg S) (Scope S) e (Name S).
End SymInfo.

(** ** The span-by-address table *)

(** [void* Data] of an entry: null, a [SpanInfo*], or a [SpanInfo**] to a
    block of the given number of cells; a cell never written holds no value. *)
Inductive EntryData :=
| DataNull
| DataSpan (S : nat)
| DataArray (cells : list (option nat)).

Module SpanInfoListEntry.
Record t := mk {
  Addr : option Z;            (* unique address; [None] until it is written *)
  Count : Z;                  (* number of span infos for this address *)
  Data : EntryData
}.
End SpanInfoListEntry.

Module SpanInfoList.
Record t := mk {
  Count : Z;                             (* number of entries *)
  List_ : list SpanInfoListEntry.t       (* [List] in the source *)
}.
End SpanInfoList.

Definition InitSpanInfoList : SpanInfoList.t := SpanInfoList.mk 0 [].

(** ** The database *)

(** The records of each type, in the order of their allocation: a pointer to
    a record is its position here. *)
Module Store.
Record t := mk {
  FileInfos : list FileInfo.t;
  LibInfos : list LibInfo.t;
  LineInfos : list LineInfo.t;
  ModInfos : list ModInfo.t;
  ScopeInfos : list ScopeInfo.t;
  SegInfos : list SegInfo.t;
  SpanInfos : list SpanInfo.t;
  SymInfos : list SymInfo.t
}.
Definition set_FileInfos (v : list FileInfo.t) (r : t) : t :=
  mk v (LibInfos r) (LineInfos r) (ModInfos r) (ScopeInfos r) (SegInfos r) (SpanInfos r) (SymInfos r).
Definition set_LibInfos (v : list LibInfo.t) (r : t) : t :=
  mk (FileInfos r) v (LineInfos r) (ModInfos r) (ScopeInfos r) (SegInfos r) (SpanInfos r) (SymInfos r).
Definition set_LineInfos (v : list LineInfo.t) (r : t) : t :=
  mk (FileInfos r) (LibInfos r) v (ModInfos r) (ScopeInfos r) (SegInfos r) (SpanInfos r) (SymInfos r).
Definition set_ModInfos (v : list ModInfo.t) (r : t) : t :=
  mk (FileInfos r) (LibInfos r) (LineInfos r) v (ScopeInfos r) (SegInfos r) (SpanInfos r) (SymInfos r).
Definition set_ScopeInfos (v : list ScopeInfo.t) (r : t) : t :=
  mk (FileInfos r) (LibInfos r) (LineInfos r) (ModInfos r) v (SegInfos r) (SpanInfos r) (SymInfos r).
Definition set_SegInfos (v : list SegInfo.t) (r : t) : t :=
  mk (FileInfos r) (LibInfos r) (LineInfos r) (ModInfos r) (ScopeInfos r) v (SpanInfos r) (SymInfos r).
Definition set_SpanInfos (v : list SpanInfo.t) (r : t) : t :=
  mk (FileInfos r) (LibInfos r) (LineInfos r) (ModInfos r) (ScopeInfos r) (SegInfos r) v (SymInfos r).
Definition set_SymInfos (v : list SymInfo.t) (r : t) : t :=
  mk (FileInfos r) (LibInfos r) (LineInfos r) (ModInfos r) (ScopeInfos r) (SegInfos r) (SpanInfos r) v.
End Store.

Definition empty_store : Store.t := Store.mk [] [] [] [] [] [] [] [].

(** [struct DbgInfo], together with the records its collections point to. *)
Module DbgInfo.
Record t := mk {
  Mem : Store.t;
  FileInfoById : Collection;
  LibInfoById : Collection;
  LineInfoById : Collection;
  ModInfoById : Collection;
  ScopeInfoById : Collection;
  SegInfoById : Collection;
  SpanInfoById : Collection;
  SymInfoById : Collection;
  FileInfoByName : Collection;
  ModInfoByName : Collection;
  SegInfoByName : Collection;
  SymInfoByName : Collection;
  SymInfoByVal : Collection;
  SpanInfoByAddr : SpanInfoList.t
}.
Definition set_Mem (v : Store.t) (r : t) : t :=
  mk v (FileInfoById r) (LibInfoById r) (LineInfoById r) (ModInfoById r) (ScopeInfoById r) (SegInfoById r) (SpanInfoById r) (SymInfoById r) (FileInfoByName r) (ModInfoByName r) (SegInfoByName r) (SymInfoByName r) (SymInfoByVal r) (SpanInfoByAddr r).
Definition set_FileInfoById (v : Collection) (r : t) : t :=
  mk (Mem r) v (LibInfoById r) (LineInfoById r) (ModInfoById r) (ScopeInfoById r) (SegInfoById r) (SpanInfoById r) (SymInfoById r) (FileInfoByName r) (ModInfoByName r) (SegInfoByName r) (SymInfoByName r) (SymInfoByVal r) (SpanInfoByAddr r).
Definition set_LibInfoById (v : Collection) (r : t) : t :=
  mk (Mem r) (FileInfoById r) v (LineInfoById r) (ModInfoById r) (ScopeInfoById r) (SegInfoById r) (SpanInfoById r) (SymInfoById r) (FileInfoByName r) (ModInfoByName r) (SegInfoByName r) (SymInfoByName r) (SymInfoByVal r) (SpanInfoByAddr r).
Definition set_LineInfoById (v : Collection) (r : t) : t :=
  mk (Mem r) (FileInfoById r) (LibInfoById r) v (ModInfoById r) (ScopeInfoById r) (SegInfoById r) (SpanInfoById r) (SymInfoById r) (FileInfoByName r) (ModInfoByName r) (SegInfoByName r) (SymInfoByName r) (SymInfoByVal r) (SpanInfoByAddr r).
Definition set_ModInfoById (v : Collection) (r : t) : t :=
  mk (Mem r) (FileInfoById r) (LibInfoById r) (LineInfoById r) v (ScopeInfoById r) (SegInfoById r) (SpanInfoById r) (SymInfoById r) (FileInfoByName r) (ModInfoByName r) (SegInfoByName r) (SymInfoByName r) (SymInfoByVal r) (SpanInfoByAddr r).
Definition set_ScopeInfoById (v : Collection) (r : t) : t :=
  mk (Mem r) (FileInfoById r) (LibInfoById r) (LineInfoById r) (ModInfoById r) v (SegInfoById r) (SpanInfoById r) (SymInfoById r) (FileInfoByName r) (ModInfoByName r) (SegInfoByName r) (SymInfoByName r) (SymInfoByVal r) (SpanInfoByAddr r).
Definition set_SegInfoById (v : Collection) (r : t) : t :=
  mk (Mem r) (FileInfoById r) (LibInfoById r) (LineInfoById r) (ModInfoById r) (ScopeInfoById r) v (SpanInfoById r) (SymInfoById r) (FileInfoByName r) (ModInfoByName r) (SegInfoByName r) (SymInfoByName r) (SymInfoByVal r) (SpanInfoByAddr r).
Definition set_SpanInfoById (v : Collection) (r : t) : t :=
  mk (Mem r) (FileInfoById r) (LibInfoById r) (LineInfoById r) (ModInfoById r) (ScopeInfoById r) (SegInfoById r) v (SymInfoById r) (FileInfoByName r) (ModInfoByName r) (SegInfoByName r) (SymInfoByName r) (SymInfoByVal r) (SpanInfoByAddr r).
Definition set_SymInfoById (v : Collection) (r : t) : t :=
  mk (Mem r) (FileInfoById r) (LibInfoById r) (LineInfoById r) (ModInfoById r) (ScopeInfoById r) (SegInfoById r) (SpanInfoById r) v (FileInfoByName r) (ModInfoByName r) (SegInfoByName r) (SymInfoByName r) (SymInfoByVal r) (SpanInfoByAddr r).
Definition set_FileInfoByName (v : Collection) (r : t) : t :=
  mk (Mem r) (FileInfoById r) (LibInfoById r) (LineInfoById r) (ModInfoById r) (ScopeInfoById r) (SegInfoById r) (SpanInfoById r) (SymInfoById r) v (ModInfoByName r) (SegInfoByName r) (SymInfoByName r) (SymInfoByVal r) (SpanInfoByAddr r).
Definition set_ModInfoByName (v : Collection) (r : t) : t :=
  mk (Mem r) (FileInfoById r) (LibInfoById r) (LineInfoById r) (ModInfoById r) (ScopeInfoById r) (SegInfoById r) (SpanInfoById r) (SymInfoById r) (FileInfoByName r) v (SegInfoByName r) (SymInfoByName r) (SymInfoByVal r) (SpanInfoByAddr r).
Definition set_SegInfoByName (v : Collection) (r : t) : t :=
  mk (Mem r) (FileInfoById r) (LibInfoById r) (LineInfoById r) (ModInfoById r) (ScopeInfoById r) (SegInfoById r) (SpanInfoById r) (SymInfoById r) (FileInfoByName r) (ModInfoByName r) v (SymInfoByName r) (SymInfoByVal r) (SpanInfoByAddr r).
Definition set_SymInfoByName (v : Collection) (r : t) : t :=
  mk (Mem r) (FileInfoById r) (LibInfoById r) (LineInfoById r) (ModInfoById r) (ScopeInfoById r) (SegInfoById r) (SpanInfoById r) (SymInfoById r) (FileInfoByName r) (ModInfoByName r) (SegInfoByName r) v (SymInfoByVal r) (SpanInfoByAddr r).
Definition set_SymInfoByVal (v : Collection) (r : t) : t :=
  mk (Mem r) (FileInfoById r) (LibInfoById r) (LineInfoById r) (ModInfoById r) (ScopeInfoById r) (SegInfoById r) (SpanInfoById r) (SymInfoById r) (FileInfoByName r) (ModInfoByName r) (SegInfoByName r) (SymInfoByName r) v (SpanInfoByAddr r).
Definition set_SpanInfoByAddr (v : SpanInfoList.t) (r : t) : t :=
  mk (Mem r) (FileInfoById r) (LibInfoById r) (LineInfoById r) (ModInfoById r) (ScopeInfoById r) (SegInfoById r) (SpanInfoById r) (SymInfoById r) (FileInfoByName r) (ModInfoByName r) (SegInfoByName r) (SymInfoByName r) (SymInfoByVal r) v.
End DbgInfo.

Definition NewDbgInfo : DbgInfo.t :=
  DbgInfo.mk empty_store
    CollInit CollInit CollInit CollInit CollInit CollInit CollInit CollInit
    CollInit CollInit CollInit CollInit CollInit
    InitSpanInfoList.

(** ** Diagnostics *)

(** The messages handed to the error callback, by format string; the
    arguments are those of the format. *)
Inductive Message :=
| MsgCannotOpen
| MsgVersionMissing
| MsgOldVersion (major minor : Z)
| MsgSlightlyNewer (major minor : Z)
| MsgNewer (major minor : Z)
| MsgUnknownKeyword (kw : string)
| MsgUnexpectedToken
| MsgSyntax
| MsgRequiredMissing
| MsgUnpairedOutput
| MsgParentOrScope
| MsgInvalidModuleIdFile (ModId FileId : Z)
| MsgInvalidFileIdLine (FileId LineId : Z)
| MsgInvalidFileIdModule (FileId ModId : Z)
| MsgInvalidLibIdModule (LibId ModId : Z)
| MsgInvalidModuleIdScope (ModId ScopeId : Z)
| MsgInvalidParentIdScope (ParentId ScopeId : Z)
| MsgInvalidLabelIdScope (LabelId ScopeId : Z)
| MsgInvalidSpanIdScope (SpanId ScopeId : Z)
| MsgNoMainScope (ModId : Z)
| MsgInvalidSegIdSpan (SegId SpanId : Z)
| MsgInvalidSegIdSym (SegId SymId : Z)
| MsgInvalidScopeIdSym (ScopeId SymId : Z)
| MsgInvalidParentIdSym (ParentId SymId : Z)
| MsgNoParentNoScope (SymId : Z)
| MsgParentWithoutScope (SymId ParentId : Z).

Record cc65_parseerror := mkError {
  type : cc65_error_severity;
  errormsg : Message
}.

(** [struct InputData], without the scanner state; [Reported] collects the
    calls of the error callback [D->Error], oldest first. *)
Module InputData.
Record t := mk {
  Errors : Z;
  Reported : list cc65_parseerror;
  MajorVersion : Z;
  MinorVersion : Z;
  Info : DbgInfo.t
}.
Definition set_Errors (v : Z) (r : t) : t :=
  mk v (Reported r) (MajorVersion r) (MinorVersion r) (Info r).
Definition set_Reported (v : list cc65_parseerror) (r : t) : t :=
  mk (Errors r) v (MajorVersion r) (MinorVersion r) (Info r).
Definition set_MajorVersion (v : Z) (r : t) : t :=
  mk (Errors r) (Reported r) v (MinorVersion r) (Info r).
Definition set_MinorVersion (v : Z) (r : t) : t :=
  mk (Errors r) (Reported r) (MajorVersion r) v (Info r).
Definition set_Info (v : DbgInfo.t) (r : t) : t :=
  mk (Errors r) (Reported r) (MajorVersion r) (MinorVersion r) v.
End InputData.

Definition ParseError (D : InputData.t) (Type_ : cc65_error_severity)
  (Msg : Message) : InputData.t :=
  let D := InputData.set_Reported (InputData.Reported D ++ [mkError Type_ Msg]) D in
  match Type_ with
  | CC65_ERROR => InputData.set_Errors (to_unsigned (InputData.Errors D + 1)) D
  | CC65_WARNING => D
  end.

(** ** Input lines *)

(** What the attribute loop of a [Parse...] function leaves in its local
    variables at the end of a line it accepted: [Some v] for an attribute
    that was given (the value still as scanned, an [unsigned long]), [None]
    for one that was not. *)
Record VersionAttrs := mkVersionAttrs { vMajor : option Z; vMinor : option Z }.

Inductive InfoKey :=
  IK_FILE | IK_LIBRARY | IK_LINE | IK_MODULE | IK_SCOPE | IK_SEGMENT
| IK_SPAN | IK_SYM.

Record FileAttrs := mkFileAttrs {
  fId : option Z; fName : option string; fSize : option Z;
  fMTime : option Z; fModIds : option (list Z) }.

Record LibAttrs := mkLibAttrs { lbId : option Z; lbName : option string }.

Record LineAttrs := mkLineAttrs {
  lId : option Z; lFileId : option Z; lLine : option Z;
  lType : option Z; lCount : option Z; lSpanIds : option (list Z) }.

Record ModAttrs := mkModAttrs {
  mId : option Z; mName : option string; mFileId : option Z;
  mLibId : option Z }.

Record ScopeAttrs := mkScopeAttrs {
  scId : option Z; scModId : option Z; scName : option string;
  scParentId : option Z; scSize : option Z; scSpanIds : option (list Z);
  scSymId : option Z; scType : option cc65_scope_type }.

Record SegAttrs := mkSegAttrs {
  sgAddrSize : bool; sgId : option Z; sgOutputName : option string;
  sgOutputOffs : option Z; sgName : option string; sgSize : option Z;
  sgStart : option Z; sgType : bool }.

Record SpanAttrs := mkSpanAttrs {
  spId : option Z; spSegId : option Z; spSize : option Z;
  spStart : option Z }.

Record SymAttrs := mkSymAttrs {
  syAddrSize : bool; syFileId : option Z; syId : option Z;
  syParentId : option Z; syScopeId : option Z; sySegId : option Z;
  sySize : option Z; syName : option string;
  syType : option cc65_symbol_type; syValue : option Z }.

(** A line of the input, by its first token. [Unknown] lists the attribute
    keywords the loop did not know and skipped; the attributes are [None]
    when the loop met a syntax error (a missing [=], a value of the wrong
    kind, extra tokens) and left through [ErrorExit]. *)
Inductive InputLine :=
| LVersion (Unknown : list string) (a : VersionAttrs) (syntax_error : bool)
| LInfo (Unknown : list string) (a : option (list (InfoKey * Z)))
| LFile (Unknown : list string) (a : option FileAttrs)
| LLibrary (Unknown : list string) (a : option LibAttrs)
| LLine (Unknown : list string) (a : option LineAttrs)
| LModule (Unknown : list string) (a : option ModAttrs)
| LScope (Unknown : list string) (a : option ScopeAttrs)
| LSegment (Unknown : list string) (a : option SegAttrs)
| LSpan (Unknown : list string) (a : option SpanAttrs)
| LSym (Unknown : list string) (a : option SymAttrs)
| LIdent (kw : string)          (* a line that starts with an unknown word *)
| LOther.                       (* a line that starts with any other token *)

(** ** Record parsers *)

Definition UnknownKeyword (D : InputData.t) (kw : string) : InputData.t :=
  ParseError D CC65_WARNING (MsgUnknownKeyword kw).

Definition UnknownKeywords (D : InputData.t) (kws : list string) : InputData.t :=
  fold_left UnknownKeyword kws D.

(** The bit of an attribute in [InfoBits]. *)
Definition ib {A} (o : option A) (bit : Z) : Z :=
  match o with Some _ => bit | None => 0 end.

Definition ibf (b : bool) (bit : Z) : Z := if b then bit else 0.

Definition upd_Info (f : DbgInfo.t -> DbgInfo.t) (D : InputData.t) : InputData.t :=
  InputData.set_Info (f (InputData.Info D)) D.

Definition upd_Mem (f : Store.t -> Store.t) (I : DbgInfo.t) : DbgInfo.t :=
  DbgInfo.set_Mem (f (DbgInfo.Mem I)) I.

(** The id list of an attribute such as [mod=0+1], appended id by id to a
    fresh collection. *)
Definition id_collection (ids : list Z) : option Collection :=
  foldl (fun C id => C ← C; CollAppendId C (to_unsigned id))
        (Some COLLECTION_INITIALIZER) ids.

(** [a] holds the attributes seen before the end of the line or before the
    syntax error, if there was one. *)
Definition ParseVersion (D : InputData.t) (Unknown : list string)
  (a : VersionAttrs) (syntax_error : bool) : InputData.t :=
  let D := UnknownKeywords D Unknown in
  let D := match vMajor a with
           | Some v => InputData.set_MajorVersion (to_unsigned v) D
           | None => D end in
  let D := match vMinor a with
           | Some v => InputData.set_MinorVersion (to_unsigned v) D
           | None => D end in
  if syntax_error then ParseError D CC65_ERROR MsgSyntax
  else
    let InfoBits := Z.lor (ib (vMajor a) 1) (ib (vMinor a) 2) in
    if Z.land InfoBits 3 =? 3 then D
    else ParseError D CC65_ERROR MsgRequiredMissing.

Definition ParseInfo_grow (I : DbgInfo.t) (kv : InfoKey * Z) : DbgInfo.t :=
  let n := to_unsigned (snd kv) in
  match fst kv with
  | IK_FILE =>
      DbgInfo.set_FileInfoByName (CollGrow (DbgInfo.FileInfoByName I) n)
        (DbgInfo.set_FileInfoById (CollGrow (DbgInfo.FileInfoById I) n) I)
  | IK_LIBRARY => DbgInfo.set_LibInfoById (CollGrow (DbgInfo.LibInfoById I) n) I
  | IK_LINE => DbgInfo.set_LineInfoById (CollGrow (DbgInfo.LineInfoById I) n) I
  | IK_MODULE =>
      DbgInfo.set_ModInfoByName (CollGrow (DbgInfo.ModInfoByName I) n)
        (DbgInfo.set_ModInfoById (CollGrow (DbgInfo.ModInfoById I) n) I)
  | IK_SCOPE => DbgInfo.set_ScopeInfoById (CollGrow (DbgInfo.ScopeInfoById I) n) I
  | IK_SEGMENT =>
      DbgInfo.set_SegInfoByName (CollGrow (DbgInfo.SegInfoByName I) n)
        (DbgInfo.set_SegInfoById (CollGrow (DbgInfo.SegInfoById I) n) I)
  | IK_SPAN => DbgInfo.set_SpanInfoById (CollGrow (DbgInfo.SpanInfoById I) n) I
  | IK_SYM =>
      DbgInfo.set_SymInfoByVal (CollGrow (DbgInfo.SymInfoByVal I) n)
        (DbgInfo.set_SymInfoByName (CollGrow (DbgInfo.SymInfoByName I) n)
           (DbgInfo.set_SymInfoById (CollGrow (DbgInfo.SymInfoById I) n) I))
  end.

Definition ParseInfo (D : InputData.t) (Unknown : list string)
  (a : option (list (InfoKey * Z))) : InputData.t :=
  let D := UnknownKeywords D Unknown in
  match a with
  | None => ParseError D CC65_ERROR MsgSyntax
  | Some kvs => upd_Info (fun I => fold_left ParseInfo_grow kvs I) D
  end.

Definition uval (o : option Z) (dflt : Z) : Z :=
  match o with Some v => to_unsigned v | None => dflt end.

Definition sval (o : option string) : string :=
  match o with Some v => v | None => EmptyString end.

(** The statements of [ParseFile] that remember the new record. *)
Definition store_FileInfo (D : InputData.t) (F : FileInfo.t) : option InputData.t :=
  let I := InputData.Info D in
  let p := length (Store.FileInfos (DbgInfo.Mem I)) in
  let I := upd_Mem (fun m => Store.set_FileInfos (Store.FileInfos m ++ [F]) m) I in
  ById ← CollReplaceExpand (DbgInfo.FileInfoById I) (Some p) (FileInfo.Id F);
  ByName ← CollAppend (DbgInfo.FileInfoByName I) (Some p);
  Some (InputData.set_Info
  (DbgInfo.set_FileInfoByName ByName (DbgInfo.set_FileInfoById ById I)) D).

Definition ParseFile (D : InputData.t) (Unknown : list string)
  (a : option FileAttrs) : option InputData.t :=
  let D := UnknownKeywords D Unknown in
  match a with
  | None => Some (ParseError D CC65_ERROR MsgSyntax)
  | Some a =>
    let InfoBits :=
      Z.lor (ib (fId a) 1) (Z.lor (ib (fName a) 2) (Z.lor (ib (fSize a) 4)
        (Z.lor (ib (fMTime a) 8) (ib (fModIds a) 16)))) in
    let ibRequired := 31 in
    if negb (Z.land InfoBits ibRequired =? ibRequired)
    then Some (ParseError D CC65_ERROR MsgRequiredMissing)
    else
      let Id := uval (fId a) 0 in
      ModIds ← id_collection (default [] (fModIds a));
      store_FileInfo D
        (FileInfo.mk Id (default 0 (to_ulong <$> fSize a))
                 (default 0 (to_ulong <$> fMTime a)) ModIds CollInit
                 (sval (fName a)))
  end.

(** The statements of [ParseLibrary] that remember the new record. *)
Definition store_LibInfo (D : InputData.t) (L : LibInfo.t) : option InputData.t :=
  let I := InputData.Info D in
  let p := length (Store.LibInfos (DbgInfo.Mem I)) in
  let I := upd_Mem (fun m => Store.set_LibInfos (Store.LibInfos m ++ [L]) m) I in
  ById ← CollReplaceExpand (DbgInfo.LibInfoById I) (Some p) (LibInfo.Id L);
  Some (InputData.set_Info (DbgInfo.set_LibInfoById ById I) D).

Definition ParseLibrary (D : InputData.t) (Unknown : list string)
  (a : option LibAttrs) : option InputData.t :=
  let D := UnknownKeywords D Unknown in
  match a with
  | None => Some (ParseError D CC65_ERROR MsgSyntax)
  | Some a =>
    let InfoBits := Z.lor (ib (lbId a) 1) (ib (lbName a) 2) in
    let ibRequired := 3 in
    if negb (Z.land InfoBits ibRequired =? ibRequired)
    then Some (ParseError D CC65_ERROR MsgRequiredMissing)
    else
      let Id := uval (lbId a) 0 in
      store_LibInfo D
        (LibInfo.mk Id (sval (lbName a)))
  end.

(** The statements of [ParseLine] that remember the new record. *)
Definition store_LineInfo (D : InputData.t) (L : LineInfo.t) : option InputData.t :=
  let I := InputData.Info D in
  let p := length (Store.LineInfos (DbgInfo.Mem I)) in
  let I := upd_Mem (fun m => Store.set_LineInfos (Store.LineInfos m ++ [L]) m) I in
  ById ← CollReplaceExpand (DbgInfo.LineInfoById I) (Some p) (LineInfo.Id L);
  Some (InputData.set_Info (DbgInfo.set_LineInfoById ById I) D).

Definition ParseLine (D : InputData.t) (Unknown : list string)
  (a : option LineAttrs) : option InputData.t :=
  let D := UnknownKeywords D Unknown in
  match a with
  | None => Some (ParseError D CC65_ERROR MsgSyntax)
  | Some a =>
    let InfoBits :=
      Z.lor (ib (lCount a) 1) (Z.lor (ib (lFileId a) 2) (Z.lor (ib (lId a) 4)
        (Z.lor (ib (lLine a) 8) (Z.lor (ib (lSpanIds a) 32) (ib (lType a) 64))))) in
    let ibRequired := 14 in
    if negb (Z.land InfoBits ibRequired =? ibRequired)
    then Some (ParseError D CC65_ERROR MsgRequiredMissing)
    else
      let Id := uval (lId a) CC65_INV_ID in
      SpanIds ← id_collection (default [] (lSpanIds a));
      store_LineInfo D
        (LineInfo.mk Id (uval (lLine a) 0)
                 (EId (uval (lFileId a) CC65_INV_ID))
                 (uval (lType a) 0) (uval (lCount a) 0) SpanIds)
  end.

(** The statements of [ParseModule] that remember the new record. *)
Definition store_ModInfo (D : InputData.t) (M : ModInfo.t) : option InputData.t :=
  let I := InputData.Info D in
  let p := length (Store.ModInfos (DbgInfo.Mem I)) in
  let I := upd_Mem (fun m => Store.set_ModInfos (Store.ModInfos m ++ [M]) m) I in
  ById ← CollReplaceExpand (DbgInfo.ModInfoById I) (Some p) (ModInfo.Id M);
  ByName ← CollAppend (DbgInfo.ModInfoByName I) (Some p);
  Some (InputData.set_Info
  (DbgInfo.set_ModInfoByName ByName (DbgInfo.set_ModInfoById ById I)) D).

Definition ParseModule (D : InputData.t) (Unknown : list string)
  (a : option ModAttrs) : option InputData.t :=
  let D := UnknownKeywords D Unknown in
  match a with
  | None => Some (ParseError D CC65_ERROR MsgSyntax)
  | Some a =>
    let InfoBits :=
      Z.lor (ib (mFileId a) 1) (Z.lor (ib (mId a) 2) (Z.lor (ib (mName a) 4)
        (ib (mLibId a) 8))) in
    let ibRequired := 7 in
    if negb (Z.land InfoBits ibRequired =? ibRequired)
    then Some (ParseError D CC65_ERROR MsgRequiredMissing)
    else
      let Id := uval (mId a) CC65_INV_ID in
      store_ModInfo D
        (ModInfo.mk Id (EId (uval (mFileId a) CC65_INV_ID))
                 (EId (uval (mLibId a) CC65_INV_ID)) None CollInit CollInit
                 (sval (mName a)))
  end.

(** The statements of [ParseScope] that remember the new record. *)
Definition store_ScopeInfo (D : InputData.t) (S : ScopeInfo.t) : option InputData.t :=
  let I := InputData.Info D in
  let p := length (Store.ScopeInfos (DbgInfo.Mem I)) in
  let I := upd_Mem (fun m => Store.set_ScopeInfos (Store.ScopeInfos m ++ [S]) m) I in
  ById ← CollReplaceExpand (DbgInfo.ScopeInfoById I) (Some p) (ScopeInfo.Id S);
  Some (InputData.set_Info (DbgInfo.set_ScopeInfoById ById I) D).

Definition ParseScope (D : InputData.t) (Unknown : list string)
  (a : option ScopeAttrs) : option InputData.t :=
  let D := UnknownKeywords D Unknown in
  match a with
  | None => Some (ParseError D CC65_ERROR MsgSyntax)
  | Some a =>
    let InfoBits :=
      Z.lor (ib (scId a) 1) (Z.lor (ib (scModId a) 2) (Z.lor (ib (scName a) 4)
        (Z.lor (ib (scParentId a) 8) (Z.lor (ib (scSize a) 16)
          (Z.lor (ib (scSpanIds a) 32) (Z.lor (ib (scSymId a) 64)
            (ib (scType a) 128))))))) in
    let ibRequired := 7 in
    if negb (Z.land InfoBits ibRequired =? ibRequired)
    then Some (ParseError D CC65_ERROR MsgRequiredMissing)
    else
      let Id := uval (scId a) CC65_INV_ID in
      SpanIds ← id_collection (default [] (scSpanIds a));
      store_ScopeInfo D
        (ScopeInfo.mk Id (default CC65_SCOPE_MODULE (scType a))
                 (uval (scSize a) 0)
                 (EId (uval (scModId a) CC65_INV_ID))
                 (EId (uval (scParentId a) CC65_INV_ID))
                 (EId (uval (scSymId a) CC65_INV_ID))
                 SpanIds (sval (scName a)))
  end.

Definition NewSegInfo (Name : string) (Id Start Size : Z)
  (OutputName : string) (OutputOffs : Z) : SegInfo.t :=
  if (0 <? String.length OutputName)%nat
  then SegInfo.mk Id Start Size (Some OutputName) OutputOffs Name
  else SegInfo.mk Id Start Size None 0 Name.

(** The statements of [ParseSegment] that remember the new record. *)
Definition store_SegInfo (D : InputData.t) (S : SegInfo.t) : option InputData.t :=
  let I := InputData.Info D in
  let p := length (Store.SegInfos (DbgInfo.Mem I)) in
  let I := upd_Mem (fun m => Store.set_SegInfos (Store.SegInfos m ++ [S]) m) I in
  ById ← CollReplaceExpand (DbgInfo.SegInfoById I) (Some p) (SegInfo.Id S);
  ByName ← CollAppend (DbgInfo.SegInfoByName I) (Some p);
  Some (InputData.set_Info
  (DbgInfo.set_SegInfoByName ByName (DbgInfo.set_SegInfoById ById I)) D).

Definition ParseSegment (D : InputData.t) (Unknown : list string)
  (a : option SegAttrs) : option InputData.t :=
  let D := UnknownKeywords D Unknown in
  match a with
  | None => Some (ParseError D CC65_ERROR MsgSyntax)
  | Some a =>
    let InfoBits :=
      Z.lor (ibf (sgAddrSize a) 1) (Z.lor (ib (sgId a) 2)
        (Z.lor (ib (sgOutputName a) 4) (Z.lor (ib (sgOutputOffs a) 8)
          (Z.lor (ib (sgName a) 16) (Z.lor (ib (sgSize a) 32)
            (Z.lor (ib (sgStart a) 64) (ibf (sgType a) 128))))))) in
    let ibRequired := 243 in
    if negb (Z.land InfoBits ibRequired =? ibRequired)
    then Some (ParseError D CC65_ERROR MsgRequiredMissing)
    else
      let InfoBits := Z.land InfoBits 12 in
      if negb (InfoBits =? 0) && negb (InfoBits =? 12)
      then Some (ParseError D CC65_ERROR MsgUnpairedOutput)
      else
        let OutputOffs :=
          if InfoBits =? 0 then 0 else default 0 (to_ulong <$> sgOutputOffs a) in
        let Id := uval (sgId a) 0 in
        store_SegInfo D
          (NewSegInfo (sval (sgName a)) Id (uval (sgStart a) 0)
                   (uval (sgSize a) 0) (sval (sgOutputName a)) OutputOffs)
  end.

Definition NewSpanInfo : SpanInfo.t := SpanInfo.mk 0 0 0 (EId 0) None None.

(** The statements of [ParseSpan] that remember the new record. *)
Definition store_SpanInfo (D : InputData.t) (S : SpanInfo.t) : option InputData.t :=
  let I := InputData.Info D in
  let p := length (Store.SpanInfos (DbgInfo.Mem I)) in
  let I := upd_Mem (fun m => Store.set_SpanInfos (Store.SpanInfos m ++ [S]) m) I in
  ById ← CollReplaceExpand (DbgInfo.SpanInfoById I) (Some p) (SpanInfo.Id S);
  Some (InputData.set_Info (DbgInfo.set_SpanInfoById ById I) D).

Definition ParseSpan (D : InputData.t) (Unknown : list string)
  (a : option SpanAttrs) : option InputData.t :=
  let D := UnknownKeywords D Unknown in
  match a with
  | None => Some (ParseError D CC65_ERROR MsgSyntax)
  | Some a =>
    let InfoBits :=
      Z.lor (ib (spId a) 1) (Z.lor (ib (spSegId a) 2) (Z.lor (ib (spSize a) 4)
        (ib (spStart a) 8))) in
    let ibRequired := 15 in
    if negb (Z.land InfoBits ibRequired =? ibRequired)
    then Some (ParseError D CC65_ERROR MsgRequiredMissing)
    else
      let Id := uval (spId a) 0 in
      let Start := uval (spStart a) 0 in
      let Size := uval (spSize a) 0 in
      store_SpanInfo D
        (SpanInfo.mk Id Start (to_unsigned (Start + Size - 1))
                 (EId (uval (spSegId a) CC65_INV_ID))
                 (SpanInfo.ScopeInfoList NewSpanInfo)
                 (SpanInfo.LineInfoList NewSpanInfo))
  end.

(** The statements of [ParseSym] that remember the new record. *)
Definition store_SymInfo (D : InputData.t) (S : SymInfo.t) : option InputData.t :=
  let I := InputData.Info D in
  let p := length (Store.SymInfos (DbgInfo.Mem I)) in
  let I := upd_Mem (fun m => Store.set_SymInfos (Store.SymInfos m ++ [S]) m) I in
  ById ← CollReplaceExpand (DbgInfo.SymInfoById I) (Some p) (SymInfo.Id S);
  ByName ← CollAppend (DbgInfo.SymInfoByName I) (Some p);
  ByVal ← CollAppend (DbgInfo.SymInfoByVal I) (Some p);
  Some (InputData.set_Info
  (DbgInfo.set_SymInfoByVal ByVal
  (DbgInfo.set_SymInfoByName ByName
  (DbgInfo.set_SymInfoById ById I))) D).

Definition ParseSym (D : InputData.t) (Unknown : list string)
  (a : option SymAttrs) : option InputData.t :=
  let D := UnknownKeywords D Unknown in
  match a with
  | None => Some (ParseError D CC65_ERROR MsgSyntax)
  | Some a =>
    let InfoBits :=
      Z.lor (ibf (syAddrSize a) 1) (Z.lor (ib (syFileId a) 2)
        (Z.lor (ib (syId a) 4) (Z.lor (ib (syParentId a) 8)
          (Z.lor (ib (syScopeId a) 16) (Z.lor (ib (sySegId a) 32)
            (Z.lor (ib (sySize a) 64) (Z.lor (ib (syName a) 128)
              (Z.lor (ib (syType a) 256) (ib (syValue a) 512))))))))) in
    let ibRequired := 901 in
    if negb (Z.land InfoBits ibRequired =? ibRequired)
    then Some (ParseError D CC65_ERROR MsgRequiredMissing)
    else if (Z.land InfoBits 24 =? 0) || (Z.land InfoBits 24 =? 24)
    then Some (ParseError D CC65_ERROR MsgParentOrScope)
    else
      let Id := uval (syId a) CC65_INV_ID in
      store_SymInfo D
        (SymInfo.mk Id (default CC65_SYM_EQUATE (syType a))
                 (default 0 (to_long <$> syValue a)) (uval (sySize a) 0)
                 (EId (uval (sySegId a) CC65_INV_ID))
                 (EId (uval (syScopeId a) CC65_INV_ID))
                 (EId (uval (syParentId a) CC65_INV_ID))
                 (sval (syName a)))
  end.

(** ** Dereferencing *)

(** [*P] for a pointer into the store of a record type: undefined for the
    null pointer. *)
Definition deref {A} (store : list A) (P : option nat) : option A :=
  p ← P; store !! p.

(** ** Sorting a collection *)

Section Sort.
(** The compare function of the call; it dereferences its arguments. *)
Variable Compare : option nat -> option nat -> option Z.

(** [Items[i].Ptr] for an [int] index. *)
Definition item_ptr (Items : list CollEntry) (i : Z) : option (option nat) :=
  if i <? 0 then None else e ← Items !! Z.to_nat i; entry_ptr e.

(** Exchange of two entries of the item array. *)
Definition swap_items (Items : list CollEntry) (i j : Z)
  : option (list CollEntry) :=
  if (i <? 0) || (j <? 0) then None
  else
    x ← Items !! Z.to_nat i;
    y ← Items !! Z.to_nat j;
    Some (<[Z.to_nat j := x]> (<[Z.to_nat i := y]> Items)).

(** The value of an expression of type [int]: an overflow is undefined. *)
Definition int_val (z : Z) : option Z :=
  if (- 2147483648 <=? z) && (z <=? INT_MAX) then Some z else None.

(** [while (I <= J && Compare (Items[Lo].Ptr, Items[I].Ptr) >= 0) ++I;] *)
Fixpoint skip_up (fuel : nat) (Items : list CollEntry) (Lo I J : Z)
  : option Z :=
  if I <=? J then
    l ← item_ptr Items Lo;
    x ← item_ptr Items I;
    c ← Compare l x;
    if c >=? 0 then
      match fuel with
      | O => None
      | S fuel' => I ← int_val (I + 1); skip_up fuel' Items Lo I J
      end
    else Some I
  else Some I.

(** [while (I <= J && Compare (Items[Lo].Ptr, Items[J].Ptr) < 0) --J;] *)
Fixpoint skip_down (fuel : nat) (Items : list CollEntry) (Lo I J : Z)
  : option Z :=
  if I <=? J then
    l ← item_ptr Items Lo;
    x ← item_ptr Items J;
    c ← Compare l x;
    if c <? 0 then
      match fuel with
      | O => None
      | S fuel' => J ← int_val (J - 1); skip_down fuel' Items Lo I J
      end
    else Some J
  else Some J.

(** The loop [while (I <= J) { ... }] of [CollQuickSort]; it returns the
    item array and the final [J]. *)
Fixpoint partition_loop (fuel : nat) (Items : list CollEntry) (Lo I J : Z)
  : option (list CollEntry * Z) :=
  if I <=? J then
    I ← skip_up fuel Items Lo I J;
    J ← skip_down fuel Items Lo I J;
    if I <=? J then
      Items ← swap_items Items I J;
      match fuel with
      | O => None
      | S fuel' =>
        I ← int_val (I + 1);
        J ← int_val (J - 1);
        partition_loop fuel' Items Lo I J
      end
    else Some (Items, J)
  else Some (Items, J).

(** [CollQuickSort]: one unit of fuel per pass of [while (Hi > Lo)]. The
    indices are of type [int]; so is the sum [Hi + Lo]. *)
Fixpoint CollQuickSort (fuel : nat) (Items : list CollEntry) (Lo Hi : Z)
  : option (list CollEntry) :=
  if Hi >? Lo then
    match fuel with
    | O => None
    | S fuel' =>
      I ← int_val (Lo + 1);
      r ← partition_loop (Z.to_nat (Hi - Lo)) Items Lo I Hi;
      let J := snd r in
      Items ← (if J =? Lo then Some (fst r) else swap_items (fst r) J Lo);
      Sum ← int_val (Hi + Lo);
      if J >? Z.quot Sum 2 then
        Lo' ← int_val (J + 1);
        Items ← CollQuickSort fuel' Items Lo' Hi;
        Hi' ← int_val (J - 1);
        CollQuickSort fuel' Items Lo Hi'
      else
        Hi' ← int_val (J - 1);
        Items ← CollQuickSort fuel' Items Lo Hi';
        Lo' ← int_val (J + 1);
        CollQuickSort fuel' Items Lo' Hi
    end
  else Some Items.

Definition CollSort (C : Collection) : option Collection :=
  if CollCount C >? 1 then
    Items ← CollQuickSort (length (Items C)) (Items C) 0
              (to_int (to_unsigned (CollCount C - 1)));
    Some (mkColl (Size C) Items)
  else Some C.
End Sort.

(** ** Compare functions *)

Definition CompareFileInfoByName (m : Store.t) (L R : option nat) : option Z :=
  L ← deref (Store.FileInfos m) L;
  R ← deref (Store.FileInfos m) R;
  let Res := strcmp (FileInfo.Name L) (FileInfo.Name R) in
  if negb (Res =? 0) then Some Res
  else if FileInfo.MTime L >? FileInfo.MTime R then Some 1
  else if FileInfo.MTime L <? FileInfo.MTime R then Some (-1)
  else if FileInfo.Size L >? FileInfo.Size R then Some 1
  else if FileInfo.Size L <? FileInfo.Size R then Some (-1)
  else Some 0.

Definition CompareLineInfoByLine (m : Store.t) (L R : option nat) : option Z :=
  L ← deref (Store.LineInfos m) L;
  R ← deref (Store.LineInfos m) R;
  let Left := to_int (LineInfo.Line L) in
  let Right := to_int (LineInfo.Line R) in
  Some (to_int (Left - Right)).

Definition CompareModInfoByName (m : Store.t) (L R : option nat) : option Z :=
  L ← deref (Store.ModInfos m) L;
  R ← deref (Store.ModInfos m) R;
  Some (strcmp (ModInfo.Name L) (ModInfo.Name R)).

Definition CompareScopeInfoByName (m : Store.t) (L R : option nat) : option Z :=
  L ← deref (Store.ScopeInfos m) L;
  R ← deref (Store.ScopeInfos m) R;
  Some (strcmp (ScopeInfo.Name L) (ScopeInfo.Name R)).

Definition CompareSegInfoByName (m : Store.t) (L R : option nat) : option Z :=
  L ← deref (Store.SegInfos m) L;
  R ← deref (Store.SegInfos m) R;
  Some (strcmp (SegInfo.Name L) (SegInfo.Name R)).

Definition CompareSpanInfoByAddr (m : Store.t) (L R : option nat) : option Z :=
  L ← deref (Store.SpanInfos m) L;
  R ← deref (Store.SpanInfos m) R;
  if SpanInfo.Start L >? SpanInfo.Start R then Some 1
  else if SpanInfo.Start L <? SpanInfo.Start R then Some (-1)
  else if SpanInfo.End_ L >? SpanInfo.End_ R then Some 1
  else if SpanInfo.End_ L <? SpanInfo.End_ R then Some (-1)
  else Some 0.

Definition CompareSymInfoByName (m : Store.t) (L R : option nat) : option Z :=
  L ← deref (Store.SymInfos m) L;
  R ← deref (Store.SymInfos m) R;
  Some (strcmp (SymInfo.Name L) (SymInfo.Name R)).

Definition CompareSymInfoByVal (m : Store.t) (L R : option nat) : option Z :=
  L' ← deref (Store.SymInfos m) L;
  R' ← deref (Store.SymInfos m) R;
  if SymInfo.Value L' >? SymInfo.Value R' then Some 1
  else if SymInfo.Value L' <? SymInfo.Value R' then Some (-1)
  else CompareSymInfoByName m L R.

(** ** Access to the records behind the pointers *)

Definition mem (D : InputData.t) : Store.t := DbgInfo.Mem (InputData.Info D).

Definition set_mem (m : Store.t) (D : InputData.t) : InputData.t :=
  upd_Info (DbgInfo.set_Mem m) D.

(** [store[P] = r], undefined for a null or dangling [P]. *)
Definition put {A} (store : list A) (P : option nat) (r : A) : option (list A) :=
  p ← P; _ ← store !! p; Some (<[p := r]> store).

Definition get_File (D : InputData.t) (P : option nat) : option FileInfo.t :=
  deref (Store.FileInfos (mem D)) P.

Definition put_File (D : InputData.t) (P : option nat) (r : FileInfo.t)
  : option InputData.t :=
  l ← put (Store.FileInfos (mem D)) P r;
  Some (set_mem (Store.set_FileInfos l (mem D)) D).

Definition get_Line (D : InputData.t) (P : option nat) : option LineInfo.t :=
  deref (Store.LineInfos (mem D)) P.

Definition put_Line (D : InputData.t) (P : option nat) (r : LineInfo.t)
  : option InputData.t :=
  l ← put (Store.LineInfos (mem D)) P r;
  Some (set_mem (Store.set_LineInfos l (mem D)) D).

Definition get_Mod (D : InputData.t) (P : option nat) : option ModInfo.t :=
  deref (Store.ModInfos (mem D)) P.

Definition put_Mod (D : InputData.t) (P : option nat) (r : ModInfo.t)
  : option InputData.t :=
  l ← put (Store.ModInfos (mem D)) P r;
  Some (set_mem (Store.set_ModInfos l (mem D)) D).

Definition get_Scope (D : InputData.t) (P : option nat) : option ScopeInfo.t :=
  deref (Store.ScopeInfos (mem D)) P.

Definition put_Scope (D : InputData.t) (P : option nat) (r : ScopeInfo.t)
  : option InputData.t :=
  l ← put (Store.ScopeInfos (mem D)) P r;
  Some (set_mem (Store.set_ScopeInfos l (mem D)) D).

Definition get_Seg (D : InputData.t) (P : option nat) : option SegInfo.t :=
  deref (Store.SegInfos (mem D)) P.

Definition put_Seg (D : InputData.t) (P : option nat) (r : SegInfo.t)
  : option InputData.t :=
  l ← put (Store.SegInfos (mem D)) P r;
  Some (set_mem (Store.set_SegInfos l (mem D)) D).

Definition get_Span (D : InputData.t) (P : option nat) : option SpanInfo.t :=
  deref (Store.SpanInfos (mem D)) P.

Definition put_Span (D : InputData.t) (P : option nat) (r : SpanInfo.t)
  : option InputData.t :=
  l ← put (Store.SpanInfos (mem D)) P r;
  Some (set_mem (Store.set_SpanInfos l (mem D)) D).

Definition get_Sym (D : InputData.t) (P : option nat) : option SymInfo.t :=
  deref (Store.SymInfos (mem D)) P.

Definition put_Sym (D : InputData.t) (P : option nat) (r : SymInfo.t)
  : option InputData.t :=
  l ← put (Store.SymInfos (mem D)) P r;
  Some (set_mem (Store.set_SymInfos l (mem D)) D).

Definition get_Lib (D : InputData.t) (P : option nat) : option LibInfo.t :=
  deref (Store.LibInfos (mem D)) P.

Definition put_Lib (D : InputData.t) (P : option nat) (r : LibInfo.t)
  : option InputData.t :=
  l ← put (Store.LibInfos (mem D)) P r;
  Some (set_mem (Store.set_LibInfos l (mem D)) D).

(** [for (I = i; I < i + n; ++I) body], for a bound that the body leaves
    alone. *)
Fixpoint for_range {St} (body : nat -> St -> option St) (i n : nat) (s : St)
  : option St :=
  match n with
  | O => Some s
  | S n' => s ← body i s; for_range body (S i) n' s
  end.

Definition count (C : Collection) : nat := length (Items C).

(** ** Post-processing *)

(** The body of the inner loop of [ProcessFileInfo]: module [J] of file [F]. *)
Definition ProcessFileInfo_module (F : option nat) (J : nat) (D : InputData.t)
  : option InputData.t :=
  Fr ← get_File D F;
  ModId ← CollIdAt (FileInfo.ModInfoByName Fr) J;
  if ModId >=? CollCount (DbgInfo.ModInfoById (InputData.Info D)) then
    let D := ParseError D CC65_ERROR
               (MsgInvalidModuleIdFile ModId (FileInfo.Id Fr)) in
    C ← CollReplace (FileInfo.ModInfoByName Fr) None J;
    put_File D F (FileInfo.set_ModInfoByName C Fr)
  else
    M ← CollAt (DbgInfo.ModInfoById (InputData.Info D)) (Z.to_nat ModId);
    C ← CollReplace (FileInfo.ModInfoByName Fr) M J;
    D ← put_File D F (FileInfo.set_ModInfoByName C Fr);
    Mr ← get_Mod D M;
    C ← CollAppend (ModInfo.FileInfoByName Mr) F;
    put_Mod D M (ModInfo.set_FileInfoByName C Mr).

Definition ProcessFileInfo_file (I : nat) (D : InputData.t)
  : option InputData.t :=
  F ← CollAt (DbgInfo.FileInfoById (InputData.Info D)) I;
  Fr ← get_File D F;
  D ← for_range (ProcessFileInfo_module F) 0
        (count (FileInfo.ModInfoByName Fr)) D;
  if InputData.Errors D =? 0 then
    Fr ← get_File D F;
    C ← CollSort (CompareModInfoByName (mem D)) (FileInfo.ModInfoByName Fr);
    put_File D F (FileInfo.set_ModInfoByName C Fr)
  else Some D.

Definition ProcessFileInfo_sort (I : nat) (D : InputData.t)
  : option InputData.t :=
  M ← CollAt (DbgInfo.ModInfoById (InputData.Info D)) I;
  Mr ← get_Mod D M;
  C ← CollSort (CompareFileInfoByName (mem D)) (ModInfo.FileInfoByName Mr);
  put_Mod D M (ModInfo.set_FileInfoByName C Mr).

Definition ProcessFileInfo (D : InputData.t) : option InputData.t :=
  D ← for_range ProcessFileInfo_file 0
        (count (DbgInfo.FileInfoById (InputData.Info D))) D;
  D ← for_range ProcessFileInfo_sort 0
        (count (DbgInfo.ModInfoById (InputData.Info D))) D;
  C ← CollSort (CompareFileInfoByName (mem D))
        (DbgInfo.FileInfoByName (InputData.Info D));
  Some (upd_Info (DbgInfo.set_FileInfoByName C) D).

(** The first loop of [ProcessLineInfo]. Its body ends in [++I], and the
    loop header increments [I] once more. *)
Fixpoint ProcessLineInfo_loop (fuel : nat) (I : nat) (D : InputData.t)
  : option InputData.t :=
  let LineInfos := DbgInfo.LineInfoById (InputData.Info D) in
  let FileInfos := DbgInfo.FileInfoById (InputData.Info D) in
  if (I <? count LineInfos)%nat then
    match fuel with
    | O => None
    | S fuel' =>
      L ← CollAt LineInfos I;
      Lr ← get_Line D L;
      FileId ← entry_id (LineInfo.File_ Lr);
      D ← (if FileId >=? CollCount FileInfos then
             let D := ParseError D CC65_ERROR
                        (MsgInvalidFileIdLine FileId (LineInfo.Id Lr)) in
             put_Line D L (LineInfo.set_File ENull Lr)
           else
             F ← CollAt FileInfos (Z.to_nat FileId);
             D ← put_Line D L (LineInfo.set_File (EPtr F) Lr);
             Fr ← get_File D F;
             C ← CollAppend (FileInfo.LineInfoByLine Fr) L;
             put_File D F (FileInfo.set_LineInfoByLine C Fr));
      (* Next one *)
      let I := S I in
      ProcessLineInfo_loop fuel' (S I) D
    end
  else Some D.

Definition ProcessLineInfo_sort (I : nat) (D : InputData.t)
  : option InputData.t :=
  F ← CollAt (DbgInfo.FileInfoById (InputData.Info D)) I;
  Fr ← get_File D F;
  C ← CollSort (CompareLineInfoByLine (mem D)) (FileInfo.LineInfoByLine Fr);
  put_File D F (FileInfo.set_LineInfoByLine C Fr).

Definition ProcessLineInfo (D : InputData.t) : option InputData.t :=
  D ← ProcessLineInfo_loop (count (DbgInfo.LineInfoById (InputData.Info D))) 0 D;
  for_range ProcessLineInfo_sort 0
    (count (DbgInfo.FileInfoById (InputData.Info D))) D.

Definition ProcessModInfo_module (I : nat) (D : InputData.t)
  : option InputData.t :=
  let Info := InputData.Info D in
  M ← CollAt (DbgInfo.ModInfoById Info) I;
  Mr ← get_Mod D M;
  (* Resolve the main file *)
  FileId ← entry_id (ModInfo.File_ Mr);
  r ← (if FileId >=? CollCount (DbgInfo.FileInfoById Info) then
         Some (ParseError D CC65_ERROR
                 (MsgInvalidFileIdModule FileId (ModInfo.Id Mr)),
               ModInfo.set_File ENull Mr)
       else
         F ← CollAt (DbgInfo.FileInfoById Info) (Z.to_nat FileId);
         Some (D, ModInfo.set_File (EPtr F) Mr));
  let D := fst r in
  let Mr := snd r in
  (* Resolve the library *)
  LibId ← entry_id (ModInfo.Lib Mr);
  r ← (if LibId =? CC65_INV_ID then Some (D, ModInfo.set_Lib ENull Mr)
       else if LibId >=? CollCount (DbgInfo.LibInfoById Info) then
         Some (ParseError D CC65_ERROR
                 (MsgInvalidLibIdModule LibId (ModInfo.Id Mr)),
               ModInfo.set_Lib ENull Mr)
       else
         L ← CollAt (DbgInfo.LibInfoById Info) (Z.to_nat LibId);
         Some (D, ModInfo.set_Lib (EPtr L) Mr));
  put_Mod (fst r) M (snd r).

Definition ProcessModInfo (D : InputData.t) : option InputData.t :=
  D ← for_range ProcessModInfo_module 0
        (count (DbgInfo.ModInfoById (InputData.Info D))) D;
  C ← CollSort (CompareModInfoByName (mem D))
        (DbgInfo.ModInfoByName (InputData.Info D));
  Some (upd_Info (DbgInfo.set_ModInfoByName C) D).

(** ** Building the span-by-address table *)

(** The spans behind the sorted collection handed to [CreateSpanInfoList],
    each with its pointer. The three walks of the source fetch
    [S = CollAt (SpanInfos, I)] again and again from records that do not
    change meanwhile; here they are fetched once. *)
Definition fetch_spans (m : Store.t) (SpanInfos : Collection)
  : option (list (nat * SpanInfo.t)) :=
  mapM (fun e => P ← entry_ptr e; p ← P; r ← Store.SpanInfos m !! p;
                 Some (p, r))
       (Items SpanInfos).

(** Step 1: the number of unique addresses, after the first span. *)
Fixpoint count_addresses (Count End_ : Z) (rest : list (nat * SpanInfo.t)) : Z :=
  match rest with
  | [] => Count
  | (_, Sp) :: rest =>
    if SpanInfo.Start Sp >? End_ then
      count_addresses
        (to_unsigned (Count + to_unsigned
           (to_unsigned (SpanInfo.End_ Sp - SpanInfo.Start Sp) + 1)))
        (SpanInfo.End_ Sp) rest
    else if SpanInfo.End_ Sp >? End_ then
      count_addresses
        (to_unsigned (Count + to_unsigned (SpanInfo.End_ Sp - End_)))
        (SpanInfo.End_ Sp) rest
    else count_addresses Count End_ rest
  end.

Definition unique_addresses (Sp : SpanInfo.t) (rest : list (nat * SpanInfo.t)) : Z :=
  count_addresses
    (to_unsigned (to_unsigned (SpanInfo.End_ Sp - SpanInfo.Start Sp) + 1))
    (SpanInfo.End_ Sp) rest.

Section Walk.
(** What a walk does at table index [J] for address [Addr] of span [Sp]. *)
Variable visit : nat -> Z -> Z -> list SpanInfoListEntry.t ->
                 option (list SpanInfoListEntry.t).

Fixpoint walk_addresses (n : nat) (Sp : nat) (J Addr : Z)
  (List_ : list SpanInfoListEntry.t) : option (list SpanInfoListEntry.t) :=
  match n with
  | O => Some List_
  | S n' =>
    List_ ← visit Sp J Addr List_;
    walk_addresses n' Sp (to_unsigned (J + 1)) (Addr + 1) List_
  end.

(** [for (J = StartIndex, Addr = S->Start; Addr <= S->End; ++J, ++Addr)]:
    no pass when the span ends before it starts, [End - Start + 1] passes
    otherwise, except that [Addr <= S->End] holds for every [Addr] when
    [S->End] is the largest [unsigned]: that loop has no exit. *)
Definition walk_span (Sp : nat * SpanInfo.t) (StartIndex : Z)
  (List_ : list SpanInfoListEntry.t) : option (list SpanInfoListEntry.t) :=
  if SpanInfo.End_ (snd Sp) =? UINT_MAX then None
  else walk_addresses
         (Z.to_nat (SpanInfo.End_ (snd Sp) - SpanInfo.Start (snd Sp) + 1))
         (fst Sp) StartIndex (SpanInfo.Start (snd Sp)) List_.

(** The loop over the spans after the first, shared by steps 3 and 5. *)
Fixpoint walk_rest (StartIndex Start End_ : Z) (rest : list (nat * SpanInfo.t))
  (List_ : list SpanInfoListEntry.t) : option (list SpanInfoListEntry.t) :=
  match rest with
  | [] => Some List_
  | Sp :: rest =>
    let Sr := snd Sp in
    if SpanInfo.Start Sr <=? End_ then
      (* Range starts within our already known linear range *)
      let StartIndex :=
        to_unsigned (StartIndex + to_unsigned (SpanInfo.Start Sr - Start)) in
      let Start := SpanInfo.Start Sr in
      let End_ := if SpanInfo.End_ Sr >? End_ then SpanInfo.End_ Sr else End_ in
      List_ ← walk_span Sp StartIndex List_;
      walk_rest StartIndex Start End_ rest List_
    else
      (* Range starts after the already known *)
      let StartIndex :=
        to_unsigned (StartIndex + to_unsigned (to_unsigned (End_ - Start) + 1)) in
      let Start := SpanInfo.Start Sr in
      let End_ := SpanInfo.End_ Sr in
      List_ ← walk_span Sp StartIndex List_;
      walk_rest StartIndex Start End_ rest List_
  end.

Definition walk (Sp : nat * SpanInfo.t) (rest : list (nat * SpanInfo.t))
  (List_ : list SpanInfoListEntry.t) : option (list SpanInfoListEntry.t) :=
  List_ ← walk_span Sp 0 List_;
  walk_rest 0 (SpanInfo.Start (snd Sp)) (SpanInfo.End_ (snd Sp)) rest List_.
End Walk.

(** A visit that reads, changes and writes back the entry [List[J]]; the
    entry must lie inside the allocated table. *)
Definition at_entry (f : SpanInfoListEntry.t -> option SpanInfoListEntry.t)
  (J : Z) (List_ : list SpanInfoListEntry.t)
  : option (list SpanInfoListEntry.t) :=
  E ← List_ !! Z.to_nat J;
  E' ← f E;
  Some (<[Z.to_nat J := E']> List_).

(** Step 3: [List[J].Addr = Addr; ++List[J].Count;] *)
Definition count_entry (Addr : Z) (E : SpanInfoListEntry.t)
  : option SpanInfoListEntry.t :=
  Some (SpanInfoListEntry.mk (Some Addr)
          (to_unsigned (SpanInfoListEntry.Count E + 1))
          (SpanInfoListEntry.Data E)).

Definition count_visit (Sp : nat) (J Addr : Z) :=
  at_entry (count_entry Addr) J.

(** Step 4, for one entry. *)
Definition alloc_indirect (E : SpanInfoListEntry.t) : SpanInfoListEntry.t :=
  if SpanInfoListEntry.Count E >? 1 then
    SpanInfoListEntry.mk (SpanInfoListEntry.Addr E) 0
      (DataArray (replicate (Z.to_nat (SpanInfoListEntry.Count E)) None))
  else E.

(** Step 5: the span is stored directly in an entry that still has count 1
    and no data, and at the cursor [Count] of the indirect block otherwise. *)
Definition enter_entry (Sp : nat) (Addr : Z) (E : SpanInfoListEntry.t)
  : option SpanInfoListEntry.t :=
  A ← SpanInfoListEntry.Addr E;
  if negb (A =? Addr) then None        (* assert (List[J].Addr == Addr) *)
  else
    match SpanInfoListEntry.Data E with
    | DataNull =>
      if SpanInfoListEntry.Count E =? 1
      then Some (SpanInfoListEntry.mk (Some A) 1 (DataSpan Sp))
      else None
    | DataSpan _ => None
    | DataArray cells =>
      let C := SpanInfoListEntry.Count E in
      if (Z.to_nat C <? length cells)%nat then
        Some (SpanInfoListEntry.mk (Some A) (to_unsigned (C + 1))
                (DataArray (<[Z.to_nat C := Some Sp]> cells)))
      else None
    end.

Definition enter_visit (Sp : nat) (J Addr : Z) :=
  at_entry (enter_entry Sp Addr) J.

Definition CreateSpanInfoList (m : Store.t) (SpanInfos : Collection)
  : option SpanInfoList.t :=
  spans ← fetch_spans m SpanInfos;
  match spans with
  | [] => Some (SpanInfoList.mk 0 [])
  | Sp :: rest =>
    (* Step 1: Determine the number of unique address entries needed *)
    let Count := unique_addresses (snd Sp) rest in
    (* Step 2: Allocate memory and initialize it *)
    let List_ := replicate (Z.to_nat Count) (SpanInfoListEntry.mk None 0 DataNull) in
    (* Step 3: Determine the number of entries per unique address *)
    List_ ← walk count_visit Sp rest List_;
    (* Step 4: Allocate memory for the indirect tables *)
    let List_ := map alloc_indirect List_ in
    (* Step 5: Enter the data into the table *)
    List_ ← walk enter_visit Sp rest List_;
    Some (SpanInfoList.mk Count List_)
  end.

(** ** Post-processing, continued *)

(** The body of the span loop of [ProcessScopeInfo]: span [J] of scope [Sc]. *)
Definition ProcessScopeInfo_span (Sc : option nat) (J : nat) (D : InputData.t)
  : option InputData.t :=
  Sr ← get_Scope D Sc;
  SpanId ← CollIdAt (ScopeInfo.SpanInfoList Sr) J;
  if SpanId >=? CollCount (DbgInfo.SpanInfoById (InputData.Info D)) then
    let D := ParseError D CC65_ERROR
               (MsgInvalidSpanIdScope SpanId (ScopeInfo.Id Sr)) in
    C ← CollReplace (ScopeInfo.SpanInfoList Sr) None J;
    put_Scope D Sc (ScopeInfo.set_SpanInfoList C Sr)
  else
    SP ← CollAt (DbgInfo.SpanInfoById (InputData.Info D)) (Z.to_nat SpanId);
    C ← CollReplace (ScopeInfo.SpanInfoList Sr) SP J;
    D ← put_Scope D Sc (ScopeInfo.set_SpanInfoList C Sr);
    (* Insert a backpointer into the span *)
    SPr ← get_Span D SP;
    let L := match SpanInfo.ScopeInfoList SPr with
             | None => CollInit           (* CollNew () *)
             | Some L => L
             end in
    L ← CollAppend L Sc;
    put_Span D SP (SpanInfo.set_ScopeInfoList (Some L) SPr).

Definition ProcessScopeInfo_scope (I : nat) (D : InputData.t)
  : option InputData.t :=
  Sc ← CollAt (DbgInfo.ScopeInfoById (InputData.Info D)) I;
  Sr ← get_Scope D Sc;
  (* Resolve the module *)
  ModId ← entry_id (ScopeInfo.Mod Sr);
  D ← (if ModId >=? CollCount (DbgInfo.ModInfoById (InputData.Info D)) then
         let D := ParseError D CC65_ERROR
                    (MsgInvalidModuleIdScope ModId (ScopeInfo.Id Sr)) in
         put_Scope D Sc (ScopeInfo.set_Mod ENull Sr)
       else
         M ← CollAt (DbgInfo.ModInfoById (InputData.Info D)) (Z.to_nat ModId);
         D ← put_Scope D Sc (ScopeInfo.set_Mod (EPtr M) Sr);
         (* Add the scope to the list of scopes for this module *)
         Mr ← get_Mod D M;
         C ← CollAppend (ModInfo.ScopeInfoByName Mr) Sc;
         let Mr := ModInfo.set_ScopeInfoByName C Mr in
         ParentId ← entry_id (ScopeInfo.Parent Sr);
         (* No parent means main scope *)
         let Mr := if ParentId =? CC65_INV_ID
                   then ModInfo.set_MainScope Sc Mr else Mr in
         put_Mod D M Mr);
  (* Resolve the parent scope *)
  Sr ← get_Scope D Sc;
  ParentId ← entry_id (ScopeInfo.Parent Sr);
  D ← (if ParentId =? CC65_INV_ID then
         put_Scope D Sc (ScopeInfo.set_Parent ENull Sr)
       else if ParentId >=? CollCount (DbgInfo.ScopeInfoById (InputData.Info D)) then
         let D := ParseError D CC65_ERROR
                    (MsgInvalidParentIdScope ParentId (ScopeInfo.Id Sr)) in
         put_Scope D Sc (ScopeInfo.set_Parent ENull Sr)
       else
         P ← CollAt (DbgInfo.ScopeInfoById (InputData.Info D)) (Z.to_nat ParentId);
         put_Scope D Sc (ScopeInfo.set_Parent (EPtr P) Sr));
  (* Resolve the label *)
  Sr ← get_Scope D Sc;
  LabelId ← entry_id (ScopeInfo.Label Sr);
  D ← (if LabelId =? CC65_INV_ID then
         put_Scope D Sc (ScopeInfo.set_Label ENull Sr)
       else if LabelId >=? CollCount (DbgInfo.SymInfoById (InputData.Info D)) then
         let D := ParseError D CC65_ERROR
                    (MsgInvalidLabelIdScope LabelId (ScopeInfo.Id Sr)) in
         put_Scope D Sc (ScopeInfo.set_Label ENull Sr)
       else
         Lb ← CollAt (DbgInfo.SymInfoById (InputData.Info D)) (Z.to_nat LabelId);
         put_Scope D Sc (ScopeInfo.set_Label (EPtr Lb) Sr));
  (* Resolve the spans ids *)
  Sr ← get_Scope D Sc;
  for_range (ProcessScopeInfo_span Sc) 0 (count (ScopeInfo.SpanInfoList Sr)) D.

Definition ProcessScopeInfo_module (I : nat) (D : InputData.t)
  : option InputData.t :=
  M ← CollAt (DbgInfo.ModInfoById (InputData.Info D)) I;
  Mr ← get_Mod D M;
  (* Must have a main scope *)
  let D := match ModInfo.MainScope Mr with
           | None => ParseError D CC65_ERROR (MsgNoMainScope (ModInfo.Id Mr))
           | Some _ => D
           end in
  C ← CollSort (CompareScopeInfoByName (mem D)) (ModInfo.ScopeInfoByName Mr);
  put_Mod D M (ModInfo.set_ScopeInfoByName C Mr).

Definition ProcessScopeInfo (D : InputData.t) : option InputData.t :=
  D ← for_range ProcessScopeInfo_scope 0
        (count (DbgInfo.ScopeInfoById (InputData.Info D))) D;
  for_range ProcessScopeInfo_module 0
    (count (DbgInfo.ModInfoById (InputData.Info D))) D.

Definition ProcessSegInfo (D : InputData.t) : option InputData.t :=
  C ← CollSort (CompareSegInfoByName (mem D))
        (DbgInfo.SegInfoByName (InputData.Info D));
  Some (upd_Info (DbgInfo.set_SegInfoByName C) D).

(** The body of the loop of [ProcessSpanInfo]; the state carries the
    temporary collection [SpanInfoByAddr]. *)
Definition ProcessSpanInfo_span (I : nat) (st : InputData.t * Collection)
  : option (InputData.t * Collection) :=
  let D := fst st in
  Sp ← CollAt (DbgInfo.SpanInfoById (InputData.Info D)) I;
  Sr ← get_Span D Sp;
  SegId ← entry_id (SpanInfo.Seg Sr);
  D ← (if SegId >=? CollCount (DbgInfo.SegInfoById (InputData.Info D)) then
         let D := ParseError D CC65_ERROR
                    (MsgInvalidSegIdSpan SegId (SpanInfo.Id Sr)) in
         put_Span D Sp (SpanInfo.set_Seg ENull Sr)
       else
         Sg ← CollAt (DbgInfo.SegInfoById (InputData.Info D)) (Z.to_nat SegId);
         Sgr ← get_Seg D Sg;
         put_Span D Sp
           (SpanInfo.set_End (to_unsigned (SpanInfo.End_ Sr + SegInfo.Start Sgr))
              (SpanInfo.set_Start
                 (to_unsigned (SpanInfo.Start Sr + SegInfo.Start Sgr))
                 (SpanInfo.set_Seg (EPtr Sg) Sr))));
  C ← CollAppend (snd st) Sp;
  Some (D, C).

Definition ProcessSpanInfo (D : InputData.t) : option InputData.t :=
  let SpanInfoByAddr :=
    CollGrow COLLECTION_INITIALIZER
      (CollCount (DbgInfo.SpanInfoById (InputData.Info D))) in
  st ← for_range ProcessSpanInfo_span 0
         (count (DbgInfo.SpanInfoById (InputData.Info D))) (D, SpanInfoByAddr);
  let D := fst st in
  SpanInfoByAddr ← CollSort (CompareSpanInfoByAddr (mem D)) (snd st);
  L ← CreateSpanInfoList (mem D) SpanInfoByAddr;
  Some (upd_Info (DbgInfo.set_SpanInfoByAddr L) D).

(** One reference of a symbol: absent, out of range, or resolved. *)
Definition resolve_ref (D : InputData.t) (C : Collection) (Id : Z)
  (Msg : Message) : option (InputData.t * CollEntry) :=
  if Id =? CC65_INV_ID then Some (D, ENull)
  else if Id >=? CollCount C then Some (ParseError D CC65_ERROR Msg, ENull)
  else P ← CollAt C (Z.to_nat Id); Some (D, EPtr P).

Definition ProcessSymInfo_resolve (I : nat) (D : InputData.t)
  : option InputData.t :=
  let Info := InputData.Info D in
  Sy ← CollAt (DbgInfo.SymInfoById Info) I;
  Sr ← get_Sym D Sy;
  (* Resolve segment *)
  SegId ← entry_id (SymInfo.Seg Sr);
  r ← resolve_ref D (DbgInfo.SegInfoById Info) SegId
        (MsgInvalidSegIdSym SegId (SymInfo.Id Sr));
  let D := fst r in
  let Sr := SymInfo.set_Seg (snd r) Sr in
  (* Resolve the scope *)
  ScopeId ← entry_id (SymInfo.Scope Sr);
  r ← resolve_ref D (DbgInfo.ScopeInfoById Info) ScopeId
        (MsgInvalidScopeIdSym ScopeId (SymInfo.Id Sr));
  let D := fst r in
  let Sr := SymInfo.set_Scope (snd r) Sr in
  (* Resolve the parent *)
  ParentId ← entry_id (SymInfo.Parent Sr);
  r ← resolve_ref D (DbgInfo.SymInfoById Info) ParentId
        (MsgInvalidParentIdSym ParentId (SymInfo.Id Sr));
  let D := fst r in
  let Sr := SymInfo.set_Parent (snd r) Sr in
  put_Sym D Sy Sr.

(** Second run: resolve scopes for cheap locals. *)
Definition ProcessSymInfo_inherit (I : nat) (D : InputData.t)
  : option InputData.t :=
  Sy ← CollAt (DbgInfo.SymInfoById (InputData.Info D)) I;
  Sr ← get_Sym D Sy;
  Scope ← entry_ptr (SymInfo.Scope Sr);
  match Scope with
  | Some _ => Some D
  | None =>
    (* No scope - must have a parent *)
    Parent ← entry_ptr (SymInfo.Parent Sr);
    match Parent with
    | None => Some (ParseError D CC65_ERROR (MsgNoParentNoScope (SymInfo.Id Sr)))
    | Some _ =>
      Pr ← get_Sym D Parent;
      PScope ← entry_ptr (SymInfo.Scope Pr);
      match PScope with
      | None => Some (ParseError D CC65_ERROR
                        (MsgParentWithoutScope (SymInfo.Id Sr) (SymInfo.Id Pr)))
      | Some _ => put_Sym D Sy (SymInfo.set_Scope (EPtr PScope) Sr)
      end
    end
  end.

Definition ProcessSymInfo (D : InputData.t) : option InputData.t :=
  let n := count (DbgInfo.SymInfoById (InputData.Info D)) in
  D ← for_range ProcessSymInfo_resolve 0 n D;
  D ← for_range ProcessSymInfo_inherit 0 n D;
  ByName ← CollSort (CompareSymInfoByName (mem D))
             (DbgInfo.SymInfoByName (InputData.Info D));
  let D := upd_Info (DbgInfo.set_SymInfoByName ByName) D in
  ByVal ← CollSort (CompareSymInfoByVal (mem D))
            (DbgInfo.SymInfoByVal (InputData.Info D));
  Some (upd_Info (DbgInfo.set_SymInfoByVal ByVal) D).

(** ** Reading a file *)

(** One pass of the loop [while (D.Tok != TOK_EOF)] of [cc65_read_dbginfo]:
    the line is dispatched on its first token; [ConsumeEOL] finds the end of
    the line after every parser. *)
Definition parse_line (D : InputData.t) (l : InputLine) : option InputData.t :=
  match l with
  | LFile u a => ParseFile D u a
  | LInfo u a => Some (ParseInfo D u a)
  | LLibrary u a => ParseLibrary D u a
  | LLine u a => ParseLine D u a
  | LModule u a => ParseModule D u a
  | LScope u a => ParseScope D u a
  | LSegment u a => ParseSegment D u a
  | LSpan u a => ParseSpan D u a
  | LSym u a => ParseSym D u a
  | LIdent kw => Some (ParseError D CC65_WARNING (MsgUnknownKeyword kw))
  | LVersion _ _ _ | LOther => Some (ParseError D CC65_ERROR MsgUnexpectedToken)
  end.

Definition parse_lines (D : InputData.t) (ls : list InputLine)
  : option InputData.t :=
  foldl (fun D l => D ← D; parse_line D l) (Some D) ls.

Definition InputData_init : InputData.t := InputData.mk 0 [] 0 0 NewDbgInfo.

(** The part of [cc65_read_dbginfo] from the label [CloseAndExit] on. *)
Definition CloseAndExit (D : InputData.t)
  : option (list cc65_parseerror * option DbgInfo.t) :=
  (* In case of errors, delete the debug info already allocated and
     return NULL *)
  if InputData.Errors D >? 0 then Some (InputData.Reported D, None)
  else
    D ← ProcessFileInfo D;
    D ← ProcessLineInfo D;
    D ← ProcessModInfo D;
    D ← ProcessScopeInfo D;
    D ← ProcessSegInfo D;
    D ← ProcessSpanInfo D;
    D ← ProcessSymInfo D;
    Some (InputData.Reported D, Some (InputData.Info D)).

(** [cc65_read_dbginfo] on a file that could be opened, given by its lines.
    The result is what the error callback was called with, and the handle
    returned: [None] is the null handle. *)
Definition cc65_read_dbginfo (lines : list InputLine)
  : option (list cc65_parseerror * option DbgInfo.t) :=
  let D := InputData_init in
  match lines with
  | LVersion u a e :: rest =>
    let D := ParseVersion D u a e in
    (* Do several checks on the version number *)
    if InputData.MajorVersion D <? VER_MAJOR then
      CloseAndExit
        (ParseError D CC65_ERROR
           (MsgOldVersion (InputData.MajorVersion D) (InputData.MinorVersion D)))
    else
      let D :=
        if (InputData.MajorVersion D =? VER_MAJOR)
           && (InputData.MinorVersion D >? VER_MINOR)
        then ParseError D CC65_ERROR
               (MsgSlightlyNewer (InputData.MajorVersion D)
                                 (InputData.MinorVersion D))
        else if InputData.MajorVersion D >? VER_MAJOR
        then ParseError D CC65_WARNING
               (MsgNewer (InputData.MajorVersion D) (InputData.MinorVersion D))
        else D in
      D ← parse_lines D rest;
      CloseAndExit D
  | _ => CloseAndExit (ParseError D CC65_ERROR MsgVersionMissing)
  end.

(** ** Lookup *)

(** The loop of [FindSpanInfoByAddr]; [Lo], [Hi] and [Cur] are [int]. The
    result is the entry found, if any. *)
Fixpoint FindSpanInfoByAddr_loop (fuel : nat) (L : SpanInfoList.t)
  (Addr Lo Hi : Z) : option (option SpanInfoListEntry.t) :=
  if Lo <=? Hi then
    match fuel with
    | O => None
    | S fuel' =>
      let Cur := Z.quot (to_int (Lo + Hi)) 2 in
      CurItem ← (if Cur <? 0 then None
                 else SpanInfoList.List_ L !! Z.to_nat Cur);
      A ← SpanInfoListEntry.Addr CurItem;
      if A >? Addr then
        FindSpanInfoByAddr_loop fuel' L Addr Lo (to_int (Cur - 1))
      else if A <? Addr then
        FindSpanInfoByAddr_loop fuel' L Addr (to_int (Cur + 1)) Hi
      else Some (Some CurItem)
    end
  else Some None.

Definition FindSpanInfoByAddr (L : SpanInfoList.t) (Addr : Z)
  : option (option SpanInfoListEntry.t) :=
  let Hi := to_int (to_int (SpanInfoList.Count L) - 1) in
  FindSpanInfoByAddr_loop (Z.to_nat (Hi + 1)) L Addr 0 Hi.

Record cc65_spandata := mk_spandata {
  span_id : Z; span_start : Z; span_end : Z; segment_id : Z }.

Definition CopySpanInfo (m : Store.t) (Sp : option nat) : option cc65_spandata :=
  Sr ← deref (Store.SpanInfos m) Sp;
  Sg ← entry_ptr (SpanInfo.Seg Sr);
  Sgr ← deref (Store.SegInfos m) Sg;
  Some (mk_spandata (SpanInfo.Id Sr) (SpanInfo.Start Sr) (SpanInfo.End_ Sr)
          (SegInfo.Id Sgr)).

(** [cc65_spaninfo_byaddr]; the outer [None] is an undefined run, [Some None]
    the null result, [Some (Some d)] a result with the data [d]. *)
Definition cc65_spaninfo_byaddr (Handle : DbgInfo.t) (Addr : Z)
  : option (option (list cc65_spandata)) :=
  E ← FindSpanInfoByAddr (DbgInfo.SpanInfoByAddr Handle) (to_unsigned Addr);
  match E with
  | None => Some None
  | Some E =>
    if SpanInfoListEntry.Count E =? 1 then
      match SpanInfoListEntry.Data E with
      | DataSpan Sp => d ← CopySpanInfo (DbgInfo.Mem Handle) (Some Sp); Some (Some [d])
      | _ => None
      end
    else
      match SpanInfoListEntry.Data E with
      | DataArray cells =>
        d ← mapM (fun c => Sp ← c; CopySpanInfo (DbgInfo.Mem Handle) (Some Sp))
              (take (Z.to_nat (SpanInfoListEntry.Count E)) cells);
        if (Z.to_nat (SpanInfoListEntry.Count E) <=? length cells)%nat
        then Some (Some d) else None
      | _ => if SpanInfoListEntry.Count E =? 0 then Some (Some []) else None
      end
  end.






(** The loop of [FindSymInfoByValue]; the result is [(Found, Lo)]. *)
Fixpoint FindSymInfoByValue_loop (fuel : nat) (m : Store.t)
  (SymInfos : Collection) (Value Lo Hi : Z) (Found : bool)
  : option (bool * Z) :=
  if Lo <=? Hi then
    match fuel with
    | O => None
    | S fuel' =>
      let Cur := Z.quot (to_int (Lo + Hi)) 2 in
      CurItem ← (if Cur <? 0 then None else CollAt SymInfos (Z.to_nat Cur));
      Cr ← deref (Store.SymInfos m) CurItem;
      if Value >? SymInfo.Value Cr then
        FindSymInfoByValue_loop fuel' m SymInfos Value (to_int (Cur + 1)) Hi Found
      else
        FindSymInfoByValue_loop fuel' m SymInfos Value Lo (to_int (Cur - 1))
          (if Value =? SymInfo.Value Cr then true else Found)
    end
  else Some (Found, Lo).

(** [FindSymInfoByValue]: whether the value was found, and [*Index]. *)
Definition FindSymInfoByValue (m : Store.t) (SymInfos : Collection) (Value : Z)
  : option (bool * Z) :=
  let Hi := to_int (to_int (CollCount SymInfos) - 1) in
  r ← FindSymInfoByValue_loop (Z.to_nat (Hi + 1)) m SymInfos Value 0 Hi false;
  Some (fst r, to_unsigned (snd r)).

Record cc65_symboldata := mk_symboldata {
  symbol_id : Z; symbol_name : string; symbol_type : cc65_symbol_type;
  symbol_size : Z; symbol_value : Z; symbol_segment_id : Z;
  scope_id : Z; parent_id : Z }.

Definition CopySymInfo (m : Store.t) (Sy : option nat) : option cc65_symboldata :=
  Sr ← deref (Store.SymInfos m) Sy;
  Sg ← entry_ptr (SymInfo.Seg Sr);
  seg ← match Sg with
        | Some _ => Sgr ← deref (Store.SegInfos m) Sg; Some (SegInfo.Id Sgr)
        | None => Some CC65_INV_ID
        end;
  Sc ← entry_ptr (SymInfo.Scope Sr);
  Scr ← deref (Store.ScopeInfos m) Sc;
  P ← entry_ptr (SymInfo.Parent Sr);
  parent ← match P with
           | Some _ => Pr ← deref (Store.SymInfos m) P; Some (SymInfo.Id Pr)
           | None => Some CC65_INV_ID
           end;
  Some (mk_symboldata (SymInfo.Id Sr) (SymInfo.Name Sr) (SymInfo.Type_ Sr)
          (SymInfo.Size Sr) (SymInfo.Value Sr) seg (ScopeInfo.Id Scr) parent).

(** The scan of [cc65_symbol_inrange] over the items from [Index] on; the
    result is the list [SymInfoList]. *)
Fixpoint symbol_scan (m : Store.t) (items : list CollEntry) (End_ : Z)
  : option (list (option nat)) :=
  match items with
  | [] => Some []
  | e :: items =>
    Item ← entry_ptr e;
    Ir ← deref (Store.SymInfos m) Item;
    if SymInfo.Value Ir >? End_ then Some []           (* break *)
    else
      match SymInfo.Type_ Ir with
      | CC65_SYM_LABEL => l ← symbol_scan m items End_; Some (Item :: l)
      | CC65_SYM_EQUATE => symbol_scan m items End_    (* continue *)
      end
  end.

Definition cc65_symbol_inrange (Handle : DbgInfo.t) (Start End_ : Z)
  : option (option (list cc65_symboldata)) :=
  let m := DbgInfo.Mem Handle in
  let SymInfoByVal := DbgInfo.SymInfoByVal Handle in
  r ← FindSymInfoByValue m SymInfoByVal (to_unsigned Start);
  let Index := snd r in
  SymInfoList ← symbol_scan m (drop (Z.to_nat Index) (Items SymInfoByVal))
                  (to_unsigned End_);
  match SymInfoList with
  | [] => Some None
  | _ => d ← mapM (CopySymInfo m) SymInfoList; Some (Some d)
  end.

(** ** Symbols by name *)

(** The loop of [FindSymInfoByName]; the result is [(Found, Lo)]. *)
Fixpoint FindSymInfoByName_loop (fuel : nat) (m : Store.t)
  (SymInfos : Collection) (Name : string) (Lo Hi : Z) (Found : bool)
  : option (bool * Z) :=
  if Lo <=? Hi then
    match fuel with
    | O => None
    | S fuel' =>
      let Cur := Z.quot (to_int (Lo + Hi)) 2 in
      CurItem ← (if Cur <? 0 then None else CollAt SymInfos (Z.to_nat Cur));
      Cr ← deref (Store.SymInfos m) CurItem;
      let Res := strcmp (SymInfo.Name Cr) Name in
      if Res <? 0 then
        FindSymInfoByName_loop fuel' m SymInfos Name (to_int (Cur + 1)) Hi Found
      else
        FindSymInfoByName_loop fuel' m SymInfos Name Lo (to_int (Cur - 1))
          (if Res =? 0 then true else Found)
    end
  else Some (Found, Lo).

(** [FindSymInfoByName]: whether the name was found, and [*Index]. *)
Definition FindSymInfoByName (m : Store.t) (SymInfos : Collection)
  (Name : string) : option (bool * Z) :=
  let Hi := to_int (to_int (CollCount SymInfos) - 1) in
  r ← FindSymInfoByName_loop (Z.to_nat (Hi + 1)) m SymInfos Name 0 Hi false;
  Some (fst r, to_unsigned (snd r)).

(** The loop of [cc65_symbol_byname] that counts the symbols with the name
    from [Index] on; the result is [Count]. One pass moves [Index + Count]
    one step towards the count of the collection, so that as many passes as
    the collection has entries are enough. *)
Fixpoint count_same_name (fuel : nat) (m : Store.t) (C : Collection)
  (Name : string) (Index Count : Z) : option Z :=
  if to_unsigned (Index + Count) <? CollCount C then
    match fuel with
    | O => None
    | S fuel' =>
      Sy ← CollAt C (Z.to_nat (to_unsigned (Index + Count)));
      Sr ← deref (Store.SymInfos m) Sy;
      if negb (strcmp (SymInfo.Name Sr) Name =? 0) then Some Count  (* break *)
      else count_same_name fuel' m C Name Index (to_unsigned (Count + 1))
    end
  else Some Count.

(** The loop that fills in the data: [Count] entries from [Index] on. *)
Fixpoint copy_symbols (m : Store.t) (C : Collection) (Index : Z) (Count : nat)
  : option (list cc65_symboldata) :=
  match Count with
  | O => Some []
  | S Count' =>
    Sy ← CollAt C (Z.to_nat Index);
    d ← CopySymInfo m Sy;
    ds ← copy_symbols m C (to_unsigned (Index + 1)) Count';
    Some (d :: ds)
  end.

Definition cc65_symbol_byname (Handle : DbgInfo.t) (Name : string)
  : option (option (list cc65_symboldata)) :=
  let m := DbgInfo.Mem Handle in
  let SymInfoByName := DbgInfo.SymInfoByName Handle in
  r ← FindSymInfoByName m SymInfoByName Name;
  if negb (fst r) then Some None    (* Not found *)
  else
    let Index := snd r in
    Count ← count_same_name (length (Items SymInfoByName)) m SymInfoByName
              Name Index 1;
    d ← copy_symbols m SymInfoByName Index (Z.to_nat Count);
    Some (Some d).

(** ** Queries by id *)

(** [cc65_spaninfo_byid]. *)
Definition cc65_spaninfo_byid (Handle : DbgInfo.t) (Id : Z)
  : option (option (list cc65_spandata)) :=
  let m := DbgInfo.Mem Handle in
  if to_unsigned Id >=? CollCount (DbgInfo.SpanInfoById Handle) then Some None
  else
    Sp ← CollAt (DbgInfo.SpanInfoById Handle) (Z.to_nat (to_unsigned Id));
    d ← CopySpanInfo m Sp;
    Some (Some [d]).

(** [cc65_get_spanlist]: the spans in the order of their ids. *)
Definition cc65_get_spanlist (Handle : DbgInfo.t)
  : option (list cc65_spandata) :=
  mapM (fun e => Sp ← entry_ptr e; CopySpanInfo (DbgInfo.Mem Handle) Sp)
       (Items (DbgInfo.SpanInfoById Handle)).

(** ** The scanner *)

(** [<ctype.h>] in the C locale, for a character as [fgetc] returns it: an
    [unsigned char] value, or [EOF]. *)
Definition EOF : Z := -1.

Definition isdigit (c : Z) : bool := (48 <=? c) && (c <=? 57).
Definition isupper (c : Z) : bool := (65 <=? c) && (c <=? 90).
Definition islower (c : Z) : bool := (97 <=? c) && (c <=? 122).
Definition isalpha (c : Z) : bool := isupper c || islower c.
Definition isalnum (c : Z) : bool := isalpha c || isdigit c.
Definition isxdigit (c : Z) : bool :=
  isdigit c || ((65 <=? c) && (c <=? 70)) || ((97 <=? c) && (c <=? 102)).
Definition toupper (c : Z) : Z := if islower c then c - 32 else c.

(** [enum Token], in the order of the declaration. *)
Inductive Token :=
| TOK_INVALID | TOK_EOF | TOK_INTCON | TOK_STRCON
| TOK_EQUAL | TOK_COMMA | TOK_MINUS | TOK_PLUS | TOK_EOL
| TOK_ABSOLUTE | TOK_ADDRSIZE | TOK_COUNT | TOK_ENUM | TOK_EQUATE | TOK_FILE
| TOK_GLOBAL | TOK_ID | TOK_INFO | TOK_LABEL | TOK_LIBRARY | TOK_LINE
| TOK_LONG | TOK_MAJOR | TOK_MINOR | TOK_MODULE | TOK_MTIME | TOK_NAME
| TOK_OUTPUTNAME | TOK_OUTPUTOFFS | TOK_PARENT | TOK_RO | TOK_RW | TOK_SCOPE
| TOK_SEGMENT | TOK_SIZE | TOK_SPAN | TOK_START | TOK_STRUCT | TOK_SYM
| TOK_TYPE | TOK_VALUE | TOK_VERSION | TOK_ZEROPAGE
| TOK_IDENT.

#[global] Instance Token_eq_dec : EqDecision Token.
Proof. solve_decision. Defined.

(** [struct StrBuf]: the characters [Buf[0 .. Len - 1]] and the size of the
    block. *)
Record StrBuf := mkStrBuf { Allocated : Z; Chars : string }.

Definition STRBUF_INITIALIZER : StrBuf := mkStrBuf 0 EmptyString.

Definition SB_GetLen (B : StrBuf) : Z :=
  to_unsigned (Z.of_nat (String.length (Chars B))).

(** The loop [while (NewAllocated < NewSize) NewAllocated *= 2] of
    [SB_Realloc], on [unsigned] values: thirty-three doublings turn any
    value into 0, after which the loop cannot exit. *)
Fixpoint grow_allocated (fuel : nat) (NewAllocated NewSize : Z) : option Z :=
  if NewAllocated <? NewSize then
    match fuel with
    | O => None
    | S fuel' => grow_allocated fuel' (to_unsigned (NewAllocated * 2)) NewSize
    end
  else Some NewAllocated.

Definition SB_Realloc (B : StrBuf) (NewSize : Z) : option StrBuf :=
  (* Get the current size, use a minimum of 8 bytes *)
  let NewAllocated := if Allocated B =? 0 then 8 else Allocated B in
  NewAllocated ← grow_allocated 33 NewAllocated NewSize;
  Some (mkStrBuf NewAllocated (Chars B)).

(** The terminating zero is stored behind the characters and is not
    counted. *)
Definition SB_Terminate (B : StrBuf) : option StrBuf :=
  let NewLen := to_unsigned (SB_GetLen B + 1) in
  B ← (if NewLen >? Allocated B then SB_Realloc B NewLen else Some B);
  if SB_GetLen B <? Allocated B then Some B else None.

Definition SB_Clear (B : StrBuf) : StrBuf := mkStrBuf (Allocated B) EmptyString.

(** [(char) C]. *)
Definition char_of_int (C : Z) : ascii := ascii_of_N (Z.to_N (C mod 256)).

(** The store [B->Buf[B->Len] = (char) C] is undefined outside the block. *)
Definition SB_AppendChar (B : StrBuf) (C : Z) : option StrBuf :=
  let NewLen := to_unsigned (SB_GetLen B + 1) in
  B ← (if NewLen >? Allocated B then SB_Realloc B NewLen else Some B);
  if SB_GetLen B <? Allocated B
  then Some (mkStrBuf (Allocated B)
               (Chars B ++ String (char_of_int C) EmptyString))
  else None.

(** The messages of the scanner. *)
Inductive ScanMessage :=
| MsgUnterminatedString
| MsgInvalidCharacter (c : Z).

(** What [ParseError] hands to the error callback: the type, the position
    of the start of the token, and the message. *)
Record scan_error := mkScanError {
  scan_type : cc65_error_severity;
  scan_line : Z;
  scan_column : Z;
  scan_msg : ScanMessage
}.

(** The members of [struct InputData] that the scanner uses; [F] is what is
    left of the input file, [Reported] collects the calls of the error
    callback, oldest first. *)
Module Scanner.
Record t := mk {
  F : string;
  C : Z;
  Line : Z;
  Col : Z;
  SLine : Z;
  SCol : Z;
  Errors : Z;
  Tok : Token;
  IVal : Z;
  SVal : StrBuf;
  Reported : list scan_error
}.
Definition set_F (v : string) (r : t) : t :=
  mk v (C r) (Line r) (Col r) (SLine r) (SCol r) (Errors r) (Tok r) (IVal r) (SVal r) (Reported r).
Definition set_C (v : Z) (r : t) : t :=
  mk (F r) v (Line r) (Col r) (SLine r) (SCol r) (Errors r) (Tok r) (IVal r) (SVal r) (Reported r).
Definition set_Line (v : Z) (r : t) : t :=
  mk (F r) (C r) v (Col r) (SLine r) (SCol r) (Errors r) (Tok r) (IVal r) (SVal r) (Reported r).
Definition set_Col (v : Z) (r : t) : t :=
  mk (F r) (C r) (Line r) v (SLine r) (SCol r) (Errors r) (Tok r) (IVal r) (SVal r) (Reported r).
Definition set_SLine (v : Z) (r : t) : t :=
  mk (F r) (C r) (Line r) (Col r) v (SCol r) (Errors r) (Tok r) (IVal r) (SVal r) (Reported r).
Definition set_SCol (v : Z) (r : t) : t :=
  mk (F r) (C r) (Line r) (Col r) (SLine r) v (Errors r) (Tok r) (IVal r) (SVal r) (Reported r).
Definition set_Errors (v : Z) (r : t) : t :=
  mk (F r) (C r) (Line r) (Col r) (SLine r) (SCol r) v (Tok r) (IVal r) (SVal r) (Reported r).
Definition set_Tok (v : Token) (r : t) : t :=
  mk (F r) (C r) (Line r) (Col r) (SLine r) (SCol r) (Errors r) v (IVal r) (SVal r) (Reported r).
Definition set_IVal (v : Z) (r : t) : t :=
  mk (F r) (C r) (Line r) (Col r) (SLine r) (SCol r) (Errors r) (Tok r) v (SVal r) (Reported r).
Definition set_SVal (v : StrBuf) (r : t) : t :=
  mk (F r) (C r) (Line r) (Col r) (SLine r) (SCol r) (Errors r) (Tok r) (IVal r) v (Reported r).
Definition set_Reported (v : list scan_error) (r : t) : t :=
  mk (F r) (C r) (Line r) (Col r) (SLine r) (SCol r) (Errors r) (Tok r) (IVal r) (SVal r) v.

(** [ParseError], as the scanner calls it. *)
Definition ParseError (D : t) (Type_ : cc65_error_severity)
  (Msg : ScanMessage) : t :=
  let D := set_Reported
             (Reported D ++ [mkScanError Type_ (SLine D) (SCol D) Msg]) D in
  match Type_ with
  | CC65_ERROR => set_Errors (to_unsigned (Errors D + 1)) D
  | CC65_WARNING => D
  end.
End Scanner.

Definition DigitVal (C : Z) : Z :=
  if isdigit C then C - 48
  else if isxdigit C then toupper C - 65 + 10
  else -1.

Definition fgetc (F : string) : Z * string :=
  match F with
  | EmptyString => (EOF, EmptyString)
  | String a F' => (Z.of_N (N_of_ascii a), F')
  end.

Definition NextChar (D : Scanner.t) : Scanner.t :=
  (* Check if we've encountered EOF before *)
  if Scanner.C D >=? 0 then
    let D := if Scanner.C D =? 10
             then Scanner.set_Col 0
                    (Scanner.set_Line (to_unsigned (Scanner.Line D + 1)) D)
             else D in
    let r := fgetc (Scanner.F D) in
    Scanner.set_Col (to_unsigned (Scanner.Col D + 1))
      (Scanner.set_C (fst r) (Scanner.set_F (snd r) D))
  else D.

Definition KeywordTable : list (string * Token) :=
  [ ("abs", TOK_ABSOLUTE); ("addrsize", TOK_ADDRSIZE); ("count", TOK_COUNT);
    ("enum", TOK_ENUM); ("equ", TOK_EQUATE); ("file", TOK_FILE);
    ("global", TOK_GLOBAL); ("id", TOK_ID); ("info", TOK_INFO);
    ("lab", TOK_LABEL); ("lib", TOK_LIBRARY); ("line", TOK_LINE);
    ("long", TOK_LONG); ("major", TOK_MAJOR); ("minor", TOK_MINOR);
    ("mod", TOK_MODULE); ("mtime", TOK_MTIME); ("name", TOK_NAME);
    ("oname", TOK_OUTPUTNAME); ("ooffs", TOK_OUTPUTOFFS);
    ("parent", TOK_PARENT); ("ro", TOK_RO); ("rw", TOK_RW);
    ("scope", TOK_SCOPE); ("seg", TOK_SEGMENT); ("size", TOK_SIZE);
    ("span", TOK_SPAN); ("start", TOK_START); ("struct", TOK_STRUCT);
    ("sym", TOK_SYM); ("type", TOK_TYPE); ("val", TOK_VALUE);
    ("version", TOK_VERSION); ("zp", TOK_ZEROPAGE) ]%string.

(** The library function [bsearch] with [strcmp] as the compare function,
    as the usual binary search over the half-open range [l .. u). *)
Fixpoint bsearch_loop (fuel : nat) (key : string) (base : list (string * Token))
  (l u : nat) : option (option (string * Token)) :=
  if (l <? u)%nat then
    match fuel with
    | O => None
    | S fuel' =>
      let idx := ((l + u) / 2)%nat in
      p ← base !! idx;
      let comparison := strcmp key (fst p) in
      if comparison <? 0 then bsearch_loop fuel' key base l idx
      else if comparison >? 0 then bsearch_loop fuel' key base (S idx) u
      else Some (Some p)
    end
  else Some None.

Definition bsearch (key : string) (base : list (string * Token))
  : option (option (string * Token)) :=
  bsearch_loop (length base) key base 0 (length base).

(** The loops of [NextToken]. Each pass reads a character, so that one pass
    more than there are characters left is enough. *)
Definition is_blank (c : Z) : bool := (c =? 32) || (c =? 9) || (c =? 13).

Fixpoint skip_blanks (fuel : nat) (D : Scanner.t) : option Scanner.t :=
  if is_blank (Scanner.C D) then
    match fuel with
    | O => None
    | S fuel' => skip_blanks fuel' (NextChar D)
    end
  else Some D.

Fixpoint read_identifier (fuel : nat) (D : Scanner.t) : option Scanner.t :=
  if (Scanner.C D =? 95) || isalnum (Scanner.C D) then
    match fuel with
    | O => None
    | S fuel' =>
      B ← SB_AppendChar (Scanner.SVal D) (Scanner.C D);
      read_identifier fuel' (NextChar (Scanner.set_SVal B D))
    end
  else Some D.

Fixpoint read_number (fuel : nat) (Base : Z) (D : Scanner.t)
  : option Scanner.t :=
  let Val := DigitVal (Scanner.C D) in
  if (Val >=? 0) && (Val <? Base) then
    match fuel with
    | O => None
    | S fuel' =>
      read_number fuel' Base
        (NextChar (Scanner.set_IVal (to_ulong (Scanner.IVal D * Base + Val)) D))
    end
  else Some D.

Fixpoint read_string (fuel : nat) (D : Scanner.t) : option Scanner.t :=
  if (Scanner.C D =? 10) || (Scanner.C D =? EOF) then
    Some (Scanner.ParseError D CC65_ERROR MsgUnterminatedString)
  else if Scanner.C D =? 34 then Some (NextChar D)
  else
    match fuel with
    | O => None
    | S fuel' =>
      B ← SB_AppendChar (Scanner.SVal D) (Scanner.C D);
      read_string fuel' (NextChar (Scanner.set_SVal B D))
    end.

Definition NextToken (D : Scanner.t) : option Scanner.t :=
  (* Skip whitespace *)
  D ← skip_blanks (S (String.length (Scanner.F D))) D;
  (* Remember the current position as start of the next token *)
  let D := Scanner.set_SCol (Scanner.Col D)
             (Scanner.set_SLine (Scanner.Line D) D) in
  let C := Scanner.C D in
  if (C =? 95) || isalpha C then
    (* Identifier *)
    let D := Scanner.set_SVal (SB_Clear (Scanner.SVal D)) D in
    D ← read_identifier (S (String.length (Scanner.F D))) D;
    B ← SB_Terminate (Scanner.SVal D);
    let D := Scanner.set_SVal B D in
    (* Search the identifier in the keyword table *)
    Entry ← bsearch (Chars (Scanner.SVal D)) KeywordTable;
    match Entry with
    | None => Some (Scanner.set_Tok TOK_IDENT D)
    | Some e => Some (Scanner.set_Tok (snd e) D)
    end
  else if isdigit C then
    (* Number *)
    let r := if C =? 48 then
               let D := NextChar D in
               if toupper (Scanner.C D) =? 88 then (16, NextChar D)
               else (8, D)
             else (10, D) in
    let Base := fst r in
    let D := Scanner.set_IVal 0 (snd r) in
    D ← read_number (S (String.length (Scanner.F D))) Base D;
    Some (Scanner.set_Tok TOK_INTCON D)
  else if C =? 45 then Some (Scanner.set_Tok TOK_MINUS (NextChar D))
  else if C =? 43 then Some (Scanner.set_Tok TOK_PLUS (NextChar D))
  else if C =? 44 then Some (Scanner.set_Tok TOK_COMMA (NextChar D))
  else if C =? 61 then Some (Scanner.set_Tok TOK_EQUAL (NextChar D))
  else if C =? 34 then
    let D := Scanner.set_SVal (SB_Clear (Scanner.SVal D)) D in
    let D := NextChar D in
    D ← read_string (S (String.length (Scanner.F D))) D;
    B ← SB_Terminate (Scanner.SVal D);
    Some (Scanner.set_Tok TOK_STRCON (Scanner.set_SVal B D))
  else if C =? 10 then Some (Scanner.set_Tok TOK_EOL (NextChar D))
  else if C =? EOF then Some (Scanner.set_Tok TOK_EOF D)
  else Some (Scanner.ParseError D CC65_ERROR (MsgInvalidCharacter C)).

(** [SkipLine]: skip tokens until EOL or EOF is reached. *)
Fixpoint SkipLine (fuel : nat) (D : Scanner.t) : option Scanner.t :=
  if bool_decide (Scanner.Tok D <> TOK_EOL)
     && bool_decide (Scanner.Tok D <> TOK_EOF) then
    match fuel with
    | O => None
    | S fuel' => D ← NextToken D; SkipLine fuel' D
    end
  else Some D.

(** ** Example inputs *)

Definition version_2_0 : InputLine :=
  LVersion [] (mkVersionAttrs (Some 2) (Some 0)) false.

(** [version major=2,minor=0] followed by
    [span id=0,seg=5,start=0,size=4]: the span names a segment that does not
    exist. *)
Definition input_bad_segment : list InputLine :=
  [ version_2_0;
    LSpan [] (Some (mkSpanAttrs (Some 0) (Some 5) (Some 4) (Some 0))) ].

(** The one-segment, one-span, one-line file:
    [file id=0,name="a.s",size=10,mtime=0x500,mod=0],
    [seg id=0,name="CODE",start=0x8000,size=0x10,addrsize=abs,type=ro],
    [span id=0,seg=0,start=0,size=4], [line id=0,file=0,line=7,span=0],
    [mod id=0,name="a",file=0], [scope id=0,mod=0,name="",type=scope]. *)
Definition input_one_line : list InputLine :=
  [ version_2_0;
    LFile [] (Some (mkFileAttrs (Some 0) (Some "a.s"%string) (Some 10)
                      (Some 1280) (Some [0])));
    LSegment [] (Some (mkSegAttrs true (Some 0) None None
                         (Some "CODE"%string) (Some 16) (Some 32768) true));
    LSpan [] (Some (mkSpanAttrs (Some 0) (Some 0) (Some 4) (Some 0)));
    LLine [] (Some (mkLineAttrs (Some 0) (Some 0) (Some 7) None None
                      (Some [0])));
    LModule [] (Some (mkModAttrs (Some 0) (Some "a"%string) (Some 0) None));
    LScope [] (Some (mkScopeAttrs (Some 0) (Some 0) (Some ""%string) None None
                       None None (Some CC65_SCOPE_SCOPE))) ].

(** A file, its module and main scope, and two lines of the file:
    [line id=0,file=0,line=1] and [line id=1,file=0,line=2]. *)
Definition input_two_lines : list InputLine :=
  [ version_2_0;
    LFile [] (Some (mkFileAttrs (Some 0) (Some "a.s"%string) (Some 10)
                      (Some 1280) (Some [0])));
    LModule [] (Some (mkModAttrs (Some 0) (Some "a"%string) (Some 0) None));
    LScope [] (Some (mkScopeAttrs (Some 0) (Some 0) (Some ""%string) None None
                       None None (Some CC65_SCOPE_SCOPE)));
    LLine [] (Some (mkLineAttrs (Some 0) (Some 0) (Some 1) None None None));
    LLine [] (Some (mkLineAttrs (Some 1) (Some 0) (Some 2) None None None)) ].

(** A module with two scopes that both have no parent:
    [scope id=0,mod=0,name="a"] and [scope id=1,mod=0,name="b"]. *)
Definition input_two_main_scopes : list InputLine :=
  [ version_2_0;
    LFile [] (Some (mkFileAttrs (Some 0) (Some "a.s"%string) (Some 10)
                      (Some 1280) (Some [0])));
    LModule [] (Some (mkModAttrs (Some 0) (Some "a"%string) (Some 0) None));
    LScope [] (Some (mkScopeAttrs (Some 0) (Some 0) (Some "a"%string) None None
                       None None None));
    LScope [] (Some (mkScopeAttrs (Some 1) (Some 0) (Some "b"%string) None None
                       None None None)) ].


(** Record lines with exactly the required attributes: a span line
    [span id=..,seg=..,size=..,start=..] and a symbol line
    [sym id=..,name=..,addrsize=..,type=..,val=..,scope=..]. *)
Definition span_line (id seg size start : Z) : InputLine :=
  LSpan [] (Some (mkSpanAttrs (Some id) (Some seg) (Some size) (Some start))).

Definition sym_line (id : Z) (name : string) (ty : cc65_symbol_type)
  (value scope : Z) : InputLine :=
  LSym [] (Some (mkSymAttrs true None (Some id) None (Some scope) None None
                   (Some name) (Some ty) (Some value))).

(** Two overlapping spans of a segment that starts at [0x8000]:
    [seg id=0,name="CODE",start=0x8000,size=0x10,addrsize=abs,type=ro],
    [span id=0,seg=0,start=0,size=4], [span id=1,seg=0,start=2,size=4]. *)
Definition input_overlapping_spans : list InputLine :=
  [ version_2_0;
    LSegment [] (Some (mkSegAttrs true (Some 0) None None
                         (Some "CODE"%string) (Some 16) (Some 32768) true));
    span_line 0 0 4 0;
    span_line 1 0 4 2 ].

(** The database that [cc65_read_dbginfo] returns for an input, the empty
    database if it returns none. *)
Definition loaded (lines : list InputLine) : DbgInfo.t :=
  match cc65_read_dbginfo lines with
  | Some (_, Some h) => h
  | _ => NewDbgInfo
  end.

(** A collection of the pointers [ps], as the resolver builds it by
    appending to an empty collection. *)
Definition pointers (ps : list nat) : Collection :=
  mkColl (Z.of_nat (length ps)) ((fun p => EPtr (Some p)) <$> ps).

(** A file, its module and main scope, and four symbols of the scope, in
    descending order of their values: the labels [d = 0x9000] and
    [c = 0x8002], the equate [b = 0x8001] and the label [a = 0x8000]. *)
Definition input_symbols : list InputLine :=
  [ version_2_0;
    LFile [] (Some (mkFileAttrs (Some 0) (Some "a.s"%string) (Some 10)
                      (Some 1280) (Some [0])));
    LModule [] (Some (mkModAttrs (Some 0) (Some "a"%string) (Some 0) None));
    LScope [] (Some (mkScopeAttrs (Some 0) (Some 0) (Some ""%string) None None
                       None None None));
    sym_line 0 "d"%string CC65_SYM_LABEL 36864 0;
    sym_line 1 "c"%string CC65_SYM_LABEL 32770 0;
    sym_line 2 "b"%string CC65_SYM_EQUATE 32769 0;
    sym_line 3 "a"%string CC65_SYM_LABEL 32768 0 ].

(** ** Spans and their addresses *)

(** The addresses [lo], [lo + 1], ..., [hi]. *)
Definition interval (lo hi : Z) : list Z := seqZ lo (hi - lo + 1).

(** The closed interval of a span; a span comes with its pointer. *)
Definition span_addresses (Sp : nat * SpanInfo.t) : list Z :=
  interval (SpanInfo.Start (snd Sp)) (SpanInfo.End_ (snd Sp)).

Definition covers (Sp : nat * SpanInfo.t) (a : Z) : bool :=
  (SpanInfo.Start (snd Sp) <=? a) && (a <=? SpanInfo.End_ (snd Sp)).

(** The distinct addresses in the union of the intervals of the spans. *)
Definition distinct_addresses (spans : list (nat * SpanInfo.t)) : list Z :=
  remove_dups (spans ≫= span_addresses).

(** The order of [CompareSpanInfoByAddr]: by start, then by end. *)
Definition span_le (Sp Tp : nat * SpanInfo.t) : Prop :=
  SpanInfo.Start (snd Sp) < SpanInfo.Start (snd Tp)
  \/ (SpanInfo.Start (snd Sp) = SpanInfo.Start (snd Tp)
      /\ SpanInfo.End_ (snd Sp) <= SpanInfo.End_ (snd Tp)).

Definition sorted_spans (spans : list (nat * SpanInfo.t)) : Prop :=
  Sorted span_le spans.

(** A span of a size from 0 up: [End = Start + Size - 1] without
    wrap-around. *)
Definition span_ok (Sp : nat * SpanInfo.t) : Prop :=
  0 <= SpanInfo.Start (snd Sp) <= SpanInfo.End_ (snd Sp) + 1.

(** A span that does not end at the largest [unsigned]; the loops over the
    addresses of any other span have no exit. *)
Definition span_ends_early (Sp : nat * SpanInfo.t) : Prop :=
  SpanInfo.End_ (snd Sp) < UINT_MAX.

(** *** The addresses in the order of the table *)

(** The running maximum [End] after a further span. *)
Definition next_end (E : Z) (Sp : nat * SpanInfo.t) : Z :=
  if SpanInfo.Start (snd Sp) >? E then SpanInfo.End_ (snd Sp)
  else if SpanInfo.End_ (snd Sp) >? E then SpanInfo.End_ (snd Sp)
  else E.

(** The addresses a further span adds to those up to [E]. *)
Definition new_addresses (E : Z) (Sp : nat * SpanInfo.t) : list Z :=
  if SpanInfo.Start (snd Sp) >? E
  then interval (SpanInfo.Start (snd Sp)) (SpanInfo.End_ (snd Sp))
  else if SpanInfo.End_ (snd Sp) >? E
  then interval (E + 1) (SpanInfo.End_ (snd Sp))
  else [].

Fixpoint addresses_rest (E : Z) (rest : list (nat * SpanInfo.t)) : list Z :=
  match rest with
  | [] => []
  | Sp :: rest => new_addresses E Sp ++ addresses_rest (next_end E Sp) rest
  end.

Definition table_addresses (spans : list (nat * SpanInfo.t)) : list Z :=
  match spans with
  | [] => []
  | Sp :: rest =>
    span_addresses Sp ++ addresses_rest (SpanInfo.End_ (snd Sp)) rest
  end.

(** The table index at which the walk starts a further span. *)
Definition next_index (SI St E : Z) (Sp : nat * SpanInfo.t) : Z :=
  if SpanInfo.Start (snd Sp) <=? E
  then SI + (SpanInfo.Start (snd Sp) - St)
  else SI + (E - St) + 1.

(** What the walk knows after some spans: [Ub] lists the addresses met so
    far, in ascending order, none above [E]; its last [E - St + 1] entries,
    from index [SI] on, are the addresses [St .. E]. *)
Definition walk_inv (SI St E : Z) (Ub : list Z) : Prop :=
  Z.of_nat (length Ub) = SI + (E - St + 1)
  /\ 0 <= SI /\ 0 <= St <= E + 1
  /\ (forall d, 0 <= d <= E - St -> Ub !! Z.to_nat (SI + d) = Some (St + d))
  /\ StronglySorted Z.lt Ub
  /\ (forall a, a ∈ Ub -> 0 <= a <= E).

(** Three spans at the pointers 0, 1 and 2: [0x8000 .. 0x8003],
    [0x8002 .. 0x8005] and the empty span at [0x8010]. *)
Definition example_first : nat * SpanInfo.t :=
  (0%nat, SpanInfo.mk 0 32768 32771 (EPtr (Some 0%nat)) None None).

Definition example_rest : list (nat * SpanInfo.t) :=
  [ (1%nat, SpanInfo.mk 1 32770 32773 (EPtr (Some 0%nat)) None None);
    (2%nat, SpanInfo.mk 2 32784 32783 (EPtr (Some 0%nat)) None None) ].

Definition example_spans : list (nat * SpanInfo.t) :=
  example_first :: example_rest.

(** The span that covers the whole address space, at pointer 0; it is also
    what [span start=0,size=0] yields in a segment that starts at 0. *)
Definition whole_space_span : nat * SpanInfo.t :=
  (0%nat, SpanInfo.mk 0 0 UINT_MAX (EPtr (Some 0%nat)) None None).

(** *** The table that [CreateSpanInfoList] builds *)

(** The pointers of the spans that cover an address, in the order of the
    collection. *)
Definition covering (spans : list (nat * SpanInfo.t)) (a : Z) : list nat :=
  fst <$> List.filter (fun Sp => covers Sp a) spans.

(** The entry of an address: one span is stored directly, several in an
    indirect block. *)
Definition table_entry (spans : list (nat * SpanInfo.t)) (a : Z)
  : SpanInfoListEntry.t :=
  match covering spans a with
  | [p] => SpanInfoListEntry.mk (Some a) 1 (DataSpan p)
  | ps => SpanInfoListEntry.mk (Some a) (Z.of_nat (length ps))
            (DataArray (Some <$> ps))
  end.

Definition span_table (spans : list (nat * SpanInfo.t)) : SpanInfoList.t :=
  SpanInfoList.mk (Z.of_nat (length (table_addresses spans)))
    (table_entry spans <$> table_addresses spans).

(** The entries between the steps: after step 3 has walked the spans [P],
    and after step 5 has walked the spans [P] of all the [spans]. *)
Definition counted_entry (P : list (nat * SpanInfo.t)) (a : Z)
  : SpanInfoListEntry.t :=
  let c := Z.of_nat (length (covering P a)) in
  SpanInfoListEntry.mk (if 0 <? c then Some a else None) c DataNull.

Definition entered_entry (spans P : list (nat * SpanInfo.t)) (a : Z)
  : SpanInfoListEntry.t :=
  let c := length (covering spans a) in
  let ps := covering P a in
  if (1 <? c)%nat then
    SpanInfoListEntry.mk (Some a) (Z.of_nat (length ps))
      (DataArray ((Some <$> ps) ++ replicate (c - length ps) None))
  else
    match ps with
    | [] => counted_entry spans a
    | p :: _ => SpanInfoListEntry.mk (Some a) 1 (DataSpan p)
    end.

(** The two spans of [input_overlapping_spans] after the load:
    [0x8000 .. 0x8003] and [0x8002 .. 0x8005]. *)
Definition overlapping_spans : list (nat * SpanInfo.t) :=
  [ (0%nat, SpanInfo.mk 0 32768 32771 (EPtr (Some 0%nat)) None None);
    (1%nat, SpanInfo.mk 1 32770 32773 (EPtr (Some 0%nat)) None None) ].

(** The copies of the spans at the pointers [ps] that a query hands out. *)
Definition copies (m : Store.t) (ps : list nat) : list cc65_spandata :=
  omap (fun p => CopySpanInfo m (Some p)) ps.

(** A span that [CopySpanInfo] can copy: its segment has been resolved. *)
Definition copyable (m : Store.t) (Sp : nat * SpanInfo.t) : Prop :=
  is_Some (CopySpanInfo m (Some (fst Sp))).

(** ** Collections of records *)

(** The records a collection points to, each with its pointer; there is
    none unless every entry is a pointer to a record of the store. *)
Definition fetch_records {A} (store : list A) (C : Collection)
  : option (list (nat * A)) :=
  mapM (fun e => P ← entry_ptr e; p ← P; r ← store !! p; Some (p, r))
       (Items C).

(** *** Symbols by value *)

Definition sym_le (x y : nat * SymInfo.t) : Prop :=
  SymInfo.Value (snd x) <= SymInfo.Value (snd y).

Definition sorted_by_value (syms : list (nat * SymInfo.t)) : Prop :=
  Sorted sym_le syms.

Definition is_label (s : nat * SymInfo.t) : bool :=
  match SymInfo.Type_ (snd s) with
  | CC65_SYM_LABEL => true
  | CC65_SYM_EQUATE => false
  end.

(** The labels with a value from [Start] to [End_], in the order of the
    collection. *)
Definition labels_in_range (syms : list (nat * SymInfo.t)) (Start End_ : Z)
  : list (nat * SymInfo.t) :=
  List.filter
    (fun s => is_label s && (Start <=? SymInfo.Value (snd s))
              && (SymInfo.Value (snd s) <=? End_)) syms.

Definition symbol_copies (m : Store.t) (syms : list (nat * SymInfo.t))
  : list cc65_symboldata :=
  omap (fun s => CopySymInfo m (Some (fst s))) syms.

(** A symbol that [CopySymInfo] can copy: its scope has been resolved. *)
Definition symbol_copyable (m : Store.t) (s : nat * SymInfo.t) : Prop :=
  is_Some (CopySymInfo m (Some (fst s))).

(** The symbols of [input_symbols] after the load, in the order of the
    collection sorted by value. *)
Definition example_symbol (id : Z) (name : string) (ty : cc65_symbol_type)
  (value : Z) : SymInfo.t :=
  SymInfo.mk id ty value 0 ENull (EPtr (Some 0%nat)) ENull name.

Definition symbols_by_value : list (nat * SymInfo.t) :=
  [ (3%nat, example_symbol 3 "a" CC65_SYM_LABEL 32768);
    (2%nat, example_symbol 2 "b" CC65_SYM_EQUATE 32769);
    (1%nat, example_symbol 1 "c" CC65_SYM_LABEL 32770);
    (0%nat, example_symbol 0 "d" CC65_SYM_LABEL 36864) ].

(** *** Lines by number *)







(** *** Main scopes *)

(** A scope as parsed, with its pointer, names the module at the pointer
    [M] and has no parent: its module id is a valid index of [Mods], the
    collection of the modules by id, at which [M] is stored, and its parent
    id is [CC65_INV_ID]. *)
Definition main_of (Mods : Collection) (M : option nat)
  (s : nat * ScopeInfo.t) : bool :=
  match ScopeInfo.Mod (snd s), ScopeInfo.Parent (snd s) with
  | EId ModId, EId ParentId =>
    negb (ModId >=? CollCount Mods)
    && bool_decide (CollAt Mods (Z.to_nat ModId) = Some M)
    && (ParentId =? CC65_INV_ID)
  | _, _ => false
  end.

(** The parent-less scopes of the module at the pointer [m], in the order
    of their ids. *)
Definition main_scopes (Mods : Collection) (m : nat)
  (scopes : list (nat * ScopeInfo.t)) : list (nat * ScopeInfo.t) :=
  List.filter (main_of Mods (Some m)) scopes.

(** The main scope of a module after the scopes have been walked: the last
    of its parent-less scopes, and what it was before if there is none. *)
Definition main_scope_after (Mods : Collection) (m : nat) (init : option nat)
  (scopes : list (nat * ScopeInfo.t)) : option nat :=
  match last (main_scopes Mods m scopes) with
  | Some s => Some (fst s)
  | None => init
  end.

(** What a step of the scope pass leaves alone, for the scope at [Sc]: the
    collections by id, the module records, and the other scope records; the
    diagnostics only grow. *)
Definition scope_frame (Sc : option nat) (D D' : InputData.t) : Prop :=
  DbgInfo.ModInfoById (InputData.Info D')
  = DbgInfo.ModInfoById (InputData.Info D)
  /\ DbgInfo.ScopeInfoById (InputData.Info D')
     = DbgInfo.ScopeInfoById (InputData.Info D)
  /\ Store.ModInfos (mem D') = Store.ModInfos (mem D)
  /\ (forall q, Sc <> Some q ->
        Store.ScopeInfos (mem D') !! q = Store.ScopeInfos (mem D) !! q).

(** The state in which [cc65_read_dbginfo] calls [ProcessScopeInfo]. *)
Definition before_ProcessScopeInfo (lines : list InputLine)
  : option InputData.t :=
  match lines with
  | LVersion u a e :: rest =>
    D ← parse_lines (ParseVersion InputData_init u a e) rest;
    D ← ProcessFileInfo D;
    D ← ProcessLineInfo D;
    ProcessModInfo D
  | _ => None
  end.

(** ** Sorting *)

(** [swaps lo hi l l']: the list [l'] comes from [l] by exchanging entries
    at indices from [lo] to [hi], any number of times. *)
Inductive swaps {A} (lo hi : Z) : list A -> list A -> Prop :=
| swaps_refl (l : list A) : swaps lo hi l l
| swaps_step (l : list A) (i j : Z) (x y : A) (l' : list A) :
    0 <= i -> 0 <= j -> lo <= i <= hi -> lo <= j <= hi ->
    l !! Z.to_nat i = Some x -> l !! Z.to_nat j = Some y ->
    swaps lo hi (<[Z.to_nat j := x]> (<[Z.to_nat i := y]> l)) l' ->
    swaps lo hi l l'.

(** The entries at the indices from [lo] to [hi] are in the order [R]. *)
Definition sorted_range {A} (R : A -> A -> Prop) (lo hi : Z) (l : list A)
  : Prop :=
  forall (i j : Z) (x y : A),
    0 <= i -> lo <= i -> i <= j -> j <= hi ->
    l !! Z.to_nat i = Some x -> l !! Z.to_nat j = Some y -> R x y.

(** An entry that holds a pointer the compare function accepts, and the
    order of two such entries. *)
Definition entry_good (good : option nat -> Prop) (e : CollEntry) : Prop :=
  exists x, e = EPtr x /\ good x.

Definition entry_le (le : option nat -> option nat -> Prop)
  (e1 e2 : CollEntry) : Prop :=
  exists x y, e1 = EPtr x /\ e2 = EPtr y /\ le x y.

(** A compare function that decides a total preorder [le] on the pointers
    in [good]: its result is not negative exactly when the right argument
    is not above the left one. *)
Definition compares (Compare : option nat -> option nat -> option Z)
  (le : option nat -> option nat -> Prop) (good : option nat -> Prop)
  : Prop :=
  (forall x y, good x -> good y ->
     exists c, Compare x y = Some c /\ (0 <= c <-> le y x))
  /\ (forall x y, good x -> good y -> le x y \/ le y x)
  /\ (forall x y z, good x -> good y -> good z ->
        le x y -> le y z -> le x z).

(** The pointers to the records of a store that satisfy [P], and the order
    [R] of the records seen through the pointers. *)
Definition ptr_good {A} (store : list A) (P : A -> Prop) (x : option nat)
  : Prop :=
  exists a, deref store x = Some a /\ P a.

Definition ptr_le {A} (store : list A) (R : A -> A -> Prop)
  (x y : option nat) : Prop :=
  forall a b, deref store x = Some a -> deref store y = Some b -> R a b.

(** The orders that the compare functions decide. *)
Definition str_le (a b : string) : Prop := strcmp a b <= 0.

Definition span_rec_le (a b : SpanInfo.t) : Prop :=
  SpanInfo.Start a < SpanInfo.Start b
  \/ (SpanInfo.Start a = SpanInfo.Start b
      /\ SpanInfo.End_ a <= SpanInfo.End_ b).

Definition sym_val_le (a b : SymInfo.t) : Prop :=
  SymInfo.Value a < SymInfo.Value b
  \/ (SymInfo.Value a = SymInfo.Value b
      /\ str_le (SymInfo.Name a) (SymInfo.Name b)).

Definition sym_name_le (a b : SymInfo.t) : Prop :=
  str_le (SymInfo.Name a) (SymInfo.Name b).

Definition line_rec_le (a b : LineInfo.t) : Prop :=
  LineInfo.Line a <= LineInfo.Line b.

(** A line number that is the same as an [int] and as an [unsigned]. *)
Definition line_fits_int (a : LineInfo.t) : Prop :=
  0 <= LineInfo.Line a <= INT_MAX.

Definition file_rec_le (a b : FileInfo.t) : Prop :=
  strcmp (FileInfo.Name a) (FileInfo.Name b) < 0
  \/ (FileInfo.Name a = FileInfo.Name b
      /\ (FileInfo.MTime a < FileInfo.MTime b
          \/ (FileInfo.MTime a = FileInfo.MTime b
              /\ FileInfo.Size a <= FileInfo.Size b))).

Definition any_record {A} (a : A) : Prop := True.

(** The order [R] of the records of a fetched collection. *)
Definition records_le {A} (R : A -> A -> Prop) (x y : nat * A) : Prop :=
  R (snd x) (snd y).

(** The store and the by-address collection of three spans, given out of
    order: span 0 is [0x8010 .. 0x8013], span 1 [0x8000 .. 0x8005] and
    span 2 [0x8000 .. 0x8003]. *)
Definition unsorted_store : Store.t :=
  Store.set_SpanInfos
    [ SpanInfo.mk 0 32784 32787 (EPtr (Some 0%nat)) None None;
      SpanInfo.mk 1 32768 32773 (EPtr (Some 0%nat)) None None;
      SpanInfo.mk 2 32768 32771 (EPtr (Some 0%nat)) None None ]
    empty_store.

(** *** Symbols by name *)

Definition sorted_by_name (syms : list (nat * SymInfo.t)) : Prop :=
  Sorted (records_le sym_name_le) syms.

Definition has_name (Name : string) (s : nat * SymInfo.t) : bool :=
  String.eqb (SymInfo.Name (snd s)) Name.

(** The symbols with the name, in the order of the collection. *)
Definition symbols_named (syms : list (nat * SymInfo.t)) (Name : string)
  : list (nat * SymInfo.t) :=
  List.filter (has_name Name) syms.

(** The symbols of [input_symbols] after the load, in the order of the
    collection sorted by name. *)
Definition symbols_by_name : list (nat * SymInfo.t) :=
  [ (3%nat, example_symbol 3 "a" CC65_SYM_LABEL 32768);
    (2%nat, example_symbol 2 "b" CC65_SYM_EQUATE 32769);
    (1%nat, example_symbol 1 "c" CC65_SYM_LABEL 32770);
    (0%nat, example_symbol 0 "d" CC65_SYM_LABEL 36864) ].

(** *** The collections by id *)

(** The by-id collections that the resolver passes walk through. *)
Definition by_id (D : InputData.t)
  : Collection * Collection * Collection * Collection * Collection
    * Collection * Collection * Collection :=
  let I := InputData.Info D in
  (DbgInfo.FileInfoById I, DbgInfo.LibInfoById I, DbgInfo.LineInfoById I,
   DbgInfo.ModInfoById I, DbgInfo.ScopeInfoById I, DbgInfo.SegInfoById I,
   DbgInfo.SpanInfoById I, DbgInfo.SymInfoById I).

(** A collection with a null entry: an id below the largest one that no
    line of the file defined. *)
Definition has_gap (C : Collection) : Prop :=
  exists i : nat, Items C !! i = Some ENull.

(** The state of the reader at the end of the lines that follow the
    version line. *)
Definition parsed (lines : list InputLine) : InputData.t :=
  default InputData_init (parse_lines InputData_init lines).

(** The lines of a file with the spans 0 and 2 and no span 1. *)
Definition lines_span_gap : list InputLine :=
  [ LSegment [] (Some (mkSegAttrs true (Some 0) None None (Some "CODE"%string)
                         (Some 256) (Some 32768) true));
    span_line 0 0 4 0;
    span_line 2 0 4 8 ].

(** *** The scanner *)

(** The characters of a string, as [fgetc] returns them. *)
Definition chars_of (s : string) : list Z :=
  (fun a => Z.of_N (N_of_ascii a)) <$> list_ascii_of_string s.

(** The string of a list of characters. *)
Definition string_of_chars (l : list Z) : string :=
  fold_right (fun c s => String (char_of_int c) s) EmptyString l.

(** What the scanner has not consumed yet: the current character and what
    is left of the file. *)
Definition pending (D : Scanner.t) : list Z :=
  if Scanner.C D =? EOF then [] else Scanner.C D :: chars_of (Scanner.F D).

Definition is_byte (c : Z) : Prop := 0 <= c <= 255.

(** Whether a text starts with a character of a class. *)
Definition starts_with (P : Z -> bool) (l : list Z) : bool :=
  match l with
  | [] => false
  | c :: _ => P c
  end.

(** The characters that [NextToken] has no case for. *)
Definition unknown_char (c : Z) : bool :=
  negb (is_blank c || (c =? 95) || isalpha c || isdigit c
        || (c =? 45) || (c =? 43) || (c =? 44) || (c =? 61) || (c =? 34)
        || (c =? 10) || (c =? EOF)).

Definition ident_char (c : Z) : bool := (c =? 95) || isalnum c.

(** The token of an identifier: that of the keyword, if it is one. *)
Definition keyword_token (s : string) : Token :=
  match List.find (fun e => String.eqb s (fst e)) KeywordTable with
  | Some e => snd e
  | None => TOK_IDENT
  end.

(** A string buffer as the functions on it leave it: the block is empty or
    its size is a power of two from 8 on, and the characters fit. *)
Definition strbuf_ok (B : StrBuf) : Prop :=
  (Allocated B = 0 \/ exists k, 3 <= k <= 31 /\ Allocated B = 2 ^ k)
  /\ Z.of_nat (String.length (Chars B)) <= Allocated B.

Definition is_digit_of (Base : Z) (c : Z) : bool :=
  (DigitVal c >=? 0) && (DigitVal c <? Base).

(** The value of a run of digits. *)
Definition digits_value (Base : Z) (ds : list Z) : Z :=
  fold_left (fun v c => v * Base + DigitVal c) ds 0.

(** The three forms of a number: [Base], the prefix, and what follows the
    prefix. A decimal number starts with a digit other than 0; [0x] or [0X]
    starts a hexadecimal number; any other 0 starts an octal number. *)
Inductive number_literal : Z -> list Z -> list Z -> Prop :=
| literal_decimal (d : Z) (s : list Z) :
    49 <= d <= 57 -> number_literal 10 [] (d :: s)
| literal_hexadecimal (x : Z) (s : list Z) :
    toupper x = 88 -> number_literal 16 [48; x] s
| literal_octal (s : list Z) :
    starts_with (fun c => toupper c =? 88) s = false ->
    number_literal 8 [48] s.

(** The scanner as [cc65_read_dbginfo] sets it up for a file with the
    text: line 1, column 0, a blank as the current character. *)
Definition scanner_init (text : string) : Scanner.t :=
  Scanner.mk text 32 1 0 0 0 0 TOK_INVALID 0 STRBUF_INITIALIZER [].

(** A character inside a string constant. *)
Definition string_char (c : Z) : bool :=
  (0 <=? c) && negb (c =? 34) && negb (c =? 10).

(** What ends a string constant: the closing double quote, the end of the
    line, or the end of the file. *)
Definition string_end (l : list Z) : bool :=
  match l with
  | [] => true
  | c :: _ => (c =? 34) || (c =? 10)
  end.

(** Whether a text is closed by a double quote. *)
Definition closing_quote (l : list Z) : bool :=
  starts_with (fun c => c =? 34) l.

(** A text that starts with the string constant [a.s] in double quotes,
    followed by a comma. *)
Definition text_with_string : string :=
  String "034" ("a.s" ++ String "034" ",").

(** *** Spans by id *)

(** The ids of the span records, in the order of the store. *)
Definition span_ids (m : Store.t) : list Z :=
  SpanInfo.Id <$> Store.SpanInfos m.

(** Every entry of the by-id collection of the spans is null or points to a
    span with the id that is the index of the entry. *)
Definition span_ids_ok (I : DbgInfo.t) : Prop :=
  forall (i : nat) (e : CollEntry),
    Items (DbgInfo.SpanInfoById I) !! i = Some e ->
    e = ENull
    \/ exists p, e = EPtr (Some p)
                 /\ span_ids (DbgInfo.Mem I) !! p = Some (Z.of_nat i).

(** What the by-id lookup of a span depends on. *)
Definition spans_view (D : InputData.t) : list CollEntry * list Z :=
  (Items (DbgInfo.SpanInfoById (InputData.Info D)),
   span_ids (DbgInfo.Mem (InputData.Info D))).

(** The ids of the span records of a reader state. *)
Definition span_ids_of (D : InputData.t) : list Z := span_ids (mem D).

(** What [ProcessSpanInfo] makes of a span record [r]: the segment id is
    resolved and the start and the end, which the file gives relative to
    the segment, are moved by the start of the segment; a segment id that
    is out of range leaves the addresses and a null segment. *)
Definition rebased (D : InputData.t) (r r' : SpanInfo.t) : Prop :=
  SpanInfo.Id r' = SpanInfo.Id r
  /\ SpanInfo.ScopeInfoList r' = SpanInfo.ScopeInfoList r
  /\ SpanInfo.LineInfoList r' = SpanInfo.LineInfoList r
  /\ exists s,
       SpanInfo.Seg r = EId s
       /\ if s >=? CollCount (DbgInfo.SegInfoById (InputData.Info D))
          then SpanInfo.Seg r' = ENull
               /\ SpanInfo.Start r' = SpanInfo.Start r
               /\ SpanInfo.End_ r' = SpanInfo.End_ r
          else exists q g,
                 CollAt (DbgInfo.SegInfoById (InputData.Info D)) (Z.to_nat s)
                 = Some (Some q)
                 /\ Store.SegInfos (mem D) !! q = Some g
                 /\ SpanInfo.Seg r' = EPtr (Some q)
                 /\ SpanInfo.Start r'
                    = to_unsigned (SpanInfo.Start r + SegInfo.Start g)
                 /\ SpanInfo.End_ r'
                    = to_unsigned (SpanInfo.End_ r + SegInfo.Start g).

(** The state of the loop of [ProcessSpanInfo] before the span [k]: the
    spans below [k] are done, the others are as they were. *)
Definition rebase_inv (D : InputData.t) (k : nat)
  (st : InputData.t * Collection) : Prop :=
  DbgInfo.SpanInfoById (InputData.Info (fst st))
  = DbgInfo.SpanInfoById (InputData.Info D)
  /\ DbgInfo.SegInfoById (InputData.Info (fst st))
     = DbgInfo.SegInfoById (InputData.Info D)
  /\ Store.SegInfos (mem (fst st)) = Store.SegInfos (mem D)
  /\ forall (j p : nat) (r : SpanInfo.t),
       Items (DbgInfo.SpanInfoById (InputData.Info D)) !! j
       = Some (EPtr (Some p)) ->
       Store.SpanInfos (mem D) !! p = Some r ->
       if decide (j < k)%nat
       then exists r', Store.SpanInfos (mem (fst st)) !! p = Some r'
                       /\ rebased D r r'
       else Store.SpanInfos (mem (fst st)) !! p = Some r.

(** The reader state at the end of the lines of [input_overlapping_spans],
    and the second span as the parser stored it. *)
Definition parsed_overlapping_spans : InputData.t :=
  parsed (drop 1 input_overlapping_spans).

Definition parsed_span_1 : SpanInfo.t :=
  SpanInfo.mk 1 2 5 (EId 0) None None.

(** *** Records by kind *)

(** The by-id collection of a kind of record. *)
Definition by_id_of (k : InfoKey) (I : DbgInfo.t) : Collection :=
  match k with
  | IK_FILE => DbgInfo.FileInfoById I
  | IK_LIBRARY => DbgInfo.LibInfoById I
  | IK_LINE => DbgInfo.LineInfoById I
  | IK_MODULE => DbgInfo.ModInfoById I
  | IK_SCOPE => DbgInfo.ScopeInfoById I
  | IK_SEGMENT => DbgInfo.SegInfoById I
  | IK_SPAN => DbgInfo.SpanInfoById I
  | IK_SYM => DbgInfo.SymInfoById I
  end.

(** The ids of the records of a kind, in the order in which the parser
    allocated them: the pointer to a record is its index in this list. *)
Definition record_ids (k : InfoKey) (m : Store.t) : list Z :=
  match k with
  | IK_FILE => FileInfo.Id <$> Store.FileInfos m
  | IK_LIBRARY => LibInfo.Id <$> Store.LibInfos m
  | IK_LINE => LineInfo.Id <$> Store.LineInfos m
  | IK_MODULE => ModInfo.Id <$> Store.ModInfos m
  | IK_SCOPE => ScopeInfo.Id <$> Store.ScopeInfos m
  | IK_SEGMENT => SegInfo.Id <$> Store.SegInfos m
  | IK_SPAN => SpanInfo.Id <$> Store.SpanInfos m
  | IK_SYM => SymInfo.Id <$> Store.SymInfos m
  end.










(** *** What a pass leaves alone *)

(** A view of the database that does not depend on what the records of a
    kind hold (it may depend on their number), on one of the collections,
    or on the span table. *)
Definition ignores_FileInfos {X} (v : DbgInfo.t -> X) : Prop :=
  forall I l,
    length l = length (Store.FileInfos (DbgInfo.Mem I)) ->
    v (DbgInfo.set_Mem (Store.set_FileInfos l (DbgInfo.Mem I)) I) = v I.

Definition ignores_LineInfos {X} (v : DbgInfo.t -> X) : Prop :=
  forall I l,
    length l = length (Store.LineInfos (DbgInfo.Mem I)) ->
    v (DbgInfo.set_Mem (Store.set_LineInfos l (DbgInfo.Mem I)) I) = v I.

Definition ignores_ModInfos {X} (v : DbgInfo.t -> X) : Prop :=
  forall I l,
    length l = length (Store.ModInfos (DbgInfo.Mem I)) ->
    v (DbgInfo.set_Mem (Store.set_ModInfos l (DbgInfo.Mem I)) I) = v I.

Definition ignores_ScopeInfos {X} (v : DbgInfo.t -> X) : Prop :=
  forall I l,
    length l = length (Store.ScopeInfos (DbgInfo.Mem I)) ->
    v (DbgInfo.set_Mem (Store.set_ScopeInfos l (DbgInfo.Mem I)) I) = v I.

Definition ignores_SpanInfos {X} (v : DbgInfo.t -> X) : Prop :=
  forall I l,
    length l = length (Store.SpanInfos (DbgInfo.Mem I)) ->
    v (DbgInfo.set_Mem (Store.set_SpanInfos l (DbgInfo.Mem I)) I) = v I.

Definition ignores_SymInfos {X} (v : DbgInfo.t -> X) : Prop :=
  forall I l,
    length l = length (Store.SymInfos (DbgInfo.Mem I)) ->
    v (DbgInfo.set_Mem (Store.set_SymInfos l (DbgInfo.Mem I)) I) = v I.

Definition ignores {X A} (v : DbgInfo.t -> X)
  (set : A -> DbgInfo.t -> DbgInfo.t) : Prop :=
  forall I a, v (set a I) = v I.

(** The span table with the spans and segments it refers to. *)
Definition span_tables (I : DbgInfo.t)
  : SpanInfoList.t * Collection * list SpanInfo.t * list SegInfo.t :=
  (DbgInfo.SpanInfoByAddr I, DbgInfo.SpanInfoById I,
   Store.SpanInfos (DbgInfo.Mem I), Store.SegInfos (DbgInfo.Mem I)).

(** *** The spans of a loaded database *)

(** A span with a segment: its segment id was that of a segment record. *)
Definition has_segment (Sp : nat * SpanInfo.t) : Prop :=
  SpanInfo.Seg (snd Sp) <> ENull.

(** The data of a span as a query hands them out: its id, its start and
    its end, and the id of its segment. *)
Definition span_data_of (m : Store.t) (Sp : nat * SpanInfo.t)
  (d : cc65_spandata) : Prop :=
  span_id d = SpanInfo.Id (snd Sp)
  /\ span_start d = SpanInfo.Start (snd Sp)
  /\ span_end d = SpanInfo.End_ (snd Sp)
  /\ exists q g,
       SpanInfo.Seg (snd Sp) = EPtr (Some q)
       /\ Store.SegInfos m !! q = Some g
       /\ segment_id d = SegInfo.Id g.

(** A segment that starts at 0 with two spans: [span id=0,seg=0,start=5,
    size=5], which is [5 .. 9], and [span id=1,seg=0,start=0xFFFFFFF0,
    size=0x20], whose end [start + size - 1] wraps around to [0xF]. *)
Definition input_wrapped_span : list InputLine :=
  [ version_2_0;
    LSegment [] (Some (mkSegAttrs true (Some 0) None None
                         (Some "CODE"%string) (Some 16) (Some 0) true));
    span_line 0 0 5 5;
    span_line 1 0 32 4294967280 ].

Definition wrapped_spans : list (nat * SpanInfo.t) :=
  [ (0%nat, SpanInfo.mk 0 5 9 (EPtr (Some 0%nat)) None None);
    (1%nat, SpanInfo.mk 1 4294967280 15 (EPtr (Some 0%nat)) None None) ].

(** *** The lines of a file of a loaded database *)








(** *** The symbols of a loaded database *)

(** A file with two symbol lines of the id 0: the labels [a = 0x8000] and
    [b = 0x9000] of the scope 0. *)
Definition input_duplicate_symbol : list InputLine :=
  [ version_2_0;
    LFile [] (Some (mkFileAttrs (Some 0) (Some "a.s"%string) (Some 10)
                      (Some 1280) (Some [0])));
    LModule [] (Some (mkModAttrs (Some 0) (Some "a"%string) (Some 0) None));
    LScope [] (Some (mkScopeAttrs (Some 0) (Some 0) (Some "m"%string) None None
                       None None None));
    sym_line 0 "a"%string CC65_SYM_LABEL 32768 0;
    sym_line 0 "b"%string CC65_SYM_LABEL 36864 0 ].

(** A file whose only symbol, the label [a = 0x8000], names the scope 7,
    which the file does not define. *)
Definition input_label_without_scope : list InputLine :=
  [ version_2_0;
    LFile [] (Some (mkFileAttrs (Some 0) (Some "a.s"%string) (Some 10)
                      (Some 1280) (Some [0])));
    LModule [] (Some (mkModAttrs (Some 0) (Some "a"%string) (Some 0) None));
    LScope [] (Some (mkScopeAttrs (Some 0) (Some 0) (Some "m"%string) None None
                       None None None));
    sym_line 0 "a"%string CC65_SYM_LABEL 32768 7 ].

(** A symbol with a scope. *)
Definition has_scope (s : nat * SymInfo.t) : Prop :=
  SymInfo.Scope (snd s) <> ENull.

(** The id that a query hands out for a reference of a record: the id of
    the record that the reference points to, and [CC65_INV_ID] for a null
    reference. *)
Definition ref_id {A} (store : list A) (Id : A -> Z) (e : CollEntry) (id : Z)
  : Prop :=
  (e = ENull /\ id = CC65_INV_ID)
  \/ exists q r, e = EPtr (Some q) /\ store !! q = Some r /\ id = Id r.

(** The data of a symbol as a query hands them out: its id, name, type,
    size and value, and the ids of its segment, its scope and its
    parent. *)
Definition symbol_data_of (m : Store.t) (s : nat * SymInfo.t)
  (d : cc65_symboldata) : Prop :=
  symbol_id d = SymInfo.Id (snd s)
  /\ symbol_name d = SymInfo.Name (snd s)
  /\ symbol_type d = SymInfo.Type_ (snd s)
  /\ symbol_size d = SymInfo.Size (snd s)
  /\ symbol_value d = SymInfo.Value (snd s)
  /\ ref_id (Store.SegInfos m) SegInfo.Id (SymInfo.Seg (snd s))
       (symbol_segment_id d)
  /\ (exists q c, SymInfo.Scope (snd s) = EPtr (Some q)
                  /\ Store.ScopeInfos m !! q = Some c
                  /\ scope_id d = ScopeInfo.Id c)
  /\ ref_id (Store.SymInfos m) SymInfo.Id (SymInfo.Parent (snd s))
       (parent_id d).

(** Every entry of the by-id collection of a kind is null or points to a
    record with the id that is the index of the entry. *)
Definition entries_valid (k : InfoKey) (I : DbgInfo.t) : Prop :=
  forall (j : nat) (e : CollEntry),
    Items (by_id_of k I) !! j = Some e ->
    e = ENull
    \/ exists p, e = EPtr (Some p)
                 /\ record_ids k (DbgInfo.Mem I) !! p = Some (Z.of_nat j).

(** A pointer that is null or one of the first [n] records. *)
Definition ptr_in (n : nat) (P : option nat) : Prop :=
  match P with Some q => (q < n)%nat | None => True end.

Definition ptrs_in (n : nat) (C : Collection) : Prop :=
  forall e, e ∈ Items C -> exists P, e = EPtr P /\ ptr_in n P.

(** A reference that is an id, or a pointer that is null or valid. *)
Definition ref_sound (n : nat) (e : CollEntry) : Prop :=
  match e with EId _ => True | EPtr P => ptr_in n P end.

Definition refs_sound (nseg nscope nsym : nat) (r : SymInfo.t) : Prop :=
  ref_sound nseg (SymInfo.Seg r) /\ ref_sound nscope (SymInfo.Scope r)
  /\ ref_sound nsym (SymInfo.Parent r).

(** A reference that has been resolved: a pointer, not an id. *)
Definition is_ptr (e : CollEntry) : Prop := exists P, e = EPtr P.

Definition refs_resolved (r : SymInfo.t) : Prop :=
  is_ptr (SymInfo.Seg r) /\ is_ptr (SymInfo.Scope r)
  /\ is_ptr (SymInfo.Parent r).

(** The ids of the symbol records. *)
Definition sym_ids (m : Store.t) : list Z := SymInfo.Id <$> Store.SymInfos m.

(** The slot of the id of every symbol record is occupied. *)
Definition sym_slots_taken (I : DbgInfo.t) : Prop :=
  forall (p : nat) (id : Z),
    sym_ids (DbgInfo.Mem I) !! p = Some id ->
    0 <= id
    /\ exists q, Items (DbgInfo.SymInfoById I) !! Z.to_nat id
                 = Some (EPtr (Some q)).

(** The symbols as the parser leaves them: the collections by value and
    by name hold the records in the order of the file, the slot of every
    id is occupied, and the references are ids. *)
Definition symbols_parsed (I : DbgInfo.t) : Prop :=
  Items (DbgInfo.SymInfoByVal I)
  = (fun p => EPtr (Some p)) <$> seq 0 (length (Store.SymInfos (DbgInfo.Mem I)))
  /\ Items (DbgInfo.SymInfoByName I)
     = (fun p => EPtr (Some p))
       <$> seq 0 (length (Store.SymInfos (DbgInfo.Mem I)))
  /\ sym_slots_taken I
  /\ Forall (refs_sound 0 0 0) (Store.SymInfos (DbgInfo.Mem I)).

(** What the resolver of the symbols starts from, and what the passes
    before it leave alone. *)
Definition sym_tables (I : DbgInfo.t)
  : Collection * Collection * list SymInfo.t * Collection * Collection
    * nat * nat * Collection :=
  (DbgInfo.SymInfoById I, DbgInfo.SymInfoByVal I,
   Store.SymInfos (DbgInfo.Mem I), DbgInfo.ScopeInfoById I,
   DbgInfo.SegInfoById I, length (Store.ScopeInfos (DbgInfo.Mem I)),
   length (Store.SegInfos (DbgInfo.Mem I)), DbgInfo.SymInfoByName I).

(** What the resolver of the symbols leaves alone. *)
Definition sym_view (I : DbgInfo.t)
  : Collection * Collection * list Z * Collection * Collection * nat * nat
    * Collection :=
  (DbgInfo.SymInfoById I, DbgInfo.SymInfoByVal I, sym_ids (DbgInfo.Mem I),
   DbgInfo.ScopeInfoById I, DbgInfo.SegInfoById I,
   length (Store.ScopeInfos (DbgInfo.Mem I)),
   length (Store.SegInfos (DbgInfo.Mem I)), DbgInfo.SymInfoByName I).

(** The symbols behind the first [k] entries of the by-id collection have
    been resolved, and no symbol has a dangling reference. *)
Definition symbols_resolved (I : DbgInfo.t) (k : nat) : Prop :=
  Forall (refs_sound (length (Store.SegInfos (DbgInfo.Mem I)))
            (length (Store.ScopeInfos (DbgInfo.Mem I)))
            (length (Store.SymInfos (DbgInfo.Mem I))))
         (Store.SymInfos (DbgInfo.Mem I))
  /\ forall (j p : nat),
       (j < k)%nat ->
       Items (DbgInfo.SymInfoById I) !! j = Some (EPtr (Some p)) ->
       exists r, Store.SymInfos (DbgInfo.Mem I) !! p = Some r
                 /\ refs_resolved r.

(** The entries of the by-id collections that the resolver of the symbols
    reads are null or point to records. *)
Definition by_id_ptrs (I : DbgInfo.t) : Prop :=
  ptrs_in (length (Store.SegInfos (DbgInfo.Mem I))) (DbgInfo.SegInfoById I)
  /\ ptrs_in (length (Store.ScopeInfos (DbgInfo.Mem I)))
       (DbgInfo.ScopeInfoById I)
  /\ ptrs_in (length (sym_ids (DbgInfo.Mem I))) (DbgInfo.SymInfoById I).

(** The database with the symbol record [p] replaced. *)
Definition with_symbol (p : nat) (r : SymInfo.t) (I : DbgInfo.t) : DbgInfo.t :=
  DbgInfo.set_Mem
    (Store.set_SymInfos (<[p := r]> (Store.SymInfos (DbgInfo.Mem I)))
       (DbgInfo.Mem I)) I.

(** * Properties *)

(** ** Machine integers *)

Lemma to_unsigned_small (z : Z) : 0 <= z < UINT_MOD -> to_unsigned z = z.
Proof. intros H. unfold to_unsigned. now apply Z.mod_small. Qed.

Lemma to_unsigned_range (z : Z) : 0 <= to_unsigned z < UINT_MOD.
Proof. unfold to_unsigned, UINT_MOD. apply Z.mod_pos_bound. lia. Qed.

Lemma to_int_small (z : Z) : - 2147483648 <= z <= INT_MAX -> to_int z = z.
Proof.
  intros H. unfold to_int, UINT_MOD, INT_MAX in *.
  rewrite Z.mod_small by lia. lia.
Qed.

(** ** The handle returned after a resolver error *)

(** C1. On the input [input_bad_segment], which parses without error, the
    resolver reports the invalid segment id as an error and replaces the
    reference of the span with null, yet [cc65_read_dbginfo] returns the
    database and not the null handle: the error count is only tested before
    the post-processing passes run. *)
Theorem C1_database_returned_after_resolver_error :
  exists h Sp,
    cc65_read_dbginfo input_bad_segment
      = Some ([mkError CC65_ERROR (MsgInvalidSegIdSpan 5 0)], Some h)
    /\ Store.SpanInfos (DbgInfo.Mem h) !! 0%nat = Some Sp
    /\ SpanInfo.Seg Sp = ENull.
Proof.
  eexists _, _. split; [vm_compute; reflexivity|].
  split; reflexivity.
Qed.

(** ** The line pass *)

(** C4. On the input [input_two_lines] the load reports nothing and returns
    a database in which the second line record was never visited: its file
    field still holds the id 0 and not a reference, and the line list of
    file 0 holds the first line only. *)
Theorem C4_line_pass_skips_second_line :
  exists h L1 F,
    cc65_read_dbginfo input_two_lines = Some ([], Some h)
    /\ Items (DbgInfo.LineInfoById h) !! 1%nat = Some (EPtr (Some 1%nat))
    /\ Store.LineInfos (DbgInfo.Mem h) !! 1%nat = Some L1
    /\ LineInfo.File_ L1 = EId 0
    /\ Store.FileInfos (DbgInfo.Mem h) !! 0%nat = Some F
    /\ Items (FileInfo.LineInfoByLine F) = [EPtr (Some 0%nat)].
Proof.
  eexists _, _, _. split; [vm_compute; reflexivity|].
  repeat split; reflexivity.
Qed.

(** ** Lines and spans *)

(** C5. On the input [input_one_line], whose line 0 names span 0, the load
    reports nothing and returns a database in which the span list of the
    line still holds the raw id 0 and the line list of the span was never
    created: the span is in the list of the line, the line is not in the
    list of the span. *)
Theorem C5_line_not_linked_into_span :
  exists h L Sp,
    cc65_read_dbginfo input_one_line = Some ([], Some h)
    /\ Store.LineInfos (DbgInfo.Mem h) !! 0%nat = Some L
    /\ Items (LineInfo.SpanInfoList L) = [EId 0]
    /\ Store.SpanInfos (DbgInfo.Mem h) !! 0%nat = Some Sp
    /\ SpanInfo.LineInfoList Sp = None.
Proof.
  eexists _, _, _. split; [vm_compute; reflexivity|].
  repeat split; reflexivity.
Qed.

(** ** The version check *)

(** C6. For a version record with the supported major version and any
    larger minor version, the reader calls the error callback once, with
    severity [CC65_ERROR], and returns the null handle. *)
Theorem C6_newer_minor_reported_as_error (minor : Z) :
  VER_MINOR < minor < UINT_MOD ->
  cc65_read_dbginfo
    [LVersion [] (mkVersionAttrs (Some VER_MAJOR) (Some minor)) false]
  = Some ([mkError CC65_ERROR (MsgSlightlyNewer VER_MAJOR minor)], None).
Proof.
  intros H. unfold VER_MINOR in H.
  unfold cc65_read_dbginfo, ParseVersion, UnknownKeywords. cbn [fold_left vMajor vMinor].
  rewrite (to_unsigned_small minor) by lia.
  destruct minor as [|p|p]; try lia.
  vm_compute. reflexivity.
Qed.

Lemma C6_newer_minor_witness :
  cc65_read_dbginfo
    [LVersion [] (mkVersionAttrs (Some VER_MAJOR) (Some 1)) false]
  = Some ([mkError CC65_ERROR (MsgSlightlyNewer VER_MAJOR 1)], None).
Proof. apply C6_newer_minor_reported_as_error. unfold VER_MINOR, UINT_MOD. lia. Defined.

(** ** Storing a record at its id *)


Lemma CollReplaceExpand_slot (C C' : Collection) (Item : option nat) (Index : Z) :
  0 <= Index ->
  CollReplaceExpand C Item Index = Some C' ->
  Index < CollCount C' /\ Items C' !! Z.to_nat Index = Some (EPtr Item).
Proof.
  intros H0. unfold CollReplaceExpand, CollCount.
  destruct (Z.ltb_spec Index (Z.of_nat (length (Items C)))) as [Hlt|Hge].
  - intros [= <-]. cbn. rewrite length_insert. split; [lia|].
    apply list_lookup_insert_eq. lia.
  - destruct (expand_size 33 Index _) as [Sz|]; cbn; [|discriminate].
    intros [= <-]. cbn.
    assert (Items (CollGrow C Sz) = Items C) as ->
      by (unfold CollGrow; destruct (Sz <=? Size C); reflexivity).
    rewrite !length_app, length_replicate. cbn. split; [lia|].
    rewrite lookup_app_r by lia.
    rewrite lookup_app_r by (rewrite length_replicate; lia).
    rewrite length_replicate.
    replace (Z.to_nat Index - length (Items C) - (Z.to_nat Index - length (Items C)))%nat
      with 0%nat by lia.
    reflexivity.
Qed.

(** An append finds room as long as doubling the size cannot wrap around. *)
Lemma CollAppend_room (C : Collection) (Item : option nat) :
  CollCount C <= Size C < 2147483648 ->
  exists C', CollAppend C Item = Some C'
             /\ Items C' = Items C ++ [EPtr Item].
Proof.
  intros H. unfold CollAppend, CollPrepareAppend.
  destruct (Z.geb_spec (CollCount C) (Size C)) as [Hge|Hlt].
  - assert (Size C = CollCount C) as HS by lia.
    destruct (Z.eqb_spec (Size C) 0) as [H0|H0].
    + unfold CollGrow. rewrite H0. cbn.
      unfold CollCount at 1. cbn.
      destruct (Z.ltb_spec (Z.of_nat (length (Items C))) 8) as [?|?];
        [|unfold CollCount in *; lia].
      cbn. eauto.
    + unfold CollGrow.
      rewrite to_unsigned_small by (unfold UINT_MOD, CollCount in *; lia).
      destruct (Z.leb_spec (Size C * 2) (Size C)) as [?|?];
        [unfold CollCount in *; lia|].
      unfold CollCount at 1. cbn.
      destruct (Z.ltb_spec (Z.of_nat (length (Items C))) (Size C * 2)) as [?|?];
        [|unfold CollCount in *; lia].
      cbn. eauto.
  - destruct (Z.ltb_spec (CollCount C) (Size C)) as [?|?]; [|lia].
    cbn. eauto.
Qed.

Lemma CollAppend_count (C C' : Collection) (Item : option nat) :
  CollAppend C Item = Some C' -> CollCount C' <= Size C'.
Proof.
  unfold CollAppend. destruct (CollPrepareAppend C) as [C0|] eqn:E; [|discriminate].
  cbn. intros [= <-]. unfold CollPrepareAppend in E.
  destruct (CollCount _ <? Size _) eqn:Hlt in E; [|discriminate].
  injection E as <-. apply Z.ltb_lt in Hlt.
  unfold CollCount in *. cbn. rewrite length_app. cbn. lia.
Qed.

Lemma span_line_accepted (D : InputData.t) (id seg size start : Z) :
  parse_line D (span_line id seg size start)
  = store_SpanInfo D
      (SpanInfo.mk (to_unsigned id) (to_unsigned start)
         (to_unsigned (to_unsigned start + to_unsigned size - 1))
         (EId (to_unsigned seg)) None None).
Proof. reflexivity. Qed.

Lemma sym_line_accepted (D : InputData.t) (id : Z) (name : string)
  (ty : cc65_symbol_type) (value scope : Z) :
  parse_line D (sym_line id name ty value scope)
  = store_SymInfo D
      (SymInfo.mk (to_unsigned id) ty (to_long value) 0 (EId CC65_INV_ID)
         (EId (to_unsigned scope)) (EId CC65_INV_ID) name).
Proof. reflexivity. Qed.


(** ** The addresses of the table *)

Lemma to_unsigned_add_l (x y : Z) :
  to_unsigned (to_unsigned x + y) = to_unsigned (x + y).
Proof. unfold to_unsigned. apply Zplus_mod_idemp_l. Qed.

Lemma to_unsigned_add_r (x y : Z) :
  to_unsigned (x + to_unsigned y) = to_unsigned (x + y).
Proof. unfold to_unsigned. apply Zplus_mod_idemp_r. Qed.

(** Equations between sums in [unsigned] arithmetic. *)
Ltac unsigned_arith :=
  unfold to_unsigned, UINT_MOD in *;
  Z.to_euclidean_division_equations; lia.

Lemma length_interval (lo hi : Z) :
  Z.of_nat (length (interval lo hi)) = Z.max 0 (hi - lo + 1).
Proof. unfold interval. rewrite length_seqZ. lia. Qed.

Lemma elem_of_interval (lo hi a : Z) : a ∈ interval lo hi <-> lo <= a <= hi.
Proof. unfold interval. rewrite elem_of_seqZ. lia. Qed.

Lemma lookup_interval (lo hi d : Z) :
  0 <= d <= hi - lo -> interval lo hi !! Z.to_nat d = Some (lo + d).
Proof.
  intros H. unfold interval. rewrite lookup_seqZ_lt by lia.
  f_equal. lia.
Qed.

Lemma StronglySorted_interval (lo hi : Z) : StronglySorted Z.lt (interval lo hi).
Proof.
  unfold interval. generalize (hi - lo + 1). intros n.
  destruct (Z.le_gt_cases n 0) as [Hn|Hn].
  - rewrite seqZ_nil by lia. constructor.
  - rewrite <- (Z2Nat.id n) by lia. generalize (Z.to_nat n). clear. intros k.
    induction k as [|k IH].
    + rewrite seqZ_nil by lia. constructor.
    + rewrite seqZ_S. apply StronglySorted_app_2; [|exact IH|repeat constructor].
      intros x y Hx ->%list_elem_of_singleton.
      apply elem_of_seqZ in Hx. lia.
Qed.

Lemma covers_spec (Sp : nat * SpanInfo.t) (a : Z) :
  covers Sp a = true
  <-> SpanInfo.Start (snd Sp) <= a <= SpanInfo.End_ (snd Sp).
Proof. unfold covers. rewrite andb_true_iff, !Z.leb_le. reflexivity. Qed.

Lemma elem_of_new_addresses (E : Z) (Sp : nat * SpanInfo.t) (a : Z) :
  a ∈ new_addresses E Sp <-> covers Sp a = true /\ E < a.
Proof.
  rewrite covers_spec. unfold new_addresses.
  destruct (Z.gtb_spec (SpanInfo.Start (snd Sp)) E).
  - rewrite elem_of_interval. lia.
  - destruct (Z.gtb_spec (SpanInfo.End_ (snd Sp)) E).
    + rewrite elem_of_interval. lia.
    + rewrite elem_of_nil. lia.
Qed.

Ltac split_walk_inv :=
  unfold walk_inv; split; [|split; [|split; [|split; [|split]]]].

Lemma walk_inv_first (Sp : nat * SpanInfo.t) :
  span_ok Sp ->
  walk_inv 0 (SpanInfo.Start (snd Sp)) (SpanInfo.End_ (snd Sp))
    (span_addresses Sp).
Proof.
  intros H1. unfold span_ok in H1. unfold span_addresses.
  split_walk_inv; try lia.
  - rewrite length_interval. lia.
  - intros d Hd. rewrite Z.add_0_l. now apply lookup_interval.
  - apply StronglySorted_interval.
  - intros a Ha. apply elem_of_interval in Ha. lia.
Qed.

Lemma walk_inv_step (SI St E : Z) (Ub : list Z) (Sp : nat * SpanInfo.t) :
  walk_inv SI St E Ub ->
  St <= SpanInfo.Start (snd Sp) ->
  span_ok Sp ->
  walk_inv (next_index SI St E Sp) (SpanInfo.Start (snd Sp)) (next_end E Sp)
    (Ub ++ new_addresses E Sp).
Proof.
  intros (Hlen & HSI & HSt & Hlook & Hsort & Hle) Hord Hok1.
  unfold span_ok in Hok1.
  unfold next_index, next_end, new_addresses.
  destruct (Z.leb_spec (SpanInfo.Start (snd Sp)) E) as [Hin|Hout];
    destruct (Z.gtb_spec (SpanInfo.Start (snd Sp)) E) as [?|?]; try lia.
  - (* the span starts inside the known range *)
    destruct (Z.gtb_spec (SpanInfo.End_ (snd Sp)) E) as [Hext|Hnot].
    + pose proof (length_interval (E + 1) (SpanInfo.End_ (snd Sp))) as HL.
      split_walk_inv; try lia.
      * rewrite length_app. lia.
      * intros d Hd.
        destruct (Z.le_gt_cases (SpanInfo.Start (snd Sp) + d) E) as [Hold|Hnew].
        -- rewrite lookup_app_l by lia.
           replace (SI + (SpanInfo.Start (snd Sp) - St) + d)
             with (SI + (SpanInfo.Start (snd Sp) - St + d)) by lia.
           rewrite Hlook by lia. f_equal. lia.
        -- rewrite lookup_app_r by lia.
           replace (Z.to_nat (SI + (SpanInfo.Start (snd Sp) - St) + d) - length Ub)%nat
             with (Z.to_nat (SpanInfo.Start (snd Sp) + d - (E + 1))) by lia.
           rewrite lookup_interval by lia. f_equal. lia.
      * apply StronglySorted_app_2;
          [|exact Hsort|apply StronglySorted_interval].
        intros x y Hx Hy. apply Hle in Hx. apply elem_of_interval in Hy. lia.
      * intros a [Ha|Ha]%elem_of_app;
          [apply Hle in Ha|apply elem_of_interval in Ha]; lia.
    + rewrite app_nil_r.
      split_walk_inv; try lia; try assumption.
      * intros d Hd.
        replace (SI + (SpanInfo.Start (snd Sp) - St) + d)
          with (SI + (SpanInfo.Start (snd Sp) - St + d)) by lia.
        rewrite Hlook by lia. f_equal. lia.
  - (* the span starts after the known range *)
    pose proof (length_interval (SpanInfo.Start (snd Sp))
                  (SpanInfo.End_ (snd Sp))) as HL.
    split_walk_inv; try lia.
    + rewrite length_app. lia.
    + intros d Hd. rewrite lookup_app_r by lia.
      replace (Z.to_nat (SI + (E - St) + 1 + d) - length Ub)%nat
        with (Z.to_nat d) by lia.
      now apply lookup_interval.
    + apply StronglySorted_app_2;
        [|exact Hsort|apply StronglySorted_interval].
      intros x y Hx Hy. apply Hle in Hx. apply elem_of_interval in Hy. lia.
    + intros a [Ha|Ha]%elem_of_app;
        [apply Hle in Ha|apply elem_of_interval in Ha]; lia.
Qed.

Lemma StronglySorted_lt_NoDup (l : list Z) : StronglySorted Z.lt l -> NoDup l.
Proof.
  induction 1 as [|x l Hs IH Hx]; constructor; [|exact IH].
  intros Hin. rewrite Forall_forall in Hx. apply Hx in Hin. lia.
Qed.

Lemma StronglySorted_lt_length (l : list Z) (lo hi : Z) :
  StronglySorted Z.lt l -> (forall a, a ∈ l -> lo <= a < hi) -> lo <= hi ->
  Z.of_nat (length l) <= hi - lo.
Proof.
  intros Hs. revert lo. induction Hs as [|x l Hs IH Hx]; intros lo Hb Hlh.
  - cbn. lia.
  - rewrite Forall_forall in Hx.
    assert (lo <= x < hi) as Hxb by (apply Hb; left).
    specialize (IH (x + 1)). cbn [length].
    assert (Z.of_nat (length l) <= hi - (x + 1)); [|lia].
    apply IH; [|lia]. intros a Ha.
    specialize (Hx a Ha). specialize (Hb a (list_elem_of_further _ _ _ Ha)). lia.
Qed.

Lemma Sorted_span_le_inv (prev Sp : nat * SpanInfo.t)
  (rest : list (nat * SpanInfo.t)) :
  Sorted span_le (prev :: Sp :: rest) ->
  SpanInfo.Start (snd prev) <= SpanInfo.Start (snd Sp)
  /\ Sorted span_le (Sp :: rest).
Proof.
  intros H. apply Sorted_inv in H as [H1 H2].
  apply HdRel_inv in H2. split; [|exact H1].
  destruct H2 as [?|[? ?]]; lia.
Qed.

(** The addresses of the table are in ascending order and are those that
    some span covers. *)
Lemma addresses_rest_spec (rest : list (nat * SpanInfo.t)) :
  forall (prev : nat * SpanInfo.t) (SI E : Z) (Ub : list Z),
    walk_inv SI (SpanInfo.Start (snd prev)) E Ub ->
    Sorted span_le (prev :: rest) ->
    Forall span_ok rest ->
    StronglySorted Z.lt (Ub ++ addresses_rest E rest)
    /\ (forall a, a ∈ Ub ++ addresses_rest E rest
                  <-> a ∈ Ub \/ exists Sp, Sp ∈ rest /\ covers Sp a = true).
Proof.
  induction rest as [|Sp rest IH]; intros prev SI E Ub Hinv Hsort Hok.
  - cbn [addresses_rest]. rewrite app_nil_r.
    destruct Hinv as (_ & _ & _ & _ & Hs & Hle).
    split; [exact Hs|].
    intros a. split; [tauto|]. intros [?|(Sp & HSp & _)]; [assumption|].
    now apply elem_of_nil in HSp.
  - cbn [addresses_rest]. rewrite app_assoc.
    apply Sorted_span_le_inv in Hsort as [Hord Hsort].
    apply Forall_cons in Hok as [HokSp Hok].
    pose proof (walk_inv_step _ _ _ _ _ Hinv Hord HokSp) as Hinv'.
    destruct (IH Sp _ _ _ Hinv' Hsort Hok) as (Hs & Hmem).
    split; [exact Hs|].
    intros a. rewrite Hmem, elem_of_app, elem_of_new_addresses.
    split.
    + intros [[?|[Hc _]]|(Tp & HTp & Hc)]; [tauto| |].
      * right. exists Sp. split; [left|exact Hc].
      * right. exists Tp. split; [now right|exact Hc].
    + intros [?|(Tp & HTp & Hc)]; [tauto|].
      apply elem_of_cons in HTp as [->|HTp].
      * destruct (Z.le_gt_cases a E) as [Hle|Hgt]; [|tauto].
        left. left. apply covers_spec in Hc.
        destruct Hinv as (_ & _ & _ & Hlook & _ & _).
        specialize (Hlook (a - SpanInfo.Start (snd prev)) ltac:(lia)).
        replace (SpanInfo.Start (snd prev) + (a - SpanInfo.Start (snd prev)))
          with a in Hlook by lia.
        eapply list_elem_of_lookup_2. exact Hlook.
      * right. exists Tp. auto.
Qed.

Lemma table_addresses_spec (spans : list (nat * SpanInfo.t)) :
  sorted_spans spans -> Forall span_ok spans ->
  StronglySorted Z.lt (table_addresses spans)
  /\ (forall a, a ∈ table_addresses spans
                <-> exists Sp, Sp ∈ spans /\ covers Sp a = true).
Proof.
  destruct spans as [|Sp rest]; intros Hsort Hok.
  - cbn. split; [constructor|].
    intros a. split; [intros Ha; now apply elem_of_nil in Ha|].
    intros (Sp & HSp & _). now apply elem_of_nil in HSp.
  - apply Forall_cons in Hok as [HokSp Hok].
    destruct (addresses_rest_spec rest Sp 0 _ _ (walk_inv_first Sp HokSp)
                Hsort Hok) as (Hs & Hmem).
    split; [exact Hs|].
    intros a. cbn [table_addresses]. rewrite Hmem.
    unfold span_addresses. rewrite elem_of_interval, <- covers_spec.
    split.
    + intros [Hc|(Tp & HTp & Hc)]; [exists Sp|exists Tp]; split; auto.
      * left.
      * now right.
    + intros (Tp & [->|HTp]%elem_of_cons & Hc); [now left|right; eauto].
Qed.

Lemma table_addresses_distinct (spans : list (nat * SpanInfo.t)) :
  sorted_spans spans -> Forall span_ok spans ->
  table_addresses spans ≡ₚ distinct_addresses spans.
Proof.
  intros Hsort Hok.
  destruct (table_addresses_spec spans Hsort Hok) as (Hs & Hmem).
  apply NoDup_Permutation.
  - now apply StronglySorted_lt_NoDup.
  - apply NoDup_remove_dups.
  - intros a. unfold distinct_addresses.
    rewrite Hmem, elem_of_remove_dups, list_elem_of_bind.
    unfold span_addresses.
    split; intros (Sp & H1 & H2); exists Sp.
    + rewrite elem_of_interval, <- covers_spec. auto.
    + rewrite elem_of_interval, <- covers_spec in H1. auto.
Qed.

(** Step 1 counts the addresses of the table, in [unsigned] arithmetic. *)
Lemma count_addresses_spec (rest : list (nat * SpanInfo.t)) :
  forall (Count E : Z),
    Forall span_ok rest ->
    count_addresses (to_unsigned Count) E rest
    = to_unsigned (Count + Z.of_nat (length (addresses_rest E rest))).
Proof.
  induction rest as [|[p S] rest IH]; intros Count E Hok.
  - cbn. f_equal. lia.
  - apply Forall_cons in Hok as [Hok1 Hok]. unfold span_ok in Hok1.
    cbn [count_addresses addresses_rest].
    rewrite length_app. unfold new_addresses, next_end.
    cbn [snd] in *.
    destruct (Z.gtb_spec (SpanInfo.Start S) E) as [Hout|Hin].
    + pose proof (length_interval (SpanInfo.Start S) (SpanInfo.End_ S)) as HL.
      rewrite IH by assumption. unsigned_arith.
    + destruct (Z.gtb_spec (SpanInfo.End_ S) E) as [Hext|Hnot].
      * pose proof (length_interval (E + 1) (SpanInfo.End_ S)) as HL.
        rewrite IH by assumption. unsigned_arith.
      * rewrite IH by assumption. f_equal.
Qed.

Lemma unique_addresses_spec (Sp : nat * SpanInfo.t)
  (rest : list (nat * SpanInfo.t)) :
  Forall span_ok (Sp :: rest) ->
  unique_addresses (snd Sp) rest
  = to_unsigned (Z.of_nat (length (table_addresses (Sp :: rest)))).
Proof.
  intros Hok.
  apply Forall_cons in Hok as [Hok1 Hok]. unfold span_ok in Hok1.
  cbn [table_addresses]. rewrite length_app.
  pose proof (length_interval (SpanInfo.Start (snd Sp)) (SpanInfo.End_ (snd Sp))) as HL.
  unfold span_addresses, unique_addresses in *.
  rewrite count_addresses_spec by assumption. unsigned_arith.
Qed.

(** C3, as amended. For a non-empty collection of spans sorted by
    (start, end), each of a size from 0 up, the entry count of step 1 of
    [CreateSpanInfoList] is the number of distinct addresses in the union of
    the closed intervals of the spans, reduced modulo 2^32: the count is an
    [unsigned]. *)
Theorem C3_step1_counts_distinct_addresses
  (Sp : nat * SpanInfo.t) (rest : list (nat * SpanInfo.t)) :
  sorted_spans (Sp :: rest) ->
  Forall span_ok (Sp :: rest) ->
  unique_addresses (snd Sp) rest
  = to_unsigned (Z.of_nat (length (distinct_addresses (Sp :: rest)))).
Proof.
  intros Hsort Hok.
  rewrite unique_addresses_spec by assumption.
  do 2 f_equal. apply Permutation_length.
  now apply table_addresses_distinct.
Qed.

Lemma example_spans_sorted : sorted_spans example_spans.
Proof. repeat constructor; unfold span_le; cbn; lia. Qed.

Lemma example_spans_ok : Forall span_ok example_spans.
Proof.
  repeat (apply Forall_cons; split; [unfold span_ok; cbn; lia|]).
  constructor.
Qed.

Lemma C3_step1_witness :
  unique_addresses (snd example_first) example_rest
  = to_unsigned (Z.of_nat (length (distinct_addresses example_spans))).
Proof.
  apply (C3_step1_counts_distinct_addresses example_first example_rest).
  - exact example_spans_sorted.
  - exact example_spans_ok.
Defined.

Lemma whole_space_span_sorted : sorted_spans [whole_space_span].
Proof. repeat constructor. Qed.

Lemma whole_space_span_ok : Forall span_ok [whole_space_span].
Proof.
  apply Forall_cons; split;
    [unfold span_ok, whole_space_span, UINT_MAX; cbn; lia|].
  constructor.
Qed.

Lemma whole_space_distinct :
  Z.of_nat (length (distinct_addresses [whole_space_span])) = UINT_MOD.
Proof.
  rewrite <- (Permutation_length
                (table_addresses_distinct _ whole_space_span_sorted
                   whole_space_span_ok)).
  cbn [table_addresses addresses_rest]. rewrite app_nil_r.
  unfold span_addresses. rewrite length_interval.
  reflexivity.
Qed.

(** C3, as stated, fails for the span that covers the whole address space:
    the collection [whole_space_span] alone is sorted and not empty, step 1
    counts 0 entries, and the union of the closed intervals has 2^32
    addresses. *)
Lemma C3_count_wraps_around :
  sorted_spans [whole_space_span]
  /\ unique_addresses (snd whole_space_span) [] = 0
  /\ Z.of_nat (length (distinct_addresses [whole_space_span])) = 4294967296
  /\ unique_addresses (snd whole_space_span) []
     <> Z.of_nat (length (distinct_addresses [whole_space_span])).
Proof.
  split; [exact whole_space_span_sorted|].
  split; [reflexivity|].
  split; [exact whole_space_distinct|].
  rewrite whole_space_distinct. discriminate.
Qed.

(** ** The walks over the table *)

Lemma at_entry_fmap {A} (f : SpanInfoListEntry.t -> option SpanInfoListEntry.t)
  (g : A -> SpanInfoListEntry.t) (l : list A) (J : Z) (a : A)
  (e : SpanInfoListEntry.t) :
  l !! Z.to_nat J = Some a -> f (g a) = Some e ->
  at_entry f J (g <$> l) = Some (<[Z.to_nat J := e]> (g <$> l)).
Proof.
  intros Hl Hf. unfold at_entry. rewrite list_lookup_fmap, Hl. cbn.
  rewrite Hf. reflexivity.
Qed.

Section WalkMap.
Variable f : nat -> Z -> SpanInfoListEntry.t -> option SpanInfoListEntry.t.
Variable U : list Z.
Hypothesis U_NoDup : NoDup U.
Hypothesis U_length : Z.of_nat (length U) < UINT_MOD.

Let visit (p : nat) (J A : Z) := at_entry (f p A) J.

(** The entries after the first [k] addresses of a span from [Start] on
    have been visited. *)
Let partly (g g' : Z -> SpanInfoListEntry.t) (Start k a : Z)
  : SpanInfoListEntry.t :=
  if (Start <=? a) && (a <? Start + k) then g' a else g a.

Lemma walk_addresses_map (g g' : Z -> SpanInfoListEntry.t) (p : nat)
  (SI Start : Z) (n : nat) :
  0 <= SI ->
  (forall d, 0 <= d < Z.of_nat n ->
             U !! Z.to_nat (SI + d) = Some (Start + d)) ->
  (forall d, 0 <= d < Z.of_nat n ->
             f p (Start + d) (g (Start + d)) = Some (g' (Start + d))) ->
  forall (n' : nat) (k : Z),
    0 <= k -> k + Z.of_nat n' = Z.of_nat n ->
    walk_addresses visit n' p (SI + k) (Start + k) (partly g g' Start k <$> U)
    = Some (partly g g' Start (Z.of_nat n) <$> U).
Proof.
  intros HSI Hlook Hf n'. unfold visit.
  induction n' as [|n' IH]; intros k Hk Hkn.
  - cbn. replace k with (Z.of_nat n) by lia. reflexivity.
  - cbn [walk_addresses].
    pose proof (Hlook k ltac:(lia)) as Hk1.
    assert (partly g g' Start k (Start + k) = g (Start + k)) as Hp.
    { unfold partly.
      destruct (Z.ltb_spec (Start + k) (Start + k)) as [?|_]; [lia|].
      now rewrite andb_false_r. }
    rewrite (at_entry_fmap (f p (Start + k)) (partly g g' Start k) U (SI + k)
               (Start + k) (g' (Start + k)) Hk1)
      by (rewrite Hp; apply Hf; lia).
    cbn [mbind option_bind].
    assert (to_unsigned (SI + k + 1) = SI + (k + 1)) as ->.
    { apply lookup_lt_Some in Hk1. rewrite to_unsigned_small; lia. }
    replace (Start + k + 1) with (Start + (k + 1)) by lia.
    rewrite <- (IH (k + 1)) by lia. f_equal.
    apply list_eq. intros j.
    destruct (decide (j = Z.to_nat (SI + k))) as [->|Hne].
    + rewrite list_lookup_insert_eq
        by (rewrite length_fmap; now apply lookup_lt_Some in Hk1).
      rewrite list_lookup_fmap, Hk1. cbn. unfold partly.
      destruct (Z.leb_spec Start (Start + k)); [|lia].
      destruct (Z.ltb_spec (Start + k) (Start + (k + 1))); [|lia].
      reflexivity.
    + rewrite list_lookup_insert_ne by congruence.
      rewrite !list_lookup_fmap.
      destruct (U !! j) as [a|] eqn:Hj; [|reflexivity]. cbn. f_equal.
      assert (a <> Start + k) as Ha.
      { intros ->. apply Hne. eapply NoDup_lookup; eauto. }
      unfold partly.
      destruct (Z.leb_spec Start a); [|reflexivity]. cbn.
      destruct (Z.ltb_spec a (Start + k)), (Z.ltb_spec a (Start + (k + 1)));
        try reflexivity; lia.
Qed.

Lemma walk_span_map (g g' : Z -> SpanInfoListEntry.t) (Sp : nat * SpanInfo.t)
  (SI : Z) :
  0 <= SI ->
  span_ends_early Sp ->
  (forall d, 0 <= d <= SpanInfo.End_ (snd Sp) - SpanInfo.Start (snd Sp) ->
             U !! Z.to_nat (SI + d) = Some (SpanInfo.Start (snd Sp) + d)) ->
  (forall a, a ∈ U -> covers Sp a = true -> f (fst Sp) a (g a) = Some (g' a)) ->
  (forall a, a ∈ U -> covers Sp a = false -> g' a = g a) ->
  walk_span visit Sp SI (g <$> U) = Some (g' <$> U).
Proof.
  intros HSI Hearly Hlook Hf Hg. unfold walk_span, span_ends_early, visit in *.
  destruct (Z.eqb_spec (SpanInfo.End_ (snd Sp)) UINT_MAX) as [?|_]; [lia|].
  set (n := Z.to_nat (SpanInfo.End_ (snd Sp) - SpanInfo.Start (snd Sp) + 1)).
  pose proof (walk_addresses_map g g' (fst Sp) SI (SpanInfo.Start (snd Sp)) n HSI)
    as H.
  specialize (H ltac:(intros; apply Hlook; lia)).
  assert (forall d, 0 <= d < Z.of_nat n ->
            f (fst Sp) (SpanInfo.Start (snd Sp) + d)
              (g (SpanInfo.Start (snd Sp) + d))
            = Some (g' (SpanInfo.Start (snd Sp) + d))) as Hf'.
  { intros d Hd. apply Hf.
    - eapply list_elem_of_lookup_2. apply Hlook. lia.
    - apply covers_spec. lia. }
  specialize (H Hf' n 0 ltac:(lia) ltac:(lia)).
  rewrite !Z.add_0_r in H.
  replace (partly g g' (SpanInfo.Start (snd Sp)) 0 <$> U) with (g <$> U) in H.
  2:{ apply list_fmap_ext. intros i a _. unfold partly.
      destruct (Z.ltb_spec a (SpanInfo.Start (snd Sp) + 0)),
               (Z.leb_spec (SpanInfo.Start (snd Sp)) a); try reflexivity; lia. }
  etransitivity; [exact H|]. f_equal.
  apply list_fmap_ext. intros i a Hi. unfold partly.
  apply list_elem_of_lookup_2 in Hi.
  destruct (covers Sp a) eqn:Hc.
  - apply covers_spec in Hc.
    destruct (Z.leb_spec (SpanInfo.Start (snd Sp)) a); [|lia].
    destruct (Z.ltb_spec a (SpanInfo.Start (snd Sp) + Z.of_nat n));
      [reflexivity|lia].
  - rewrite (Hg a Hi Hc).
    destruct (_ && _); reflexivity.
Qed.
End WalkMap.

Lemma walk_rest_cons
  (visit : nat -> Z -> Z -> list SpanInfoListEntry.t ->
           option (list SpanInfoListEntry.t))
  (SI St E : Z) (Sp : nat * SpanInfo.t) (rest : list (nat * SpanInfo.t))
  (L : list SpanInfoListEntry.t) :
  St <= SpanInfo.Start (snd Sp) -> -1 <= E - St ->
  0 <= next_index SI St E Sp < UINT_MOD ->
  walk_rest visit SI St E (Sp :: rest) L
  = walk_span visit Sp (next_index SI St E Sp) L
    ≫= walk_rest visit (next_index SI St E Sp) (SpanInfo.Start (snd Sp))
         (next_end E Sp) rest.
Proof.
  intros Hle HE. cbn [walk_rest]. unfold next_index, next_end. cbv zeta.
  destruct (Z.leb_spec (SpanInfo.Start (snd Sp)) E) as [H1|H1]; intros Hb.
  - destruct (Z.gtb_spec (SpanInfo.Start (snd Sp)) E) as [?|_]; [lia|].
    assert (to_unsigned (SI + to_unsigned (SpanInfo.Start (snd Sp) - St))
            = SI + (SpanInfo.Start (snd Sp) - St)) as ->.
    { rewrite to_unsigned_add_r. now apply to_unsigned_small. }
    reflexivity.
  - destruct (Z.gtb_spec (SpanInfo.Start (snd Sp)) E) as [_|?]; [|lia].
    assert (to_unsigned (SI + to_unsigned (to_unsigned (E - St) + 1))
            = SI + (E - St) + 1) as ->.
    { rewrite to_unsigned_add_r.
      replace (SI + (to_unsigned (E - St) + 1))
        with (to_unsigned (E - St) + (SI + 1)) by lia.
      rewrite to_unsigned_add_l.
      replace (E - St + (SI + 1)) with (SI + (E - St) + 1) by lia.
      now apply to_unsigned_small. }
    reflexivity.
Qed.

(** A walk over all the spans changes the entry of each address once for
    each span that covers it: [G P a] is the entry of [a] after the spans
    [P] have been walked. *)
Section WalkTable.
Variable f : nat -> Z -> SpanInfoListEntry.t -> option SpanInfoListEntry.t.
Variable G : list (nat * SpanInfo.t) -> Z -> SpanInfoListEntry.t.
Variable spans : list (nat * SpanInfo.t).
Variable U : list Z.
Hypothesis U_sorted : StronglySorted Z.lt U.
Hypothesis U_length : Z.of_nat (length U) < UINT_MOD.
Hypothesis G_covered :
  forall P Sp Q a, spans = P ++ Sp :: Q -> a ∈ U -> covers Sp a = true ->
                   f (fst Sp) a (G P a) = Some (G (P ++ [Sp]) a).
Hypothesis G_other :
  forall P Sp a, covers Sp a = false -> G (P ++ [Sp]) a = G P a.

Let visit (p : nat) (J A : Z) := at_entry (f p A) J.

Lemma walk_span_table (P Q : list (nat * SpanInfo.t)) (Sp : nat * SpanInfo.t)
  (SI E : Z) (Ub Ur : list Z) :
  spans = P ++ Sp :: Q ->
  walk_inv SI (SpanInfo.Start (snd Sp)) E Ub ->
  SpanInfo.End_ (snd Sp) <= E ->
  span_ends_early Sp ->
  U = Ub ++ Ur ->
  walk_span visit Sp SI (G P <$> U) = Some (G (P ++ [Sp]) <$> U).
Proof.
  intros Hsp (Hlen & HSI & HSt & Hlook & _ & _) HE Hearly HU.
  apply walk_span_map;
    [now apply StronglySorted_lt_NoDup|assumption|assumption|assumption|..].
  - intros d Hd. rewrite HU. apply lookup_app_l_Some, Hlook. lia.
  - intros a Ha Hc. eapply G_covered; eauto.
  - intros a _ Hc. now apply G_other.
Qed.

Lemma walk_rest_table (rest : list (nat * SpanInfo.t)) :
  forall (P : list (nat * SpanInfo.t)) (prev : nat * SpanInfo.t) (SI E : Z)
         (Ub : list Z),
    spans = P ++ rest ->
    walk_inv SI (SpanInfo.Start (snd prev)) E Ub ->
    Sorted span_le (prev :: rest) ->
    Forall span_ok rest ->
    Forall span_ends_early rest ->
    U = Ub ++ addresses_rest E rest ->
    walk_rest visit SI (SpanInfo.Start (snd prev)) E rest (G P <$> U)
    = Some (G spans <$> U).
Proof.
  induction rest as [|Sp rest IH]; intros P prev SI E Ub Hsp Hinv Hsort Hok
    Hearly HU.
  - rewrite app_nil_r in Hsp. rewrite Hsp. reflexivity.
  - destruct (Sorted_span_le_inv _ _ _ Hsort) as [Hle Hsort'].
    apply Forall_cons in Hok as [HokS Hok'].
    apply Forall_cons in Hearly as [HearlyS Hearly'].
    pose proof (walk_inv_step _ _ _ _ Sp Hinv Hle HokS) as Hinv'.
    cbn [addresses_rest] in HU. rewrite app_assoc in HU.
    assert (0 <= next_index SI (SpanInfo.Start (snd prev)) E Sp < UINT_MOD)
      as Hb.
    { destruct Hinv' as (Hlen & ? & ? & _).
      assert (length (Ub ++ new_addresses E Sp) <= length U)%nat.
      { rewrite HU, !length_app. lia. }
      lia. }
    rewrite walk_rest_cons; auto.
    2:{ destruct Hinv as (_ & _ & ? & _). lia. }
    rewrite (walk_span_table P rest Sp _ _ _
               (addresses_rest (next_end E Sp) rest) Hsp Hinv'); auto.
    2:{ unfold next_end.
        destruct (Z.gtb_spec (SpanInfo.Start (snd Sp)) E); [lia|].
        destruct (Z.gtb_spec (SpanInfo.End_ (snd Sp)) E); lia. }
    cbn [mbind option_bind].
    apply (IH (P ++ [Sp]) Sp _ _ (Ub ++ new_addresses E Sp)); auto.
    rewrite <- app_assoc. exact Hsp.
Qed.

Lemma walk_table (Sp : nat * SpanInfo.t) (rest : list (nat * SpanInfo.t)) :
  spans = Sp :: rest ->
  sorted_spans spans ->
  Forall span_ok spans ->
  Forall span_ends_early spans ->
  U = table_addresses spans ->
  walk visit Sp rest (G [] <$> U) = Some (G spans <$> U).
Proof.
  intros Hsp Hsort Hok Hearly HU. rewrite Hsp in Hsort, Hok, Hearly, HU.
  apply Forall_cons in Hok as [HokS Hok'].
  apply Forall_cons in Hearly as [HearlyS Hearly'].
  pose proof (walk_inv_first Sp HokS) as Hinv.
  cbn [table_addresses] in HU.
  unfold walk.
  rewrite (walk_span_table [] rest Sp _ _ _
             (addresses_rest (SpanInfo.End_ (snd Sp)) rest) Hsp Hinv);
    auto; [|lia].
  cbn [mbind option_bind].
  apply (walk_rest_table rest [Sp] Sp _ _ (span_addresses Sp)); auto.
Qed.
End WalkTable.

(** ** The table of [CreateSpanInfoList] *)

Lemma covering_app (P Q : list (nat * SpanInfo.t)) (a : Z) :
  covering (P ++ Q) a = covering P a ++ covering Q a.
Proof. unfold covering. now rewrite List.filter_app, fmap_app. Qed.

Lemma covering_snoc (P : list (nat * SpanInfo.t)) (Sp : nat * SpanInfo.t)
  (a : Z) :
  covering (P ++ [Sp]) a
  = covering P a ++ (if covers Sp a then [fst Sp] else []).
Proof.
  rewrite covering_app. f_equal. unfold covering. cbn.
  destruct (covers Sp a); reflexivity.
Qed.

Lemma covering_cons (Sp : nat * SpanInfo.t) (Q : list (nat * SpanInfo.t))
  (a : Z) :
  covering (Sp :: Q) a
  = (if covers Sp a then [fst Sp] else []) ++ covering Q a.
Proof. unfold covering. cbn. destruct (covers Sp a); reflexivity. Qed.

Lemma length_covering (P : list (nat * SpanInfo.t)) (a : Z) :
  (length (covering P a) <= length P)%nat.
Proof.
  unfold covering. rewrite length_fmap.
  induction P as [|Sp P IH]; cbn; [lia|].
  destruct (covers Sp a); cbn; lia.
Qed.

Lemma covering_nil (spans : list (nat * SpanInfo.t)) (a : Z) :
  covering spans a = [] <-> forall Sp, Sp ∈ spans -> covers Sp a = false.
Proof.
  unfold covering. induction spans as [|Sp spans IH]; cbn.
  - split; [|reflexivity]. intros _ Sp H. inversion H.
  - destruct (covers Sp a) eqn:Hc; cbn.
    + split; [discriminate|]. intros H.
      specialize (H Sp ltac:(left)). congruence.
    + rewrite IH. split.
      * intros H Tp HT. apply elem_of_cons in HT as [->|HT]; auto.
      * intros H Tp HT. apply H. now right.
Qed.

Lemma elem_of_covering (spans : list (nat * SpanInfo.t)) (a : Z) (p : nat) :
  p ∈ covering spans a
  <-> exists Sp, Sp ∈ spans /\ covers Sp a = true /\ fst Sp = p.
Proof.
  unfold covering. rewrite list_elem_of_fmap. split.
  - intros (Sp & -> & H). apply list_elem_of_In, List.filter_In in H as [H1 H2].
    exists Sp. split; [now apply list_elem_of_In|]. auto.
  - intros (Sp & H1 & H2 & <-). exists Sp. split; [reflexivity|].
    apply list_elem_of_In, List.filter_In. split; [|exact H2].
    now apply list_elem_of_In.
Qed.

Lemma insert_cursor {A} (l : list A) (k : nat) (x y : A) :
  <[length l := x]> (l ++ replicate (S k) y) = (l ++ [x]) ++ replicate k y.
Proof.
  rewrite insert_app_r_alt by lia. rewrite Nat.sub_diag. cbn.
  now rewrite <- app_assoc.
Qed.

Section Table.
Variable spans : list (nat * SpanInfo.t).
Variable Sp : nat * SpanInfo.t.
Variable rest : list (nat * SpanInfo.t).
Hypothesis spans_eq : spans = Sp :: rest.
Hypothesis spans_sorted : sorted_spans spans.
Hypothesis spans_ok : Forall span_ok spans.
Hypothesis spans_early : Forall span_ends_early spans.
Hypothesis spans_length : Z.of_nat (length spans) < UINT_MOD.
Hypothesis table_length : Z.of_nat (length (table_addresses spans)) < UINT_MOD.

Let U := table_addresses spans.

(** Step 3 leaves the number of covering spans in each entry. *)
Lemma count_walk :
  walk count_visit Sp rest (counted_entry [] <$> U)
  = Some (counted_entry spans <$> U).
Proof.
  apply (walk_table (fun _ A => count_entry A) counted_entry spans U);
    auto.
  - now apply table_addresses_spec.
  - intros P Tp Q a HP _ Hc. unfold count_entry, counted_entry. cbn.
    rewrite covering_snoc, Hc, length_app. cbn.
    pose proof (length_covering P a) as HlP.
    assert (length spans = length P + S (length Q))%nat as Hl.
    { rewrite HP, length_app. reflexivity. }
    rewrite to_unsigned_small by lia.
    replace (Z.of_nat (length (covering P a) + 1))
      with (Z.of_nat (length (covering P a)) + 1) by lia.
    destruct (Z.ltb_spec 0 (Z.of_nat (length (covering P a)) + 1)); [|lia].
    reflexivity.
  - intros P Tp a Hc. unfold counted_entry.
    now rewrite covering_snoc, Hc, app_nil_r.
Qed.

(** Step 4 turns the counts above 1 into empty indirect blocks. *)
Lemma alloc_indirect_counted (a : Z) :
  alloc_indirect (counted_entry spans a) = entered_entry spans [] a.
Proof.
  unfold alloc_indirect, counted_entry, entered_entry. cbv zeta.
  cbn [SpanInfoListEntry.Count SpanInfoListEntry.Addr SpanInfoListEntry.Data
       covering length fmap list_fmap app].
  destruct (Nat.ltb_spec 1 (length (covering spans a))) as [H|H].
  - destruct (Z.gtb_spec (Z.of_nat (length (covering spans a))) 1); [|lia].
    destruct (Z.ltb_spec 0 (Z.of_nat (length (covering spans a)))); [|lia].
    rewrite Nat2Z.id, Nat.sub_0_r. reflexivity.
  - destruct (Z.gtb_spec (Z.of_nat (length (covering spans a))) 1); [lia|].
    reflexivity.
Qed.

(** Step 5 enters the covering spans in the order of the collection. *)
Lemma enter_walk :
  walk enter_visit Sp rest (entered_entry spans [] <$> U)
  = Some (entered_entry spans spans <$> U).
Proof.
  apply (walk_table enter_entry (entered_entry spans) spans U); auto.
  - now apply table_addresses_spec.
  - intros P Tp Q a HP _ Hc. unfold entered_entry.
    rewrite covering_snoc, Hc.
    assert (length (covering P a) < length (covering spans a))%nat as Hlt.
    { rewrite HP, covering_app, covering_cons, Hc, !length_app. cbn. lia. }
    destruct (Nat.ltb_spec 1 (length (covering spans a))) as [H|H].
    + unfold enter_entry.
      cbn [SpanInfoListEntry.Addr SpanInfoListEntry.Count
           SpanInfoListEntry.Data mbind option_bind].
      rewrite Z.eqb_refl. cbn [negb].
      rewrite Nat2Z.id, length_app, length_fmap, length_replicate.
      destruct (Nat.ltb_spec (length (covering P a))
                  (length (covering P a)
                   + (length (covering spans a) - length (covering P a))))
        as [_|?]; [|lia].
      pose proof (length_covering P a) as HlP.
      assert (length spans = length P + S (length Q))%nat as Hl.
      { rewrite HP, length_app. reflexivity. }
      rewrite to_unsigned_small by lia.
      rewrite length_app. cbn [length].
      replace (Z.of_nat (length (covering P a) + 1))
        with (Z.of_nat (length (covering P a)) + 1) by lia.
      do 3 f_equal.
      replace (length (covering spans a) - length (covering P a))%nat
        with (S (length (covering spans a) - (length (covering P a) + 1)))
        by lia.
      rewrite <- (length_fmap Some (covering P a)) at 1.
      rewrite insert_cursor, fmap_app. reflexivity.
    + destruct (covering P a) as [|p ps] eqn:HcP; [|cbn in Hlt; lia].
      cbn. unfold enter_entry, counted_entry. cbn.
      assert (length (covering spans a) = 1)%nat as -> by (cbn in Hlt; lia).
      change (0 <? Z.of_nat 1) with true. cbn. rewrite Z.eqb_refl.
      reflexivity.
  - intros P Tp a Hc. unfold entered_entry.
    now rewrite covering_snoc, Hc, app_nil_r.
Qed.

(** After step 5 the entries are those of [table_entry]. *)
Lemma entered_all (a : Z) :
  a ∈ U -> entered_entry spans spans a = table_entry spans a.
Proof.
  intros Ha. apply table_addresses_spec in Ha; auto.
  destruct Ha as (Tp & HT & Hc).
  assert (fst Tp ∈ covering spans a) as Hin.
  { apply elem_of_covering. eauto. }
  unfold entered_entry, table_entry.
  destruct (covering spans a) as [|p [|q ps]]; cbn.
  - inversion Hin.
  - reflexivity.
  - rewrite Nat.sub_diag. cbn. now rewrite app_nil_r.
Qed.

Lemma CreateSpanInfoList_table (m : Store.t) (SpanInfos : Collection) :
  fetch_spans m SpanInfos = Some spans ->
  CreateSpanInfoList m SpanInfos = Some (span_table spans).
Proof.
  intros Hf. unfold CreateSpanInfoList. rewrite Hf. cbn [mbind option_bind].
  rewrite spans_eq.
  assert (unique_addresses (snd Sp) rest = Z.of_nat (length U)) as ->.
  { rewrite unique_addresses_spec by (rewrite <- spans_eq; exact spans_ok).
    rewrite <- spans_eq. now apply to_unsigned_small; split; [lia|]. }
  rewrite Nat2Z.id.
  assert (replicate (length U) (SpanInfoListEntry.mk None 0 DataNull)
          = counted_entry [] <$> U) as ->.
  { symmetry. apply const_fmap. reflexivity. }
  rewrite count_walk. cbn [mbind option_bind].
  assert (map alloc_indirect (counted_entry spans <$> U)
          = entered_entry spans [] <$> U) as ->.
  { change (map alloc_indirect (counted_entry spans <$> U))
      with (alloc_indirect <$> (counted_entry spans <$> U)).
    rewrite <- list_fmap_compose. apply list_fmap_ext.
    intros i a _. apply alloc_indirect_counted. }
  rewrite enter_walk. cbn [mbind option_bind].
  unfold span_table. rewrite <- spans_eq. fold U. do 2 f_equal.
  apply list_fmap_ext. intros i a Hi. apply entered_all.
  eapply list_elem_of_lookup_2, Hi.
Qed.
End Table.

Lemma CreateSpanInfoList_spec (m : Store.t) (SpanInfos : Collection)
  (spans : list (nat * SpanInfo.t)) :
  fetch_spans m SpanInfos = Some spans ->
  sorted_spans spans ->
  Forall span_ok spans ->
  Forall span_ends_early spans ->
  Z.of_nat (length spans) < UINT_MOD ->
  Z.of_nat (length (table_addresses spans)) < UINT_MOD ->
  CreateSpanInfoList m SpanInfos = Some (span_table spans).
Proof.
  intros Hf Hsort Hok Hearly Hl Ht. destruct spans as [|Sp rest].
  - unfold CreateSpanInfoList. rewrite Hf. reflexivity.
  - now apply (CreateSpanInfoList_table (Sp :: rest) Sp rest).
Qed.

(** ** The query by address *)

Lemma StronglySorted_lt_lookup (l : list Z) :
  StronglySorted Z.lt l ->
  forall (i j : nat) (x y : Z),
    l !! i = Some x -> l !! j = Some y -> (i < j)%nat -> x < y.
Proof.
  induction 1 as [|z l Hs IH Hz]; intros i j x y Hi Hj Hij.
  - inversion Hi.
  - destruct j as [|j]; [lia|]. cbn in Hj. destruct i as [|i].
    + cbn in Hi. injection Hi as <-.
      rewrite List.Forall_forall in Hz. apply Hz.
      apply list_elem_of_In. eapply list_elem_of_lookup_2, Hj.
    + cbn in Hi. apply (IH i j); auto. lia.
Qed.

Lemma StronglySorted_lt_lookup_le (l : list Z) (i j : nat) (x y : Z) :
  StronglySorted Z.lt l ->
  l !! i = Some x -> l !! j = Some y -> (i <= j)%nat -> x <= y.
Proof.
  intros Hs Hi Hj Hij. destruct (decide (i = j)) as [->|Hne].
  - rewrite Hi in Hj. injection Hj as <-. lia.
  - pose proof (StronglySorted_lt_lookup l Hs i j x y Hi Hj). lia.
Qed.

(** The binary search finds the entry of an address that is in the table,
    and nothing for any other address. *)
Lemma FindSpanInfoByAddr_loop_spec (g : Z -> SpanInfoListEntry.t)
  (U : list Z) (N a : Z) :
  StronglySorted Z.lt U ->
  Z.of_nat (length U) <= 1073741824 ->
  (forall x, x ∈ U -> SpanInfoListEntry.Addr (g x) = Some x) ->
  forall (fuel : nat) (Lo Hi : Z),
    0 <= Lo -> Hi < Z.of_nat (length U) -> Lo <= Hi + 1 ->
    Hi - Lo + 1 <= Z.of_nat fuel ->
    (forall i x, U !! i = Some x -> Z.of_nat i < Lo -> x < a) ->
    (forall i x, U !! i = Some x -> Hi < Z.of_nat i -> a < x) ->
    FindSpanInfoByAddr_loop fuel (SpanInfoList.mk N (g <$> U)) a Lo Hi
    = Some (if decide (a ∈ U) then Some (g a) else None).
Proof.
  intros Hs Hn Hg.
  assert (forall Lo Hi, Hi < Lo ->
            (forall i x, U !! i = Some x -> Z.of_nat i < Lo -> x < a) ->
            (forall i x, U !! i = Some x -> Hi < Z.of_nat i -> a < x) ->
            a ∉ U) as Hout.
  { intros Lo Hi HLH Hlow Hhigh Hin.
    apply list_elem_of_lookup_1 in Hin as [i Hi'].
    destruct (Z.lt_ge_cases (Z.of_nat i) Lo) as [Hc|Hc].
    - specialize (Hlow i a Hi' Hc). lia.
    - specialize (Hhigh i a Hi' ltac:(lia)). lia. }
  induction fuel as [|fuel IH]; intros Lo Hi HLo HHi HLH Hfuel Hlow Hhigh.
  - cbn [FindSpanInfoByAddr_loop].
    destruct (Z.leb_spec Lo Hi) as [?|Hgt]; [lia|].
    destruct (decide (a ∈ U)) as [Hin|_]; [|reflexivity].
    exfalso. eapply Hout; eauto.
  - cbn [FindSpanInfoByAddr_loop].
    destruct (Z.leb_spec Lo Hi) as [Hle|Hgt].
    + rewrite (to_int_small (Lo + Hi)) by (unfold INT_MAX; lia).
      rewrite Z.quot_div_nonneg by lia.
      assert (Lo <= (Lo + Hi) / 2 <= Hi) as HCur
        by (Z.to_euclidean_division_equations; lia).
      set (Cur := (Lo + Hi) / 2) in *.
      destruct (Z.ltb_spec Cur 0) as [?|_]; [lia|].
      cbn [SpanInfoList.List_].
      destruct (lookup_lt_is_Some_2 U (Z.to_nat Cur)) as [x Hx]; [lia|].
      rewrite list_lookup_fmap, Hx. cbn [fmap option_fmap option_map mbind
                                         option_bind].
      rewrite Hg by (eapply list_elem_of_lookup_2, Hx).
      cbn [mbind option_bind].
      destruct (Z.gtb_spec x a) as [Hxa|Hxa].
      { rewrite to_int_small by (unfold INT_MAX; lia).
        apply IH; try lia; auto.
        intros i y Hy Hi'.
        pose proof (StronglySorted_lt_lookup_le U (Z.to_nat Cur) i x y Hs Hx Hy).
        lia. }
      destruct (Z.ltb_spec x a) as [Hxa'|Hxa'].
      { rewrite to_int_small by (unfold INT_MAX; lia).
        apply IH; try lia; auto.
        intros i y Hy Hi'.
        pose proof (StronglySorted_lt_lookup_le U i (Z.to_nat Cur) y x Hs Hy Hx).
        lia. }
      assert (x = a) as -> by lia.
      destruct (decide (a ∈ U)) as [_|Hnin]; [reflexivity|].
      exfalso. apply Hnin. eapply list_elem_of_lookup_2, Hx.
    + destruct (decide (a ∈ U)) as [Hin|_]; [|reflexivity].
      exfalso. eapply Hout; eauto.
Qed.

Lemma table_entry_Addr (spans : list (nat * SpanInfo.t)) (a : Z) :
  SpanInfoListEntry.Addr (table_entry spans a) = Some a.
Proof.
  unfold table_entry. destruct (covering spans a) as [|p [|q ps]]; reflexivity.
Qed.

Lemma FindSpanInfoByAddr_table (spans : list (nat * SpanInfo.t)) (a : Z) :
  sorted_spans spans ->
  Forall span_ok spans ->
  Z.of_nat (length (table_addresses spans)) <= 1073741824 ->
  FindSpanInfoByAddr (span_table spans) a
  = Some (if decide (a ∈ table_addresses spans)
          then Some (table_entry spans a) else None).
Proof.
  intros Hsort Hok Hn. unfold FindSpanInfoByAddr, span_table.
  cbn [SpanInfoList.Count].
  rewrite (to_int_small (Z.of_nat _)) by (unfold INT_MAX; lia).
  rewrite to_int_small by (unfold INT_MAX; lia).
  apply FindSpanInfoByAddr_loop_spec; try lia.
  - now apply table_addresses_spec.
  - intros x _. apply table_entry_Addr.
  - intros i x Hx Hi. apply lookup_lt_Some in Hx. lia.
Qed.

Lemma mapM_omap {A B} (F : A -> option B) (l : list A) :
  (forall x, x ∈ l -> is_Some (F x)) ->
  mapM (fun c : option A => x ← c; F x) (Some <$> l) = Some (omap F l).
Proof.
  induction l as [|x l IH]; intros H; [reflexivity|].
  destruct (H x ltac:(left)) as [d Hd].
  cbn. rewrite Hd. cbn. cbn in IH. rewrite IH by (intros; apply H; now right).
  reflexivity.
Qed.

Lemma mapM_copies (m : Store.t) (ps : list nat) :
  (forall p, p ∈ ps -> is_Some (CopySpanInfo m (Some p))) ->
  mapM (fun c : option nat => Sp ← c; CopySpanInfo m (Some Sp)) (Some <$> ps)
  = Some (copies m ps).
Proof. apply (mapM_omap (fun p => CopySpanInfo m (Some p))). Qed.

(** The query returns the copies of the spans that cover the address, in
    the order of the collection, and null when there is none. *)
Lemma cc65_spaninfo_byaddr_table (h : DbgInfo.t)
  (spans : list (nat * SpanInfo.t)) (a : Z) :
  DbgInfo.SpanInfoByAddr h = span_table spans ->
  sorted_spans spans ->
  Forall span_ok spans ->
  Z.of_nat (length (table_addresses spans)) <= 1073741824 ->
  Forall (copyable (DbgInfo.Mem h)) spans ->
  0 <= a <= UINT_MAX ->
  cc65_spaninfo_byaddr h a
  = Some (match covering spans a with
          | [] => None
          | ps => Some (copies (DbgInfo.Mem h) ps)
          end).
Proof.
  intros Hh Hsort Hok Hn Hcopy Ha. unfold cc65_spaninfo_byaddr.
  rewrite to_unsigned_small by (unfold UINT_MOD, UINT_MAX in *; lia).
  rewrite Hh, FindSpanInfoByAddr_table by assumption.
  cbn [mbind option_bind].
  assert (forall p, p ∈ covering spans a ->
            is_Some (CopySpanInfo (DbgInfo.Mem h) (Some p))) as Hc.
  { intros p Hp. apply elem_of_covering in Hp as (Sp & HSp & _ & <-).
    rewrite List.Forall_forall in Hcopy. apply Hcopy.
    now apply list_elem_of_In. }
  destruct (decide (a ∈ table_addresses spans)) as [Hin|Hnin].
  - apply table_addresses_spec in Hin; auto.
    destruct Hin as (Tp & HT & HTc).
    assert (fst Tp ∈ covering spans a) as Hne
      by (apply elem_of_covering; eauto).
    unfold table_entry.
    destruct (covering spans a) as [|p [|q ps]] eqn:Hcov.
    + inversion Hne.
    + destruct (Hc p ltac:(left)) as [d Hd].
      cbn [SpanInfoListEntry.Count SpanInfoListEntry.Data].
      rewrite Z.eqb_refl, Hd. unfold copies. cbn [omap list_omap].
      rewrite Hd. reflexivity.
    + cbn [SpanInfoListEntry.Count SpanInfoListEntry.Data].
      destruct (Z.eqb_spec (Z.of_nat (length (p :: q :: ps))) 1) as [He|_];
        [cbn in He; lia|].
      rewrite Nat2Z.id, take_ge by (rewrite length_fmap; lia).
      rewrite mapM_copies by assumption. cbn [mbind option_bind].
      rewrite length_fmap, Nat.leb_refl. reflexivity.
  - assert (covering spans a = []) as ->; [|reflexivity].
    apply covering_nil. intros Sp HSp.
    destruct (covers Sp a) eqn:Hcv; [|reflexivity].
    exfalso. apply Hnin. apply table_addresses_spec; eauto.
Qed.

Lemma length_table_addresses (spans : list (nat * SpanInfo.t)) :
  sorted_spans spans -> Forall span_ok spans ->
  length (table_addresses spans) = length (distinct_addresses spans).
Proof.
  intros Hsort Hok. apply Permutation_length.
  now apply table_addresses_distinct.
Qed.

Lemma overlapping_spans_sorted : sorted_spans overlapping_spans.
Proof. repeat constructor; unfold span_le; cbn; lia. Qed.

Lemma overlapping_spans_ok : Forall span_ok overlapping_spans.
Proof.
  repeat (apply Forall_cons; split; [unfold span_ok; cbn; lia|]).
  constructor.
Qed.

Lemma overlapping_spans_early : Forall span_ends_early overlapping_spans.
Proof.
  repeat (apply Forall_cons; split;
          [unfold span_ends_early, UINT_MAX; cbn; lia|]).
  constructor.
Qed.

Lemma overlapping_spans_copyable :
  Forall (copyable (DbgInfo.Mem (loaded input_overlapping_spans)))
    overlapping_spans.
Proof.
  repeat (apply Forall_cons; split; [eexists; vm_compute; reflexivity|]).
  constructor.
Qed.

(** ** Collections of records *)

Lemma fetch_records_Forall2 {A} (store : list A) (C : Collection)
  (rs : list (nat * A)) :
  fetch_records store C = Some rs ->
  Forall2 (fun e r => entry_ptr e = Some (Some (fst r))
                      /\ store !! fst r = Some (snd r)) (Items C) rs.
Proof.
  intros H. apply mapM_Some in H. eapply Forall2_impl; [exact H|].
  intros e [p r] He. cbn in He.
  destruct (entry_ptr e) as [[q|]|]; cbn in He; try discriminate.
  destruct (store !! q) as [r'|] eqn:Hq; cbn in He; try discriminate.
  injection He as <- <-. auto.
Qed.

Lemma fetch_records_length {A} (store : list A) (C : Collection)
  (rs : list (nat * A)) :
  fetch_records store C = Some rs -> CollCount C = Z.of_nat (length rs).
Proof.
  intros H. apply fetch_records_Forall2, Forall2_length in H.
  unfold CollCount. now rewrite H.
Qed.

Lemma fetch_records_lookup {A} (store : list A) (C : Collection)
  (rs : list (nat * A)) (i : nat) (r : nat * A) :
  fetch_records store C = Some rs ->
  rs !! i = Some r ->
  CollAt C i = Some (Some (fst r)) /\ deref store (Some (fst r)) = Some (snd r).
Proof.
  intros H Hi. apply fetch_records_Forall2 in H.
  destruct (Forall2_lookup_r _ _ _ _ _ H Hi) as (e & He & Hp & Hs).
  unfold CollAt, deref. rewrite He. cbn. auto.
Qed.

Lemma StronglySorted_lookup {A} (R : A -> A -> Prop) (l : list A) :
  StronglySorted R l ->
  forall (i j : nat) (x y : A),
    l !! i = Some x -> l !! j = Some y -> (i < j)%nat -> R x y.
Proof.
  induction 1 as [|z l Hs IH Hz]; intros i j x y Hi Hj Hij.
  - inversion Hi.
  - destruct j as [|j]; [lia|]. cbn in Hj. destruct i as [|i].
    + cbn in Hi. injection Hi as <-.
      rewrite List.Forall_forall in Hz. apply Hz.
      apply list_elem_of_In. eapply list_elem_of_lookup_2, Hj.
    + cbn in Hi. apply (IH i j); auto. lia.
Qed.

Lemma mapM_fmap_omap {A B C} (F : B -> option C) (g : A -> B) (l : list A) :
  (forall x, x ∈ l -> is_Some (F (g x))) ->
  mapM F (g <$> l) = Some (omap (fun x => F (g x)) l).
Proof.
  induction l as [|x l IH]; intros H; [reflexivity|].
  destruct (H x ltac:(left)) as [d Hd].
  cbn. rewrite Hd. cbn. cbn in IH. rewrite IH by (intros; apply H; now right).
  reflexivity.
Qed.

(** ** The query for the labels in a range *)

#[local] Instance sym_le_trans : Transitive sym_le.
Proof. unfold sym_le. intros x y z. lia. Qed.

Lemma sorted_by_value_lookup (syms : list (nat * SymInfo.t)) (i j : nat)
  (x y : nat * SymInfo.t) :
  sorted_by_value syms ->
  syms !! i = Some x -> syms !! j = Some y -> (i <= j)%nat ->
  SymInfo.Value (snd x) <= SymInfo.Value (snd y).
Proof.
  intros Hs Hi Hj Hij. destruct (decide (i = j)) as [->|Hne].
  - rewrite Hi in Hj. injection Hj as <-. lia.
  - apply Sorted_StronglySorted in Hs; [|apply sym_le_trans].
    apply (StronglySorted_lookup sym_le syms Hs i j x y Hi Hj). lia.
Qed.

(** The search ends at the lower bound of the value: the index of the
    first symbol that is not below it. *)
Lemma FindSymInfoByValue_loop_spec (m : Store.t) (C : Collection)
  (syms : list (nat * SymInfo.t)) (V : Z) :
  fetch_records (Store.SymInfos m) C = Some syms ->
  sorted_by_value syms ->
  Z.of_nat (length syms) <= 1073741824 ->
  forall (fuel : nat) (Lo Hi : Z) (Found : bool),
    0 <= Lo -> Hi < Z.of_nat (length syms) -> Lo <= Hi + 1 ->
    Hi - Lo + 1 <= Z.of_nat fuel ->
    (forall i s, syms !! i = Some s -> Z.of_nat i < Lo ->
                 SymInfo.Value (snd s) < V) ->
    (forall i s, syms !! i = Some s -> Hi < Z.of_nat i ->
                 V <= SymInfo.Value (snd s)) ->
    exists (Found' : bool) (L : Z),
      FindSymInfoByValue_loop fuel m C V Lo Hi Found = Some (Found', L)
      /\ 0 <= L <= Z.of_nat (length syms)
      /\ (forall i s, syms !! i = Some s -> Z.of_nat i < L ->
                      SymInfo.Value (snd s) < V)
      /\ (forall i s, syms !! i = Some s -> L <= Z.of_nat i ->
                      V <= SymInfo.Value (snd s)).
Proof.
  intros Hf Hs Hn.
  induction fuel as [|fuel IH]; intros Lo Hi Found HLo HHi HLH Hfuel Hlow Hhigh.
  - cbn [FindSymInfoByValue_loop].
    destruct (Z.leb_spec Lo Hi) as [?|Hgt]; [lia|].
    exists Found, Lo. repeat split; auto; try lia.
    intros i s Hi' HL. apply (Hhigh i s Hi'). lia.
  - cbn [FindSymInfoByValue_loop].
    destruct (Z.leb_spec Lo Hi) as [Hle|Hgt].
    + rewrite (to_int_small (Lo + Hi)) by (unfold INT_MAX; lia).
      rewrite Z.quot_div_nonneg by lia.
      assert (Lo <= (Lo + Hi) / 2 <= Hi) as HCur
        by (Z.to_euclidean_division_equations; lia).
      set (Cur := (Lo + Hi) / 2) in *.
      destruct (Z.ltb_spec Cur 0) as [?|_]; [lia|].
      destruct (lookup_lt_is_Some_2 syms (Z.to_nat Cur)) as [x Hx]; [lia|].
      destruct (fetch_records_lookup _ _ _ _ _ Hf Hx) as [Hat Hderef].
      rewrite Hat. cbn [mbind option_bind]. rewrite Hderef.
      cbn [mbind option_bind].
      destruct (Z.gtb_spec V (SymInfo.Value (snd x))) as [Hxa|Hxa].
      * rewrite to_int_small by (unfold INT_MAX; lia).
        apply IH; try lia; auto.
        intros i y Hy Hi'.
        pose proof (sorted_by_value_lookup syms i (Z.to_nat Cur) y x Hs Hy Hx).
        lia.
      * rewrite to_int_small by (unfold INT_MAX; lia).
        apply IH; try lia; auto.
        intros i y Hy Hi'.
        pose proof (sorted_by_value_lookup syms (Z.to_nat Cur) i x y Hs Hx Hy).
        lia.
    + exists Found, Lo. repeat split; auto; try lia.
      intros i s Hi' HL. apply (Hhigh i s Hi'). lia.
Qed.

Lemma FindSymInfoByValue_spec (m : Store.t) (C : Collection)
  (syms : list (nat * SymInfo.t)) (V : Z) :
  fetch_records (Store.SymInfos m) C = Some syms ->
  sorted_by_value syms ->
  Z.of_nat (length syms) <= 1073741824 ->
  exists (Found : bool) (L : nat),
    FindSymInfoByValue m C V = Some (Found, Z.of_nat L)
    /\ (L <= length syms)%nat
    /\ (forall i s, syms !! i = Some s -> (i < L)%nat ->
                    SymInfo.Value (snd s) < V)
    /\ (forall i s, syms !! i = Some s -> (L <= i)%nat ->
                    V <= SymInfo.Value (snd s)).
Proof.
  intros Hf Hs Hn. unfold FindSymInfoByValue.
  rewrite (fetch_records_length _ _ _ Hf).
  rewrite (to_int_small (Z.of_nat _)) by (unfold INT_MAX; lia).
  rewrite to_int_small by (unfold INT_MAX; lia).
  destruct (FindSymInfoByValue_loop_spec m C syms V Hf Hs Hn
              (Z.to_nat (Z.of_nat (length syms) - 1 + 1)) 0
              (Z.of_nat (length syms) - 1) false)
    as (Found & L & Hloop & HL & Hlow & Hhigh); try lia.
  - intros i s Hi. apply lookup_lt_Some in Hi. lia.
  - exists Found, (Z.to_nat L). rewrite Hloop. cbn [mbind option_bind fst snd].
    rewrite to_unsigned_small by (unfold UINT_MOD; lia).
    rewrite Z2Nat.id by lia. repeat split; try lia.
    + intros i s Hi HiL. apply (Hlow i s Hi). lia.
    + intros i s Hi HiL. apply (Hhigh i s Hi). lia.
Qed.

(** The scan collects the labels up to the first value above [End_]. *)
Lemma symbol_scan_spec (m : Store.t) (End_ : Z) (es : list CollEntry)
  (syms : list (nat * SymInfo.t)) :
  Forall2 (fun e r => entry_ptr e = Some (Some (fst r))
                      /\ Store.SymInfos m !! fst r = Some (snd r)) es syms ->
  StronglySorted sym_le syms ->
  symbol_scan m es End_
  = Some ((fun s => Some (fst s))
          <$> List.filter
                (fun s => is_label s && (SymInfo.Value (snd s) <=? End_)) syms).
Proof.
  induction 1 as [|e s es syms [He Hs] HF IH]; intros Hsort; [reflexivity|].
  apply StronglySorted_inv in Hsort as [Hsort Hall].
  cbn [symbol_scan List.filter]. rewrite He. cbn [mbind option_bind].
  unfold deref. cbn [mbind option_bind]. rewrite Hs. cbn [mbind option_bind].
  destruct (Z.gtb_spec (SymInfo.Value (snd s)) End_) as [Hgt|Hle].
  - destruct (Z.leb_spec (SymInfo.Value (snd s)) End_) as [?|_]; [lia|].
    rewrite andb_false_r.
    assert (List.filter
              (fun s => is_label s && (SymInfo.Value (snd s) <=? End_)) syms
            = []) as ->; [|reflexivity].
    clear -Hall Hgt. induction syms as [|t syms IH]; [reflexivity|].
    apply Forall_cons in Hall as [Ht Hall]. cbn. unfold sym_le in Ht.
    destruct (Z.leb_spec (SymInfo.Value (snd t)) End_) as [?|_]; [lia|].
    rewrite andb_false_r. auto.
  - destruct (Z.leb_spec (SymInfo.Value (snd s)) End_) as [_|?]; [|lia].
    rewrite andb_true_r, (IH Hsort). unfold is_label.
    destruct (SymInfo.Type_ (snd s)); reflexivity.
Qed.

Lemma filter_ext_lookup {A} (P Q : A -> bool) (l : list A) :
  (forall i x, l !! i = Some x -> P x = Q x) ->
  List.filter P l = List.filter Q l.
Proof.
  induction l as [|x l IH]; intros H; [reflexivity|]. cbn.
  rewrite (H 0%nat x eq_refl), IH; [reflexivity|].
  intros i y Hy. apply (H (S i) y Hy).
Qed.

Lemma symbols_by_value_sorted : sorted_by_value symbols_by_value.
Proof. repeat constructor; unfold sym_le; cbn; lia. Qed.

(** ** The query for a line of a file *)






(** ** The main scope of a module *)

Lemma for_range_inv {St} (body : nat -> St -> option St)
  (Inv : nat -> St -> Prop) (n : nat) :
  forall (i : nat) (s s' : St),
    for_range body i n s = Some s' ->
    Inv i s ->
    (forall j t t', (i <= j < i + n)%nat -> body j t = Some t' ->
                    Inv j t -> Inv (S j) t') ->
    Inv (i + n)%nat s'.
Proof.
  induction n as [|n IH]; intros i s s' H Hi Hstep.
  - cbn in H. injection H as <-. now rewrite Nat.add_0_r.
  - cbn [for_range] in H. apply bind_Some in H as (t & Ht & H).
    replace (i + S n)%nat with (S i + n)%nat by lia.
    apply (IH (S i) t s' H).
    + apply (Hstep i s t); auto. lia.
    + intros j u u' Hj. apply Hstep. lia.
Qed.

Lemma scope_frame_refl (Sc : option nat) (D : InputData.t) :
  scope_frame Sc D D.
Proof. repeat split. Qed.

Lemma scope_frame_trans (Sc : option nat) (D1 D2 D3 : InputData.t) :
  scope_frame Sc D1 D2 -> scope_frame Sc D2 D3 -> scope_frame Sc D1 D3.
Proof.
  intros (H1 & H2 & H3 & H4) (K1 & K2 & K3 & K4). repeat split.
  - now rewrite K1.
  - now rewrite K2.
  - now rewrite K3.
  - intros q Hq. now rewrite K4, H4.
Qed.

Lemma ParseError_frame (Sc : option nat) (D : InputData.t)
  (T : cc65_error_severity) (Msg : Message) :
  scope_frame Sc D (ParseError D T Msg).
Proof. destruct T; repeat split. Qed.

Lemma put_Scope_frame (Sc : option nat) (D D' : InputData.t)
  (r : ScopeInfo.t) :
  put_Scope D Sc r = Some D' -> scope_frame Sc D D'.
Proof.
  unfold put_Scope, put. intros H.
  apply bind_Some in H as (l & Hl & H). injection H as <-.
  apply bind_Some in Hl as (p & -> & Hl).
  apply bind_Some in Hl as (old & Hold & Hl). injection Hl as <-.
  repeat split. intros q Hq. cbn.
  apply list_lookup_insert_ne. congruence.
Qed.

Lemma put_Span_frame (Sc P : option nat) (D D' : InputData.t)
  (r : SpanInfo.t) :
  put_Span D P r = Some D' -> scope_frame Sc D D'.
Proof.
  unfold put_Span. intros H.
  apply bind_Some in H as (l & Hl & H). injection H as <-.
  repeat split.
Qed.

Lemma ProcessScopeInfo_span_frame (Sc : option nat) (J : nat)
  (D D' : InputData.t) :
  ProcessScopeInfo_span Sc J D = Some D' -> scope_frame Sc D D'.
Proof.
  unfold ProcessScopeInfo_span. intros H.
  apply bind_Some in H as (Sr & HSr & H).
  apply bind_Some in H as (SpanId & HId & H).
  destruct (SpanId >=? _).
  - cbv zeta in H. apply bind_Some in H as (C & HC & H).
    eapply scope_frame_trans; [apply ParseError_frame|].
    eapply put_Scope_frame, H.
  - apply bind_Some in H as (SP & HSP & H).
    apply bind_Some in H as (C & HC & H).
    apply bind_Some in H as (D1 & HD1 & H).
    apply bind_Some in H as (SPr & HSPr & H). cbv zeta in H.
    apply bind_Some in H as (L & HL & H).
    eapply scope_frame_trans; [eapply put_Scope_frame, HD1|].
    eapply put_Span_frame, H.
Qed.

Lemma ProcessScopeInfo_spans_frame (Sc : option nat) (n : nat)
  (D D' : InputData.t) :
  for_range (ProcessScopeInfo_span Sc) 0 n D = Some D' -> scope_frame Sc D D'.
Proof.
  intros H.
  apply (for_range_inv _ (fun _ t => scope_frame Sc D t) n 0%nat D D' H).
  - apply scope_frame_refl.
  - intros j t t' _ Ht Hf. eapply scope_frame_trans; [exact Hf|].
    eapply ProcessScopeInfo_span_frame, Ht.
Qed.

Lemma put_Mod_effect (D D' : InputData.t) (M : option nat) (r : ModInfo.t) :
  put_Mod D M r = Some D' ->
  exists m,
    M = Some m
    /\ is_Some (Store.ModInfos (mem D) !! m)
    /\ Store.ModInfos (mem D') = <[m := r]> (Store.ModInfos (mem D))
    /\ Store.ScopeInfos (mem D') = Store.ScopeInfos (mem D)
    /\ DbgInfo.ModInfoById (InputData.Info D')
       = DbgInfo.ModInfoById (InputData.Info D)
    /\ DbgInfo.ScopeInfoById (InputData.Info D')
       = DbgInfo.ScopeInfoById (InputData.Info D)
    /\ InputData.Reported D' = InputData.Reported D.
Proof.
  unfold put_Mod, put. intros H.
  apply bind_Some in H as (l & Hl & H). injection H as <-.
  apply bind_Some in Hl as (m & -> & Hl).
  apply bind_Some in Hl as (old & Hold & Hl). injection Hl as <-.
  exists m. repeat split. eauto.
Qed.

(** One pass of the scope loop: the scope at index [I] becomes the main
    scope of its module if it has no parent, whatever the main scope was
    before; the other modules and the other scopes stay as they are. *)
Lemma ProcessScopeInfo_scope_spec (I : nat) (D D' : InputData.t) :
  ProcessScopeInfo_scope I D = Some D' ->
  exists (p : nat) (Sr : ScopeInfo.t),
    CollAt (DbgInfo.ScopeInfoById (InputData.Info D)) I = Some (Some p)
    /\ Store.ScopeInfos (mem D) !! p = Some Sr
    /\ DbgInfo.ModInfoById (InputData.Info D')
       = DbgInfo.ModInfoById (InputData.Info D)
    /\ DbgInfo.ScopeInfoById (InputData.Info D')
       = DbgInfo.ScopeInfoById (InputData.Info D)
    /\ (forall q, q <> p ->
          Store.ScopeInfos (mem D') !! q = Store.ScopeInfos (mem D) !! q)
    /\ (forall m Mr, Store.ModInfos (mem D) !! m = Some Mr ->
          exists Mr',
            Store.ModInfos (mem D') !! m = Some Mr'
            /\ ModInfo.Id Mr' = ModInfo.Id Mr
            /\ ModInfo.MainScope Mr'
               = if main_of (DbgInfo.ModInfoById (InputData.Info D)) (Some m)
                            (p, Sr)
                 then Some p else ModInfo.MainScope Mr).
Proof.
  unfold ProcessScopeInfo_scope. intros H.
  apply bind_Some in H as (Sc & HSc & H).
  apply bind_Some in H as (Sr & HSr & H).
  apply bind_Some in H as (ModId & HModId & H).
  apply bind_Some in H as (D1 & HD1 & H).
  apply bind_Some in H as (Sr1 & HSr1 & H).
  apply bind_Some in H as (ParentId1 & HPar1 & H).
  apply bind_Some in H as (D2 & HD2 & H).
  apply bind_Some in H as (Sr2 & HSr2 & H).
  apply bind_Some in H as (LabelId & HLab & H).
  apply bind_Some in H as (D3 & HD3 & H).
  apply bind_Some in H as (Sr3 & HSr3 & H).
  unfold get_Scope, deref in HSr. destruct Sc as [p|]; [|discriminate].
  cbn [mbind option_bind] in HSr.
  exists p, Sr. split; [exact HSc|]. split; [exact HSr|].
  (* The steps after the module has been resolved *)
  assert (scope_frame (Some p) D1 D') as (F1 & F2 & F3 & F4).
  { apply (scope_frame_trans _ D1 D2); [|apply (scope_frame_trans _ D2 D3)].
    - destruct (ParentId1 =? CC65_INV_ID); [eapply put_Scope_frame, HD2|].
      destruct (ParentId1 >=? _).
      + cbv zeta in HD2.
        eapply scope_frame_trans; [apply ParseError_frame|].
        eapply put_Scope_frame, HD2.
      + apply bind_Some in HD2 as (P & HP & HD2).
        eapply put_Scope_frame, HD2.
    - destruct (LabelId =? CC65_INV_ID); [eapply put_Scope_frame, HD3|].
      destruct (LabelId >=? _).
      + cbv zeta in HD3.
        eapply scope_frame_trans; [apply ParseError_frame|].
        eapply put_Scope_frame, HD3.
      + apply bind_Some in HD3 as (Lb & HLb & HD3).
        eapply put_Scope_frame, HD3.
    - eapply ProcessScopeInfo_spans_frame, H. }
  rewrite F1, F2, F3.
  assert (forall q, q <> p ->
            Store.ScopeInfos (mem D') !! q = Store.ScopeInfos (mem D1) !! q)
    as F4' by (intros q Hq; apply F4; congruence).
  clear F4 H HD2 HD3 HSr1 HSr2 HSr3 HPar1 HLab F1 F2 F3.
  unfold main_of. cbn [snd fst].
  destruct (ScopeInfo.Mod Sr) as [ModId'|] eqn:HMod; [|discriminate].
  injection HModId as ->.
  destruct (Z.geb_spec ModId
              (CollCount (DbgInfo.ModInfoById (InputData.Info D))))
    as [Hge|Hlt].
  - (* Invalid module id *)
    cbv zeta in HD1.
    assert (scope_frame (Some p) D D1) as (G1 & G2 & G3 & G4).
    { eapply scope_frame_trans; [apply ParseError_frame|].
      eapply put_Scope_frame, HD1. }
    rewrite G1, G2, G3. repeat split.
    + intros q Hq. rewrite F4' by assumption. apply G4. congruence.
    + intros m Mr Hm. exists Mr. destruct (ScopeInfo.Parent Sr); auto.
  - (* The module of the scope *)
    apply bind_Some in HD1 as (M & HM & HD1).
    apply bind_Some in HD1 as (Da & HDa & HD1).
    apply bind_Some in HD1 as (Mr0 & HMr0 & HD1).
    apply bind_Some in HD1 as (C & HC & HD1). cbv zeta in HD1.
    apply bind_Some in HD1 as (ParentId & HPar & HD1).
    destruct (ScopeInfo.Parent Sr) as [ParentId'|] eqn:HParent;
      [|discriminate].
    injection HPar as ->.
    apply put_Scope_frame in HDa as (G1 & G2 & G3 & G4).
    apply put_Mod_effect in HD1
      as (m0 & -> & [old Hold] & K1 & K2 & K3 & K4 & _).
    unfold get_Mod, deref in HMr0. cbn [mbind option_bind] in HMr0.
    rewrite K3, K4, G1, G2. repeat split.
    + intros q Hq. rewrite F4', K2 by assumption. apply G4. congruence.
    + intros m Mr Hm. rewrite K1, G3.
      destruct (decide (m = m0)) as [->|Hne].
      * rewrite list_lookup_insert_eq
          by (apply lookup_lt_Some in Hm; exact Hm).
        rewrite G3, Hm in HMr0. injection HMr0 as <-.
        eexists. split; [reflexivity|]. split.
        { destruct (ParentId =? CC65_INV_ID); reflexivity. }
        rewrite bool_decide_eq_true_2 by exact HM. cbn [negb andb].
        destruct (ParentId =? CC65_INV_ID); reflexivity.
      * rewrite list_lookup_insert_ne by congruence.
        exists Mr. split; [exact Hm|]. split; [reflexivity|].
        rewrite bool_decide_eq_false_2 by (rewrite HM; congruence).
        now rewrite andb_false_r.
Qed.

(** One pass of the module loop: a module without a main scope is
    reported; the main scopes stay as they are. *)
Lemma ProcessScopeInfo_module_spec (I : nat) (D D' : InputData.t) :
  ProcessScopeInfo_module I D = Some D' ->
  exists (m : nat) (Mr : ModInfo.t),
    CollAt (DbgInfo.ModInfoById (InputData.Info D)) I = Some (Some m)
    /\ Store.ModInfos (mem D) !! m = Some Mr
    /\ DbgInfo.ModInfoById (InputData.Info D')
       = DbgInfo.ModInfoById (InputData.Info D)
    /\ (exists more, InputData.Reported D' = InputData.Reported D ++ more)
    /\ (ModInfo.MainScope Mr = None ->
        mkError CC65_ERROR (MsgNoMainScope (ModInfo.Id Mr))
        ∈ InputData.Reported D')
    /\ (forall m' Mr', Store.ModInfos (mem D) !! m' = Some Mr' ->
          exists Mr'',
            Store.ModInfos (mem D') !! m' = Some Mr''
            /\ ModInfo.Id Mr'' = ModInfo.Id Mr'
            /\ ModInfo.MainScope Mr'' = ModInfo.MainScope Mr').
Proof.
  unfold ProcessScopeInfo_module. intros H.
  apply bind_Some in H as (M & HM & H).
  apply bind_Some in H as (Mr & HMr & H). cbv zeta in H.
  apply bind_Some in H as (C & HC & H).
  apply put_Mod_effect in H as (m & -> & _ & K1 & _ & K3 & _ & K5).
  unfold get_Mod, deref in HMr. cbn [mbind option_bind] in HMr.
  exists m, Mr. split; [exact HM|]. split; [exact HMr|].
  rewrite K1, K3, K5. clear K1 K3 K5 HC.
  destruct (ModInfo.MainScope Mr) as [s|] eqn:HMain.
  - split; [reflexivity|]. split; [exists []; now rewrite app_nil_r|].
    split; [discriminate|].
    intros m' Mr' Hm'. destruct (decide (m' = m)) as [->|Hne].
    + rewrite list_lookup_insert_eq
        by (apply lookup_lt_Some in Hm'; exact Hm').
      rewrite HMr in Hm'. injection Hm' as <-.
      eexists. split; [reflexivity|]. split; reflexivity.
    + rewrite list_lookup_insert_ne by congruence. eauto.
  - split; [reflexivity|]. split; [cbn; eauto|].
    split; [intros _; cbn; apply elem_of_app; right; left|].
    intros m' Mr' Hm'. cbn. destruct (decide (m' = m)) as [->|Hne].
    + rewrite list_lookup_insert_eq
        by (apply lookup_lt_Some in Hm'; exact Hm').
      rewrite HMr in Hm'. injection Hm' as <-.
      eexists. split; [reflexivity|]. split; reflexivity.
    + rewrite list_lookup_insert_ne by congruence. eauto.
Qed.

Lemma main_scope_after_snoc (Mods : Collection) (m : nat) (init : option nat)
  (scopes : list (nat * ScopeInfo.t)) (s : nat * ScopeInfo.t) :
  main_scope_after Mods m init (scopes ++ [s])
  = if main_of Mods (Some m) s then Some (fst s)
    else main_scope_after Mods m init scopes.
Proof.
  unfold main_scope_after, main_scopes. rewrite List.filter_app. cbn.
  destruct (main_of Mods (Some m) s).
  - now rewrite last_snoc.
  - now rewrite app_nil_r.
Qed.

(** The scope loop leaves in each module the last of its parent-less
    scopes. *)
Lemma scope_loop_spec (D D1 : InputData.t)
  (scopes : list (nat * ScopeInfo.t)) :
  fetch_records (Store.ScopeInfos (mem D))
    (DbgInfo.ScopeInfoById (InputData.Info D)) = Some scopes ->
  NoDup (fst <$> scopes) ->
  for_range ProcessScopeInfo_scope 0
    (count (DbgInfo.ScopeInfoById (InputData.Info D))) D = Some D1 ->
  DbgInfo.ModInfoById (InputData.Info D1)
  = DbgInfo.ModInfoById (InputData.Info D)
  /\ (forall m Mr0, Store.ModInfos (mem D) !! m = Some Mr0 ->
        exists Mr,
          Store.ModInfos (mem D1) !! m = Some Mr
          /\ ModInfo.Id Mr = ModInfo.Id Mr0
          /\ ModInfo.MainScope Mr
             = main_scope_after (DbgInfo.ModInfoById (InputData.Info D)) m
                 (ModInfo.MainScope Mr0) scopes).
Proof.
  intros Hf Hnd Hrun.
  pose proof (fetch_records_Forall2 _ _ _ Hf) as HF.
  assert (count (DbgInfo.ScopeInfoById (InputData.Info D)) = length scopes)
    as Hcount by (apply Forall2_length in HF; exact HF).
  set (Mods := DbgInfo.ModInfoById (InputData.Info D)) in *.
  set (Inv := fun (k : nat) (t : InputData.t) =>
    DbgInfo.ModInfoById (InputData.Info t) = Mods
    /\ DbgInfo.ScopeInfoById (InputData.Info t)
       = DbgInfo.ScopeInfoById (InputData.Info D)
    /\ (forall j s, scopes !! j = Some s -> (k <= j)%nat ->
          Store.ScopeInfos (mem t) !! fst s = Some (snd s))
    /\ (forall m Mr0, Store.ModInfos (mem D) !! m = Some Mr0 ->
          exists Mr,
            Store.ModInfos (mem t) !! m = Some Mr
            /\ ModInfo.Id Mr = ModInfo.Id Mr0
            /\ ModInfo.MainScope Mr
               = main_scope_after Mods m (ModInfo.MainScope Mr0)
                   (take k scopes))).
  assert (Inv (0 + count (DbgInfo.ScopeInfoById (InputData.Info D)))%nat D1)
    as (I1 & _ & _ & I4).
  { apply (for_range_inv _ Inv _ _ _ _ Hrun).
    - repeat split.
      + intros j s Hj _.
        destruct (Forall2_lookup_r _ _ _ _ _ HF Hj) as (e & _ & _ & Hs).
        exact Hs.
      + intros m Mr0 Hm. exists Mr0. auto.
    - intros k t t' Hk Hstep (J1 & J2 & J3 & J4).
      apply ProcessScopeInfo_scope_spec in Hstep
        as (p & Sr & Hp & HSr & S1 & S2 & S3 & S4).
      rewrite J1 in S1, S4. rewrite J2 in S2, Hp.
      destruct (lookup_lt_is_Some_2 scopes k) as [s Hs]; [lia|].
      destruct (fetch_records_lookup _ _ _ _ _ Hf Hs) as [Hat _].
      rewrite Hat in Hp. injection Hp as <-.
      rewrite (J3 k s Hs) in HSr by lia. injection HSr as <-.
      repeat split; auto.
      + intros j s' Hj Hkj. rewrite S3; [apply (J3 j s' Hj); lia|].
        intros Heq.
        assert (j = k); [|lia].
        apply (NoDup_lookup (fst <$> scopes) j k (fst s) Hnd).
        * rewrite list_lookup_fmap, Hj. cbn. now rewrite Heq.
        * now rewrite list_lookup_fmap, Hs.
      + intros m Mr0 Hm. destruct (J4 m Mr0 Hm) as (Mr & Hm1 & HId & HMain).
        destruct (S4 m Mr Hm1) as (Mr' & Hm2 & HId' & HMain').
        exists Mr'. split; [exact Hm2|]. split; [congruence|].
        rewrite (take_S_r _ _ _ Hs), main_scope_after_snoc, HMain'.
        replace (fst s, snd s) with s by (destruct s; reflexivity).
        now rewrite HMain. }
  split; [exact I1|].
  intros m Mr0 Hm. destruct (I4 m Mr0 Hm) as (Mr & Hm1 & HId & HMain).
  exists Mr. split; [exact Hm1|]. split; [exact HId|].
  rewrite HMain, Hcount. cbn [Nat.add]. now rewrite take_ge by lia.
Qed.

(** The module loop reports the modules that have no main scope. *)
Lemma module_loop_spec (D D' : InputData.t) :
  for_range ProcessScopeInfo_module 0
    (count (DbgInfo.ModInfoById (InputData.Info D))) D = Some D' ->
  (forall m Mr, Store.ModInfos (mem D) !! m = Some Mr ->
     exists Mr',
       Store.ModInfos (mem D') !! m = Some Mr'
       /\ ModInfo.Id Mr' = ModInfo.Id Mr
       /\ ModInfo.MainScope Mr' = ModInfo.MainScope Mr)
  /\ (forall I m Mr,
        CollAt (DbgInfo.ModInfoById (InputData.Info D)) I = Some (Some m) ->
        Store.ModInfos (mem D) !! m = Some Mr ->
        ModInfo.MainScope Mr = None ->
        mkError CC65_ERROR (MsgNoMainScope (ModInfo.Id Mr))
        ∈ InputData.Reported D').
Proof.
  intros Hrun.
  set (Mods := DbgInfo.ModInfoById (InputData.Info D)) in *.
  set (Inv := fun (k : nat) (t : InputData.t) =>
    DbgInfo.ModInfoById (InputData.Info t) = Mods
    /\ (forall m Mr, Store.ModInfos (mem D) !! m = Some Mr ->
          exists Mr',
            Store.ModInfos (mem t) !! m = Some Mr'
            /\ ModInfo.Id Mr' = ModInfo.Id Mr
            /\ ModInfo.MainScope Mr' = ModInfo.MainScope Mr)
    /\ (forall I m Mr, (I < k)%nat ->
          CollAt Mods I = Some (Some m) ->
          Store.ModInfos (mem D) !! m = Some Mr ->
          ModInfo.MainScope Mr = None ->
          mkError CC65_ERROR (MsgNoMainScope (ModInfo.Id Mr))
          ∈ InputData.Reported t)).
  assert (Inv (0 + count Mods)%nat D') as (_ & I2 & I3).
  { apply (for_range_inv _ Inv _ _ _ _ Hrun).
    - repeat split.
      + intros m Mr Hm. exists Mr. auto.
      + intros I m Mr HI. lia.
    - intros k t t' Hk Hstep (J1 & J2 & J3).
      apply ProcessScopeInfo_module_spec in Hstep
        as (m & Mr & Hm & HMr & S1 & (more & S2) & S3 & S4).
      rewrite J1 in S1, Hm.
      repeat split; auto.
      + intros m' Mr' Hm'. destruct (J2 m' Mr' Hm') as (Mr1 & H1 & H2 & H3).
        destruct (S4 m' Mr1 H1) as (Mr2 & K1 & K2 & K3).
        exists Mr2. split; [exact K1|]. split; congruence.
      + intros I m' Mr' HI HI' Hm' HMain.
        destruct (decide (I = k)) as [->|Hne].
        * rewrite Hm in HI'. injection HI' as <-.
          destruct (J2 m Mr' Hm') as (Mr1 & H1 & H2 & H3).
          rewrite HMr in H1. injection H1 as <-.
          rewrite <- H2. apply S3. congruence.
        * rewrite S2. apply elem_of_app. left.
          apply (J3 I m' Mr'); auto. lia. }
  split; [exact I2|].
  intros I m Mr HI Hm HMain. apply (I3 I m Mr); auto.
  unfold CollAt in HI. apply bind_Some in HI as (e & He & _).
  apply lookup_lt_Some in He. unfold count. lia.
Qed.

(** C7, as stated, fails on [input_two_main_scopes]: the load succeeds
    without any diagnostic, and both scopes of the database have the
    module 0 as their module and no parent. *)
Lemma C7_two_main_scopes_accepted :
  exists h S0 S1,
    cc65_read_dbginfo input_two_main_scopes = Some ([], Some h)
    /\ Store.ScopeInfos (DbgInfo.Mem h) !! 0%nat = Some S0
    /\ Store.ScopeInfos (DbgInfo.Mem h) !! 1%nat = Some S1
    /\ ScopeInfo.Mod S0 = EPtr (Some 0%nat) /\ ScopeInfo.Parent S0 = ENull
    /\ ScopeInfo.Mod S1 = EPtr (Some 0%nat) /\ ScopeInfo.Parent S1 = ENull.
Proof.
  do 3 eexists. split; [vm_compute; reflexivity|].
  repeat split; reflexivity.
Qed.

(** C7, amended. Let [ProcessScopeInfo] run on a state whose scopes by id
    are distinct valid pointers, and take a module of the collection by id
    that has no main scope yet, as after the parser. After the pass the
    main scope of the module is the last, in the order of the ids, of the
    scopes that name the module and have no parent id; there may be
    several of them. If there is none, the module has no main scope and
    the resolver reports this as an error. *)
Theorem C7_last_parentless_scope_is_main (D D' : InputData.t)
  (scopes : list (nat * ScopeInfo.t)) (I m : nat) (Mr : ModInfo.t) :
  ProcessScopeInfo D = Some D' ->
  fetch_records (Store.ScopeInfos (mem D))
    (DbgInfo.ScopeInfoById (InputData.Info D)) = Some scopes ->
  NoDup (fst <$> scopes) ->
  CollAt (DbgInfo.ModInfoById (InputData.Info D)) I = Some (Some m) ->
  Store.ModInfos (mem D) !! m = Some Mr ->
  ModInfo.MainScope Mr = None ->
  exists Mr',
    Store.ModInfos (mem D') !! m = Some Mr'
    /\ match last (main_scopes (DbgInfo.ModInfoById (InputData.Info D)) m
                     scopes) with
       | Some s => ModInfo.MainScope Mr' = Some (fst s)
       | None =>
         ModInfo.MainScope Mr' = None
         /\ mkError CC65_ERROR (MsgNoMainScope (ModInfo.Id Mr))
            ∈ InputData.Reported D'
       end.
Proof.
  intros Hrun Hf Hnd HI Hm HMain. unfold ProcessScopeInfo in Hrun.
  apply bind_Some in Hrun as (D1 & H1 & H2).
  destruct (scope_loop_spec D D1 scopes Hf Hnd H1) as (HMods & Hscopes).
  destruct (module_loop_spec D1 D' H2) as (Hkeep & Hreport).
  destruct (Hscopes m Mr Hm) as (Mr1 & Hm1 & HId1 & HMain1).
  destruct (Hkeep m Mr1 Hm1) as (Mr' & Hm' & HId' & HMain').
  exists Mr'. split; [exact Hm'|].
  rewrite HMain', HMain1, HMain. unfold main_scope_after.
  destruct (last _) as [s|] eqn:Hlast; [reflexivity|].
  split; [reflexivity|]. rewrite <- HId1.
  apply (Hreport I m Mr1); auto.
  - now rewrite HMods.
  - rewrite HMain1, HMain. unfold main_scope_after. now rewrite Hlast.
Qed.

Lemma C7_last_parentless_scope_witness :
  let D := default InputData_init
             (before_ProcessScopeInfo input_two_main_scopes) in
  let D' := default InputData_init (ProcessScopeInfo D) in
  let Mr := ModInfo.mk 0 (EPtr (Some 0%nat)) ENull None
              (mkColl 8 [EPtr (Some 0%nat)]) (mkColl 0 []) "a" in
  exists Mr',
    Store.ModInfos (mem D') !! 0%nat = Some Mr'
    /\ match last (main_scopes (DbgInfo.ModInfoById (InputData.Info D)) 0
                     (default [] (fetch_records (Store.ScopeInfos (mem D))
                        (DbgInfo.ScopeInfoById (InputData.Info D))))) with
       | Some s => ModInfo.MainScope Mr' = Some (fst s)
       | None =>
         ModInfo.MainScope Mr' = None
         /\ mkError CC65_ERROR (MsgNoMainScope (ModInfo.Id Mr))
            ∈ InputData.Reported D'
       end.
Proof.
  intros D D' Mr.
  apply (C7_last_parentless_scope_is_main D D' _ 0%nat 0%nat Mr).
  - vm_compute. reflexivity.
  - vm_compute. reflexivity.
  - vm_compute. repeat constructor; rewrite ?elem_of_cons, ?elem_of_nil;
      intros H; repeat destruct H as [H|H]; try discriminate H; exact H.
  - vm_compute. reflexivity.
  - vm_compute. reflexivity.
  - reflexivity.
Defined.

(** ** Sorting a collection *)

Lemma lookup_swap {A} (l : list A) (i j k : nat) (x y : A) :
  l !! i = Some x -> l !! j = Some y ->
  (<[j := x]> (<[i := y]> l)) !! k
  = if decide (k = j) then Some x
    else if decide (k = i) then Some y else l !! k.
Proof.
  intros Hi Hj. apply lookup_lt_Some in Hi as Hi', Hj as Hj'.
  destruct (decide (k = j)) as [->|Hkj].
  - apply list_lookup_insert_eq. now rewrite length_insert.
  - rewrite list_lookup_insert_ne by congruence.
    destruct (decide (k = i)) as [->|Hki].
    + now apply list_lookup_insert_eq.
    + now rewrite list_lookup_insert_ne by congruence.
Qed.

Lemma insert_Permutation {A} (l : list A) (j : nat) (a y : A) :
  l !! j = Some y -> y :: <[j := a]> l ≡ₚ a :: l.
Proof.
  revert j. induction l as [|b l IH]; intros [|j] Hj; try discriminate.
  - injection Hj as ->. cbn. apply perm_swap.
  - cbn in Hj |- *. rewrite (perm_swap b y), (IH j Hj). apply perm_swap.
Qed.

Lemma swap_Permutation {A} (l : list A) (i j : nat) (x y : A) :
  l !! i = Some x -> l !! j = Some y -> <[j := x]> (<[i := y]> l) ≡ₚ l.
Proof.
  revert i j. induction l as [|a l IH]; intros [|i] [|j] Hi Hj;
    try discriminate; cbn in Hi, Hj |- *.
  - injection Hi as <-. injection Hj as <-. reflexivity.
  - injection Hi as <-. now apply insert_Permutation.
  - injection Hj as <-. now apply insert_Permutation.
  - now rewrite (IH i j Hi Hj).
Qed.

Lemma swaps_trans {A} (lo hi : Z) (l1 l2 l3 : list A) :
  swaps lo hi l1 l2 -> swaps lo hi l2 l3 -> swaps lo hi l1 l3.
Proof.
  induction 1 as [|l i j x y l' ? ? ? ? ? ? _ IH]; intros Hrest;
    [exact Hrest|].
  apply (swaps_step lo hi l i j x y); auto.
Qed.

Lemma swaps_one {A} (lo hi : Z) (l : list A) (i j : Z) (x y : A) :
  0 <= i -> 0 <= j -> lo <= i <= hi -> lo <= j <= hi ->
  l !! Z.to_nat i = Some x -> l !! Z.to_nat j = Some y ->
  swaps lo hi l (<[Z.to_nat j := x]> (<[Z.to_nat i := y]> l)).
Proof.
  intros. apply (swaps_step lo hi l i j x y); auto. apply swaps_refl.
Qed.

Lemma swaps_mono {A} (lo hi lo' hi' : Z) (l l' : list A) :
  lo <= lo' -> hi' <= hi -> swaps lo' hi' l l' -> swaps lo hi l l'.
Proof.
  intros Hlo Hhi. induction 1 as [|l i j x y l' ? ? ? ? ? ? _ IH];
    [apply swaps_refl|].
  apply (swaps_step lo hi l i j x y); auto; lia.
Qed.

Lemma swaps_Permutation {A} (lo hi : Z) (l l' : list A) :
  swaps lo hi l l' -> l' ≡ₚ l.
Proof.
  induction 1 as [|l i j x y l' ? ? ? ? Hi Hj _ IH]; [reflexivity|].
  rewrite IH. now apply swap_Permutation.
Qed.

Lemma swaps_length {A} (lo hi : Z) (l l' : list A) :
  swaps lo hi l l' -> length l' = length l.
Proof. intros H. apply Permutation_length. eapply swaps_Permutation, H. Qed.

Lemma swaps_outside {A} (lo hi : Z) (l l' : list A) (k : Z) :
  swaps lo hi l l' -> 0 <= k -> k < lo \/ hi < k ->
  l' !! Z.to_nat k = l !! Z.to_nat k.
Proof.
  intros H Hk Hout. induction H as [|l i j x y l' ? ? ? ? Hi Hj _ IH];
    [reflexivity|].
  rewrite IH, (lookup_swap l _ _ _ x y Hi Hj).
  destruct (decide (Z.to_nat k = Z.to_nat j)); [lia|].
  destruct (decide (Z.to_nat k = Z.to_nat i)); [lia|]. reflexivity.
Qed.

(** What holds for the entries of a range holds for them after swaps in
    the range. *)
Lemma swaps_range {A} (P : A -> Prop) (lo hi a b : Z) (l l' : list A) :
  swaps lo hi l l' -> a <= lo -> hi <= b ->
  (forall k x, 0 <= k -> a <= k <= b -> l !! Z.to_nat k = Some x -> P x) ->
  forall k x, 0 <= k -> a <= k <= b -> l' !! Z.to_nat k = Some x -> P x.
Proof.
  intros H Ha Hb. induction H as [|l i j x y l' ? ? ? ? Hi Hj _ IH];
    intros HP; [exact HP|].
  apply IH. intros k z Hk Hkr. rewrite (lookup_swap l _ _ _ x y Hi Hj).
  destruct (decide (Z.to_nat k = Z.to_nat j)).
  { intros [= <-]. apply (HP i); auto. lia. }
  destruct (decide (Z.to_nat k = Z.to_nat i)).
  { intros [= <-]. apply (HP j); auto. lia. }
  now apply HP.
Qed.

Lemma swaps_Forall {A} (P : A -> Prop) (lo hi : Z) (l l' : list A) :
  swaps lo hi l l' -> Forall P l -> Forall P l'.
Proof.
  intros H HP. apply swaps_Permutation in H. now rewrite H.
Qed.

Lemma sorted_range_outside {A} (R : A -> A -> Prop) (lo hi a b : Z)
  (l l' : list A) :
  swaps lo hi l l' -> hi < a \/ b < lo ->
  sorted_range R a b l -> sorted_range R a b l'.
Proof.
  intros H Hout Hs i j x y Hi Hai Hij Hjb.
  rewrite !(swaps_outside lo hi l l') by (auto; lia).
  now apply Hs.
Qed.

Lemma swaps_range_kept {A} (P : A -> Prop) (lo hi a b : Z) (l l' : list A) :
  swaps lo hi l l' ->
  hi < a \/ b < lo \/ (a <= lo /\ hi <= b) ->
  (forall k x, 0 <= k -> a <= k <= b -> l !! Z.to_nat k = Some x -> P x) ->
  forall k x, 0 <= k -> a <= k <= b -> l' !! Z.to_nat k = Some x -> P x.
Proof.
  intros H [Hout|[Hout|[Ha Hb]]] HP k x Hk Hkr.
  - rewrite (swaps_outside lo hi l l') by (auto; lia). now apply HP.
  - rewrite (swaps_outside lo hi l l') by (auto; lia). now apply HP.
  - now apply (swaps_range P lo hi a b l l' H Ha Hb HP).
Qed.

Lemma StronglySorted_of_lookup {A} (R : A -> A -> Prop) (l : list A) :
  (forall (i j : nat) x y, (i < j)%nat -> l !! i = Some x -> l !! j = Some y ->
                           R x y) ->
  StronglySorted R l.
Proof.
  induction l as [|a l IH]; intros H; constructor.
  - apply IH. intros i j x y Hij Hi Hj. apply (H (S i) (S j)); auto. lia.
  - apply List.Forall_forall. intros y Hy.
    apply list_elem_of_In, list_elem_of_lookup_1 in Hy as [j Hj].
    apply (H 0%nat (S j)); auto. lia.
Qed.

Lemma int_val_small (z : Z) :
  - 2147483648 <= z <= INT_MAX -> int_val z = Some z.
Proof.
  intros H. unfold int_val.
  destruct (Z.leb_spec (- 2147483648) z) as [_|?]; [|lia].
  destruct (Z.leb_spec z INT_MAX) as [_|?]; [reflexivity|lia].
Qed.

Section QuickSort.
Variable Compare : option nat -> option nat -> option Z.
Variable le : option nat -> option nat -> Prop.
Variable good : option nat -> Prop.
Hypothesis Hcompares : compares Compare le good.

Lemma item_ptr_lookup (Items : list CollEntry) (i : Z) (x : option nat) :
  0 <= i -> Items !! Z.to_nat i = Some (EPtr x) -> item_ptr Items i = Some x.
Proof.
  intros Hi H. unfold item_ptr.
  destruct (Z.ltb_spec i 0) as [?|_]; [lia|]. now rewrite H.
Qed.

Lemma good_lookup (Items : list CollEntry) (i : nat) (e : CollEntry) :
  Forall (entry_good good) Items -> Items !! i = Some e ->
  exists x, e = EPtr x /\ good x.
Proof.
  intros HF Hi. rewrite List.Forall_forall in HF. apply HF.
  apply list_elem_of_In. eapply list_elem_of_lookup_2, Hi.
Qed.

(** How [Compare (Items[Lo].Ptr, e)] decides between the two sides. *)
Lemma Compare_pivot (p y : option nat) :
  good p -> good y ->
  exists c, Compare p y = Some c
            /\ (0 <= c -> entry_le le (EPtr y) (EPtr p))
            /\ (c < 0 -> ~ entry_le le (EPtr y) (EPtr p)).
Proof.
  intros Hp Hy. destruct Hcompares as (Hc & _ & _).
  destruct (Hc p y Hp Hy) as (c & Hcy & Hiff).
  exists c. split; [exact Hcy|]. split.
  - intros H. exists y, p. repeat split. now apply Hiff.
  - intros H (y' & p' & [= <-] & [= <-] & Hle). apply Hiff in Hle. lia.
Qed.

Section Partition.
Variable Lo Hi : Z.
Variable p : option nat.
Hypothesis p_good : good p.
Hypothesis Lo_pos : 0 <= Lo.
Hypothesis Hi_small : Hi < INT_MAX.

Let below (e : CollEntry) : Prop := entry_le le e (EPtr p).
Let above (e : CollEntry) : Prop := ~ entry_le le e (EPtr p).

Lemma skip_up_spec (Items : list CollEntry) (J : Z) :
  Forall (entry_good good) Items ->
  Items !! Z.to_nat Lo = Some (EPtr p) ->
  J < Z.of_nat (length Items) -> J <= Hi ->
  forall (fuel : nat) (I : Z),
    0 <= I -> I <= J + 1 -> J + 1 - I <= Z.of_nat fuel ->
    exists I',
      skip_up Compare fuel Items Lo I J = Some I'
      /\ I <= I' <= J + 1
      /\ (forall k e, I <= k < I' -> Items !! Z.to_nat k = Some e -> below e)
      /\ (I' <= J ->
          exists e, Items !! Z.to_nat I' = Some e /\ above e).
Proof.
  intros HF HLo HJ HJHi. induction fuel as [|fuel IH]; intros I HI HIJ Hfuel.
  - cbn [skip_up]. destruct (Z.leb_spec I J) as [?|_]; [lia|].
    exists I. split; [reflexivity|]. split; [lia|]. split; intros; lia.
  - cbn [skip_up]. destruct (Z.leb_spec I J) as [Hle|Hgt].
    + rewrite (item_ptr_lookup Items Lo p Lo_pos HLo).
      cbn [mbind option_bind].
      destruct (lookup_lt_is_Some_2 Items (Z.to_nat I)) as [e He]; [lia|].
      destruct (good_lookup Items _ e HF He) as (y & -> & Hy).
      rewrite (item_ptr_lookup Items I y HI He). cbn [mbind option_bind].
      destruct (Compare_pivot p y p_good Hy) as (c & -> & Hpos & Hneg).
      cbn [mbind option_bind].
      destruct (Z.geb_spec c 0) as [Hc|Hc].
      * rewrite (int_val_small (I + 1)) by lia. cbn [mbind option_bind].
        destruct (IH (I + 1)) as (I' & HI' & Hr & Hb & Ha); try lia.
        exists I'. split; [exact HI'|]. split; [lia|]. split; [|exact Ha].
        intros k e Hk Hke. destruct (decide (k = I)) as [->|Hne].
        { rewrite He in Hke. injection Hke as <-. apply Hpos. lia. }
        apply (Hb k); auto. lia.
      * exists I. split; [reflexivity|]. split; [lia|]. split; [intros; lia|].
        intros _. exists (EPtr y). split; [exact He|]. apply Hneg. lia.
    + exists I. split; [reflexivity|]. split; [lia|]. split; intros; lia.
Qed.

Lemma skip_down_spec (Items : list CollEntry) (I : Z) :
  Forall (entry_good good) Items ->
  Items !! Z.to_nat Lo = Some (EPtr p) ->
  0 <= I ->
  forall (fuel : nat) (J : Z),
    J < Z.of_nat (length Items) -> J <= Hi ->
    I <= J + 1 -> J + 1 - I <= Z.of_nat fuel ->
    exists J',
      skip_down Compare fuel Items Lo I J = Some J'
      /\ I - 1 <= J' <= J
      /\ (forall k e, J' < k <= J -> Items !! Z.to_nat k = Some e -> above e)
      /\ (I <= J' ->
          exists e, Items !! Z.to_nat J' = Some e /\ below e).
Proof.
  intros HF HLo HI.
  induction fuel as [|fuel IH]; intros J HJ HJHi HIJ Hfuel.
  - cbn [skip_down]. destruct (Z.leb_spec I J) as [?|_]; [lia|].
    exists J. split; [reflexivity|]. split; [lia|]. split; intros; lia.
  - cbn [skip_down]. destruct (Z.leb_spec I J) as [Hle|Hgt].
    + rewrite (item_ptr_lookup Items Lo p Lo_pos HLo).
      cbn [mbind option_bind].
      destruct (lookup_lt_is_Some_2 Items (Z.to_nat J)) as [e He]; [lia|].
      destruct (good_lookup Items _ e HF He) as (y & -> & Hy).
      rewrite (item_ptr_lookup Items J y ltac:(lia) He).
      cbn [mbind option_bind].
      destruct (Compare_pivot p y p_good Hy) as (c & -> & Hpos & Hneg).
      cbn [mbind option_bind].
      destruct (Z.ltb_spec c 0) as [Hc|Hc].
      * rewrite (int_val_small (J - 1)) by lia. cbn [mbind option_bind].
        destruct (IH (J - 1)) as (J' & HJ' & Hr & Ha & Hb); try lia.
        exists J'. split; [exact HJ'|]. split; [lia|]. split; [|exact Hb].
        intros k e Hk Hke. destruct (decide (k = J)) as [->|Hne].
        { rewrite He in Hke. injection Hke as <-. apply Hneg. lia. }
        apply (Ha k); auto. lia.
      * exists J. split; [reflexivity|]. split; [lia|]. split; [intros; lia|].
        intros _. exists (EPtr y). split; [exact He|]. apply Hpos. lia.
    + exists J. split; [reflexivity|]. split; [lia|]. split; intros; lia.
Qed.

Lemma swap_items_spec (Items : list CollEntry) (i j : Z) (x y : CollEntry) :
  0 <= i -> 0 <= j ->
  Items !! Z.to_nat i = Some x -> Items !! Z.to_nat j = Some y ->
  swap_items Items i j
  = Some (<[Z.to_nat j := x]> (<[Z.to_nat i := y]> Items)).
Proof.
  intros Hi0 Hj0 Hx Hy. unfold swap_items.
  destruct (Z.ltb_spec i 0) as [?|_]; [lia|].
  destruct (Z.ltb_spec j 0) as [?|_]; [lia|].
  cbn [orb]. rewrite Hx, Hy. reflexivity.
Qed.

(** The partition loop: the entries not above the pivot end up at the
    indices up to the [J] returned, the others behind it. *)
Lemma partition_loop_spec (fuel : nat) :
  forall (Items : list CollEntry) (I J : Z),
    Forall (entry_good good) Items ->
    Items !! Z.to_nat Lo = Some (EPtr p) ->
    Lo < I -> I <= J + 1 -> J <= Hi -> Hi < Z.of_nat (length Items) ->
    J + 1 - I <= Z.of_nat fuel ->
    (forall k e, Lo < k < I -> Items !! Z.to_nat k = Some e -> below e) ->
    (forall k e, J < k <= Hi -> Items !! Z.to_nat k = Some e -> above e) ->
    exists Items' J',
      partition_loop Compare fuel Items Lo I J = Some (Items', J')
      /\ swaps (Lo + 1) Hi Items Items'
      /\ Lo <= J' <= Hi
      /\ (forall k e, Lo < k <= J' -> Items' !! Z.to_nat k = Some e -> below e)
      /\ (forall k e, J' < k <= Hi -> Items' !! Z.to_nat k = Some e -> above e).
Proof.
  induction fuel as [|fuel IH];
    intros Items I J HF HLo HLoI HIJ HJHi HHi Hfuel Hbelow Habove.
  - cbn [partition_loop]. destruct (Z.leb_spec I J) as [?|_]; [lia|].
    exists Items, J. split; [reflexivity|]. split; [apply swaps_refl|].
    split; [lia|]. split; [|exact Habove].
    intros k e Hk. apply Hbelow. lia.
  - cbn [partition_loop]. destruct (Z.leb_spec I J) as [Hle|Hgt].
    + destruct (skip_up_spec Items J HF HLo ltac:(lia) HJHi (S fuel) I)
        as (I1 & -> & HI1 & Hup & Hstop1); try lia.
      cbn [mbind option_bind].
      destruct (skip_down_spec Items I1 HF HLo ltac:(lia) (S fuel) J)
        as (J1 & -> & HJ1 & Hdown & Hstop2); try lia.
      cbn [mbind option_bind].
      destruct (Z.leb_spec I1 J1) as [Hle1|Hgt1].
      * destruct (Hstop1 ltac:(lia)) as (eI & HeI & HaI).
        destruct (Hstop2 Hle1) as (eJ & HeJ & HbJ).
        assert (I1 <> J1) as Hne.
        { intros ->. rewrite HeI in HeJ. injection HeJ as <-. now apply HaI. }
        rewrite (swap_items_spec Items I1 J1 eI eJ) by (auto; lia).
        cbn [mbind option_bind].
        rewrite (int_val_small (I1 + 1)), (int_val_small (J1 - 1)) by lia.
        cbn [mbind option_bind].
        set (Items1 := <[Z.to_nat J1 := eI]> (<[Z.to_nat I1 := eJ]> Items)).
        assert (forall k, Items1 !! k
                  = if decide (k = Z.to_nat J1) then Some eI
                    else if decide (k = Z.to_nat I1) then Some eJ
                    else Items !! k) as Hlook
          by (intros k; apply lookup_swap; assumption).
        destruct (IH Items1 (I1 + 1) (J1 - 1)) as (Items' & J' & HP & Hsw & HJ' & Hb' & Ha').
        { eapply Permutation_Forall; [|exact HF].
          symmetry. now apply swap_Permutation. }
        { rewrite Hlook.
          destruct (decide (Z.to_nat Lo = Z.to_nat J1)); [lia|].
          destruct (decide (Z.to_nat Lo = Z.to_nat I1)); [lia|]. exact HLo. }
        { lia. } { lia. } { lia. }
        { unfold Items1. rewrite !length_insert. lia. }
        { lia. }
        { intros k e Hk. rewrite Hlook.
          destruct (decide (Z.to_nat k = Z.to_nat J1)); [lia|].
          destruct (decide (Z.to_nat k = Z.to_nat I1)) as [Heq|Hneq].
          - intros [= <-]. exact HbJ.
          - intros Hke. destruct (Z.lt_ge_cases k I).
            + apply (Hbelow k); auto. lia.
            + apply (Hup k); auto. lia. }
        { intros k e Hk. rewrite Hlook.
          destruct (decide (Z.to_nat k = Z.to_nat J1)) as [Heq|Hneq].
          - intros [= <-]. exact HaI.
          - destruct (decide (Z.to_nat k = Z.to_nat I1)); [lia|].
            intros Hke. destruct (Z.le_gt_cases k J).
            + apply (Hdown k); auto. lia.
            + apply (Habove k); auto. lia. }
        exists Items', J'. split; [exact HP|]. split.
        { apply (swaps_step (Lo + 1) Hi Items I1 J1 eI eJ); auto; lia. }
        split; [lia|]. split; [exact Hb'|exact Ha'].
      * exists Items, J1. split; [reflexivity|]. split; [apply swaps_refl|].
        split; [lia|]. split.
        { intros k e Hk Hke. destruct (Z.lt_ge_cases k I).
          - apply (Hbelow k); auto. lia.
          - apply (Hup k); auto. lia. }
        { intros k e Hk Hke. destruct (Z.le_gt_cases k J).
          - apply (Hdown k); auto. lia.
          - apply (Habove k); auto. lia. }
    + exists Items, J. split; [reflexivity|]. split; [apply swaps_refl|].
      split; [lia|]. split; [|exact Habove].
      intros k e Hk. apply Hbelow. lia.
Qed.
End Partition.
End QuickSort.

Section QuickSortSpec.
Variable Compare : option nat -> option nat -> option Z.
Variable le : option nat -> option nat -> Prop.
Variable good : option nat -> Prop.
Hypothesis Hcompares : compares Compare le good.

Lemma entry_le_refl (x : option nat) :
  good x -> entry_le le (EPtr x) (EPtr x).
Proof.
  intros Hx. destruct Hcompares as (_ & Htot & _).
  exists x, x. repeat split. destruct (Htot x x Hx Hx); assumption.
Qed.

Lemma entry_le_above (x p : option nat) :
  good x -> good p ->
  ~ entry_le le (EPtr x) (EPtr p) -> entry_le le (EPtr p) (EPtr x).
Proof.
  intros Hx Hp Hn. destruct Hcompares as (_ & Htot & _).
  exists p, x. repeat split. destruct (Htot x p Hx Hp) as [H|H]; [|exact H].
  exfalso. apply Hn. exists x, p. auto.
Qed.

Lemma entry_le_trans (x y z : option nat) :
  good x -> good y -> good z ->
  entry_le le (EPtr x) (EPtr y) -> entry_le le (EPtr y) (EPtr z) ->
  entry_le le (EPtr x) (EPtr z).
Proof.
  intros Hx Hy Hz (x' & y' & [= <-] & [= <-] & H1)
    (y'' & z' & [= <-] & [= <-] & H2).
  destruct Hcompares as (_ & _ & Htr).
  exists x, z. repeat split. now apply (Htr x y z).
Qed.

(** A range with its pivot in place and both sides sorted is sorted. *)
Lemma sorted_around_pivot (Items : list CollEntry) (Lo J Hi : Z)
  (p : option nat) :
  Forall (entry_good good) Items ->
  0 <= Lo -> Lo <= J -> J <= Hi ->
  Items !! Z.to_nat J = Some (EPtr p) ->
  (forall k e, 0 <= k -> Lo <= k <= J - 1 -> Items !! Z.to_nat k = Some e ->
               entry_le le e (EPtr p)) ->
  (forall k e, 0 <= k -> J + 1 <= k <= Hi -> Items !! Z.to_nat k = Some e ->
               ~ entry_le le e (EPtr p)) ->
  sorted_range (entry_le le) Lo (J - 1) Items ->
  sorted_range (entry_le le) (J + 1) Hi Items ->
  sorted_range (entry_le le) Lo Hi Items.
Proof.
  intros HF HLo HLoJ HJHi HJ Hbelow Habove Hleft Hright i j x y Hi0 Hli Hij Hj
    Hx Hy.
  destruct (good_lookup good Items _ x HF Hx) as (xp & -> & Hxp).
  destruct (good_lookup good Items _ y HF Hy) as (yp & -> & Hyp).
  destruct (good_lookup good Items _ _ HF HJ) as (p' & [= <-] & Hp).
  destruct (Z.lt_trichotomy i J) as [HiJ|[->|HiJ]].
  - destruct (Z.lt_trichotomy j J) as [HjJ|[->|HjJ]].
    + apply (Hleft i j); auto; lia.
    + rewrite HJ in Hy. injection Hy as <-. apply (Hbelow i); auto. lia.
    + apply (entry_le_trans xp p yp); auto.
      * apply (Hbelow i); auto. lia.
      * apply entry_le_above; auto. apply (Habove j); auto; lia.
  - rewrite HJ in Hx. injection Hx as <-.
    destruct (Z.eq_dec j J) as [->|HjJ].
    + rewrite HJ in Hy. injection Hy as <-. now apply entry_le_refl.
    + apply entry_le_above; auto. apply (Habove j); auto; lia.
  - apply (Hright i j); auto; lia.
Qed.

(** [CollQuickSort] returns, and has sorted the range [Lo .. Hi] by
    exchanges inside the range. *)
Lemma CollQuickSort_spec (fuel : nat) :
  forall (Items : list CollEntry) (Lo Hi : Z),
    Forall (entry_good good) Items ->
    0 <= Lo -> Lo <= Hi + 1 -> Hi < Z.of_nat (length Items) ->
    Hi < 1073741824 ->
    Hi - Lo + 1 <= Z.of_nat fuel ->
    exists Items',
      CollQuickSort Compare fuel Items Lo Hi = Some Items'
      /\ swaps Lo Hi Items Items'
      /\ sorted_range (entry_le le) Lo Hi Items'.
Proof.
  induction fuel as [|fuel IH];
    intros Items Lo Hi HF HLo HLoHi HHi Hsmall Hfuel.
  - cbn [CollQuickSort]. destruct (Z.gtb_spec Hi Lo) as [?|Hle]; [lia|].
    exists Items. split; [reflexivity|]. split; [apply swaps_refl|].
    intros i j x y; lia.
  - cbn [CollQuickSort]. destruct (Z.gtb_spec Hi Lo) as [Hgt|Hle].
    2:{ exists Items. split; [reflexivity|]. split; [apply swaps_refl|].
        intros i j x y Hi0 Hli Hij Hj Hx Hy.
        assert (j = i) as -> by lia. rewrite Hx in Hy. injection Hy as <-.
        destruct (good_lookup good Items _ x HF Hx) as (xp & -> & Hxp).
        now apply entry_le_refl. }
    destruct (lookup_lt_is_Some_2 Items (Z.to_nat Lo)) as [e He]; [lia|].
    destruct (good_lookup good Items _ e HF He) as (p & -> & Hp).
    rewrite (int_val_small (Lo + 1)) by (unfold INT_MAX; lia).
    cbn [mbind option_bind].
    destruct (partition_loop_spec Compare le good Hcompares Lo Hi p Hp HLo
                ltac:(unfold INT_MAX; lia)
                (Z.to_nat (Hi - Lo)) Items (Lo + 1) Hi)
      as (Items1 & J & -> & Hsw1 & HJ & Hbelow1 & Habove1);
      auto; try lia.
    cbn [mbind option_bind fst snd].
    assert (Items1 !! Z.to_nat Lo = Some (EPtr p)) as HLo1.
    { rewrite (swaps_outside (Lo + 1) Hi Items Items1) by (auto; lia).
      exact He. }
    assert (length Items1 = length Items) as Hlen1
      by (eapply swaps_length, Hsw1).
    assert (Forall (entry_good good) Items1) as HF1
      by (eapply swaps_Forall; eauto).
    (* The pivot goes to its place *)
    assert (exists Items2,
              (if J =? Lo then Some Items1 else swap_items Items1 J Lo)
              = Some Items2
              /\ swaps Lo Hi Items Items2
              /\ Items2 !! Z.to_nat J = Some (EPtr p)
              /\ (forall k e, 0 <= k -> Lo <= k <= J - 1 ->
                    Items2 !! Z.to_nat k = Some e -> entry_le le e (EPtr p))
              /\ (forall k e, 0 <= k -> J + 1 <= k <= Hi ->
                    Items2 !! Z.to_nat k = Some e ->
                    ~ entry_le le e (EPtr p)))
      as (Items2 & -> & Hsw2 & HJ2 & Hbelow2 & Habove2).
    { destruct (Z.eqb_spec J Lo) as [->|Hne].
      - exists Items1. split; [reflexivity|].
        split; [apply (swaps_mono Lo Hi (Lo + 1) Hi); auto; lia|].
        split; [exact HLo1|]. split; [intros; lia|].
        intros k e Hk Hkr. apply Habove1. lia.
      - destruct (lookup_lt_is_Some_2 Items1 (Z.to_nat J)) as [eJ HeJ]; [lia|].
        rewrite (swap_items_spec Items1 J Lo eJ (EPtr p)) by (auto; lia).
        eexists. split; [reflexivity|].
        assert (forall k,
                  (<[Z.to_nat Lo := eJ]> (<[Z.to_nat J := EPtr p]> Items1)) !! k
                  = if decide (k = Z.to_nat Lo) then Some eJ
                    else if decide (k = Z.to_nat J) then Some (EPtr p)
                    else Items1 !! k) as Hlook
          by (intros k; apply lookup_swap; assumption).
        split.
        { eapply swaps_trans.
          - apply (swaps_mono Lo Hi (Lo + 1) Hi); [lia|lia|exact Hsw1].
          - apply swaps_one; auto; lia. }
        split.
        { rewrite Hlook. destruct (decide (Z.to_nat J = Z.to_nat Lo)); [lia|].
          destruct (decide (Z.to_nat J = Z.to_nat J)); [reflexivity|lia]. }
        split.
        { intros k e Hk Hkr. rewrite Hlook.
          destruct (decide (Z.to_nat k = Z.to_nat Lo)).
          - intros [= <-]. apply (Hbelow1 J); auto. lia.
          - destruct (decide (Z.to_nat k = Z.to_nat J)); [lia|].
            apply Hbelow1. lia. }
        { intros k e Hk Hkr. rewrite Hlook.
          destruct (decide (Z.to_nat k = Z.to_nat Lo)); [lia|].
          destruct (decide (Z.to_nat k = Z.to_nat J)); [lia|].
          apply Habove1. lia. } }
    cbn [mbind option_bind].
    assert (length Items2 = length Items) as Hlen2
      by (eapply swaps_length, Hsw2).
    assert (Forall (entry_good good) Items2) as HF2
      by (eapply swaps_Forall; eauto).
    rewrite (int_val_small (Hi + Lo)) by (unfold INT_MAX; lia).
    cbn [mbind option_bind].
    rewrite (int_val_small (J + 1)), (int_val_small (J - 1))
      by (unfold INT_MAX; lia).
    destruct (J >? Z.quot (Hi + Lo) 2); cbn [mbind option_bind].
    + (* The upper part by the call, the lower part by the loop *)
      destruct (IH Items2 (J + 1) Hi) as (Items3 & -> & Hsw3 & Hs3);
        auto; try lia.
      cbn [mbind option_bind].
      assert (length Items3 = length Items2) as Hlen3
        by (eapply swaps_length, Hsw3).
      assert (Forall (entry_good good) Items3) as HF3
        by (eapply swaps_Forall; eauto).
      destruct (IH Items3 Lo (J - 1)) as (Items4 & -> & Hsw4 & Hs4);
        auto; try lia.
      exists Items4. split; [reflexivity|]. split.
      { eapply swaps_trans; [exact Hsw2|]. eapply swaps_trans.
        - apply (swaps_mono Lo Hi (J + 1) Hi); [lia|lia|exact Hsw3].
        - apply (swaps_mono Lo Hi Lo (J - 1)); [lia|lia|exact Hsw4]. }
      apply (sorted_around_pivot Items4 Lo J Hi p); auto; try lia.
      * eapply swaps_Forall; eauto.
      * rewrite (swaps_outside Lo (J - 1) Items3 Items4) by (auto; lia).
        rewrite (swaps_outside (J + 1) Hi Items2 Items3) by (auto; lia).
        exact HJ2.
      * apply (swaps_range_kept _ Lo (J - 1) Lo (J - 1) Items3 Items4 Hsw4);
          [lia|].
        apply (swaps_range_kept _ (J + 1) Hi Lo (J - 1) Items2 Items3 Hsw3);
          [lia|]. exact Hbelow2.
      * apply (swaps_range_kept _ Lo (J - 1) (J + 1) Hi Items3 Items4 Hsw4);
          [lia|].
        apply (swaps_range_kept _ (J + 1) Hi (J + 1) Hi Items2 Items3 Hsw3);
          [lia|]. exact Habove2.
      * apply (sorted_range_outside _ Lo (J - 1) (J + 1) Hi Items3 Items4 Hsw4);
          [lia|exact Hs3].
    + (* The lower part by the call, the upper part by the loop *)
      destruct (IH Items2 Lo (J - 1)) as (Items3 & -> & Hsw3 & Hs3);
        auto; try lia.
      cbn [mbind option_bind].
      assert (length Items3 = length Items2) as Hlen3
        by (eapply swaps_length, Hsw3).
      assert (Forall (entry_good good) Items3) as HF3
        by (eapply swaps_Forall; eauto).
      destruct (IH Items3 (J + 1) Hi) as (Items4 & -> & Hsw4 & Hs4);
        auto; try lia.
      exists Items4. split; [reflexivity|]. split.
      { eapply swaps_trans; [exact Hsw2|]. eapply swaps_trans.
        - apply (swaps_mono Lo Hi Lo (J - 1)); [lia|lia|exact Hsw3].
        - apply (swaps_mono Lo Hi (J + 1) Hi); [lia|lia|exact Hsw4]. }
      apply (sorted_around_pivot Items4 Lo J Hi p); auto; try lia.
      * eapply swaps_Forall; eauto.
      * rewrite (swaps_outside (J + 1) Hi Items3 Items4) by (auto; lia).
        rewrite (swaps_outside Lo (J - 1) Items2 Items3) by (auto; lia).
        exact HJ2.
      * apply (swaps_range_kept _ (J + 1) Hi Lo (J - 1) Items3 Items4 Hsw4);
          [lia|].
        apply (swaps_range_kept _ Lo (J - 1) Lo (J - 1) Items2 Items3 Hsw3);
          [lia|]. exact Hbelow2.
      * apply (swaps_range_kept _ (J + 1) Hi (J + 1) Hi Items3 Items4 Hsw4);
          [lia|].
        apply (swaps_range_kept _ Lo (J - 1) (J + 1) Hi Items2 Items3 Hsw3);
          [lia|]. exact Habove2.
      * apply (sorted_range_outside _ (J + 1) Hi Lo (J - 1) Items3 Items4 Hsw4);
          [lia|exact Hs3].
Qed.

(** [CollSort] on a collection of at most [2^30] entries: the indices and
    the sum of two of them stay inside [int]. *)
Lemma CollSort_spec (C : Collection) :
  Forall (entry_good good) (Items C) ->
  CollCount C <= 1073741824 ->
  exists Items',
    CollSort Compare C = Some (mkColl (Size C) Items')
    /\ Items' ≡ₚ Items C
    /\ StronglySorted (entry_le le) Items'.
Proof.
  intros HF Hn. unfold CollSort.
  destruct (Z.gtb_spec (CollCount C) 1) as [Hgt|Hle].
  - rewrite to_unsigned_small by (unfold UINT_MOD; lia).
    rewrite to_int_small by (unfold INT_MAX; lia).
    destruct (CollQuickSort_spec (length (Items C)) (Items C) 0
                (CollCount C - 1))
      as (Items' & -> & Hsw & Hs); auto; unfold CollCount in *; try lia.
    exists Items'. split; [reflexivity|].
    split; [eapply swaps_Permutation, Hsw|].
    apply StronglySorted_of_lookup. intros i j x y Hij Hx Hy.
    apply lookup_lt_Some in Hy as Hj.
    rewrite (swaps_length _ _ _ _ Hsw) in Hj.
    apply (Hs (Z.of_nat i) (Z.of_nat j)); try lia; now rewrite Nat2Z.id.
  - exists (Items C). split; [destruct C; reflexivity|].
    split; [reflexivity|].
    apply StronglySorted_of_lookup. intros i j x y Hij Hx Hy.
    apply lookup_lt_Some in Hy. unfold CollCount in Hle. lia.
Qed.
End QuickSortSpec.

(** ** The compare functions *)

Lemma strcmp_opp (a b : string) : strcmp a b = - strcmp b a.
Proof.
  unfold strcmp. rewrite (String.compare_antisym a b).
  destruct (String.compare b a); reflexivity.
Qed.

Lemma strcmp_eq (a b : string) : strcmp a b = 0 <-> a = b.
Proof.
  unfold strcmp. split.
  - destruct (String.compare a b) eqn:E; try discriminate.
    intros _. now apply String.compare_eq_iff.
  - intros ->.
    assert (String.compare b b = Eq) as ->
      by (now apply OrderedTypeEx.String_as_OT.cmp_eq).
    reflexivity.
Qed.

Lemma strcmp_lt (a b : string) :
  strcmp a b < 0 <-> OrderedTypeEx.String_as_OT.lt a b.
Proof.
  rewrite <- OrderedTypeEx.String_as_OT.cmp_lt.
  unfold strcmp, OrderedTypeEx.String_as_OT.cmp.
  destruct (String.compare a b); split; intros H; try discriminate H;
    try reflexivity; lia.
Qed.

Lemma strcmp_range (a b : string) : -1 <= strcmp a b <= 1.
Proof. unfold strcmp. destruct (String.compare a b); lia. Qed.

Lemma strcmp_lt_trans (a b c : string) :
  strcmp a b < 0 -> strcmp b c < 0 -> strcmp a c < 0.
Proof.
  rewrite !strcmp_lt. apply OrderedTypeEx.String_as_OT.lt_trans.
Qed.

Lemma str_le_total (a b : string) : str_le a b \/ str_le b a.
Proof. unfold str_le. rewrite (strcmp_opp b a). lia. Qed.

Lemma str_le_trans (a b c : string) : str_le a b -> str_le b c -> str_le a c.
Proof.
  unfold str_le. intros H1 H2.
  pose proof (strcmp_range a b). pose proof (strcmp_range b c).
  destruct (Z.eq_dec (strcmp a b) 0) as [E1|N1].
  { apply strcmp_eq in E1 as ->. exact H2. }
  destruct (Z.eq_dec (strcmp b c) 0) as [E2|N2].
  { apply strcmp_eq in E2 as <-. exact H1. }
  pose proof (strcmp_lt_trans a b c). lia.
Qed.

Lemma str_le_antisym (a b : string) : str_le a b -> str_le b a -> a = b.
Proof.
  unfold str_le. rewrite (strcmp_opp b a). intros H1 H2.
  apply strcmp_eq. lia.
Qed.

Lemma strcmp_nonneg (a b : string) : 0 <= strcmp a b <-> str_le b a.
Proof. unfold str_le. rewrite (strcmp_opp b a). lia. Qed.

(** A compare function that reads both records and decides [R]. *)
Lemma compares_records {A} (store : list A) (P : A -> Prop)
  (R : A -> A -> Prop) (Compare : option nat -> option nat -> option Z) :
  (forall x y a b, deref store x = Some a -> deref store y = Some b ->
     P a -> P b -> exists c, Compare x y = Some c /\ (0 <= c <-> R b a)) ->
  (forall a b, P a -> P b -> R a b \/ R b a) ->
  (forall a b c, P a -> P b -> P c -> R a b -> R b c -> R a c) ->
  compares Compare (ptr_le store R) (ptr_good store P).
Proof.
  intros Hc Htot Htr. repeat split.
  - intros x y (a & Ha & HPa) (b & Hb & HPb).
    destruct (Hc x y a b Ha Hb HPa HPb) as (c & Hcy & Hiff).
    exists c. split; [exact Hcy|]. rewrite Hiff. split.
    + intros HR b' a' Hb' Ha'. congruence.
    + intros HR. now apply HR.
  - intros x y (a & Ha & HPa) (b & Hb & HPb).
    destruct (Htot a b HPa HPb) as [H|H]; [left|right];
      intros a' b' Ha' Hb'; congruence.
  - intros x y z (a & Ha & HPa) (b & Hb & HPb) (c & Hc' & HPc) H1 H2 a' c'
      Ha' Hc''.
    assert (a' = a) as -> by congruence. assert (c' = c) as -> by congruence.
    apply (Htr a b c); auto.
Qed.

Lemma CompareSpanInfoByAddr_compares (m : Store.t) :
  compares (CompareSpanInfoByAddr m)
    (ptr_le (Store.SpanInfos m) span_rec_le)
    (ptr_good (Store.SpanInfos m) any_record).
Proof.
  apply compares_records.
  - intros x y a b Ha Hb _ _. unfold CompareSpanInfoByAddr, span_rec_le.
    rewrite Ha, Hb. cbn [mbind option_bind].
    destruct (Z.gtb_spec (SpanInfo.Start a) (SpanInfo.Start b));
      [eexists; split; [reflexivity|lia]|].
    destruct (Z.ltb_spec (SpanInfo.Start a) (SpanInfo.Start b));
      [eexists; split; [reflexivity|lia]|].
    destruct (Z.gtb_spec (SpanInfo.End_ a) (SpanInfo.End_ b));
      [eexists; split; [reflexivity|lia]|].
    destruct (Z.ltb_spec (SpanInfo.End_ a) (SpanInfo.End_ b));
      eexists; (split; [reflexivity|lia]).
  - intros a b _ _. unfold span_rec_le. lia.
  - intros a b c _ _ _. unfold span_rec_le. lia.
Qed.

Lemma CompareSymInfoByVal_compares (m : Store.t) :
  compares (CompareSymInfoByVal m)
    (ptr_le (Store.SymInfos m) sym_val_le)
    (ptr_good (Store.SymInfos m) any_record).
Proof.
  apply compares_records.
  - intros x y a b Ha Hb _ _.
    unfold CompareSymInfoByVal, CompareSymInfoByName, sym_val_le.
    rewrite Ha, Hb. cbn [mbind option_bind].
    destruct (Z.gtb_spec (SymInfo.Value a) (SymInfo.Value b));
      [eexists; split; [reflexivity|lia]|].
    destruct (Z.ltb_spec (SymInfo.Value a) (SymInfo.Value b));
      [eexists; split; [reflexivity|lia]|].
    eexists. split; [reflexivity|]. rewrite strcmp_nonneg. split.
    + intros Hle. right. split; [lia|exact Hle].
    + intros [Hle|[_ Hle]]; [lia|exact Hle].
  - intros a b _ _. unfold sym_val_le, str_le.
    pose proof (strcmp_opp (SymInfo.Name a) (SymInfo.Name b)). lia.
  - intros a b c _ _ _. unfold sym_val_le.
    intros [H1|[H1 H1']] [H2|[H2 H2']]; try lia.
    right. split; [lia|]. eapply str_le_trans; eauto.
Qed.

Lemma CompareSymInfoByName_compares (m : Store.t) :
  compares (CompareSymInfoByName m)
    (ptr_le (Store.SymInfos m) sym_name_le)
    (ptr_good (Store.SymInfos m) any_record).
Proof.
  apply compares_records.
  - intros x y a b Ha Hb _ _. unfold CompareSymInfoByName, sym_name_le.
    rewrite Ha, Hb. cbn [mbind option_bind].
    eexists. split; [reflexivity|]. apply strcmp_nonneg.
  - intros a b _ _. apply str_le_total.
  - intros a b c _ _ _. apply str_le_trans.
Qed.

Lemma CompareLineInfoByLine_compares (m : Store.t) :
  compares (CompareLineInfoByLine m)
    (ptr_le (Store.LineInfos m) line_rec_le)
    (ptr_good (Store.LineInfos m) line_fits_int).
Proof.
  apply compares_records.
  - intros x y a b Ha Hb HPa HPb.
    unfold CompareLineInfoByLine, line_rec_le, line_fits_int in *.
    rewrite Ha, Hb. cbn [mbind option_bind]. cbv zeta.
    eexists. split; [reflexivity|].
    rewrite !(to_int_small (LineInfo.Line _)) by (unfold INT_MAX in *; lia).
    rewrite to_int_small by (unfold INT_MAX in *; lia). lia.
  - intros a b _ _. unfold line_rec_le. lia.
  - intros a b c _ _ _. unfold line_rec_le. lia.
Qed.

Lemma CompareFileInfoByName_compares (m : Store.t) :
  compares (CompareFileInfoByName m)
    (ptr_le (Store.FileInfos m) file_rec_le)
    (ptr_good (Store.FileInfos m) any_record).
Proof.
  apply compares_records.
  - intros x y a b Ha Hb _ _. unfold CompareFileInfoByName, file_rec_le.
    rewrite Ha, Hb. cbn [mbind option_bind]. cbv zeta.
    pose proof (strcmp_opp (FileInfo.Name a) (FileInfo.Name b)) as Hopp.
    pose proof (strcmp_eq (FileInfo.Name a) (FileInfo.Name b)) as Heq.
    pose proof (strcmp_eq (FileInfo.Name b) (FileInfo.Name a)) as Heq'.
    destruct (Z.eqb_spec (strcmp (FileInfo.Name a) (FileInfo.Name b)) 0)
      as [E|N]; cbn [negb].
    + apply Heq in E as E'.
      assert (strcmp (FileInfo.Name b) (FileInfo.Name a) = 0) as E0 by lia.
      destruct (Z.gtb_spec (FileInfo.MTime a) (FileInfo.MTime b));
        [eexists; split; [reflexivity|]; split; [intros _|lia]; right;
         split; [congruence|lia]|].
      destruct (Z.ltb_spec (FileInfo.MTime a) (FileInfo.MTime b));
        [eexists; split; [reflexivity|]; split; [lia|];
         intros [Hle|[_ Hle]]; lia|].
      destruct (Z.gtb_spec (FileInfo.Size a) (FileInfo.Size b));
        [eexists; split; [reflexivity|]; split; [intros _|lia]; right;
         split; [congruence|lia]|].
      destruct (Z.ltb_spec (FileInfo.Size a) (FileInfo.Size b));
        [eexists; split; [reflexivity|]; split; [lia|];
         intros [Hle|[_ Hle]]; lia|].
      eexists. split; [reflexivity|]. split; [intros _|lia].
      right. split; [congruence|lia].
    + eexists. split; [reflexivity|]. split.
      * intros Hle. left. lia.
      * intros [Hle|[Hle _]]; [lia|]. symmetry in Hle. apply Heq in Hle. lia.
  - intros a b _ _. unfold file_rec_le.
    pose proof (strcmp_opp (FileInfo.Name a) (FileInfo.Name b)).
    pose proof (strcmp_eq (FileInfo.Name a) (FileInfo.Name b)) as Heq.
    destruct (Z.eq_dec (strcmp (FileInfo.Name a) (FileInfo.Name b)) 0) as [E|N].
    + apply Heq in E.
      destruct (Z.lt_trichotomy (FileInfo.MTime a) (FileInfo.MTime b))
        as [Hm|[Hm|Hm]].
      * left. right. split; [exact E|lia].
      * destruct (Z.le_ge_cases (FileInfo.Size a) (FileInfo.Size b)).
        { left. right. split; [exact E|lia]. }
        { right. right. split; [congruence|lia]. }
      * right. right. split; [congruence|lia].
    + lia.
  - intros a b c _ _ _. unfold file_rec_le.
    intros [H1|[H1 H1']] [H2|[H2 H2']].
    + left. eapply strcmp_lt_trans; eauto.
    + left. now rewrite <- H2.
    + left. now rewrite H1.
    + right. split; [congruence|lia].
Qed.

(** ** Sorted collections of records *)

Lemma mapM_Permutation {A B} (f : A -> option B) (l l' : list A)
  (k : list B) :
  l ≡ₚ l' -> mapM f l = Some k -> exists k', mapM f l' = Some k' /\ k ≡ₚ k'.
Proof.
  intros HP. revert k.
  induction HP as [|x l l' HP IH|x y l|l l' l'' HP1 IH1 HP2 IH2]; intros k Hk.
  - exists k. auto.
  - cbn in Hk |- *. destruct (f x) as [b|]; [|discriminate]. cbn in Hk |- *.
    destruct (mapM f l) as [k0|] eqn:E; [|discriminate]. cbn in Hk.
    injection Hk as <-. destruct (IH k0 eq_refl) as (k' & -> & Hk').
    cbn. exists (b :: k'). split; [reflexivity|]. now constructor.
  - cbn in Hk |- *. destruct (f y) as [b|]; [|discriminate]. cbn in Hk |- *.
    destruct (f x) as [a|]; [|discriminate]. cbn in Hk |- *.
    destruct (mapM f l) as [k0|]; [|discriminate]. cbn in Hk |- *.
    injection Hk as <-. exists (a :: b :: k0). split; [reflexivity|].
    apply perm_swap.
  - destruct (IH1 k Hk) as (k1 & Hk1 & HP1').
    destruct (IH2 k1 Hk1) as (k2 & Hk2 & HP2').
    exists k2. split; [exact Hk2|]. now rewrite HP1'.
Qed.

Lemma StronglySorted_Forall2 {A B} (R : A -> A -> Prop) (S : B -> B -> Prop)
  (Q : A -> B -> Prop) (l : list A) (k : list B) :
  (forall a b x y, R a b -> Q a x -> Q b y -> S x y) ->
  Forall2 Q l k -> StronglySorted R l -> StronglySorted S k.
Proof.
  intros HRS HF. induction HF as [|a x l k Hax HF IH]; intros Hs;
    [constructor|].
  apply StronglySorted_inv in Hs as [Hs Hall]. constructor; [now apply IH|].
  clear IH Hs. induction HF as [|b y l k Hby HF IH]; [constructor|].
  apply Forall_cons in Hall as [Hab Hall].
  constructor; [eapply HRS; eauto|now apply IH].
Qed.

(** Sorting a collection of pointers to records with a compare function
    that decides the order [R] of the records that satisfy [P]. *)
Lemma CollSort_records {A} (store : list A) (P : A -> Prop)
  (R : A -> A -> Prop) (Compare : option nat -> option nat -> option Z)
  (C : Collection) (rs : list (nat * A)) :
  compares Compare (ptr_le store R) (ptr_good store P) ->
  fetch_records store C = Some rs ->
  Forall (fun r => P (snd r)) rs ->
  CollCount C <= 1073741824 ->
  exists C' rs',
    CollSort Compare C = Some C'
    /\ Size C' = Size C
    /\ Items C' ≡ₚ Items C
    /\ fetch_records store C' = Some rs'
    /\ rs' ≡ₚ rs
    /\ StronglySorted (records_le R) rs'.
Proof.
  intros Hcmp Hf HP Hn.
  pose proof (fetch_records_Forall2 _ _ _ Hf) as HF.
  assert (Forall (entry_good (ptr_good store P)) (Items C)) as Hgood.
  { clear Hf Hn. induction HF as [|e r es rs' [He Hr] HF IH]; constructor.
    - apply Forall_cons in HP as [HPr _].
      exists (Some (fst r)). split.
      + destruct e as [n|q]; [discriminate|]. cbn in He. congruence.
      + exists (snd r). split; [exact Hr|exact HPr].
    - apply IH. now apply Forall_cons in HP as [_ HP]. }
  destruct (CollSort_spec Compare _ _ Hcmp C Hgood Hn)
    as (Items' & HSort & Hperm & Hsorted).
  destruct (mapM_Permutation _ (Items C) Items' rs
              ltac:(now symmetry) Hf) as (rs' & Hf' & Hperm').
  exists (mkColl (Size C) Items'), rs'.
  split; [exact HSort|]. split; [reflexivity|]. split; [exact Hperm|].
  split; [exact Hf'|]. split; [now symmetry|].
  assert (fetch_records store (mkColl (Size C) Items') = Some rs') as Hf''
    by exact Hf'.
  apply fetch_records_Forall2 in Hf''. cbn [Items] in Hf''.
  eapply StronglySorted_Forall2; [|exact Hf''|exact Hsorted].
  intros a b x y (xa & xb & -> & -> & Hle) [Ha Hx] [Hb Hy].
  cbn in Ha, Hb. injection Ha as ->. injection Hb as ->.
  apply Hle; assumption.
Qed.

(** X1. [CollSort] returns for every collection of at most [2^30] entries
    whose pointers the compare function accepts, if the compare function
    decides a total preorder on them: no index and no sum of two indices
    leaves the range of [int], the capacity is unchanged, and the items are
    a permutation of the items given, in ascending order. *)
Theorem X1_CollSort_sorted_permutation
  (Compare : option nat -> option nat -> option Z)
  (le : option nat -> option nat -> Prop) (good : option nat -> Prop)
  (C : Collection) :
  compares Compare le good ->
  Forall (entry_good good) (Items C) ->
  CollCount C <= 1073741824 ->
  exists C',
    CollSort Compare C = Some C'
    /\ Size C' = Size C
    /\ Items C' ≡ₚ Items C
    /\ StronglySorted (entry_le le) (Items C').
Proof.
  intros Hcmp Hgood Hn.
  destruct (CollSort_spec Compare le good Hcmp C Hgood Hn)
    as (Items' & HSort & Hperm & Hsorted).
  exists (mkColl (Size C) Items'). auto.
Qed.

Lemma X1_CollSort_witness :
  exists C',
    CollSort (CompareSpanInfoByAddr unsorted_store)
      (pointers [0%nat; 1%nat; 2%nat]) = Some C'
    /\ Size C' = Size (pointers [0%nat; 1%nat; 2%nat])
    /\ Items C' ≡ₚ Items (pointers [0%nat; 1%nat; 2%nat])
    /\ StronglySorted
         (entry_le (ptr_le (Store.SpanInfos unsorted_store) span_rec_le))
         (Items C').
Proof.
  apply (X1_CollSort_sorted_permutation _ _
           (ptr_good (Store.SpanInfos unsorted_store) any_record)).
  - apply CompareSpanInfoByAddr_compares.
  - repeat (apply Forall_cons; split;
            [eexists; split; [reflexivity|];
             eexists; split; [reflexivity|exact I]|]).
    constructor.
  - vm_compute. intros H. discriminate H.
Defined.

(** X2. The compare functions decide total preorders on the valid
    pointers: [CompareSpanInfoByAddr] the order by start, then end;
    [CompareSymInfoByVal] by value, then name; [CompareSymInfoByName] by
    name; [CompareFileInfoByName] by name, then time stamp, then size; and
    [CompareLineInfoByLine], whose difference of two [int] needs line
    numbers up to [INT_MAX], by line number. *)
Theorem X2_compare_functions_decide_orders (m : Store.t) :
  compares (CompareSpanInfoByAddr m)
    (ptr_le (Store.SpanInfos m) span_rec_le)
    (ptr_good (Store.SpanInfos m) any_record)
  /\ compares (CompareSymInfoByVal m)
       (ptr_le (Store.SymInfos m) sym_val_le)
       (ptr_good (Store.SymInfos m) any_record)
  /\ compares (CompareSymInfoByName m)
       (ptr_le (Store.SymInfos m) sym_name_le)
       (ptr_good (Store.SymInfos m) any_record)
  /\ compares (CompareFileInfoByName m)
       (ptr_le (Store.FileInfos m) file_rec_le)
       (ptr_good (Store.FileInfos m) any_record)
  /\ compares (CompareLineInfoByLine m)
       (ptr_le (Store.LineInfos m) line_rec_le)
       (ptr_good (Store.LineInfos m) line_fits_int).
Proof.
  split; [apply CompareSpanInfoByAddr_compares|].
  split; [apply CompareSymInfoByVal_compares|].
  split; [apply CompareSymInfoByName_compares|].
  split; [apply CompareFileInfoByName_compares|].
  apply CompareLineInfoByLine_compares.
Qed.

Lemma records_le_span (x y : nat * SpanInfo.t) :
  records_le span_rec_le x y <-> span_le x y.
Proof. reflexivity. Qed.

(** X3. Sorting a collection of at most [2^30] valid span pointers with
    [CompareSpanInfoByAddr], as [ProcessSpanInfo] does before it builds the
    table, returns the same spans in the order by (start, end) that
    [CreateSpanInfoList] asks for. *)
Theorem X3_spans_sorted_by_address (m : Store.t) (C : Collection)
  (spans : list (nat * SpanInfo.t)) :
  fetch_spans m C = Some spans ->
  CollCount C <= 1073741824 ->
  exists C' spans',
    CollSort (CompareSpanInfoByAddr m) C = Some C'
    /\ fetch_spans m C' = Some spans'
    /\ spans' ≡ₚ spans
    /\ sorted_spans spans'.
Proof.
  intros Hf Hn.
  destruct (CollSort_records (Store.SpanInfos m) any_record span_rec_le
              (CompareSpanInfoByAddr m) C spans
              (CompareSpanInfoByAddr_compares m) Hf)
    as (C' & spans' & HSort & _ & _ & Hf' & Hperm & Hsorted); auto.
  { apply Forall_forall. intros r _. exact I. }
  exists C', spans'. split; [exact HSort|]. split; [exact Hf'|].
  split; [exact Hperm|]. apply StronglySorted_Sorted. exact Hsorted.
Qed.

Lemma X3_spans_sorted_witness :
  exists C' spans',
    CollSort (CompareSpanInfoByAddr unsorted_store)
      (pointers [0%nat; 1%nat; 2%nat]) = Some C'
    /\ fetch_spans unsorted_store C' = Some spans'
    /\ spans' ≡ₚ default [] (fetch_spans unsorted_store
                              (pointers [0%nat; 1%nat; 2%nat]))
    /\ sorted_spans spans'.
Proof.
  apply X3_spans_sorted_by_address.
  - vm_compute. reflexivity.
  - vm_compute. intros H. discriminate H.
Defined.

(** ** Collections *)

Lemma expand_size_some (Index : Z) :
  0 <= Index <= INT_MAX ->
  forall (fuel : nat) (Sz : Z),
    1 <= Sz < UINT_MOD -> Index < Sz * 2 ^ Z.of_nat fuel ->
    exists Sz', expand_size fuel Index Sz = Some Sz'
                /\ Index < Sz' /\ Sz <= Sz' < UINT_MOD.
Proof.
  intros HI. induction fuel as [|fuel IH]; intros Sz HSz Hpow.
  - cbn [expand_size]. change (2 ^ Z.of_nat 0) with 1 in Hpow.
    destruct (Z.ltb_spec Index Sz) as [?|?]; [|lia].
    exists Sz. split; [reflexivity|lia].
  - cbn [expand_size]. destruct (Z.ltb_spec Index Sz) as [Hlt|Hge].
    + exists Sz. split; [reflexivity|lia].
    + unfold INT_MAX, UINT_MOD in *.
      rewrite to_unsigned_small by (unfold UINT_MOD; lia).
      destruct (IH (Sz * 2)) as (Sz' & -> & H1 & H2); [lia| |].
      * rewrite Nat2Z.inj_succ, Z.pow_succ_r in Hpow by lia. lia.
      * exists Sz'. split; [reflexivity|lia].
Qed.

Lemma CollGrow_Items (C : Collection) (n : Z) : Items (CollGrow C n) = Items C.
Proof. unfold CollGrow. destruct (n <=? Size C); reflexivity. Qed.

Lemma CollGrow_Size (C : Collection) (n : Z) :
  Size (CollGrow C n) = Z.max (Size C) n.
Proof. unfold CollGrow. destruct (Z.leb_spec n (Size C)); cbn; lia. Qed.

(** X4. [CollReplaceExpand] at an index up to [INT_MAX], on a collection
    that is not larger than its capacity: it returns, the item is at the
    index afterwards, the other entries that were there stay as they are,
    the indices between the old end and the new item hold null, the count
    is the larger of the old count and the index plus one, and the count
    still fits the capacity. *)
Theorem X4_CollReplaceExpand_stores (C : Collection) (Item : option nat)
  (Index : Z) :
  0 <= Index <= INT_MAX ->
  CollCount C <= Size C < UINT_MOD ->
  exists C',
    CollReplaceExpand C Item Index = Some C'
    /\ CollAt C' (Z.to_nat Index) = Some Item
    /\ CollCount C' = Z.max (CollCount C) (Index + 1)
    /\ (forall k : nat, k <> Z.to_nat Index -> (k < length (Items C))%nat ->
          Items C' !! k = Items C !! k)
    /\ (forall k : nat, (length (Items C) <= k < Z.to_nat Index)%nat ->
          Items C' !! k = Some ENull)
    /\ CollCount C' <= Size C' < UINT_MOD.
Proof.
  intros HI HC. unfold CollReplaceExpand, CollAt, CollCount in *.
  destruct (Z.ltb_spec Index (Z.of_nat (length (Items C)))) as [Hlt|Hge].
  - eexists. split; [reflexivity|]. cbn [Items Size].
    rewrite length_insert.
    rewrite list_lookup_insert_eq by lia. cbn.
    split; [reflexivity|]. split; [lia|]. split.
    + intros k Hk _. now apply list_lookup_insert_ne.
    + split; [intros k Hk; lia|lia].
  - cbv zeta.
    destruct (expand_size_some Index HI 33
                (if Size C =? 0 then 8 else Size C))
      as (Sz & -> & HSz & HSz').
    { destruct (Z.eqb_spec (Size C) 0); unfold UINT_MOD in *; lia. }
    { unfold INT_MAX in *.
      destruct (Z.eqb_spec (Size C) 0); change (2 ^ Z.of_nat 33) with 8589934592;
        lia. }
    cbn [mbind option_bind]. eexists. split; [reflexivity|].
    cbn [Items Size]. rewrite CollGrow_Items, CollGrow_Size.
    rewrite !length_app, length_replicate. cbn [length].
    split.
    { rewrite lookup_app_r by lia.
      rewrite lookup_app_r by (rewrite length_replicate; lia).
      rewrite length_replicate.
      replace (Z.to_nat Index - length (Items C)
               - (Z.to_nat Index - length (Items C)))%nat with 0%nat by lia.
      reflexivity. }
    split; [lia|]. split.
    { intros k _ Hk. now apply lookup_app_l. }
    split.
    { intros k Hk. rewrite lookup_app_r by lia.
      rewrite lookup_app_l by (rewrite length_replicate; lia).
      apply lookup_replicate_2. lia. }
    destruct (Z.eqb_spec (Size C) 0); lia.
Qed.

Lemma X4_CollReplaceExpand_witness :
  exists C',
    CollReplaceExpand (pointers [7%nat]) (Some 9%nat) 3 = Some C'
    /\ CollAt C' (Z.to_nat 3) = Some (Some 9%nat)
    /\ CollCount C' = Z.max (CollCount (pointers [7%nat])) (3 + 1)
    /\ (forall k : nat, k <> Z.to_nat 3 ->
          (k < length (Items (pointers [7%nat])))%nat ->
          Items C' !! k = Items (pointers [7%nat]) !! k)
    /\ (forall k : nat,
          (length (Items (pointers [7%nat])) <= k < Z.to_nat 3)%nat ->
          Items C' !! k = Some ENull)
    /\ CollCount C' <= Size C' < UINT_MOD.
Proof.
  apply X4_CollReplaceExpand_stores.
  - unfold INT_MAX. lia.
  - vm_compute. split; [intros H; discriminate H|reflexivity].
Defined.

(** The doubling loop from a power of two never gets above an index of
    [2^31] or more: the size goes through [2^31] to 0 and stays there. *)
Lemma expand_size_none (Index : Z) :
  2147483648 <= Index ->
  forall (fuel : nat) (j : Z),
    0 <= j <= 32 -> expand_size fuel Index (to_unsigned (2 ^ j)) = None.
Proof.
  intros HI. induction fuel as [|fuel IH]; intros j Hj.
  - cbn [expand_size].
    destruct (Z.ltb_spec Index (to_unsigned (2 ^ j))) as [Hlt|_];
      [|reflexivity].
    exfalso. destruct (Z.eq_dec j 32) as [->|Hne].
    + change (to_unsigned (2 ^ 32)) with 0 in Hlt. lia.
    + assert (2 ^ j <= 2 ^ 31) by (apply Z.pow_le_mono_r; lia).
      assert (0 < 2 ^ j) by (apply Z.pow_pos_nonneg; lia).
      rewrite to_unsigned_small in Hlt;
        [|change UINT_MOD with 4294967296; change (2 ^ 31) with 2147483648 in *;
          lia].
      change (2 ^ 31) with 2147483648 in *. lia.
  - cbn [expand_size].
    destruct (Z.eq_dec j 32) as [->|Hne].
    + change (to_unsigned (2 ^ 32)) with 0.
      destruct (Z.ltb_spec Index 0) as [?|_]; [lia|].
      change (to_unsigned (0 * 2)) with (to_unsigned (2 ^ 32)).
      apply IH. lia.
    + assert (2 ^ j <= 2 ^ 31) by (apply Z.pow_le_mono_r; lia).
      assert (0 < 2 ^ j) by (apply Z.pow_pos_nonneg; lia).
      change (2 ^ 31) with 2147483648 in *.
      rewrite (to_unsigned_small (2 ^ j))
        by (change UINT_MOD with 4294967296; lia).
      destruct (Z.ltb_spec Index (2 ^ j)) as [?|_]; [lia|].
      replace (2 ^ j * 2) with (2 ^ (j + 1))
        by (rewrite Z.pow_add_r by lia; reflexivity).
      apply IH. lia.
Qed.

Lemma CollReplaceExpand_no_exit (C : Collection)
  (Item : option nat) (Index j : Z) :
  2147483648 <= Index ->
  CollCount C <= Index ->
  0 <= j <= 31 ->
  Size C = 0 \/ Size C = 2 ^ j ->
  CollReplaceExpand C Item Index = None.
Proof.
  intros HI HC Hj HS. unfold CollReplaceExpand.
  destruct (Z.ltb_spec Index (CollCount C)) as [?|_]; [lia|]. cbv zeta.
  assert ((if Size C =? 0 then 8 else Size C)
          = to_unsigned (2 ^ (if Size C =? 0 then 3 else j))) as ->.
  { destruct HS as [->| ->].
    - reflexivity.
    - assert (2 ^ j <= 2 ^ 31) by (apply Z.pow_le_mono_r; lia).
      assert (0 < 2 ^ j) by (apply Z.pow_pos_nonneg; lia).
      change (2 ^ 31) with 2147483648 in *.
      destruct (Z.eqb_spec (2 ^ j) 0); [lia|].
      rewrite to_unsigned_small; [reflexivity|].
      change UINT_MOD with 4294967296. lia. }
  rewrite expand_size_none; [reflexivity|exact HI|].
  destruct (Size C =? 0); lia.
Qed.

(** X5. On a collection whose capacity is 0 or a power of two, as the
    doubling of the capacity from 8 makes it, [CollReplaceExpand] at a free
    index of [2^31] or more does not return: doubling the [unsigned] size
    wraps around to 0 before it gets above the index, and the loop
    [while (Index >= Size) Size *= 2] has no exit. *)
Theorem X5_CollReplaceExpand_large_index (C : Collection)
  (Item : option nat) (Index j : Z) :
  2147483648 <= Index ->
  CollCount C <= Index ->
  0 <= j <= 31 ->
  Size C = 0 \/ Size C = 2 ^ j ->
  CollReplaceExpand C Item Index = None.
Proof. apply CollReplaceExpand_no_exit. Qed.

Lemma X5_CollReplaceExpand_large_witness :
  CollReplaceExpand CollInit (Some 0%nat) 2147483648 = None.
Proof.
  apply (X5_CollReplaceExpand_large_index _ _ _ 3).
  - lia.
  - vm_compute. intros H. discriminate H.
  - lia.
  - left. reflexivity.
Defined.

Lemma parse_lines_undefined (ls : list InputLine) :
  foldl (fun D l => D ← D; parse_line D l) None ls = None.
Proof. induction ls as [|l ls IH]; [reflexivity|exact IH]. Qed.

(** X6. A file whose first record is a span with an id from [2^31] up
    makes the reader hang, whatever follows: storing the span at its id
    runs the doubling loop of [CollReplaceExpand] on the empty collection of
    the spans. *)
Theorem X6_span_id_too_large_hangs (id seg size start : Z)
  (rest : list InputLine) :
  2147483648 <= id < UINT_MOD ->
  cc65_read_dbginfo (version_2_0 :: span_line id seg size start :: rest)
  = None.
Proof.
  intros Hid. unfold cc65_read_dbginfo, version_2_0.
  set (D := ParseVersion InputData_init [] _ false).
  change (InputData.MajorVersion D <? VER_MAJOR) with false. cbv iota.
  change ((InputData.MajorVersion D =? VER_MAJOR)
          && (InputData.MinorVersion D >? VER_MINOR)) with false.
  change (InputData.MajorVersion D >? VER_MAJOR) with false. cbv iota.
  unfold parse_lines. cbn [foldl mbind option_bind].
  rewrite span_line_accepted. unfold store_SpanInfo. cbn [SpanInfo.Id].
  rewrite (to_unsigned_small id) by lia.
  rewrite (CollReplaceExpand_no_exit _ _ id 3); try lia.
  - cbn [mbind option_bind]. now rewrite parse_lines_undefined.
  - vm_compute. intros H. destruct id; try discriminate H; lia.
  - left. reflexivity.
Qed.

Lemma X6_span_id_too_large_witness :
  cc65_read_dbginfo [version_2_0; span_line 2147483648 0 4 0] = None.
Proof.
  apply X6_span_id_too_large_hangs. unfold UINT_MOD. lia.
Defined.

Lemma CollPrepareAppend_room (C : Collection) :
  CollCount C <= Size C < 2147483648 ->
  exists C0,
    CollPrepareAppend C = Some C0
    /\ Items C0 = Items C
    /\ CollCount C < Size C0
    /\ Size C0 <= Z.max (Size C) (Z.max 8 (2 * CollCount C)).
Proof.
  intros H. unfold CollPrepareAppend.
  destruct (Z.geb_spec (CollCount C) (Size C)) as [Hge|Hlt].
  - assert (Size C = CollCount C) as HS by lia.
    destruct (Z.eqb_spec (Size C) 0) as [H0|H0].
    + unfold CollGrow. rewrite H0. cbn [Z.leb Z.compare].
      unfold CollCount at 1. cbn [Items Size].
      destruct (Z.ltb_spec (Z.of_nat (length (Items C))) 8) as [?|?];
        [|unfold CollCount in *; lia].
      eexists. split; [reflexivity|]. cbn [Items Size].
      unfold CollCount in *. repeat split; lia.
    + unfold CollGrow.
      rewrite to_unsigned_small by (unfold UINT_MOD, CollCount in *; lia).
      destruct (Z.leb_spec (Size C * 2) (Size C)) as [?|?];
        [unfold CollCount in *; lia|].
      unfold CollCount at 1. cbn [Items Size].
      destruct (Z.ltb_spec (Z.of_nat (length (Items C))) (Size C * 2)) as [?|?];
        [|unfold CollCount in *; lia].
      eexists. split; [reflexivity|]. cbn [Items Size].
      unfold CollCount in *. repeat split; lia.
  - destruct (Z.ltb_spec (CollCount C) (Size C)) as [?|?]; [|lia].
    eexists. split; [reflexivity|]. repeat split; lia.
Qed.

Lemma id_collection_from (ids : list Z) :
  forall C : Collection,
    CollCount C <= Size C ->
    Size C <= Z.max 8 (2 * CollCount C) ->
    CollCount C + Z.of_nat (length ids) <= 1073741824 ->
    exists C',
      foldl (fun C id => C ← C; CollAppendId C (to_unsigned id)) (Some C) ids
      = Some C'
      /\ Items C' = Items C ++ ((fun id => EId (to_unsigned id)) <$> ids)
      /\ CollCount C' <= Size C'
      /\ Size C' <= Z.max 8 (2 * CollCount C').
Proof.
  induction ids as [|id ids IH]; intros C H1 H2 H3.
  - exists C. cbn. rewrite app_nil_r. auto.
  - cbn [foldl mbind option_bind length] in *. unfold CollAppendId at 2.
    destruct (CollPrepareAppend_room C) as (C0 & -> & HI & HS & HS'); [lia|].
    cbn [mbind option_bind].
    destruct (IH (mkColl (Size C0) (Items C0 ++ [EId (to_unsigned id)])))
      as (C' & -> & HI' & HC' & HS'').
    + unfold CollCount in *. cbn. rewrite length_app, HI. cbn. lia.
    + unfold CollCount in *. cbn. rewrite length_app, HI. cbn. lia.
    + unfold CollCount in *. cbn. rewrite length_app, HI. cbn. lia.
    + exists C'. split; [reflexivity|]. split; [|auto].
      rewrite HI'. cbn [Items]. rewrite HI, <- app_assoc. reflexivity.
Qed.

(** X7. The ids of an attribute such as [mod=0+1], up to [2^30] of them,
    end up in the fresh collection in the order given, each reduced to an
    [unsigned]; the collection is not larger than its capacity. *)
Theorem X7_id_collection_keeps_order (ids : list Z) :
  Z.of_nat (length ids) <= 1073741824 ->
  exists C,
    id_collection ids = Some C
    /\ Items C = (fun id => EId (to_unsigned id)) <$> ids
    /\ CollCount C <= Size C.
Proof.
  intros H. unfold id_collection.
  assert (CollCount COLLECTION_INITIALIZER = 0) as H0 by reflexivity.
  assert (Size COLLECTION_INITIALIZER = 0) as H1 by reflexivity.
  destruct (id_collection_from ids COLLECTION_INITIALIZER
              ltac:(lia) ltac:(lia) ltac:(lia))
    as (C & HC & HI & HS & _).
  exists C. auto.
Qed.

Lemma X7_id_collection_witness :
  exists C,
    id_collection [0; 4294967297; 2] = Some C
    /\ Items C = (fun id => EId (to_unsigned id)) <$> [0; 4294967297; 2]
    /\ CollCount C <= Size C.
Proof. apply X7_id_collection_keeps_order. cbn. lia. Defined.

(** ** The span table, continued *)

(** X8. The table that [CreateSpanInfoList] builds from spans sorted by
    (start, end), each with [0 <= start <= end + 1] and an end below the
    largest [unsigned], fewer than [2^32] spans on fewer than [2^32]
    distinct addresses: it has one entry for each distinct address, in
    strictly ascending order of the addresses, and the count of an entry is
    the number of spans that cover its address, which is at least one. *)
Theorem X8_span_table_invariants (m : Store.t) (SpanInfos : Collection)
  (spans : list (nat * SpanInfo.t)) :
  fetch_spans m SpanInfos = Some spans ->
  sorted_spans spans ->
  Forall span_ok spans ->
  Forall span_ends_early spans ->
  Z.of_nat (length spans) < UINT_MOD ->
  Z.of_nat (length (distinct_addresses spans)) < UINT_MOD ->
  exists (T : SpanInfoList.t) (addrs : list Z),
    CreateSpanInfoList m SpanInfos = Some T
    /\ SpanInfoList.Count T = Z.of_nat (length (SpanInfoList.List_ T))
    /\ addrs ≡ₚ distinct_addresses spans
    /\ StronglySorted Z.lt addrs
    /\ SpanInfoListEntry.Addr <$> SpanInfoList.List_ T = Some <$> addrs
    /\ (forall E a, E ∈ SpanInfoList.List_ T ->
          SpanInfoListEntry.Addr E = Some a ->
          1 <= SpanInfoListEntry.Count E
          /\ SpanInfoListEntry.Count E
             = Z.of_nat (length (covering spans a))).
Proof.
  intros Hf Hsort Hok Hearly Hl Hd.
  rewrite <- length_table_addresses in Hd by assumption.
  exists (span_table spans), (table_addresses spans).
  split; [now apply CreateSpanInfoList_spec|].
  unfold span_table. cbn [SpanInfoList.Count SpanInfoList.List_].
  split; [now rewrite length_fmap|].
  split; [now apply table_addresses_distinct|].
  split; [now apply table_addresses_spec|].
  split.
  { rewrite <- list_fmap_compose. apply list_fmap_ext.
    intros i a _. apply table_entry_Addr. }
  intros E a HE HA. apply list_elem_of_fmap in HE as (a' & -> & Ha').
  rewrite table_entry_Addr in HA. injection HA as ->.
  apply table_addresses_spec in Ha' as (Sp & HSp & Hc); auto.
  assert (fst Sp ∈ covering spans a) as Hin
    by (apply elem_of_covering; eauto).
  unfold table_entry.
  destruct (covering spans a) as [|p [|q ps]];
    cbn [SpanInfoListEntry.Count length]; [inversion Hin|lia|lia].
Qed.

Lemma X8_span_table_witness :
  exists (T : SpanInfoList.t) (addrs : list Z),
    CreateSpanInfoList (DbgInfo.Mem (loaded input_overlapping_spans))
      (pointers [0%nat; 1%nat]) = Some T
    /\ SpanInfoList.Count T = Z.of_nat (length (SpanInfoList.List_ T))
    /\ addrs ≡ₚ distinct_addresses overlapping_spans
    /\ StronglySorted Z.lt addrs
    /\ SpanInfoListEntry.Addr <$> SpanInfoList.List_ T = Some <$> addrs
    /\ (forall E a, E ∈ SpanInfoList.List_ T ->
          SpanInfoListEntry.Addr E = Some a ->
          1 <= SpanInfoListEntry.Count E
          /\ SpanInfoListEntry.Count E
             = Z.of_nat (length (covering overlapping_spans a))).
Proof.
  apply X8_span_table_invariants.
  - vm_compute. reflexivity.
  - exact overlapping_spans_sorted.
  - exact overlapping_spans_ok.
  - exact overlapping_spans_early.
  - vm_compute. reflexivity.
  - vm_compute. reflexivity.
Defined.

(** ** Binary searches over the symbols *)

(** The flag of [FindSymInfoByValue]: set only at a symbol with the value,
    and clear only when no symbol from the final index on has it. *)
Lemma FindSymInfoByValue_loop_found (m : Store.t) (C : Collection)
  (syms : list (nat * SymInfo.t)) (V : Z) :
  fetch_records (Store.SymInfos m) C = Some syms ->
  sorted_by_value syms ->
  Z.of_nat (length syms) <= 1073741824 ->
  forall (fuel : nat) (Lo Hi : Z) (Found Found' : bool) (L : Z),
    0 <= Lo -> Hi < Z.of_nat (length syms) -> Lo <= Hi + 1 ->
    (Found = true -> exists s, s ∈ syms /\ SymInfo.Value (snd s) = V) ->
    (Found = false -> forall i s, syms !! i = Some s -> Hi < Z.of_nat i ->
                      SymInfo.Value (snd s) <> V) ->
    FindSymInfoByValue_loop fuel m C V Lo Hi Found = Some (Found', L) ->
    (Found' = true -> exists s, s ∈ syms /\ SymInfo.Value (snd s) = V)
    /\ (Found' = false -> forall i s, syms !! i = Some s -> L <= Z.of_nat i ->
                          SymInfo.Value (snd s) <> V).
Proof.
  intros Hf Hs Hn.
  induction fuel as [|fuel IH];
    intros Lo Hi Found Found' L HLo HHi HLH Hyes Hno Hloop;
    cbn [FindSymInfoByValue_loop] in Hloop;
    destruct (Z.leb_spec Lo Hi) as [Hle|Hgt]; try discriminate Hloop.
  - injection Hloop as <- <-. split; [exact Hyes|].
    intros HF i s Hs' HL. apply (Hno HF i s Hs'). lia.
  - rewrite (to_int_small (Lo + Hi)) in Hloop by (unfold INT_MAX; lia).
    rewrite Z.quot_div_nonneg in Hloop by lia.
    assert (Lo <= (Lo + Hi) / 2 <= Hi) as HCur
      by (Z.to_euclidean_division_equations; lia).
    set (Cur := (Lo + Hi) / 2) in *.
    destruct (Z.ltb_spec Cur 0) as [?|_]; [lia|].
    destruct (lookup_lt_is_Some_2 syms (Z.to_nat Cur)) as [x Hx]; [lia|].
    destruct (fetch_records_lookup _ _ _ _ _ Hf Hx) as [Hat Hderef].
    rewrite Hat in Hloop. cbn [mbind option_bind] in Hloop.
    rewrite Hderef in Hloop. cbn [mbind option_bind] in Hloop.
    destruct (Z.gtb_spec V (SymInfo.Value (snd x))) as [Hxa|Hxa].
    + rewrite to_int_small in Hloop by (unfold INT_MAX; lia).
      apply (IH (Cur + 1) Hi Found Found' L);
        [lia|lia|lia|exact Hyes|exact Hno|exact Hloop].
    + rewrite to_int_small in Hloop by (unfold INT_MAX; lia).
      apply (IH Lo (Cur - 1)
               (if V =? SymInfo.Value (snd x) then true else Found) Found' L);
        [lia|lia|lia| | |exact Hloop].
      * destruct (Z.eqb_spec V (SymInfo.Value (snd x))) as [E|_]; [|exact Hyes].
        intros _. exists x. split; [|now symmetry].
        eapply list_elem_of_lookup_2. exact Hx.
      * destruct (Z.eqb_spec V (SymInfo.Value (snd x))) as [E|NE];
          [discriminate|].
        intros HF i s Hs' HL.
        destruct (Z.lt_ge_cases Hi (Z.of_nat i)) as [Hhi|Hlo];
          [now apply (Hno HF i s Hs')|].
        pose proof (sorted_by_value_lookup syms (Z.to_nat Cur) i x s Hs Hx Hs').
        lia.
  - injection Hloop as <- <-. split; [exact Hyes|].
    intros HF i s Hs' HL. apply (Hno HF i s Hs'). lia.
Qed.

(** X10. On symbols sorted by value (at most [2^30] of them),
    [FindSymInfoByValue] returns true exactly when some symbol has the
    value; the index it stores is where the values stop being smaller: the
    first symbol with the value when there is one, the insert position
    otherwise. *)
Theorem X10_FindSymInfoByValue_first_match (m : Store.t) (C : Collection)
  (syms : list (nat * SymInfo.t)) (V : Z) :
  fetch_records (Store.SymInfos m) C = Some syms ->
  sorted_by_value syms ->
  Z.of_nat (length syms) <= 1073741824 ->
  exists (Found : bool) (L : nat),
    FindSymInfoByValue m C V = Some (Found, Z.of_nat L)
    /\ (L <= length syms)%nat
    /\ (forall i s, syms !! i = Some s -> (i < L)%nat ->
                    SymInfo.Value (snd s) < V)
    /\ (forall i s, syms !! i = Some s -> (L <= i)%nat ->
                    V <= SymInfo.Value (snd s))
    /\ (Found = true <-> exists s, s ∈ syms /\ SymInfo.Value (snd s) = V)
    /\ (Found = true ->
        exists s, syms !! L = Some s /\ SymInfo.Value (snd s) = V).
Proof.
  intros Hf Hs Hn. unfold FindSymInfoByValue.
  rewrite (fetch_records_length _ _ _ Hf).
  rewrite (to_int_small (Z.of_nat _)) by (unfold INT_MAX; lia).
  rewrite to_int_small by (unfold INT_MAX; lia).
  destruct (FindSymInfoByValue_loop_spec m C syms V Hf Hs Hn
              (Z.to_nat (Z.of_nat (length syms) - 1 + 1)) 0
              (Z.of_nat (length syms) - 1) false)
    as (Found & L & Hloop & HL & Hlow & Hhigh); try lia.
  { intros i s Hi'. apply lookup_lt_Some in Hi'. lia. }
  destruct (FindSymInfoByValue_loop_found m C syms V Hf Hs Hn
              (Z.to_nat (Z.of_nat (length syms) - 1 + 1)) 0
              (Z.of_nat (length syms) - 1) false Found L)
    as (Hyes & Hno); try lia; try discriminate; try exact Hloop.
  { intros _ i s Hi' ?. apply lookup_lt_Some in Hi'. lia. }
  exists Found, (Z.to_nat L). rewrite Hloop. cbn [mbind option_bind fst snd].
  rewrite to_unsigned_small by (unfold UINT_MOD; lia).
  rewrite Z2Nat.id by lia.
  assert (forall s, s ∈ syms -> SymInfo.Value (snd s) = V ->
            exists t, syms !! Z.to_nat L = Some t /\ SymInfo.Value (snd t) = V)
    as Hfirst.
  { intros s Hin HV. apply list_elem_of_lookup_1 in Hin as (i & Hi').
    destruct (Z.lt_ge_cases (Z.of_nat i) L) as [Hlt|Hge].
    { pose proof (Hlow i s Hi' Hlt). lia. }
    pose proof (lookup_lt_Some _ _ _ Hi') as Hlen.
    destruct (lookup_lt_is_Some_2 syms (Z.to_nat L)) as [t Ht]; [lia|].
    exists t. split; [exact Ht|].
    pose proof (Hhigh _ t Ht ltac:(lia)).
    pose proof (sorted_by_value_lookup syms (Z.to_nat L) i t s Hs Ht Hi').
    lia. }
  split; [reflexivity|].
  split; [lia|].
  split; [intros i s Hi' HiL; apply (Hlow i s Hi'); lia|].
  split; [intros i s Hi' HiL; apply (Hhigh i s Hi'); lia|].
  split.
  - split; [exact Hyes|]. intros (s & Hin & HV).
    destruct Found; [reflexivity|].
    destruct (Hfirst s Hin HV) as (t & Ht & HtV).
    exfalso. apply (Hno eq_refl _ t Ht); [lia|exact HtV].
  - intros HF. destruct (Hyes HF) as (s & Hin & HV). now apply (Hfirst s).
Qed.

Lemma X10_FindSymInfoByValue_witness :
  exists (Found : bool) (L : nat),
    FindSymInfoByValue (DbgInfo.Mem (loaded input_symbols))
      (DbgInfo.SymInfoByVal (loaded input_symbols)) 32770
    = Some (Found, Z.of_nat L)
    /\ (L <= length symbols_by_value)%nat
    /\ (forall i s, symbols_by_value !! i = Some s -> (i < L)%nat ->
                    SymInfo.Value (snd s) < 32770)
    /\ (forall i s, symbols_by_value !! i = Some s -> (L <= i)%nat ->
                    32770 <= SymInfo.Value (snd s))
    /\ (Found = true
        <-> exists s, s ∈ symbols_by_value /\ SymInfo.Value (snd s) = 32770)
    /\ (Found = true ->
        exists s, symbols_by_value !! L = Some s
                  /\ SymInfo.Value (snd s) = 32770).
Proof.
  apply X10_FindSymInfoByValue_first_match.
  - vm_compute. reflexivity.
  - exact symbols_by_value_sorted.
  - vm_compute. intros H. discriminate H.
Defined.

(** ** Symbols by name *)

Lemma str_le_lt_trans (a b c : string) :
  str_le a b -> strcmp b c < 0 -> strcmp a c < 0.
Proof.
  intros Hab Hbc. unfold str_le in Hab.
  destruct (Z.eq_dec (strcmp a b) 0) as [E|NE].
  - apply strcmp_eq in E as ->. exact Hbc.
  - apply (strcmp_lt_trans a b c); [lia|exact Hbc].
Qed.

Lemma sym_name_le_trans (x y z : nat * SymInfo.t) :
  records_le sym_name_le x y -> records_le sym_name_le y z ->
  records_le sym_name_le x z.
Proof. unfold records_le, sym_name_le. apply str_le_trans. Qed.

Lemma sorted_by_name_lookup (syms : list (nat * SymInfo.t)) (i j : nat)
  (x y : nat * SymInfo.t) :
  sorted_by_name syms ->
  syms !! i = Some x -> syms !! j = Some y -> (i <= j)%nat ->
  str_le (SymInfo.Name (snd x)) (SymInfo.Name (snd y)).
Proof.
  intros Hs Hx Hy Hij. destruct (decide (i = j)) as [->|Hne].
  - rewrite Hx in Hy. injection Hy as <-.
    unfold str_le. now rewrite (proj2 (strcmp_eq _ _) eq_refl).
  - apply Sorted_StronglySorted in Hs; [|exact sym_name_le_trans].
    apply (StronglySorted_lookup _ syms Hs i j x y Hx Hy). lia.
Qed.

(** The search for a name ends at the index of the first symbol whose name
    is not below it, and the flag tells whether a symbol has the name. *)
Lemma FindSymInfoByName_loop_spec (m : Store.t) (C : Collection)
  (syms : list (nat * SymInfo.t)) (N : string) :
  fetch_records (Store.SymInfos m) C = Some syms ->
  sorted_by_name syms ->
  Z.of_nat (length syms) <= 1073741824 ->
  forall (fuel : nat) (Lo Hi : Z) (Found : bool),
    0 <= Lo -> Hi < Z.of_nat (length syms) -> Lo <= Hi + 1 ->
    Hi - Lo + 1 <= Z.of_nat fuel ->
    (forall i s, syms !! i = Some s -> Z.of_nat i < Lo ->
                 strcmp (SymInfo.Name (snd s)) N < 0) ->
    (forall i s, syms !! i = Some s -> Hi < Z.of_nat i ->
                 0 <= strcmp (SymInfo.Name (snd s)) N) ->
    (Found = true -> exists s, s ∈ syms /\ SymInfo.Name (snd s) = N) ->
    (Found = false -> forall i s, syms !! i = Some s -> Hi < Z.of_nat i ->
                      SymInfo.Name (snd s) <> N) ->
    exists (Found' : bool) (L : Z),
      FindSymInfoByName_loop fuel m C N Lo Hi Found = Some (Found', L)
      /\ 0 <= L <= Z.of_nat (length syms)
      /\ (forall i s, syms !! i = Some s -> Z.of_nat i < L ->
                      strcmp (SymInfo.Name (snd s)) N < 0)
      /\ (forall i s, syms !! i = Some s -> L <= Z.of_nat i ->
                      0 <= strcmp (SymInfo.Name (snd s)) N)
      /\ (Found' = true -> exists s, s ∈ syms /\ SymInfo.Name (snd s) = N)
      /\ (Found' = false -> forall i s, syms !! i = Some s ->
                            L <= Z.of_nat i -> SymInfo.Name (snd s) <> N).
Proof.
  intros Hf Hs Hn.
  induction fuel as [|fuel IH];
    intros Lo Hi Found HLo HHi HLH Hfuel Hlow Hhigh Hyes Hno;
    cbn [FindSymInfoByName_loop];
    destruct (Z.leb_spec Lo Hi) as [Hle|Hgt]; try lia.
  - exists Found, Lo. split; [reflexivity|]. split; [lia|].
    split; [exact Hlow|].
    split; [intros i s Hs' HL; apply (Hhigh i s Hs'); lia|].
    split; [exact Hyes|].
    intros HF i s Hs' HL. apply (Hno HF i s Hs'). lia.
  - rewrite (to_int_small (Lo + Hi)) by (unfold INT_MAX; lia).
    rewrite Z.quot_div_nonneg by lia.
    assert (Lo <= (Lo + Hi) / 2 <= Hi) as HCur
      by (Z.to_euclidean_division_equations; lia).
    set (Cur := (Lo + Hi) / 2) in *.
    destruct (Z.ltb_spec Cur 0) as [?|_]; [lia|].
    destruct (lookup_lt_is_Some_2 syms (Z.to_nat Cur)) as [x Hx]; [lia|].
    destruct (fetch_records_lookup _ _ _ _ _ Hf Hx) as [Hat Hderef].
    rewrite Hat. cbn [mbind option_bind]. rewrite Hderef.
    cbn [mbind option_bind]. cbv zeta.
    destruct (Z.ltb_spec (strcmp (SymInfo.Name (snd x)) N) 0) as [Hxa|Hxa].
    + rewrite to_int_small by (unfold INT_MAX; lia).
      apply IH; try lia; auto.
      intros i y Hy Hi'.
      apply (str_le_lt_trans _ (SymInfo.Name (snd x))); [|exact Hxa].
      apply (sorted_by_name_lookup syms i (Z.to_nat Cur) y x Hs Hy Hx). lia.
    + rewrite to_int_small by (unfold INT_MAX; lia).
      assert (forall i y, syms !! i = Some y -> Cur <= Z.of_nat i ->
                str_le (SymInfo.Name (snd x)) (SymInfo.Name (snd y))) as Hup.
      { intros i y Hy Hi'.
        apply (sorted_by_name_lookup syms (Z.to_nat Cur) i x y Hs Hx Hy).
        lia. }
      apply IH; try lia; auto.
      * intros i y Hy Hi'. apply strcmp_nonneg.
        apply (str_le_trans _ (SymInfo.Name (snd x))).
        -- now apply strcmp_nonneg.
        -- apply (Hup i y Hy). lia.
      * destruct (Z.eqb_spec (strcmp (SymInfo.Name (snd x)) N) 0) as [E|_];
          [|exact Hyes].
        intros _. exists x. split; [|now apply strcmp_eq].
        eapply list_elem_of_lookup_2. exact Hx.
      * destruct (Z.eqb_spec (strcmp (SymInfo.Name (snd x)) N) 0) as [E|NE];
          [discriminate|].
        intros HF i y Hy Hi'.
        destruct (Z.lt_ge_cases Hi (Z.of_nat i)) as [Hhi|Hlo];
          [now apply (Hno HF i y Hy)|].
        intros Heq. apply NE, strcmp_eq.
        apply str_le_antisym; [|now apply strcmp_nonneg].
        rewrite <- Heq. apply (Hup i y Hy). lia.
  - exists Found, Lo. split; [reflexivity|]. split; [lia|].
    split; [exact Hlow|].
    split; [intros i s Hs' HL; apply (Hhigh i s Hs'); lia|].
    split; [exact Hyes|].
    intros HF i s Hs' HL. apply (Hno HF i s Hs'). lia.
Qed.

Lemma FindSymInfoByName_spec (m : Store.t) (C : Collection)
  (syms : list (nat * SymInfo.t)) (N : string) :
  fetch_records (Store.SymInfos m) C = Some syms ->
  sorted_by_name syms ->
  Z.of_nat (length syms) <= 1073741824 ->
  exists (Found : bool) (L : nat),
    FindSymInfoByName m C N = Some (Found, Z.of_nat L)
    /\ (L <= length syms)%nat
    /\ (forall i s, syms !! i = Some s -> (i < L)%nat ->
                    strcmp (SymInfo.Name (snd s)) N < 0)
    /\ (forall i s, syms !! i = Some s -> (L <= i)%nat ->
                    0 <= strcmp (SymInfo.Name (snd s)) N)
    /\ (Found = true -> exists s, s ∈ syms /\ SymInfo.Name (snd s) = N)
    /\ (Found = false -> forall i s, syms !! i = Some s -> (L <= i)%nat ->
                         SymInfo.Name (snd s) <> N).
Proof.
  intros Hf Hs Hn. unfold FindSymInfoByName.
  rewrite (fetch_records_length _ _ _ Hf).
  rewrite (to_int_small (Z.of_nat _)) by (unfold INT_MAX; lia).
  rewrite to_int_small by (unfold INT_MAX; lia).
  destruct (FindSymInfoByName_loop_spec m C syms N Hf Hs Hn
              (Z.to_nat (Z.of_nat (length syms) - 1 + 1)) 0
              (Z.of_nat (length syms) - 1) false)
    as (Found & L & Hloop & HL & Hlow & Hhigh & Hyes & Hno);
    try lia; try discriminate.
  - intros i s Hi'. apply lookup_lt_Some in Hi'. lia.
  - intros _ i s Hi'. apply lookup_lt_Some in Hi'. lia.
  - exists Found, (Z.to_nat L). rewrite Hloop. cbn [mbind option_bind fst snd].
    rewrite to_unsigned_small by (unfold UINT_MOD; lia).
    rewrite Z2Nat.id by lia.
    split; [reflexivity|]. split; [lia|].
    split; [intros i s Hi' HiL; apply (Hlow i s Hi'); lia|].
    split; [intros i s Hi' HiL; apply (Hhigh i s Hi'); lia|].
    split; [exact Hyes|].
    intros HF i s Hi' HiL. apply (Hno HF i s Hi'). lia.
Qed.

(** The counting loop stops at the first symbol with another name, or at
    the end of the collection. *)
Lemma count_same_name_spec (m : Store.t) (C : Collection)
  (syms : list (nat * SymInfo.t)) (N : string) (L : nat) :
  fetch_records (Store.SymInfos m) C = Some syms ->
  Z.of_nat (length syms) <= 1073741824 ->
  forall (fuel : nat) (c : nat),
    (L + c <= length syms)%nat ->
    (length syms - (L + c) <= fuel)%nat ->
    exists c' : nat,
      count_same_name fuel m C N (Z.of_nat L) (Z.of_nat c)
      = Some (Z.of_nat c')
      /\ (c <= c')%nat /\ (L + c' <= length syms)%nat
      /\ (forall i s, syms !! i = Some s -> (L + c <= i < L + c')%nat ->
                      SymInfo.Name (snd s) = N)
      /\ (forall s, syms !! (L + c')%nat = Some s ->
                    SymInfo.Name (snd s) <> N).
Proof.
  intros Hf Hn. pose proof (fetch_records_length _ _ _ Hf) as Hlen.
  induction fuel as [|fuel IH]; intros c Hc Hfuel;
    cbn [count_same_name]; rewrite Hlen;
    rewrite (to_unsigned_small (Z.of_nat L + Z.of_nat c))
      by (unfold UINT_MOD; lia);
    destruct (Z.ltb_spec (Z.of_nat L + Z.of_nat c) (Z.of_nat (length syms)))
      as [Hlt|Hge]; try lia.
  - exists c. split; [reflexivity|]. split; [lia|]. split; [lia|].
    split; [intros i s _ ?; lia|].
    intros s Hs'. apply lookup_lt_Some in Hs'. lia.
  - destruct (lookup_lt_is_Some_2 syms (L + c)) as [x Hx]; [lia|].
    destruct (fetch_records_lookup _ _ _ _ _ Hf Hx) as [Hat Hderef].
    replace (Z.to_nat (Z.of_nat L + Z.of_nat c)) with (L + c)%nat by lia.
    rewrite Hat. cbn [mbind option_bind]. rewrite Hderef.
    cbn [mbind option_bind].
    destruct (Z.eqb_spec (strcmp (SymInfo.Name (snd x)) N) 0) as [E|NE];
      cbn [negb].
    + rewrite to_unsigned_small by (unfold UINT_MOD; lia).
      replace (Z.of_nat c + 1) with (Z.of_nat (S c)) by lia.
      destruct (IH (S c)) as (c' & Hrun & Hcc & Hcl & Hsame & Hstop);
        [lia|lia|].
      exists c'. split; [exact Hrun|]. split; [lia|]. split; [lia|].
      split; [|exact Hstop].
      intros i s Hs' Hi'. destruct (decide (i = (L + c)%nat)) as [->|Hne].
      * rewrite Hx in Hs'. injection Hs' as <-. now apply strcmp_eq.
      * apply (Hsame i s Hs'). lia.
    + exists c. split; [reflexivity|]. split; [lia|]. split; [lia|].
      split; [intros i s _ ?; lia|].
      intros s Hs'. rewrite Hx in Hs'. injection Hs' as <-.
      intros Heq. apply NE. now apply strcmp_eq.
  - exists c. split; [reflexivity|]. split; [lia|]. split; [lia|].
    split; [intros i s _ ?; lia|].
    intros s Hs'. apply lookup_lt_Some in Hs'. lia.
Qed.

(** The copy loop copies [k] symbols from the index [L] on. *)
Lemma copy_symbols_spec (m : Store.t) (C : Collection)
  (syms : list (nat * SymInfo.t)) :
  fetch_records (Store.SymInfos m) C = Some syms ->
  Z.of_nat (length syms) <= 1073741824 ->
  forall (k L : nat),
    (L + k <= length syms)%nat ->
    Forall (symbol_copyable m) (take k (drop L syms)) ->
    copy_symbols m C (Z.of_nat L) k
    = Some (symbol_copies m (take k (drop L syms))).
Proof.
  intros Hf Hn. induction k as [|k IH]; intros L HL Hcopy; [reflexivity|].
  destruct (lookup_lt_is_Some_2 syms L) as [x Hx]; [lia|].
  rewrite (drop_S _ _ _ Hx) in Hcopy |- *. cbn [take] in Hcopy |- *.
  apply Forall_cons in Hcopy as [[d Hd] Hcopy].
  destruct (fetch_records_lookup _ _ _ _ _ Hf Hx) as [Hat _].
  cbn [copy_symbols]. rewrite Nat2Z.id, Hat. cbn [mbind option_bind].
  rewrite Hd. cbn [mbind option_bind].
  rewrite to_unsigned_small by (unfold UINT_MOD; lia).
  replace (Z.of_nat L + 1) with (Z.of_nat (S L)) by lia.
  rewrite IH by (auto; lia). cbn [mbind option_bind].
  unfold symbol_copies. cbn [omap list_omap]. now rewrite Hd.
Qed.

Lemma filter_none {A} (P : A -> bool) (l : list A) :
  Forall (fun x => P x = false) l -> List.filter P l = [].
Proof.
  induction 1 as [|x l Hx _ IH]; [reflexivity|].
  cbn [List.filter]. now rewrite Hx.
Qed.

Lemma filter_all {A} (P : A -> bool) (l : list A) :
  Forall (fun x => P x = true) l -> List.filter P l = l.
Proof.
  induction 1 as [|x l Hx _ IH]; [reflexivity|].
  cbn [List.filter]. now rewrite Hx, IH.
Qed.

Lemma has_name_true (N : string) (s : nat * SymInfo.t) :
  has_name N s = true <-> SymInfo.Name (snd s) = N.
Proof. unfold has_name. apply String.eqb_eq. Qed.

Lemma has_name_false (N : string) (s : nat * SymInfo.t) :
  has_name N s = false <-> SymInfo.Name (snd s) <> N.
Proof. unfold has_name. apply String.eqb_neq. Qed.

(** In a list sorted by name, the symbols with a name are one run. *)
Lemma symbols_named_run (syms : list (nat * SymInfo.t)) (N : string)
  (L k : nat) :
  sorted_by_name syms ->
  (forall i s, syms !! i = Some s -> (i < L)%nat ->
               strcmp (SymInfo.Name (snd s)) N < 0) ->
  (forall i s, syms !! i = Some s -> (L <= i)%nat ->
               0 <= strcmp (SymInfo.Name (snd s)) N) ->
  (forall i s, syms !! i = Some s -> (L <= i < L + k)%nat ->
               SymInfo.Name (snd s) = N) ->
  (forall s, syms !! (L + k)%nat = Some s -> SymInfo.Name (snd s) <> N) ->
  symbols_named syms N = take k (drop L syms).
Proof.
  intros Hs Hlow Hhigh Hsame Hstop. unfold symbols_named.
  rewrite <- (take_drop L syms) at 1.
  rewrite <- (take_drop k (drop L syms)) at 1.
  rewrite !List.filter_app.
  rewrite (filter_none _ (take L syms)), (filter_all _ (take k _)),
    (filter_none _ (drop k _)); [now rewrite app_nil_r| | |].
  - apply Forall_lookup. intros i s Hi'.
    rewrite lookup_drop, lookup_drop in Hi'.
    apply has_name_false. intros Heq.
    pose proof (lookup_lt_Some _ _ _ Hi') as Hlen.
    destruct (lookup_lt_is_Some_2 syms (L + k)) as [x Hx]; [lia|].
    apply (Hstop x Hx).
    apply str_le_antisym.
    + rewrite <- Heq.
      apply (sorted_by_name_lookup syms (L + k) (L + (k + i)) x s Hs Hx Hi').
      lia.
    + apply strcmp_nonneg. apply (Hhigh _ x Hx). lia.
  - apply Forall_lookup. intros i s Hi'.
    apply lookup_take_Some in Hi' as [Hi' Hik].
    rewrite lookup_drop in Hi'. apply has_name_true.
    apply (Hsame _ s Hi'). lia.
  - apply Forall_lookup. intros i s Hi'.
    apply lookup_take_Some in Hi' as [Hi' HiL].
    apply has_name_false. intros Heq.
    pose proof (Hlow i s Hi' HiL) as Hlt.
    rewrite (proj2 (strcmp_eq _ _) Heq) in Hlt. lia.
Qed.

(** The search, the count and the copies of [cc65_symbol_byname] on
    symbols sorted by name. *)
Lemma symbol_byname_copies (h : DbgInfo.t) (syms : list (nat * SymInfo.t))
  (Name : string) :
  fetch_records (Store.SymInfos (DbgInfo.Mem h)) (DbgInfo.SymInfoByName h)
  = Some syms ->
  sorted_by_name syms ->
  Z.of_nat (length syms) <= 1073741824 ->
  Forall (symbol_copyable (DbgInfo.Mem h)) (symbols_named syms Name) ->
  cc65_symbol_byname h Name
  = Some (match symbols_named syms Name with
          | [] => None
          | l => Some (symbol_copies (DbgInfo.Mem h) l)
          end).
Proof.
  intros Hf Hs Hn Hcopy. unfold cc65_symbol_byname. cbv zeta.
  destruct (FindSymInfoByName_spec _ _ syms Name Hf Hs Hn)
    as (Found & L & HFind & HL & Hlow & Hhigh & Hyes & Hno).
  rewrite HFind. cbn [mbind option_bind fst snd].
  destruct Found; cbn [negb].
  - destruct (Hyes eq_refl) as (s & Hin & HN).
    apply list_elem_of_lookup_1 in Hin as (i & Hi').
    assert (L <= i)%nat as HLi.
    { destruct (Nat.le_gt_cases L i) as [?|Hlt]; [assumption|].
      pose proof (Hlow i s Hi' Hlt) as Hneg.
      rewrite (proj2 (strcmp_eq _ _) HN) in Hneg. lia. }
    pose proof (lookup_lt_Some _ _ _ Hi') as Hlen.
    destruct (lookup_lt_is_Some_2 syms L) as [x Hx]; [lia|].
    assert (SymInfo.Name (snd x) = Name) as HxN.
    { apply str_le_antisym.
      - rewrite <- HN.
        apply (sorted_by_name_lookup syms L i x s Hs Hx Hi' HLi).
      - apply strcmp_nonneg. apply (Hhigh L x Hx). lia. }
    pose proof (fetch_records_Forall2 _ _ _ Hf) as HF.
    apply Forall2_length in HF. rewrite HF.
    destruct (count_same_name_spec _ _ syms Name L Hf Hn (length syms) 1)
      as (c' & Hrun & Hcc & Hcl & Hsame & Hstop); [lia|lia|].
    change (Z.of_nat 1) with 1 in Hrun. rewrite Hrun.
    cbn [mbind option_bind]. rewrite Nat2Z.id.
    assert (symbols_named syms Name = take c' (drop L syms)) as Hrunl.
    { apply symbols_named_run; auto.
      intros j y Hy Hj. destruct (decide (j = L)) as [->|Hne].
      - rewrite Hx in Hy. now injection Hy as <-.
      - apply (Hsame j y Hy). lia. }
    rewrite Hrunl in Hcopy |- *.
    rewrite (copy_symbols_spec _ _ syms Hf Hn c' L Hcl Hcopy).
    cbn [mbind option_bind].
    destruct c' as [|c']; [lia|].
    rewrite (drop_S _ _ _ Hx). reflexivity.
  - assert (symbols_named syms Name = []) as ->; [|reflexivity].
    apply filter_none, Forall_lookup. intros i s Hi'.
    apply has_name_false.
    destruct (Nat.le_gt_cases L i) as [Hge|Hlt].
    + now apply (Hno eq_refl i s Hi').
    + intros Heq. pose proof (Hlow i s Hi' Hlt) as Hneg.
      rewrite (proj2 (strcmp_eq _ _) Heq) in Hneg. lia.
Qed.

Lemma symbols_by_name_sorted : sorted_by_name symbols_by_name.
Proof.
  repeat constructor; unfold records_le, sym_name_le, str_le; vm_compute;
    intros H; discriminate H.
Qed.

(** ** Ids that the file does not define *)

Lemma for_range_kept {St X} (view : St -> X) (body : nat -> St -> option St) :
  (forall j t t', body j t = Some t' -> view t' = view t) ->
  forall (n i : nat) (s s' : St),
    for_range body i n s = Some s' -> view s' = view s.
Proof.
  intros Hbody n i s s' H.
  apply (for_range_inv body (fun _ t => view t = view s) n i s s' H);
    [reflexivity|].
  intros j t t' _ Hb Ht. rewrite <- Ht. now apply (Hbody j).
Qed.

Lemma for_range_fails {St X} (view : St -> X) (body : nat -> St -> option St)
  (k : nat) :
  (forall j t t', body j t = Some t' -> view t' = view t) ->
  forall (n i : nat) (s : St),
    (i <= k < i + n)%nat ->
    (forall t, view t = view s -> body k t = None) ->
    for_range body i n s = None.
Proof.
  intros Hbody. induction n as [|n IH]; intros i s Hk Hfail; [lia|].
  cbn [for_range]. destruct (decide (i = k)) as [->|Hne].
  - now rewrite Hfail.
  - destruct (body i s) as [t|] eqn:E; [|reflexivity].
    cbn [mbind option_bind]. apply IH; [lia|].
    intros u Hu. apply Hfail. rewrite Hu. now apply (Hbody i).
Qed.

Lemma ParseError_by_id (D : InputData.t) (t : cc65_error_severity)
  (msg : Message) : by_id (ParseError D t msg) = by_id D.
Proof. destruct t; reflexivity. Qed.

Lemma put_File_by_id (D D' : InputData.t) (P : option nat) (r : FileInfo.t) :
  put_File D P r = Some D' -> by_id D' = by_id D.
Proof.
  unfold put_File. intros H. apply bind_Some in H as (l & _ & H).
  injection H as <-. reflexivity.
Qed.

Lemma put_Line_by_id (D D' : InputData.t) (P : option nat) (r : LineInfo.t) :
  put_Line D P r = Some D' -> by_id D' = by_id D.
Proof.
  unfold put_Line. intros H. apply bind_Some in H as (l & _ & H).
  injection H as <-. reflexivity.
Qed.

Lemma put_Mod_by_id (D D' : InputData.t) (P : option nat) (r : ModInfo.t) :
  put_Mod D P r = Some D' -> by_id D' = by_id D.
Proof.
  unfold put_Mod. intros H. apply bind_Some in H as (l & _ & H).
  injection H as <-. reflexivity.
Qed.

Lemma put_Scope_by_id (D D' : InputData.t) (P : option nat) (r : ScopeInfo.t) :
  put_Scope D P r = Some D' -> by_id D' = by_id D.
Proof.
  unfold put_Scope. intros H. apply bind_Some in H as (l & _ & H).
  injection H as <-. reflexivity.
Qed.

Lemma put_Span_by_id (D D' : InputData.t) (P : option nat) (r : SpanInfo.t) :
  put_Span D P r = Some D' -> by_id D' = by_id D.
Proof.
  unfold put_Span. intros H. apply bind_Some in H as (l & _ & H).
  injection H as <-. reflexivity.
Qed.

Lemma put_Sym_by_id (D D' : InputData.t) (P : option nat) (r : SymInfo.t) :
  put_Sym D P r = Some D' -> by_id D' = by_id D.
Proof.
  unfold put_Sym. intros H. apply bind_Some in H as (l & _ & H).
  injection H as <-. reflexivity.
Qed.

(** One step through a body of the resolver: a bind, a branch, a result. *)
Ltac resolver_step :=
  match goal with
  | H : put_File _ _ _ = Some _ |- _ => apply put_File_by_id in H
  | H : put_Line _ _ _ = Some _ |- _ => apply put_Line_by_id in H
  | H : put_Mod _ _ _ = Some _ |- _ => apply put_Mod_by_id in H
  | H : put_Scope _ _ _ = Some _ |- _ => apply put_Scope_by_id in H
  | H : put_Span _ _ _ = Some _ |- _ => apply put_Span_by_id in H
  | H : put_Sym _ _ _ = Some _ |- _ => apply put_Sym_by_id in H
  | H : mbind _ _ = Some _ |- _ =>
      apply bind_Some in H as (? & ? & H); cbv beta zeta in H
  | H : (if ?c then _ else _) = Some _ |- _ => destruct c
  | H : Some _ = Some _ |- _ => injection H as <-
  | H : None = Some _ |- _ => discriminate H
  end.

Ltac resolver_kept :=
  repeat resolver_step; simpl fst in *; simpl snd in *;
  rewrite ?ParseError_by_id in *; try congruence; try assumption.

Lemma ProcessFileInfo_module_by_id (F : option nat) (J : nat)
  (D D' : InputData.t) :
  ProcessFileInfo_module F J D = Some D' -> by_id D' = by_id D.
Proof. unfold ProcessFileInfo_module. intros H. resolver_kept. Qed.

Lemma ProcessFileInfo_file_by_id (I : nat) (D D' : InputData.t) :
  ProcessFileInfo_file I D = Some D' -> by_id D' = by_id D.
Proof.
  unfold ProcessFileInfo_file. intros H.
  apply bind_Some in H as (F & _ & H). apply bind_Some in H as (Fr & _ & H).
  apply bind_Some in H as (D1 & H1 & H).
  apply (for_range_kept by_id _ (ProcessFileInfo_module_by_id F)) in H1.
  resolver_kept.
Qed.

Lemma ProcessFileInfo_sort_by_id (I : nat) (D D' : InputData.t) :
  ProcessFileInfo_sort I D = Some D' -> by_id D' = by_id D.
Proof. unfold ProcessFileInfo_sort. intros H. resolver_kept. Qed.

Lemma ProcessFileInfo_by_id (D D' : InputData.t) :
  ProcessFileInfo D = Some D' -> by_id D' = by_id D.
Proof.
  unfold ProcessFileInfo. intros H.
  apply bind_Some in H as (D1 & H1 & H). apply bind_Some in H as (D2 & H2 & H).
  apply (for_range_kept by_id _ ProcessFileInfo_file_by_id) in H1.
  apply (for_range_kept by_id _ ProcessFileInfo_sort_by_id) in H2.
  apply bind_Some in H as (C & _ & H). injection H as <-.
  change (by_id (upd_Info (DbgInfo.set_FileInfoByName C) D2)) with (by_id D2).
  congruence.
Qed.

Lemma ProcessLineInfo_loop_by_id (fuel : nat) :
  forall (I : nat) (D D' : InputData.t),
    ProcessLineInfo_loop fuel I D = Some D' -> by_id D' = by_id D.
Proof.
  induction fuel as [|fuel IH]; intros I D D' H;
    cbn [ProcessLineInfo_loop] in H; cbv zeta in H;
    destruct (I <? count (DbgInfo.LineInfoById (InputData.Info D)))%nat;
    try discriminate H; try (injection H as <-; reflexivity).
  apply bind_Some in H as (L & _ & H). apply bind_Some in H as (Lr & _ & H).
  apply bind_Some in H as (FileId & _ & H).
  apply bind_Some in H as (D1 & H1 & H).
  apply IH in H. rewrite H. clear H. resolver_kept.
Qed.

Lemma ProcessLineInfo_sort_by_id (I : nat) (D D' : InputData.t) :
  ProcessLineInfo_sort I D = Some D' -> by_id D' = by_id D.
Proof. unfold ProcessLineInfo_sort. intros H. resolver_kept. Qed.

Lemma ProcessLineInfo_by_id (D D' : InputData.t) :
  ProcessLineInfo D = Some D' -> by_id D' = by_id D.
Proof.
  unfold ProcessLineInfo. intros H.
  apply bind_Some in H as (D1 & H1 & H).
  apply ProcessLineInfo_loop_by_id in H1.
  apply (for_range_kept by_id _ ProcessLineInfo_sort_by_id) in H.
  congruence.
Qed.

Lemma ProcessModInfo_module_by_id (I : nat) (D D' : InputData.t) :
  ProcessModInfo_module I D = Some D' -> by_id D' = by_id D.
Proof.
  unfold ProcessModInfo_module. cbv zeta. intros H. resolver_kept.
Qed.

Lemma ProcessModInfo_by_id (D D' : InputData.t) :
  ProcessModInfo D = Some D' -> by_id D' = by_id D.
Proof.
  unfold ProcessModInfo. intros H.
  apply bind_Some in H as (D1 & H1 & H).
  apply (for_range_kept by_id _ ProcessModInfo_module_by_id) in H1.
  apply bind_Some in H as (C & _ & H). injection H as <-.
  change (by_id (upd_Info (DbgInfo.set_ModInfoByName C) D1)) with (by_id D1).
  congruence.
Qed.

Lemma ProcessScopeInfo_span_by_id (Sc : option nat) (J : nat)
  (D D' : InputData.t) :
  ProcessScopeInfo_span Sc J D = Some D' -> by_id D' = by_id D.
Proof. unfold ProcessScopeInfo_span. intros H. resolver_kept. Qed.

Lemma ProcessScopeInfo_scope_by_id (I : nat) (D D' : InputData.t) :
  ProcessScopeInfo_scope I D = Some D' -> by_id D' = by_id D.
Proof.
  unfold ProcessScopeInfo_scope. intros H.
  repeat match goal with
  | H : for_range _ _ _ _ = Some _ |- _ =>
      apply (for_range_kept by_id _ (ProcessScopeInfo_span_by_id _)) in H
  | _ => resolver_step
  end.
  all: simpl fst in *; simpl snd in *; rewrite ?ParseError_by_id in *;
    congruence.
Qed.

Lemma ProcessScopeInfo_module_by_id (I : nat) (D D' : InputData.t) :
  ProcessScopeInfo_module I D = Some D' -> by_id D' = by_id D.
Proof.
  unfold ProcessScopeInfo_module. cbv zeta. intros H. resolver_kept.
  all: destruct (ModInfo.MainScope _);
    rewrite ?ParseError_by_id in *; congruence.
Qed.

Lemma ProcessScopeInfo_by_id (D D' : InputData.t) :
  ProcessScopeInfo D = Some D' -> by_id D' = by_id D.
Proof.
  unfold ProcessScopeInfo. intros H.
  apply bind_Some in H as (D1 & H1 & H).
  apply (for_range_kept by_id _ ProcessScopeInfo_scope_by_id) in H1.
  apply (for_range_kept by_id _ ProcessScopeInfo_module_by_id) in H.
  congruence.
Qed.

Lemma ProcessSegInfo_by_id (D D' : InputData.t) :
  ProcessSegInfo D = Some D' -> by_id D' = by_id D.
Proof.
  unfold ProcessSegInfo. intros H.
  apply bind_Some in H as (C & _ & H). injection H as <-. reflexivity.
Qed.

Lemma ProcessSpanInfo_span_by_id (I : nat) (st st' : InputData.t * Collection) :
  ProcessSpanInfo_span I st = Some st' -> by_id (fst st') = by_id (fst st).
Proof.
  unfold ProcessSpanInfo_span. cbv zeta. intros H. resolver_kept.
Qed.

Lemma ProcessSpanInfo_by_id (D D' : InputData.t) :
  ProcessSpanInfo D = Some D' -> by_id D' = by_id D.
Proof.
  unfold ProcessSpanInfo. cbv zeta. intros H.
  apply bind_Some in H as (st & H1 & H).
  apply (for_range_kept (fun st => by_id (fst st)) _
           ProcessSpanInfo_span_by_id) in H1.
  apply bind_Some in H as (C & _ & H). apply bind_Some in H as (L & _ & H).
  injection H as <-. cbn [fst] in H1.
  change (by_id (upd_Info (DbgInfo.set_SpanInfoByAddr L) (fst st)))
    with (by_id (fst st)).
  exact H1.
Qed.

Lemma by_id_fields (D D' : InputData.t) :
  by_id D' = by_id D ->
  DbgInfo.FileInfoById (InputData.Info D')
  = DbgInfo.FileInfoById (InputData.Info D)
  /\ DbgInfo.LineInfoById (InputData.Info D')
     = DbgInfo.LineInfoById (InputData.Info D)
  /\ DbgInfo.ModInfoById (InputData.Info D')
     = DbgInfo.ModInfoById (InputData.Info D)
  /\ DbgInfo.ScopeInfoById (InputData.Info D')
     = DbgInfo.ScopeInfoById (InputData.Info D)
  /\ DbgInfo.SpanInfoById (InputData.Info D')
     = DbgInfo.SpanInfoById (InputData.Info D)
  /\ DbgInfo.SymInfoById (InputData.Info D')
     = DbgInfo.SymInfoById (InputData.Info D).
Proof. unfold by_id. intros H. injection H as -> _ -> -> -> _ -> ->. auto 7. Qed.

Lemma CollAt_null (C : Collection) (i : nat) :
  Items C !! i = Some ENull -> CollAt C i = Some None.
Proof. unfold CollAt. now intros ->. Qed.

Lemma gap_in_range (C : Collection) (i : nat) :
  Items C !! i = Some ENull -> (0 <= i < 0 + count C)%nat.
Proof. intros H. apply lookup_lt_Some in H. unfold count. lia. Qed.

(** Each pass reads the record behind every entry of its collection. *)
Lemma ProcessFileInfo_gap (D : InputData.t) :
  has_gap (DbgInfo.FileInfoById (InputData.Info D))
  \/ has_gap (DbgInfo.ModInfoById (InputData.Info D)) ->
  ProcessFileInfo D = None.
Proof.
  unfold ProcessFileInfo. intros [[i Hg]|[i Hg]].
  - rewrite (for_range_fails by_id _ i ProcessFileInfo_file_by_id);
      [reflexivity|now apply gap_in_range|].
    intros t Ht. apply by_id_fields in Ht as (Ht & _).
    unfold ProcessFileInfo_file. now rewrite Ht, (CollAt_null _ _ Hg).
  - destruct (for_range ProcessFileInfo_file _ _ D) as [D1|] eqn:E1;
      [|reflexivity].
    apply (for_range_kept by_id _ ProcessFileInfo_file_by_id) in E1.
    apply by_id_fields in E1 as (_ & _ & E1 & _).
    cbn [mbind option_bind]. rewrite E1.
    rewrite (for_range_fails by_id _ i ProcessFileInfo_sort_by_id);
      [reflexivity|now apply gap_in_range|].
    intros t Ht. apply by_id_fields in Ht as (_ & _ & Ht & _).
    unfold ProcessFileInfo_sort. now rewrite Ht, E1, (CollAt_null _ _ Hg).
Qed.

Lemma ProcessLineInfo_loop_gap (k : nat) (C : Collection) :
  Items C !! k = Some ENull ->
  forall (fuel I : nat) (D : InputData.t),
    DbgInfo.LineInfoById (InputData.Info D) = C ->
    (exists n, k = I + 2 * n)%nat ->
    ProcessLineInfo_loop fuel I D = None.
Proof.
  intros Hg. pose proof (lookup_lt_Some _ _ _ Hg) as Hk.
  induction fuel as [|fuel IH]; intros I D HC (n & Hn);
    cbn [ProcessLineInfo_loop]; cbv zeta; rewrite HC; unfold count;
    destruct (Nat.ltb_spec I (length (Items C))) as [_|?]; try lia;
    [reflexivity|].
  destruct n as [|n].
  - replace I with k by lia. rewrite (CollAt_null _ _ Hg). reflexivity.
  - destruct (CollAt C I) as [L|]; [|reflexivity]. cbn [mbind option_bind].
    destruct (get_Line D L) as [Lr|]; [|reflexivity]. cbn [mbind option_bind].
    destruct (entry_id (LineInfo.File_ Lr)) as [FileId|]; [|reflexivity].
    cbn [mbind option_bind].
    match goal with |- mbind _ ?e = None => destruct e as [D1|] eqn:E end;
      [|reflexivity].
    cbn [mbind option_bind]. apply IH.
    + assert (by_id D1 = by_id D) as K by resolver_kept.
      apply by_id_fields in K as (_ & K & _). now rewrite K.
    + exists n. lia.
Qed.

Lemma ProcessLineInfo_gap (D : InputData.t) (n : nat) :
  Items (DbgInfo.LineInfoById (InputData.Info D)) !! (2 * n)%nat = Some ENull ->
  ProcessLineInfo D = None.
Proof.
  intros Hg. unfold ProcessLineInfo.
  rewrite (ProcessLineInfo_loop_gap _ _ Hg); [reflexivity|reflexivity|].
  exists n. lia.
Qed.

Lemma ProcessScopeInfo_gap (D : InputData.t) :
  has_gap (DbgInfo.ScopeInfoById (InputData.Info D)) ->
  ProcessScopeInfo D = None.
Proof.
  unfold ProcessScopeInfo. intros [i Hg].
  rewrite (for_range_fails by_id _ i ProcessScopeInfo_scope_by_id);
    [reflexivity|now apply gap_in_range|].
  intros t Ht. apply by_id_fields in Ht as (_ & _ & _ & Ht & _).
  unfold ProcessScopeInfo_scope. now rewrite Ht, (CollAt_null _ _ Hg).
Qed.

Lemma ProcessSpanInfo_gap (D : InputData.t) :
  has_gap (DbgInfo.SpanInfoById (InputData.Info D)) ->
  ProcessSpanInfo D = None.
Proof.
  unfold ProcessSpanInfo. cbv zeta. intros [i Hg].
  rewrite (for_range_fails (fun st => by_id (fst st)) _ i
             ProcessSpanInfo_span_by_id);
    [reflexivity|now apply gap_in_range|].
  intros t Ht. cbn [fst] in Ht.
  apply by_id_fields in Ht as (_ & _ & _ & _ & Ht & _).
  unfold ProcessSpanInfo_span. cbv zeta. now rewrite Ht, (CollAt_null _ _ Hg).
Qed.

Lemma ProcessSymInfo_resolve_by_id (I : nat) (D D' : InputData.t) :
  ProcessSymInfo_resolve I D = Some D' -> by_id D' = by_id D.
Proof.
  unfold ProcessSymInfo_resolve, resolve_ref. cbv zeta. intros H.
  resolver_kept.
Qed.

Lemma ProcessSymInfo_gap (D : InputData.t) :
  has_gap (DbgInfo.SymInfoById (InputData.Info D)) ->
  ProcessSymInfo D = None.
Proof.
  unfold ProcessSymInfo. cbv zeta. intros [i Hg].
  rewrite (for_range_fails by_id _ i ProcessSymInfo_resolve_by_id);
    [reflexivity|now apply gap_in_range|].
  intros t Ht. apply by_id_fields in Ht as (_ & _ & _ & _ & _ & Ht).
  unfold ProcessSymInfo_resolve. cbv zeta.
  now rewrite Ht, (CollAt_null _ _ Hg).
Qed.

(** X12. The resolver passes dereference every entry of the by-id
    collections of files, modules, scopes, spans and symbols, and every
    second entry (from 0 on) of the one of lines, without a check for null.
    An entry is null when its id is below the largest id of the kind and no
    line of the file defined it ([CollReplaceExpand] fills the gap with
    zeroes): for an input without errors and with such a gap the run is
    undefined, it dereferences a null pointer. *)
Theorem X12_undefined_id_is_dereferenced (D : InputData.t) :
  InputData.Errors D <= 0 ->
  has_gap (DbgInfo.FileInfoById (InputData.Info D))
  \/ has_gap (DbgInfo.ModInfoById (InputData.Info D))
  \/ (exists n : nat,
        Items (DbgInfo.LineInfoById (InputData.Info D)) !! (2 * n)%nat
        = Some ENull)
  \/ has_gap (DbgInfo.ScopeInfoById (InputData.Info D))
  \/ has_gap (DbgInfo.SpanInfoById (InputData.Info D))
  \/ has_gap (DbgInfo.SymInfoById (InputData.Info D)) ->
  CloseAndExit D = None.
Proof.
  intros HE Hgap. unfold CloseAndExit.
  destruct (Z.gtb_spec (InputData.Errors D) 0) as [?|_]; [lia|].
  destruct (ProcessFileInfo D) as [D1|] eqn:E1; [|reflexivity].
  destruct Hgap as [Hg|[Hg|Hgap]];
    [rewrite ProcessFileInfo_gap in E1 by auto; discriminate E1..|].
  pose proof (by_id_fields _ _ (ProcessFileInfo_by_id _ _ E1))
    as (_ & KL & _ & KSc & KSp & KSy).
  rewrite <- KL, <- KSc, <- KSp, <- KSy in Hgap. clear KL KSc KSp KSy.
  cbn [mbind option_bind].
  destruct (ProcessLineInfo D1) as [D2|] eqn:E2; [|reflexivity].
  destruct Hgap as [[n Hg]|Hgap];
    [rewrite (ProcessLineInfo_gap _ n Hg) in E2; discriminate E2|].
  pose proof (by_id_fields _ _ (ProcessLineInfo_by_id _ _ E2))
    as (_ & _ & _ & KSc & KSp & KSy).
  rewrite <- KSc, <- KSp, <- KSy in Hgap. clear KSc KSp KSy.
  cbn [mbind option_bind].
  destruct (ProcessModInfo D2) as [D3|] eqn:E3; [|reflexivity].
  pose proof (by_id_fields _ _ (ProcessModInfo_by_id _ _ E3))
    as (_ & _ & _ & KSc & KSp & KSy).
  rewrite <- KSc, <- KSp, <- KSy in Hgap. clear KSc KSp KSy.
  cbn [mbind option_bind].
  destruct (ProcessScopeInfo D3) as [D4|] eqn:E4; [|reflexivity].
  destruct Hgap as [Hg|Hgap];
    [rewrite (ProcessScopeInfo_gap _ Hg) in E4; discriminate E4|].
  pose proof (by_id_fields _ _ (ProcessScopeInfo_by_id _ _ E4))
    as (_ & _ & _ & _ & KSp & KSy).
  rewrite <- KSp, <- KSy in Hgap. clear KSp KSy.
  cbn [mbind option_bind].
  destruct (ProcessSegInfo D4) as [D5|] eqn:E5; [|reflexivity].
  pose proof (by_id_fields _ _ (ProcessSegInfo_by_id _ _ E5))
    as (_ & _ & _ & _ & KSp & KSy).
  rewrite <- KSp, <- KSy in Hgap. clear KSp KSy.
  cbn [mbind option_bind].
  destruct (ProcessSpanInfo D5) as [D6|] eqn:E6; [|reflexivity].
  destruct Hgap as [Hg|Hg];
    [rewrite (ProcessSpanInfo_gap _ Hg) in E6; discriminate E6|].
  pose proof (by_id_fields _ _ (ProcessSpanInfo_by_id _ _ E6))
    as (_ & _ & _ & _ & _ & KSy).
  rewrite <- KSy in Hg. clear KSy.
  cbn [mbind option_bind].
  now rewrite (ProcessSymInfo_gap _ Hg).
Qed.

Lemma X12_undefined_id_witness :
  CloseAndExit (parsed lines_span_gap) = None.
Proof.
  apply X12_undefined_id_is_dereferenced.
  - vm_compute. intros H. discriminate H.
  - right. right. right. right. left. exists 1%nat. vm_compute. reflexivity.
Defined.

(** ** The scanner *)

Lemma pending_NextChar (D : Scanner.t) (c : Z) (s : list Z) :
  pending D = c :: s -> 0 <= c -> pending (NextChar D) = s.
Proof.
  unfold pending, NextChar. destruct (Z.eqb_spec (Scanner.C D) EOF) as [|Hne];
    [discriminate|].
  intros H Hc. injection H as HC Hs. rewrite HC.
  destruct (Z.geb_spec c 0) as [_|?]; [|lia].
  assert (forall D0 : Scanner.t, Scanner.F D0 = Scanner.F D ->
            (if Scanner.C
                  (Scanner.set_Col (to_unsigned (Scanner.Col D0 + 1))
                     (Scanner.set_C (fst (fgetc (Scanner.F D0)))
                        (Scanner.set_F (snd (fgetc (Scanner.F D0))) D0)))
                =? EOF
             then []
             else Scanner.C
                    (Scanner.set_Col (to_unsigned (Scanner.Col D0 + 1))
                       (Scanner.set_C (fst (fgetc (Scanner.F D0)))
                          (Scanner.set_F (snd (fgetc (Scanner.F D0))) D0)))
                  :: chars_of
                       (Scanner.F
                          (Scanner.set_Col (to_unsigned (Scanner.Col D0 + 1))
                             (Scanner.set_C (fst (fgetc (Scanner.F D0)))
                                (Scanner.set_F (snd (fgetc (Scanner.F D0)))
                                   D0))))) = s) as Hgen.
  { intros D0 HF. cbn [Scanner.C Scanner.F Scanner.set_Col Scanner.set_C
                       Scanner.set_F]. rewrite HF, <- Hs.
    destruct (Scanner.F D) as [|a F']; [reflexivity|].
    cbn [fgetc fst snd]. unfold chars_of. cbn [list_ascii_of_string fmap list_fmap].
    destruct (Z.eqb_spec (Z.of_N (N_of_ascii a)) EOF) as [E|_];
      [unfold EOF in E; lia|reflexivity]. }
  destruct (c =? 10); apply Hgen; reflexivity.
Qed.

Lemma NextChar_kept (D : Scanner.t) :
  Scanner.SVal (NextChar D) = Scanner.SVal D
  /\ Scanner.IVal (NextChar D) = Scanner.IVal D
  /\ Scanner.Tok (NextChar D) = Scanner.Tok D
  /\ Scanner.Errors (NextChar D) = Scanner.Errors D
  /\ Scanner.Reported (NextChar D) = Scanner.Reported D
  /\ Scanner.SLine (NextChar D) = Scanner.SLine D
  /\ Scanner.SCol (NextChar D) = Scanner.SCol D.
Proof.
  unfold NextChar. destruct (Scanner.C D >=? 0); [|auto 8].
  destruct (Scanner.C D =? 10); cbn; auto 8.
Qed.

Lemma pending_nil (D : Scanner.t) : pending D = [] -> Scanner.C D = EOF.
Proof.
  unfold pending. destruct (Z.eqb_spec (Scanner.C D) EOF); [auto|discriminate].
Qed.

Lemma pending_cons (D : Scanner.t) (c : Z) (s : list Z) :
  pending D = c :: s -> Scanner.C D = c.
Proof.
  unfold pending. destruct (Z.eqb_spec (Scanner.C D) EOF); [discriminate|].
  now intros [= -> _].
Qed.

(** The current character answers for the class of the pending text. *)
Lemma starts_with_C (P : Z -> bool) (D : Scanner.t) :
  P EOF = false -> P (Scanner.C D) = starts_with P (pending D).
Proof.
  intros HP. destruct (pending D) as [|c s] eqn:E.
  - now rewrite (pending_nil _ E).
  - now rewrite (pending_cons _ _ _ E).
Qed.

Lemma pending_length (D : Scanner.t) :
  (length (pending D) <= S (String.length (Scanner.F D)))%nat.
Proof.
  unfold pending. destruct (Scanner.C D =? EOF); cbn [length]; [lia|].
  unfold chars_of. rewrite length_fmap.
  assert (forall s, length (list_ascii_of_string s) = String.length s) as ->.
  { induction s as [|a s IH]; cbn; [reflexivity|now rewrite IH]. }
  lia.
Qed.

Lemma is_blank_nonneg (c : Z) : is_blank c = true -> 0 <= c.
Proof. unfold is_blank. lia. Qed.

Lemma ident_char_nonneg (c : Z) : ident_char c = true -> 0 <= c.
Proof. unfold ident_char, isalnum, isalpha, isupper, islower, isdigit. lia. Qed.

Lemma DigitVal_nonneg (c : Z) : 0 <= DigitVal c -> 0 <= c.
Proof.
  unfold DigitVal, isxdigit, isdigit, toupper, islower.
  repeat match goal with
         | |- context [if ?b then _ else _] => destruct b eqn:?
         end; lia.
Qed.

(** The blanks before a token are skipped. *)
Lemma skip_blanks_spec (bs s : list Z) :
  Forall (fun c => is_blank c = true) bs ->
  starts_with is_blank s = false ->
  forall (fuel : nat) (D : Scanner.t),
    pending D = bs ++ s ->
    (length (pending D) <= fuel)%nat ->
    exists D0,
      skip_blanks fuel D = Some D0
      /\ pending D0 = s
      /\ Scanner.SVal D0 = Scanner.SVal D
      /\ Scanner.IVal D0 = Scanner.IVal D
      /\ Scanner.Tok D0 = Scanner.Tok D
      /\ Scanner.Errors D0 = Scanner.Errors D
      /\ Scanner.Reported D0 = Scanner.Reported D.
Proof.
  intros Hbs Hs. induction Hbs as [|b bs Hb _ IH]; intros fuel D HD Hfuel.
  - cbn [app] in HD.
    assert (is_blank (Scanner.C D) = false) as Hnb
      by (rewrite (starts_with_C is_blank), HD; auto).
    exists D. destruct fuel; cbn [skip_blanks]; rewrite Hnb; auto 8.
  - cbn [app] in HD. pose proof (pending_cons _ _ _ HD) as HC.
    rewrite HD in Hfuel. cbn [length] in Hfuel.
    destruct fuel as [|fuel]; [lia|].
    cbn [skip_blanks]. rewrite HC, Hb.
    pose proof (pending_NextChar D b _ HD (is_blank_nonneg _ Hb)) as HN.
    destruct (IH fuel (NextChar D) HN) as (D0 & Hrun & Hp & K);
      [rewrite HN; lia|].
    exists D0. split; [exact Hrun|]. split; [exact Hp|].
    destruct (NextChar_kept D) as (K1 & K2 & K3 & K4 & K5 & _).
    destruct K as (L1 & L2 & L3 & L4 & L5).
    rewrite L1, L2, L3, L4, L5. auto.
Qed.

(** *** The string buffer *)

Lemma grow_allocated_some (NewSize : Z) :
  NewSize <= 2147483648 ->
  forall (fuel : nat) (a : Z),
    1 <= a < UINT_MOD -> NewSize <= a * 2 ^ Z.of_nat fuel ->
    exists (a' : Z) (j : Z),
      grow_allocated fuel a NewSize = Some a'
      /\ NewSize <= a' /\ a' < UINT_MOD /\ 0 <= j /\ a' = a * 2 ^ j.
Proof.
  intros HN. induction fuel as [|fuel IH]; intros a Ha Hpow.
  - cbn [grow_allocated]. change (2 ^ Z.of_nat 0) with 1 in Hpow.
    destruct (Z.ltb_spec a NewSize) as [?|?]; [lia|].
    exists a, 0. split; [reflexivity|]. change (2 ^ 0) with 1. lia.
  - cbn [grow_allocated]. destruct (Z.ltb_spec a NewSize) as [Hlt|Hge].
    + unfold UINT_MOD in *.
      rewrite to_unsigned_small by (unfold UINT_MOD; lia).
      destruct (IH (a * 2)) as (a' & j & -> & H1 & H2 & H3 & H4); [lia| |].
      * rewrite Nat2Z.inj_succ, Z.pow_succ_r in Hpow by lia. lia.
      * exists a', (j + 1). split; [reflexivity|].
        rewrite Z.pow_add_r by lia. change (2 ^ 1) with 2. lia.
    + exists a, 0. split; [reflexivity|]. change (2 ^ 0) with 1. lia.
Qed.

Lemma SB_Realloc_ok (B : StrBuf) (NewSize : Z) :
  strbuf_ok B -> 1 <= NewSize <= 2147483648 ->
  exists B', SB_Realloc B NewSize = Some B'
             /\ Chars B' = Chars B
             /\ NewSize <= Allocated B'
             /\ (exists k, 3 <= k <= 31 /\ Allocated B' = 2 ^ k).
Proof.
  intros [Hal Hlen] HN. unfold SB_Realloc.
  assert (exists k, 3 <= k <= 31
                    /\ (if Allocated B =? 0 then 8 else Allocated B) = 2 ^ k)
    as (k & Hk & ->).
  { destruct Hal as [->|(k & Hk & ->)]; [exists 3; split; [lia|reflexivity]|].
    exists k. split; [exact Hk|].
    destruct (Z.eqb_spec (2 ^ k) 0) as [E|_]; [|reflexivity].
    pose proof (Z.pow_pos_nonneg 2 k). lia. }
  assert (8 <= 2 ^ k < UINT_MOD) as Hrange.
  { unfold UINT_MOD. change 8 with (2 ^ 3). change 4294967296 with (2 ^ 32).
    split; [apply Z.pow_le_mono_r|apply Z.pow_lt_mono_r]; lia. }
  destruct (grow_allocated_some NewSize ltac:(lia) 33 (2 ^ k))
    as (a' & j & -> & H1 & H2 & H3 & H4); [lia| |].
  - change (Z.of_nat 33) with 33. change (2 ^ 33) with 8589934592. lia.
  - cbn [mbind option_bind]. eexists. split; [reflexivity|].
    cbn [Chars Allocated]. split; [reflexivity|]. split; [exact H1|].
    exists (k + j). rewrite Z.pow_add_r by lia. split; [|exact H4].
    split; [lia|].
    destruct (Z.le_gt_cases (k + j) 31) as [?|Hgt]; [assumption|].
    assert (2 ^ 32 <= 2 ^ (k + j)) by (apply Z.pow_le_mono_r; lia).
    rewrite Z.pow_add_r in * by lia. unfold UINT_MOD in *.
    change (2 ^ 32) with 4294967296 in *. lia.
Qed.

Lemma SB_room (B : StrBuf) :
  strbuf_ok B -> Z.of_nat (String.length (Chars B)) < 2147483648 ->
  exists B',
    (if to_unsigned (SB_GetLen B + 1) >? Allocated B
     then SB_Realloc B (to_unsigned (SB_GetLen B + 1)) else Some B) = Some B'
    /\ Chars B' = Chars B
    /\ SB_GetLen B' < Allocated B'
    /\ (exists k, 3 <= k <= 31 /\ Allocated B' = 2 ^ k).
Proof.
  intros Hok Hlen.
  assert (SB_GetLen B = Z.of_nat (String.length (Chars B))) as HL
    by (unfold SB_GetLen; apply to_unsigned_small; unfold UINT_MOD; lia).
  rewrite HL, to_unsigned_small by (unfold UINT_MOD; lia).
  destruct (Z.gtb_spec (Z.of_nat (String.length (Chars B)) + 1) (Allocated B))
    as [Hgt|Hle].
  - destruct (SB_Realloc_ok B (Z.of_nat (String.length (Chars B)) + 1) Hok)
      as (B' & -> & HC & HA & Hk); [lia|].
    exists B'. split; [reflexivity|]. split; [exact HC|]. split; [|exact Hk].
    unfold SB_GetLen. rewrite HC, to_unsigned_small by (unfold UINT_MOD; lia).
    lia.
  - exists B. split; [reflexivity|]. split; [reflexivity|]. split; [lia|].
    destruct Hok as [[H0|Hk] _]; [lia|exact Hk].
Qed.

Lemma string_length_app (s t : string) :
  String.length (s ++ t) = (String.length s + String.length t)%nat.
Proof. induction s as [|a s IH]; cbn; [reflexivity|now rewrite IH]. Qed.

Lemma SB_AppendChar_ok (B : StrBuf) (c : Z) :
  strbuf_ok B -> Z.of_nat (String.length (Chars B)) < 2147483648 ->
  exists B', SB_AppendChar B c = Some B'
             /\ Chars B' = (Chars B ++ String (char_of_int c) EmptyString)%string
             /\ strbuf_ok B'.
Proof.
  intros Hok Hlen. unfold SB_AppendChar. cbv zeta.
  destruct (SB_room B Hok Hlen) as (B' & -> & HC & HA & Hk).
  cbn [mbind option_bind].
  destruct (Z.ltb_spec (SB_GetLen B') (Allocated B')) as [_|?]; [|lia].
  eexists. split; [reflexivity|]. cbn [Chars Allocated].
  split; [now rewrite HC|]. split; [right; exact Hk|].
  cbn [Chars Allocated]. rewrite string_length_app. cbn [String.length].
  unfold SB_GetLen in HA. rewrite HC in *.
  rewrite to_unsigned_small in HA by (unfold UINT_MOD; lia). lia.
Qed.

Lemma SB_Terminate_ok (B : StrBuf) :
  strbuf_ok B -> Z.of_nat (String.length (Chars B)) < 2147483648 ->
  exists B', SB_Terminate B = Some B' /\ Chars B' = Chars B /\ strbuf_ok B'.
Proof.
  intros Hok Hlen. unfold SB_Terminate. cbv zeta.
  destruct (SB_room B Hok Hlen) as (B' & -> & HC & HA & Hk).
  cbn [mbind option_bind].
  destruct (Z.ltb_spec (SB_GetLen B') (Allocated B')) as [_|?]; [|lia].
  exists B'. split; [reflexivity|]. split; [exact HC|].
  split; [right; exact Hk|].
  unfold SB_GetLen in HA. rewrite HC in *.
  rewrite to_unsigned_small in HA by (unfold UINT_MOD; lia). lia.
Qed.

Lemma SB_Clear_ok (B : StrBuf) : strbuf_ok B -> strbuf_ok (SB_Clear B).
Proof.
  intros [Hal _]. split; [exact Hal|]. cbn.
  destruct Hal as [->|(k & Hk & ->)]; [lia|].
  pose proof (Z.pow_pos_nonneg 2 k). lia.
Qed.

(** *** A character without a case *)

Lemma NextToken_unknown (D : Scanner.t) :
  unknown_char (Scanner.C D) = true ->
  NextToken D
  = Some (Scanner.ParseError
            (Scanner.set_SCol (Scanner.Col D)
               (Scanner.set_SLine (Scanner.Line D) D))
            CC65_ERROR (MsgInvalidCharacter (Scanner.C D))).
Proof.
  unfold unknown_char. intros H. unfold NextToken. cbn [skip_blanks].
  destruct (is_blank (Scanner.C D)); [discriminate H|].
  cbn [mbind option_bind]. cbv zeta.
  cbn [Scanner.C Scanner.set_SCol Scanner.set_SLine].
  destruct (Scanner.C D =? 95); [discriminate H|].
  destruct (isalpha (Scanner.C D)); [discriminate H|].
  destruct (isdigit (Scanner.C D)); [discriminate H|].
  destruct (Scanner.C D =? 45); [discriminate H|].
  destruct (Scanner.C D =? 43); [discriminate H|].
  destruct (Scanner.C D =? 44); [discriminate H|].
  destruct (Scanner.C D =? 61); [discriminate H|].
  destruct (Scanner.C D =? 34); [discriminate H|].
  destruct (Scanner.C D =? 10); [discriminate H|].
  destruct (Scanner.C D =? EOF); [discriminate H|].
  reflexivity.
Qed.

(** X13. At a character that [NextToken] has no case for (any character
    other than a blank, a letter, a digit, the underscore, minus, plus,
    comma, equal sign, double quote, line feed and the end of the file), it reports the error and consumes nothing: the
    text and the token stay as they are. [SkipLine], which calls [NextToken]
    until the token is the end of the line or of the file, never returns
    from there. *)
Theorem X13_unknown_character_blocks_scanner (D : Scanner.t) :
  unknown_char (Scanner.C D) = true ->
  Scanner.Tok D <> TOK_EOL ->
  Scanner.Tok D <> TOK_EOF ->
  (exists D', NextToken D = Some D'
              /\ pending D' = pending D
              /\ Scanner.Tok D' = Scanner.Tok D
              /\ Scanner.Errors D' = to_unsigned (Scanner.Errors D + 1)
              /\ Scanner.Reported D'
                 = Scanner.Reported D
                   ++ [mkScanError CC65_ERROR (Scanner.Line D) (Scanner.Col D)
                         (MsgInvalidCharacter (Scanner.C D))])
  /\ (forall fuel, SkipLine fuel D = None).
Proof.
  intros HC HEOL HEOF. split.
  - eexists. split; [now apply NextToken_unknown|]. repeat split.
  - intros fuel. revert D HC HEOL HEOF.
    induction fuel as [|fuel IH]; intros D HC HEOL HEOF; cbn [SkipLine];
      rewrite !bool_decide_eq_true_2 by assumption; cbn [andb];
      [reflexivity|].
    rewrite (NextToken_unknown D HC). cbn [mbind option_bind].
    apply IH; assumption.
Qed.

Lemma X13_unknown_character_witness :
  (exists D', NextToken (NextChar (scanner_init "@")) = Some D'
              /\ pending D' = pending (NextChar (scanner_init "@"))
              /\ Scanner.Tok D' = Scanner.Tok (NextChar (scanner_init "@"))
              /\ Scanner.Errors D'
                 = to_unsigned
                     (Scanner.Errors (NextChar (scanner_init "@")) + 1)
              /\ Scanner.Reported D'
                 = Scanner.Reported (NextChar (scanner_init "@"))
                   ++ [mkScanError CC65_ERROR
                         (Scanner.Line (NextChar (scanner_init "@")))
                         (Scanner.Col (NextChar (scanner_init "@")))
                         (MsgInvalidCharacter
                            (Scanner.C (NextChar (scanner_init "@"))))])
  /\ (forall fuel, SkipLine fuel (NextChar (scanner_init "@")) = None).
Proof.
  apply X13_unknown_character_blocks_scanner.
  - vm_compute. reflexivity.
  - vm_compute. intros H. discriminate H.
  - vm_compute. intros H. discriminate H.
Defined.

(** *** Numbers *)

Lemma pending_eq (D D' : Scanner.t) :
  Scanner.C D' = Scanner.C D -> Scanner.F D' = Scanner.F D ->
  pending D' = pending D.
Proof. unfold pending. now intros -> ->. Qed.

Lemma to_ulong_step (v B d : Z) :
  to_ulong (to_ulong v * B + d) = to_ulong (v * B + d).
Proof.
  unfold to_ulong.
  rewrite <- (Zplus_mod_idemp_l (v mod _ * B)), Zmult_mod_idemp_l,
    Zplus_mod_idemp_l.
  reflexivity.
Qed.

Lemma fold_to_ulong (B : Z) (ds : list Z) :
  forall v : Z,
    fold_left (fun v c => to_ulong (v * B + DigitVal c)) ds (to_ulong v)
    = to_ulong (fold_left (fun v c => v * B + DigitVal c) ds v).
Proof.
  induction ds as [|d ds IH]; intros v; cbn [fold_left]; [reflexivity|].
  now rewrite to_ulong_step, IH.
Qed.

Lemma is_digit_of_nonneg (Base c : Z) : is_digit_of Base c = true -> 0 <= c.
Proof. unfold is_digit_of. intros H. apply DigitVal_nonneg. lia. Qed.

(** The loop over the digits reads the longest run of digits of the base. *)
Lemma read_number_spec (Base : Z) (ds rest : list Z) :
  Forall (fun c => is_digit_of Base c = true) ds ->
  starts_with (is_digit_of Base) rest = false ->
  forall (fuel : nat) (D : Scanner.t),
    pending D = ds ++ rest ->
    (length (pending D) <= fuel)%nat ->
    exists D',
      read_number fuel Base D = Some D'
      /\ pending D' = rest
      /\ Scanner.IVal D'
         = fold_left (fun v c => to_ulong (v * Base + DigitVal c)) ds
             (Scanner.IVal D)
      /\ Scanner.SVal D' = Scanner.SVal D
      /\ Scanner.Tok D' = Scanner.Tok D
      /\ Scanner.Errors D' = Scanner.Errors D
      /\ Scanner.Reported D' = Scanner.Reported D
      /\ Scanner.SLine D' = Scanner.SLine D
      /\ Scanner.SCol D' = Scanner.SCol D.
Proof.
  intros Hds Hrest. induction Hds as [|d ds Hd _ IH]; intros fuel D HD Hfuel.
  - cbn [app] in HD.
    assert (is_digit_of Base (Scanner.C D) = false) as Hnd
      by (rewrite (starts_with_C (is_digit_of Base)), HD; auto).
    unfold is_digit_of in Hnd.
    exists D. destruct fuel; cbn [read_number]; cbv zeta; rewrite Hnd;
      cbn [fold_left]; auto 10.
  - cbn [app] in HD. pose proof (pending_cons _ _ _ HD) as HC.
    rewrite HD in Hfuel. cbn [length] in Hfuel.
    destruct fuel as [|fuel]; [lia|].
    cbn [read_number]. cbv zeta. rewrite HC.
    pose proof Hd as Hd'. unfold is_digit_of in Hd'. rewrite Hd'.
    set (D1 := Scanner.set_IVal
                 (to_ulong (Scanner.IVal D * Base + DigitVal d)) D).
    assert (pending D1 = d :: ds ++ rest) as HD1
      by (rewrite <- HD; apply pending_eq; reflexivity).
    pose proof (pending_NextChar D1 d _ HD1 (is_digit_of_nonneg _ _ Hd)) as HN.
    destruct (IH fuel (NextChar D1) HN) as (D' & Hrun & Hp & HI & K);
      [rewrite HN; lia|].
    exists D'. split; [exact Hrun|]. split; [exact Hp|].
    destruct (NextChar_kept D1) as (K1 & K2 & K3 & K4 & K5 & K6 & K7).
    destruct K as (L1 & L3 & L4 & L5 & L6 & L7).
    rewrite HI, L1, L3, L4, L5, L6, L7, K1, K2, K3, K4, K5, K6, K7.
    cbn [fold_left]. subst D1. cbn. auto 10.
Qed.

Lemma number_literal_start (Base : Z) (prefix s : list Z) :
  number_literal Base prefix s ->
  exists c t, prefix ++ s = c :: t /\ isdigit c = true.
Proof.
  intros [d t Hd|x t Hx|t Ht]; cbn [app]; eexists _, _;
    (split; [reflexivity|]); unfold isdigit; lia.
Qed.

Lemma isdigit_classes (c : Z) :
  isdigit c = true ->
  is_blank c = false /\ (c =? 95) = false /\ isalpha c = false.
Proof. unfold isdigit, is_blank, isalpha, isupper, islower. lia. Qed.

(** A number. *)
Lemma NextToken_number (D : Scanner.t) (Base : Z)
  (bs prefix ds rest : list Z) :
  Forall (fun c => is_blank c = true) bs ->
  number_literal Base prefix (ds ++ rest) ->
  Forall (fun c => is_digit_of Base c = true) ds ->
  starts_with (is_digit_of Base) rest = false ->
  pending D = bs ++ prefix ++ ds ++ rest ->
  exists D',
    NextToken D = Some D'
    /\ Scanner.Tok D' = TOK_INTCON
    /\ Scanner.IVal D' = to_ulong (digits_value Base ds)
    /\ pending D' = rest
    /\ Scanner.Errors D' = Scanner.Errors D
    /\ Scanner.Reported D' = Scanner.Reported D
    /\ Scanner.SVal D' = Scanner.SVal D.
Proof.
  intros Hbs Hlit Hds Hrest HD.
  destruct (number_literal_start _ _ _ Hlit) as (c & t & Hct & Hc).
  destruct (isdigit_classes c Hc) as (Hc1 & Hc2 & Hc3).
  destruct (skip_blanks_spec bs (prefix ++ ds ++ rest) Hbs
              ltac:(rewrite Hct; exact Hc1)
              (S (String.length (Scanner.F D))) D HD (pending_length D))
    as (D0 & Hskip & HD0 & HS & _ & _ & HE & HR).
  unfold NextToken. rewrite Hskip. cbn [mbind option_bind]. cbv zeta.
  cbn [Scanner.C Scanner.set_SCol Scanner.set_SLine].
  set (D1 := Scanner.set_SCol (Scanner.Col D0)
               (Scanner.set_SLine (Scanner.Line D0) D0)).
  assert (pending D1 = prefix ++ ds ++ rest) as HD1
    by (rewrite <- HD0; apply pending_eq; reflexivity).
  assert (Scanner.Errors D1 = Scanner.Errors D
          /\ Scanner.Reported D1 = Scanner.Reported D
          /\ Scanner.SVal D1 = Scanner.SVal D) as (HE1 & HR1 & HS1)
    by (split; [exact HE|split; [exact HR|exact HS]]).
  change (Scanner.C D0) with (Scanner.C D1).
  clearbody D1. clear D0 Hskip HD0 HE HR HS.
  rewrite Hct in HD1. rewrite (pending_cons _ _ _ HD1), Hc2, Hc3, Hc.
  cbn [orb].
  assert (exists D2,
            (if c =? 48
             then if toupper (Scanner.C (NextChar D1)) =? 88
                  then (16, NextChar (NextChar D1))
                  else (8, NextChar D1)
             else (10, D1)) = (Base, D2)
            /\ pending D2 = ds ++ rest
            /\ Scanner.Errors D2 = Scanner.Errors D
            /\ Scanner.Reported D2 = Scanner.Reported D
            /\ Scanner.SVal D2 = Scanner.SVal D) as (D2 & -> & HD2 & K).
  { destruct (NextChar_kept D1) as (N5 & _ & _ & N1 & N2 & _).
    destruct (NextChar_kept (NextChar D1)) as (N6 & _ & _ & N3 & N4 & _).
    inversion Hlit as [d s Hd E1 E2 E3|x s Hx E1 E2 E3|s Hs E1 E2 E3];
      subst; cbn [app] in Hct.
    - rewrite <- E3 in Hct. injection Hct as <- <-.
      destruct (Z.eqb_spec d 48) as [?|_]; [lia|].
      exists D1. auto.
    - injection Hct as <- <-.
      pose proof (pending_NextChar D1 48 _ HD1 ltac:(lia)) as HN.
      rewrite (pending_cons _ _ _ HN), Hx. cbn [Z.eqb Pos.eqb].
      assert (0 <= x) as Hx0
        by (unfold toupper, islower in Hx;
            destruct ((97 <=? x) && (x <=? 122)) eqn:?; lia).
      exists (NextChar (NextChar D1)). split; [reflexivity|].
      split; [exact (pending_NextChar _ x _ HN Hx0)|].
      rewrite N3, N4, N6, N1, N2, N5. auto.
    - injection Hct as <- <-.
      pose proof (pending_NextChar D1 48 _ HD1 ltac:(lia)) as HN.
      rewrite (starts_with_C (fun c => toupper c =? 88)), HN, Hs
        by reflexivity.
      cbn [Z.eqb Pos.eqb].
      exists (NextChar D1). split; [reflexivity|]. split; [exact HN|].
      rewrite N1, N2, N5. auto. }
  cbn [fst snd].
  set (D3 := Scanner.set_IVal 0 D2).
  assert (pending D3 = ds ++ rest) as HD3
    by (rewrite <- HD2; apply pending_eq; reflexivity).
  destruct (read_number_spec Base ds rest Hds Hrest
              (S (String.length (Scanner.F D3))) D3 HD3 (pending_length D3))
    as (D' & -> & Hp & HI & HSV & _ & HE' & HR' & _).
  cbn [mbind option_bind]. eexists. split; [reflexivity|].
  cbn [Scanner.Tok Scanner.IVal Scanner.Errors Scanner.Reported
       Scanner.SVal Scanner.set_Tok].
  split; [reflexivity|]. split.
  { rewrite HI. subst D3. cbn [Scanner.IVal Scanner.set_IVal].
    change 0 with (to_ulong 0) at 1. apply fold_to_ulong. }
  split; [rewrite <- Hp; apply pending_eq; reflexivity|].
  rewrite HE', HR', HSV. subst D3. cbn. exact K.
Qed.

(** X14. [NextToken] at a number, after any blanks: a digit other than 0
    starts a decimal number, [0x] or [0X] a hexadecimal one, any other 0 an
    octal one. The token is [TOK_INTCON], the value is that of the longest
    run of digits of the base modulo [2^64], and the scanner stops behind
    the run: [08] is the number 0 followed by the number 8, and [0x] alone
    is 0. *)
Theorem X14_number_token (D : Scanner.t) (Base : Z)
  (bs prefix ds rest : list Z) :
  Forall (fun c => is_blank c = true) bs ->
  number_literal Base prefix (ds ++ rest) ->
  Forall (fun c => is_digit_of Base c = true) ds ->
  starts_with (is_digit_of Base) rest = false ->
  pending D = bs ++ prefix ++ ds ++ rest ->
  exists D',
    NextToken D = Some D'
    /\ Scanner.Tok D' = TOK_INTCON
    /\ Scanner.IVal D' = to_ulong (digits_value Base ds)
    /\ pending D' = rest
    /\ Scanner.Errors D' = Scanner.Errors D
    /\ Scanner.Reported D' = Scanner.Reported D
    /\ Scanner.SVal D' = Scanner.SVal D.
Proof. exact (NextToken_number D Base bs prefix ds rest). Qed.

Lemma X14_number_token_witness :
  exists D',
    NextToken (scanner_init "  0x1F,") = Some D'
    /\ Scanner.Tok D' = TOK_INTCON
    /\ Scanner.IVal D' = to_ulong (digits_value 16 [49; 70])
    /\ pending D' = [44]
    /\ Scanner.Errors D' = Scanner.Errors (scanner_init "  0x1F,")
    /\ Scanner.Reported D' = Scanner.Reported (scanner_init "  0x1F,")
    /\ Scanner.SVal D' = Scanner.SVal (scanner_init "  0x1F,").
Proof.
  apply (X14_number_token _ 16 [32; 32; 32] [48; 120] [49; 70] [44]).
  - repeat constructor.
  - apply literal_hexadecimal. reflexivity.
  - repeat constructor.
  - reflexivity.
  - vm_compute. reflexivity.
Defined.

(** *** Identifiers and keywords *)

Lemma find_at {A} (P : A -> bool) (l : list A) (i : nat) (x : A) :
  l !! i = Some x -> P x = true ->
  (forall j y, l !! j = Some y -> (j < i)%nat -> P y = false) ->
  List.find P l = Some x.
Proof.
  revert i. induction l as [|a l IH]; intros i Hx HP Hbefore; [inversion Hx|].
  destruct i as [|i].
  - cbn in Hx. injection Hx as ->. cbn [List.find]. now rewrite HP.
  - cbn [List.find]. rewrite (Hbefore 0%nat a eq_refl) by lia.
    apply (IH i); [exact Hx|exact HP|].
    intros j y Hy Hj. apply (Hbefore (S j) y Hy). lia.
Qed.

Lemma find_nowhere {A} (P : A -> bool) (l : list A) :
  (forall j y, l !! j = Some y -> P y = false) -> List.find P l = None.
Proof.
  induction l as [|a l IH]; intros H; [reflexivity|].
  cbn [List.find]. rewrite (H 0%nat a eq_refl).
  apply IH. intros j y Hy. apply (H (S j) y Hy).
Qed.

Lemma eqb_strcmp (a b : string) : strcmp a b <> 0 -> String.eqb a b = false.
Proof.
  intros H. apply String.eqb_neq. intros ->. apply H. now apply strcmp_eq.
Qed.

(** On a table in strictly ascending order of the keys, the binary search
    finds what a search from the front finds. *)
Lemma bsearch_loop_spec (key : string) (base : list (string * Token)) :
  StronglySorted (fun a b => strcmp (fst a) (fst b) < 0) base ->
  forall (fuel l u : nat),
    (l <= u <= length base)%nat -> (u - l <= fuel)%nat ->
    (forall i e, base !! i = Some e -> (i < l)%nat ->
                 strcmp (fst e) key < 0) ->
    (forall i e, base !! i = Some e -> (u <= i)%nat ->
                 strcmp key (fst e) < 0) ->
    bsearch_loop fuel key base l u
    = Some (List.find (fun e => String.eqb key (fst e)) base).
Proof.
  intros Hs.
  induction fuel as [|fuel IH]; intros l u Hlu Hfuel Hlow Hhigh;
    cbn [bsearch_loop]; destruct (Nat.ltb_spec l u) as [Hlt|Hge]; try lia.
  - f_equal. symmetry. apply find_nowhere. intros j y Hy.
    apply eqb_strcmp. destruct (Nat.lt_ge_cases j l) as [Hj|Hj].
    + pose proof (Hlow j y Hy Hj). rewrite strcmp_opp. lia.
    + pose proof (Hhigh j y Hy ltac:(lia)). lia.
  - cbv zeta.
    assert (l <= (l + u) / 2 < u)%nat as Hidx.
    { pose proof (Nat.div_mod_eq (l + u) 2).
      pose proof (Nat.mod_upper_bound (l + u) 2). lia. }
    set (idx := ((l + u) / 2)%nat) in *.
    destruct (lookup_lt_is_Some_2 base idx) as [p Hp]; [lia|].
    rewrite Hp. cbn [mbind option_bind].
    destruct (Z.ltb_spec (strcmp key (fst p)) 0) as [Hneg|Hnn].
    + apply IH; [lia|lia|exact Hlow|].
      intros i e He Hi. destruct (decide (i = idx)) as [->|Hne].
      * rewrite Hp in He. now injection He as <-.
      * apply (strcmp_lt_trans _ (fst p)); [exact Hneg|].
        apply (StronglySorted_lookup _ base Hs idx i p e Hp He). lia.
    + destruct (Z.gtb_spec (strcmp key (fst p)) 0) as [Hpos|Hnp].
      * apply IH; [lia|lia| |exact Hhigh].
        intros i e He Hi. destruct (decide (i = idx)) as [->|Hne].
        -- rewrite Hp in He. injection He as <-. rewrite strcmp_opp. lia.
        -- apply (strcmp_lt_trans _ (fst p)).
           ++ apply (StronglySorted_lookup _ base Hs i idx e p He Hp). lia.
           ++ rewrite strcmp_opp. lia.
      * assert (key = fst p) as Hkey by (apply strcmp_eq; lia).
        f_equal. symmetry. apply (find_at _ base idx p Hp).
        -- rewrite Hkey. apply String.eqb_refl.
        -- intros j y Hy Hj. apply eqb_strcmp. rewrite Hkey, strcmp_opp.
           pose proof (StronglySorted_lookup _ base Hs j idx y p Hy Hp Hj)
             as Hyp.
           cbv beta in Hyp. lia.
  - f_equal. symmetry. apply find_nowhere. intros j y Hy.
    apply eqb_strcmp. destruct (Nat.lt_ge_cases j l) as [Hj|Hj].
    + pose proof (Hlow j y Hy Hj). rewrite strcmp_opp. lia.
    + pose proof (Hhigh j y Hy ltac:(lia)). lia.
Qed.

Lemma KeywordTable_sorted :
  StronglySorted (fun a b => strcmp (fst a) (fst b) < 0) KeywordTable.
Proof.
  apply Sorted_StronglySorted.
  - intros x y z. apply strcmp_lt_trans.
  - unfold KeywordTable. repeat constructor.
Qed.

Lemma bsearch_KeywordTable (key : string) :
  bsearch key KeywordTable
  = Some (List.find (fun e => String.eqb key (fst e)) KeywordTable).
Proof.
  unfold bsearch. apply bsearch_loop_spec.
  - exact KeywordTable_sorted.
  - lia.
  - lia.
  - intros i e _ Hi. lia.
  - intros i e He Hi. apply lookup_lt_Some in He. lia.
Qed.

Lemma string_app_snoc (s t : string) (a : ascii) :
  ((s ++ String a EmptyString) ++ t = s ++ String a t)%string.
Proof. induction s as [|b s IH]; cbn; [reflexivity|now rewrite IH]. Qed.

Lemma string_app_empty (s : string) : (s ++ EmptyString)%string = s.
Proof. induction s as [|b s IH]; cbn; [reflexivity|now rewrite IH]. Qed.

Lemma string_of_chars_length (l : list Z) :
  String.length (string_of_chars l) = length l.
Proof.
  unfold string_of_chars. induction l as [|c l IH]; [reflexivity|].
  cbn [fold_right String.length length]. now rewrite IH.
Qed.

(** The loop over an identifier appends its characters to the buffer. *)
Lemma read_identifier_spec (id rest : list Z) :
  Forall (fun c => ident_char c = true) id ->
  starts_with ident_char rest = false ->
  forall (fuel : nat) (D : Scanner.t),
    pending D = id ++ rest ->
    (length (pending D) <= fuel)%nat ->
    strbuf_ok (Scanner.SVal D) ->
    Z.of_nat (String.length (Chars (Scanner.SVal D)) + length id)
    < 2147483648 ->
    exists D',
      read_identifier fuel D = Some D'
      /\ pending D' = rest
      /\ Chars (Scanner.SVal D')
         = (Chars (Scanner.SVal D) ++ string_of_chars id)%string
      /\ strbuf_ok (Scanner.SVal D')
      /\ Scanner.IVal D' = Scanner.IVal D
      /\ Scanner.Tok D' = Scanner.Tok D
      /\ Scanner.Errors D' = Scanner.Errors D
      /\ Scanner.Reported D' = Scanner.Reported D.
Proof.
  intros Hid Hrest.
  induction Hid as [|c id Hc _ IH]; intros fuel D HD Hfuel Hok Hlen.
  - cbn [app] in HD.
    assert (ident_char (Scanner.C D) = false) as Hni
      by (rewrite (starts_with_C ident_char), HD; auto).
    unfold ident_char in Hni.
    exists D. destruct fuel; cbn [read_identifier]; rewrite Hni;
      cbn [string_of_chars fold_right]; rewrite string_app_empty; auto 10.
  - cbn [app] in HD. pose proof (pending_cons _ _ _ HD) as HC.
    rewrite HD in Hfuel. cbn [length] in Hfuel.
    destruct fuel as [|fuel]; [lia|].
    cbn [read_identifier]. rewrite HC.
    pose proof Hc as Hc'. unfold ident_char in Hc'. rewrite Hc'.
    cbn [length] in Hlen.
    destruct (SB_AppendChar_ok (Scanner.SVal D) c Hok ltac:(lia))
      as (B & -> & HB & HBok).
    cbn [mbind option_bind].
    set (D1 := Scanner.set_SVal B D).
    assert (pending D1 = c :: id ++ rest) as HD1
      by (rewrite <- HD; apply pending_eq; reflexivity).
    pose proof (pending_NextChar D1 c _ HD1 (ident_char_nonneg _ Hc)) as HN.
    destruct (NextChar_kept D1) as (K1 & K2 & K3 & K4 & K5 & _).
    destruct (IH fuel (NextChar D1) HN) as (D' & Hrun & Hp & HS & Hok' & K).
    + rewrite HN. lia.
    + rewrite K1. exact HBok.
    + rewrite K1. subst D1. cbn [Scanner.SVal Scanner.set_SVal].
      rewrite HB, string_length_app. cbn [String.length]. lia.
    + exists D'. split; [exact Hrun|]. split; [exact Hp|].
      split.
      { rewrite HS, K1. subst D1. cbn [Scanner.SVal Scanner.set_SVal].
        rewrite HB. cbn [string_of_chars fold_right].
        apply string_app_snoc. }
      split; [exact Hok'|].
      destruct K as (L2 & L3 & L4 & L5).
      rewrite L2, L3, L4, L5, K2, K3, K4, K5. subst D1. cbn. auto.
Qed.

Lemma ident_start_classes (c : Z) :
  (c =? 95) || isalpha c = true -> is_blank c = false.
Proof. unfold is_blank, isalpha, isupper, islower. lia. Qed.

Lemma some_bind {A B} (f : A -> option B) (x : A) : mbind f (Some x) = f x.
Proof. reflexivity. Qed.

(** The end of the identifier case: the search in the keyword table. *)
Lemma bsearch_keyword (D : Scanner.t) (B : StrBuf) (s : string) :
  Chars B = s ->
  (Entry ← bsearch (Chars (Scanner.SVal (Scanner.set_SVal B D))) KeywordTable;
   match Entry with
   | None => Some (Scanner.set_Tok TOK_IDENT (Scanner.set_SVal B D))
   | Some e => Some (Scanner.set_Tok (snd e) (Scanner.set_SVal B D))
   end)
  = Some (Scanner.set_Tok (keyword_token s) (Scanner.set_SVal B D)).
Proof.
  intros <-. cbn [Scanner.SVal Scanner.set_SVal].
  rewrite bsearch_KeywordTable. cbn [mbind option_bind].
  unfold keyword_token. destruct (List.find _ KeywordTable); reflexivity.
Qed.

Lemma Tok_set_Tok (D : Scanner.t) (t : Token) :
  Scanner.Tok (Scanner.set_Tok t D) = t.
Proof. reflexivity. Qed.

(** An identifier or a keyword. *)
Lemma NextToken_identifier (D : Scanner.t) (bs id rest : list Z) :
  Forall (fun c => is_blank c = true) bs ->
  starts_with (fun c => (c =? 95) || isalpha c) id = true ->
  Forall (fun c => ident_char c = true) id ->
  starts_with ident_char rest = false ->
  pending D = bs ++ id ++ rest ->
  strbuf_ok (Scanner.SVal D) ->
  Z.of_nat (length id) < 2147483648 ->
  exists D',
    NextToken D = Some D'
    /\ Scanner.Tok D' = keyword_token (string_of_chars id)
    /\ Chars (Scanner.SVal D') = string_of_chars id
    /\ pending D' = rest
    /\ strbuf_ok (Scanner.SVal D')
    /\ Scanner.Errors D' = Scanner.Errors D
    /\ Scanner.Reported D' = Scanner.Reported D.
Proof.
  intros Hbs Hstart Hid Hrest HD Hok Hlen.
  pose proof (string_of_chars_length id) as Hslen.
  remember (string_of_chars id) as s eqn:Es.
  destruct id as [|c id']; [discriminate Hstart|]. cbn [starts_with] in Hstart.
  destruct (skip_blanks_spec bs ((c :: id') ++ rest) Hbs
              (ident_start_classes c Hstart)
              (S (String.length (Scanner.F D))) D HD (pending_length D))
    as (D0 & Hskip & HD0 & HS0 & _ & _ & HE & HR).
  unfold NextToken. rewrite Hskip. cbn [mbind option_bind]. cbv zeta.
  cbn [Scanner.C Scanner.set_SCol Scanner.set_SLine].
  rewrite (pending_cons _ _ _ HD0), Hstart.
  set (D1 := Scanner.set_SVal _ _).
  assert (pending D1 = (c :: id') ++ rest) as HD1
    by (rewrite <- HD0; apply pending_eq; reflexivity).
  destruct (read_identifier_spec (c :: id') rest Hid Hrest
              (S (String.length (Scanner.F D1))) D1 HD1 (pending_length D1))
    as (D2 & -> & HD2 & HS2 & Hok2 & _ & _ & HE2 & HR2).
  { subst D1. cbn [Scanner.SVal Scanner.set_SVal]. apply SB_Clear_ok.
    cbn [Scanner.SVal Scanner.set_SCol Scanner.set_SLine]. now rewrite HS0. }
  { subst D1. cbn [Scanner.SVal Scanner.set_SVal SB_Clear Chars String.length].
    lia. }
  cbn [mbind option_bind]. rewrite <- Es in HS2.
  assert (Chars (Scanner.SVal D2) = s) as HS2'
    by (rewrite HS2; reflexivity).
  destruct (SB_Terminate_ok (Scanner.SVal D2) Hok2) as (B & -> & HB & HBok).
  { rewrite HS2', Hslen. lia. }
  rewrite some_bind, HS2' in *.
  rewrite (bsearch_keyword _ B s HB).
  eexists. split; [reflexivity|].
  split; [apply Tok_set_Tok|].
  split; [exact HB|].
  split; [rewrite <- HD2; apply pending_eq; reflexivity|].
  split; [exact HBok|].
  change (Scanner.Errors D2 = Scanner.Errors D
          /\ Scanner.Reported D2 = Scanner.Reported D).
  rewrite HE2, HR2. subst D1. cbn. auto.
Qed.

(** X15. [NextToken] at a letter or an underscore, after any blanks: it
    reads the longest run of letters, digits and underscores (shorter than
    [2^31] characters) into [SVal]; the token is that of the entry of the
    keyword table with exactly this word, and [TOK_IDENT] for a word that
    is not in the table: on this table the binary search finds what a
    search from the front finds. *)
Theorem X15_identifier_token (D : Scanner.t) (bs id rest : list Z) :
  Forall (fun c => is_blank c = true) bs ->
  starts_with (fun c => (c =? 95) || isalpha c) id = true ->
  Forall (fun c => ident_char c = true) id ->
  starts_with ident_char rest = false ->
  pending D = bs ++ id ++ rest ->
  strbuf_ok (Scanner.SVal D) ->
  Z.of_nat (length id) < 2147483648 ->
  exists D',
    NextToken D = Some D'
    /\ Scanner.Tok D' = keyword_token (string_of_chars id)
    /\ Chars (Scanner.SVal D') = string_of_chars id
    /\ pending D' = rest
    /\ strbuf_ok (Scanner.SVal D')
    /\ Scanner.Errors D' = Scanner.Errors D
    /\ Scanner.Reported D' = Scanner.Reported D.
Proof. exact (NextToken_identifier D bs id rest). Qed.

Lemma X15_identifier_token_witness :
  exists D',
    NextToken (scanner_init "span id=0") = Some D'
    /\ Scanner.Tok D' = keyword_token (string_of_chars [115; 112; 97; 110])
    /\ Chars (Scanner.SVal D') = string_of_chars [115; 112; 97; 110]
    /\ pending D' = [32; 105; 100; 61; 48]
    /\ strbuf_ok (Scanner.SVal D')
    /\ Scanner.Errors D' = Scanner.Errors (scanner_init "span id=0")
    /\ Scanner.Reported D' = Scanner.Reported (scanner_init "span id=0").
Proof.
  apply (X15_identifier_token _ [32] [115; 112; 97; 110]
           [32; 105; 100; 61; 48]).
  - repeat constructor.
  - reflexivity.
  - repeat constructor.
  - reflexivity.
  - vm_compute. reflexivity.
  - split; [left; reflexivity|cbn; lia].
  - cbn. lia.
Defined.

(** *** String constants *)

Lemma pending_ParseError (D : Scanner.t) (t : cc65_error_severity)
  (msg : ScanMessage) : pending (Scanner.ParseError D t msg) = pending D.
Proof. destruct t; reflexivity. Qed.

(** The loop over a string constant: up to the closing quote, which it
    consumes, or up to the end of the line or of the file, which it reports
    and leaves. *)
Lemma read_string_spec (body tail : list Z) :
  Forall (fun c => string_char c = true) body ->
  string_end tail = true ->
  forall (fuel : nat) (D : Scanner.t),
    pending D = body ++ tail ->
    (length (pending D) <= fuel)%nat ->
    strbuf_ok (Scanner.SVal D) ->
    Z.of_nat (String.length (Chars (Scanner.SVal D)) + length body)
    < 2147483648 ->
    exists D',
      read_string fuel D = Some D'
      /\ Chars (Scanner.SVal D')
         = (Chars (Scanner.SVal D) ++ string_of_chars body)%string
      /\ strbuf_ok (Scanner.SVal D')
      /\ Scanner.Tok D' = Scanner.Tok D
      /\ if closing_quote tail
         then pending D' = tl tail
              /\ Scanner.Errors D' = Scanner.Errors D
              /\ Scanner.Reported D' = Scanner.Reported D
         else pending D' = tail
              /\ Scanner.Errors D' = to_unsigned (Scanner.Errors D + 1)
              /\ Scanner.Reported D'
                 = Scanner.Reported D
                   ++ [mkScanError CC65_ERROR (Scanner.SLine D)
                         (Scanner.SCol D) MsgUnterminatedString].
Proof.
  intros Hbody Htail.
  induction Hbody as [|c body Hc _ IH]; intros fuel D HD Hfuel Hok Hlen.
  - cbn [app] in HD. cbn [string_of_chars fold_right].
    rewrite string_app_empty.
    destruct tail as [|t tail].
    + exists (Scanner.ParseError D CC65_ERROR MsgUnterminatedString).
      split; [destruct fuel; cbn [read_string];
              rewrite (pending_nil _ HD); reflexivity|].
      cbn [closing_quote starts_with]. rewrite pending_ParseError.
      split; [reflexivity|]. split; [exact Hok|]. split; [reflexivity|].
      split; [exact HD|]. split; reflexivity.
    + cbn [string_end] in Htail. pose proof (pending_cons _ _ _ HD) as HC.
      destruct (Z.eqb_spec t 34) as [->|Hne].
      * exists (NextChar D).
        split; [destruct fuel; cbn [read_string]; rewrite HC; reflexivity|].
        destruct (NextChar_kept D) as (K1 & _ & K3 & K4 & K5 & _).
        rewrite K1, K3, K4, K5. cbn [closing_quote starts_with tl].
        change (34 =? 34) with true. cbv iota.
        rewrite (pending_NextChar D 34 _ HD) by lia. auto 8.
      * assert (t = 10) as -> by lia.
        exists (Scanner.ParseError D CC65_ERROR MsgUnterminatedString).
        split; [destruct fuel; cbn [read_string]; rewrite HC; reflexivity|].
        cbn [closing_quote starts_with]. change (10 =? 34) with false.
        cbv iota. rewrite pending_ParseError.
        split; [reflexivity|]. split; [exact Hok|]. split; [reflexivity|].
        split; [exact HD|]. split; reflexivity.
  - cbn [app] in HD. pose proof (pending_cons _ _ _ HD) as HC.
    rewrite HD in Hfuel. cbn [length] in Hfuel.
    destruct fuel as [|fuel]; [lia|].
    unfold string_char in Hc.
    assert (0 <= c /\ c <> 34 /\ c <> 10) as (Hc0 & Hc1 & Hc2) by lia.
    cbn [read_string]. rewrite HC.
    destruct (Z.eqb_spec c 10) as [?|_]; [contradiction|].
    destruct (Z.eqb_spec c EOF) as [?|_]; [unfold EOF in *; lia|].
    destruct (Z.eqb_spec c 34) as [?|_]; [contradiction|].
    cbn [orb]. cbn [length] in Hlen.
    destruct (SB_AppendChar_ok (Scanner.SVal D) c Hok ltac:(lia))
      as (B & -> & HB & HBok).
    cbn [mbind option_bind].
    set (D1 := Scanner.set_SVal B D).
    assert (pending D1 = c :: body ++ tail) as HD1
      by (rewrite <- HD; apply pending_eq; reflexivity).
    pose proof (pending_NextChar D1 c _ HD1 Hc0) as HN.
    destruct (NextChar_kept D1) as (K1 & K2 & K3 & K4 & K5 & K6 & K7).
    destruct (IH fuel (NextChar D1) HN) as (D' & Hrun & HS & Hok' & HT & K).
    + rewrite HN. lia.
    + rewrite K1. exact HBok.
    + rewrite K1. subst D1. cbn [Scanner.SVal Scanner.set_SVal].
      rewrite HB, string_length_app. cbn [String.length]. lia.
    + exists D'. split; [exact Hrun|].
      split.
      { rewrite HS, K1. subst D1. cbn [Scanner.SVal Scanner.set_SVal].
        rewrite HB. cbn [string_of_chars fold_right].
        apply string_app_snoc. }
      split; [exact Hok'|].
      split; [rewrite HT, K3; reflexivity|].
      rewrite K4, K5, K6, K7 in K. exact K.
Qed.

Lemma quote_classes (c : Z) :
  c = 34 ->
  is_blank c = false /\ (c =? 95) = false /\ isalpha c = false
  /\ isdigit c = false /\ (c =? 45) = false /\ (c =? 43) = false
  /\ (c =? 44) = false /\ (c =? 61) = false.
Proof. intros ->. repeat split. Qed.

(** A string constant. *)
Lemma NextToken_string (D : Scanner.t) (bs body tail : list Z) :
  Forall (fun c => is_blank c = true) bs ->
  Forall (fun c => string_char c = true) body ->
  string_end tail = true ->
  pending D = bs ++ 34 :: body ++ tail ->
  strbuf_ok (Scanner.SVal D) ->
  Z.of_nat (length body) < 2147483648 ->
  exists D',
    NextToken D = Some D'
    /\ Scanner.Tok D' = TOK_STRCON
    /\ Chars (Scanner.SVal D') = string_of_chars body
    /\ strbuf_ok (Scanner.SVal D')
    /\ if closing_quote tail
       then pending D' = tl tail
            /\ Scanner.Errors D' = Scanner.Errors D
            /\ Scanner.Reported D' = Scanner.Reported D
       else pending D' = tail
            /\ Scanner.Errors D' = to_unsigned (Scanner.Errors D + 1)
            /\ exists line col,
                 Scanner.Reported D'
                 = Scanner.Reported D
                   ++ [mkScanError CC65_ERROR line col MsgUnterminatedString].
Proof.
  intros Hbs Hbody Htail HD Hok Hlen.
  destruct (quote_classes 34 eq_refl)
    as (Q1 & Q2 & Q3 & Q4 & Q5 & Q6 & Q7 & Q8).
  destruct (skip_blanks_spec bs (34 :: body ++ tail) Hbs Q1
              (S (String.length (Scanner.F D))) D HD (pending_length D))
    as (D0 & Hskip & HD0 & HS0 & _ & _ & HE & HR).
  unfold NextToken. rewrite Hskip. cbn [mbind option_bind]. cbv zeta.
  cbn [Scanner.C Scanner.set_SCol Scanner.set_SLine].
  rewrite (pending_cons _ _ _ HD0), Q2, Q3, Q4, Q5, Q6, Q7, Q8.
  cbn [orb]. change (34 =? 34) with true. cbv iota.
  set (D1 := Scanner.set_SVal _ _).
  assert (pending D1 = 34 :: body ++ tail) as HD1
    by (rewrite <- HD0; apply pending_eq; reflexivity).
  pose proof (pending_NextChar D1 34 _ HD1 ltac:(lia)) as HN.
  destruct (NextChar_kept D1) as (K1 & _ & K3 & K4 & K5 & K6 & K7).
  destruct (read_string_spec body tail Hbody Htail
              (S (String.length (Scanner.F (NextChar D1)))) (NextChar D1) HN
              (pending_length _))
    as (D2 & -> & HS2 & Hok2 & _ & K).
  { rewrite K1. subst D1. cbn [Scanner.SVal Scanner.set_SVal].
    apply SB_Clear_ok.
    cbn [Scanner.SVal Scanner.set_SCol Scanner.set_SLine]. now rewrite HS0. }
  { rewrite K1. subst D1.
    cbn [Scanner.SVal Scanner.set_SVal SB_Clear Chars String.length]. lia. }
  cbn [mbind option_bind].
  assert (Chars (Scanner.SVal D2) = string_of_chars body) as HS2'
    by (rewrite HS2, K1; reflexivity).
  destruct (SB_Terminate_ok (Scanner.SVal D2) Hok2) as (B & -> & HB & HBok).
  { rewrite HS2', string_of_chars_length. lia. }
  cbn [mbind option_bind]. eexists. split; [reflexivity|].
  cbn [Scanner.Tok Scanner.SVal Scanner.Errors Scanner.Reported
       Scanner.set_Tok Scanner.set_SVal].
  split; [reflexivity|]. split; [now rewrite HB|]. split; [exact HBok|].
  rewrite K4, K5 in K.
  assert (Scanner.Errors D1 = Scanner.Errors D
          /\ Scanner.Reported D1 = Scanner.Reported D) as [E1 R1]
    by (subst D1; cbn; auto).
  rewrite E1, R1 in K.
  destruct (closing_quote tail); destruct K as (Kp & KE & KR).
  - split; [rewrite <- Kp; apply pending_eq; reflexivity|]. auto.
  - split; [rewrite <- Kp; apply pending_eq; reflexivity|].
    split; [exact KE|]. eauto.
Qed.

(** X16. [NextToken] at a double quote, after any blanks: the token is
    [TOK_STRCON] and [SVal] holds the characters up to the closing quote
    (fewer than [2^31]), which is consumed. When the line or the file ends
    before the closing quote the token and [SVal] are the same, one error
    (unterminated string constant) is reported at the start of the token,
    and the scanner stays on the end of the line. *)
Theorem X16_string_token (D : Scanner.t) (bs body tail : list Z) :
  Forall (fun c => is_blank c = true) bs ->
  Forall (fun c => string_char c = true) body ->
  string_end tail = true ->
  pending D = bs ++ 34 :: body ++ tail ->
  strbuf_ok (Scanner.SVal D) ->
  Z.of_nat (length body) < 2147483648 ->
  exists D',
    NextToken D = Some D'
    /\ Scanner.Tok D' = TOK_STRCON
    /\ Chars (Scanner.SVal D') = string_of_chars body
    /\ strbuf_ok (Scanner.SVal D')
    /\ if closing_quote tail
       then pending D' = tl tail
            /\ Scanner.Errors D' = Scanner.Errors D
            /\ Scanner.Reported D' = Scanner.Reported D
       else pending D' = tail
            /\ Scanner.Errors D' = to_unsigned (Scanner.Errors D + 1)
            /\ exists line col,
                 Scanner.Reported D'
                 = Scanner.Reported D
                   ++ [mkScanError CC65_ERROR line col MsgUnterminatedString].
Proof. exact (NextToken_string D bs body tail). Qed.

Lemma X16_string_token_witness :
  exists D',
    NextToken (scanner_init text_with_string) = Some D'
    /\ Scanner.Tok D' = TOK_STRCON
    /\ Chars (Scanner.SVal D') = string_of_chars [97; 46; 115]
    /\ strbuf_ok (Scanner.SVal D')
    /\ if closing_quote [34; 44]
       then pending D' = tl [34; 44]
            /\ Scanner.Errors D'
               = Scanner.Errors (scanner_init text_with_string)
            /\ Scanner.Reported D'
               = Scanner.Reported (scanner_init text_with_string)
       else pending D' = [34; 44]
            /\ Scanner.Errors D'
               = to_unsigned
                   (Scanner.Errors (scanner_init text_with_string) + 1)
            /\ exists line col,
                 Scanner.Reported D'
                 = Scanner.Reported (scanner_init text_with_string)
                   ++ [mkScanError CC65_ERROR line col MsgUnterminatedString].
Proof.
  apply (X16_string_token _ [32] [97; 46; 115] [34; 44]).
  - repeat constructor.
  - repeat constructor.
  - reflexivity.
  - vm_compute. reflexivity.
  - split; [left; reflexivity|cbn; lia].
  - cbn. lia.
Defined.

(** *** Every call of the scanner *)

Lemma span_exists (P : Z -> bool) (l : list Z) :
  exists a b, l = a ++ b /\ Forall (fun c => P c = true) a
              /\ starts_with P b = false.
Proof.
  induction l as [|c l IH].
  - exists [], []. repeat split. constructor.
  - destruct IH as (a & b & -> & Ha & Hb). destruct (P c) eqn:E.
    + exists (c :: a), b. repeat split; [constructor; assumption|exact Hb].
    + exists [], (c :: a ++ b). repeat split; [constructor|exact E].
Qed.

Lemma NextToken_skip (D D0 : Scanner.t) :
  skip_blanks (S (String.length (Scanner.F D))) D = Some D0 ->
  is_blank (Scanner.C D0) = false ->
  NextToken D = NextToken D0.
Proof.
  intros H Hnb. unfold NextToken. rewrite H. cbn [skip_blanks].
  rewrite Hnb. reflexivity.
Qed.

(** The tokens of one character. *)
Lemma NextToken_simple (D : Scanner.t) (c : Z) (s : list Z) :
  pending D = c :: s ->
  c = 45 \/ c = 43 \/ c = 44 \/ c = 61 \/ c = 10 ->
  exists D', NextToken D = Some D' /\ pending D' = s
             /\ Scanner.SVal D' = Scanner.SVal D.
Proof.
  intros HD Hc. pose proof (pending_cons _ _ _ HD) as HC.
  set (D1 := Scanner.set_SCol (Scanner.Col D)
               (Scanner.set_SLine (Scanner.Line D) D)).
  assert (pending D1 = c :: s) as HD1
    by (rewrite <- HD; apply pending_eq; reflexivity).
  assert (pending (NextChar D1) = s) as HN
    by (apply (pending_NextChar D1 c s HD1); lia).
  destruct (NextChar_kept D1) as (K1 & _).
  assert (exists t, NextToken D = Some (Scanner.set_Tok t (NextChar D1)))
    as (t & ->).
  { unfold NextToken. cbn [skip_blanks].
    assert (is_blank (Scanner.C D) = false) as ->
      by (rewrite HC; unfold is_blank; lia).
    cbn [mbind option_bind]. cbv zeta.
    cbn [Scanner.C Scanner.set_SCol Scanner.set_SLine]. rewrite HC.
    destruct Hc as [ -> | [ -> | [ -> | [ -> | -> ] ] ] ]; eexists;
      reflexivity. }
  eexists. split; [reflexivity|].
  split; [rewrite <- HN; apply pending_eq; reflexivity|].
  cbn [Scanner.SVal Scanner.set_Tok]. rewrite K1. reflexivity.
Qed.

Lemma NextToken_end (D : Scanner.t) :
  pending D = [] ->
  exists D', NextToken D = Some D' /\ pending D' = []
             /\ Scanner.Tok D' = TOK_EOF
             /\ Scanner.SVal D' = Scanner.SVal D.
Proof.
  intros HD. pose proof (pending_nil _ HD) as HC.
  eexists. split.
  - unfold NextToken. cbn [skip_blanks]. rewrite HC.
    change (is_blank EOF) with false.
    cbn [mbind option_bind]. cbv zeta.
    cbn [Scanner.C Scanner.set_SCol Scanner.set_SLine]. rewrite HC.
    reflexivity.
  - split; [rewrite <- HD; apply pending_eq; reflexivity|].
    split; reflexivity.
Qed.

Lemma unknown_char_of (c : Z) :
  0 <= c -> is_blank c = false -> (c =? 95) || isalpha c = false ->
  isdigit c = false ->
  ~ (c = 45 \/ c = 43 \/ c = 44 \/ c = 61 \/ c = 10) -> c <> 34 ->
  unknown_char c = true.
Proof.
  intros H0 H1 H2 H3 H4 H5. unfold unknown_char.
  apply orb_false_iff in H2 as [H2 H2']. rewrite H1, H2, H2', H3.
  unfold EOF. cbn [orb].
  repeat match goal with
         | |- context [c =? ?n] =>
             destruct (Z.eqb_spec c n) as [?|_]; [exfalso; lia|]
         end.
  reflexivity.
Qed.

Lemma Forall_app_bytes (a b : list Z) :
  Forall is_byte (a ++ b) -> Forall is_byte b.
Proof. intros H. now apply Forall_app in H as [_ H]. Qed.

(** X17. [NextToken] always returns on a file of fewer than [2^31]
    characters, and it never goes back: what is pending afterwards is the
    end of what was pending. It moves forward on every call, with two
    exceptions: at the end of the file, where the token is [TOK_EOF], and at
    a character it has no case for, where the token and the text stay as
    they were (X13). *)
Theorem X17_NextToken_progress (D : Scanner.t) :
  Forall is_byte (pending D) ->
  strbuf_ok (Scanner.SVal D) ->
  Z.of_nat (length (pending D)) < 2147483648 ->
  exists D',
    NextToken D = Some D'
    /\ strbuf_ok (Scanner.SVal D')
    /\ (exists consumed, pending D = consumed ++ pending D')
    /\ ((pending D' = [] /\ Scanner.Tok D' = TOK_EOF)
        \/ (length (pending D') < length (pending D))%nat
        \/ (unknown_char (Scanner.C D) = true
            /\ pending D' = pending D /\ Scanner.Tok D' = Scanner.Tok D)).
Proof.
  intros Hbytes Hok Hlen.
  destruct (span_exists is_blank (pending D)) as (bs & s & Hl & Hbs & Hs).
  rewrite Hl in Hbytes, Hlen. rewrite length_app in Hlen.
  apply Forall_app_bytes in Hbytes.
  destruct (skip_blanks_spec bs s Hbs Hs (S (String.length (Scanner.F D))) D
              Hl (pending_length D))
    as (D0 & Hskip & HD0 & HS0 & _ & HT0 & _).
  assert (is_blank (Scanner.C D0) = false) as Hnb
    by (rewrite (starts_with_C is_blank), HD0; auto).
  destruct s as [|c s'].
  { (* The end of the file *)
    destruct (NextToken_end D0 HD0) as (D' & HN & Hp & HT & HS).
    exists D'. rewrite (NextToken_skip D D0 Hskip Hnb).
    split; [exact HN|]. split; [rewrite HS, HS0; exact Hok|].
    split; [exists bs; rewrite Hp, Hl; reflexivity|]. left. auto. }
  cbn [starts_with] in Hs.
  pose proof Hbytes as Hbytes'. apply Forall_cons in Hbytes' as [Hc Hs'].
  unfold is_byte in Hc. cbn [length] in Hlen.
  destruct ((c =? 95) || isalpha c) eqn:E1.
  { (* An identifier *)
    destruct (span_exists ident_char (c :: s')) as (id & rest & Hl2 & Hid & Hr).
    destruct id as [|i id'].
    { cbn [app] in Hl2. subst rest. cbn [starts_with] in Hr.
      unfold ident_char, isalnum in Hr.
      apply orb_true_iff in E1 as [E1|E1]; rewrite E1 in Hr;
        [discriminate Hr|rewrite orb_true_r in Hr; discriminate Hr]. }
    cbn [app] in Hl2. injection Hl2 as <- Hl2.
    assert (length s' = length id' + length rest)%nat as Hlens
      by (rewrite Hl2, length_app; reflexivity).
    destruct (NextToken_identifier D bs (c :: id') rest Hbs E1 Hid Hr)
      as (D' & HN & _ & _ & Hp & Hok' & _).
    - rewrite Hl, Hl2. reflexivity.
    - exact Hok.
    - cbn [length]. lia.
    - exists D'. split; [exact HN|]. split; [exact Hok'|].
      split; [exists (bs ++ c :: id');
              rewrite Hp, Hl, Hl2, <- app_assoc; reflexivity|].
      right. left. rewrite Hp, Hl, length_app. cbn [length]. lia. }
  destruct (isdigit c) eqn:E2.
  { (* A number *)
    assert (exists Base prefix ds rest,
              c :: s' = prefix ++ ds ++ rest
              /\ number_literal Base prefix (ds ++ rest)
              /\ Forall (fun c => is_digit_of Base c = true) ds
              /\ starts_with (is_digit_of Base) rest = false
              /\ (length rest < length (c :: s'))%nat)
      as (Base & prefix & ds & rest & Hl2 & Hlit & Hds & Hr & Hshort).
    { destruct (Z.eqb_spec c 48) as [->|Hne].
      - destruct (starts_with (fun c => toupper c =? 88) s') eqn:E3.
        + destruct s' as [|x s'']; [discriminate E3|]. cbn [starts_with] in E3.
          destruct (span_exists (is_digit_of 16) s'')
            as (ds & rest & -> & Hds & Hr).
          exists 16, [48; x], ds, rest. split; [reflexivity|].
          split; [apply literal_hexadecimal; lia|].
          split; [exact Hds|]. split; [exact Hr|].
          cbn [length]. rewrite length_app. lia.
        + destruct (span_exists (is_digit_of 8) s')
            as (ds & rest & -> & Hds & Hr).
          exists 8, [48], ds, rest. split; [reflexivity|].
          split; [apply literal_octal; exact E3|].
          split; [exact Hds|]. split; [exact Hr|].
          cbn [length]. rewrite length_app. lia.
      - destruct (span_exists (is_digit_of 10) (c :: s'))
          as (ds & rest & Hl2 & Hds & Hr).
        assert (49 <= c <= 57) as Hdec by (unfold isdigit in E2; lia).
        destruct ds as [|d ds'].
        { cbn [app] in Hl2. subst rest. cbn [starts_with] in Hr.
          unfold is_digit_of, DigitVal in Hr. rewrite E2 in Hr. lia. }
        exists 10, [], (d :: ds'), rest. split; [exact Hl2|].
        split; [rewrite <- Hl2; apply literal_decimal; exact Hdec|].
        split; [exact Hds|]. split; [exact Hr|].
        rewrite Hl2. cbn [app length]. rewrite length_app. lia. }
    destruct (NextToken_number D Base bs prefix ds rest Hbs Hlit Hds Hr)
      as (D' & HN & _ & _ & Hp & _ & _ & HS).
    - rewrite Hl, Hl2. reflexivity.
    - exists D'. split; [exact HN|]. split; [rewrite HS; exact Hok|].
      split; [exists (bs ++ prefix ++ ds);
              rewrite Hp, Hl, Hl2, <- !app_assoc; reflexivity|].
      right. left. rewrite Hp, Hl, length_app. lia. }
  destruct (decide (c = 45 \/ c = 43 \/ c = 44 \/ c = 61 \/ c = 10))
    as [Hsimple|Hnot].
  { (* A token of one character *)
    destruct (NextToken_simple D0 c s' HD0 Hsimple) as (D' & HN & Hp & HS).
    exists D'. rewrite (NextToken_skip D D0 Hskip Hnb).
    split; [exact HN|]. split; [rewrite HS, HS0; exact Hok|].
    split; [exists (bs ++ [c]); rewrite Hp, Hl, <- app_assoc; reflexivity|].
    right. left. rewrite Hp, Hl, length_app. cbn [length]. lia. }
  destruct (Z.eq_dec c 34) as [->|Hnq].
  { (* A string constant *)
    destruct (span_exists string_char s') as (body & tail & -> & Hbody & Ht).
    rewrite length_app in Hlen.
    assert (string_end tail = true) as Hend.
    { destruct tail as [|t tail]; [reflexivity|].
      cbn [starts_with string_end] in Ht |- *.
      apply Forall_app_bytes, Forall_cons in Hs' as [Hb _].
      unfold is_byte in Hb. unfold string_char in Ht. lia. }
    destruct (NextToken_string D bs body tail Hbs Hbody Hend)
      as (D' & HN & _ & _ & Hok' & K).
    - rewrite Hl. reflexivity.
    - exact Hok.
    - lia.
    - exists D'. split; [exact HN|]. split; [exact Hok'|].
      rewrite Hl. unfold closing_quote in K.
      destruct tail as [|t tail]; cbn [starts_with] in K.
      + destruct K as (Hp & _). rewrite Hp.
        split; [exists (bs ++ 34 :: body); rewrite <- app_assoc;
                reflexivity|].
        right. left. rewrite !length_app. cbn [length]. lia.
      + destruct (t =? 34); destruct K as (Hp & _); rewrite Hp; cbn [tl].
        * split; [exists (bs ++ 34 :: body ++ [t]);
                  rewrite <- app_assoc; cbn [app]; rewrite <- app_assoc;
                  reflexivity|].
          right. left. rewrite !length_app. cbn [length].
          rewrite length_app. cbn [length]. lia.
        * split; [exists (bs ++ 34 :: body); rewrite <- app_assoc;
                  reflexivity|].
          right. left. rewrite !length_app. cbn [length].
          rewrite length_app. cbn [length]. lia. }
  (* A character without a case *)
  pose proof (pending_cons _ _ _ HD0) as HC0.
  assert (unknown_char (Scanner.C D0) = true) as Hunk
    by (rewrite HC0; apply unknown_char_of; auto; lia).
  rewrite (NextToken_skip D D0 Hskip Hnb), (NextToken_unknown D0 Hunk).
  eexists. split; [reflexivity|].
  split; [change (strbuf_ok (Scanner.SVal D0)); rewrite HS0; exact Hok|].
  rewrite pending_ParseError.
  assert (pending (Scanner.set_SCol (Scanner.Col D0)
                     (Scanner.set_SLine (Scanner.Line D0) D0)) = pending D0)
    as -> by (apply pending_eq; reflexivity).
  split; [exists bs; rewrite HD0, Hl; reflexivity|].
  destruct bs as [|b bs'].
  - right. right. cbn [app] in Hl.
    assert (Scanner.C D = c) as HC by (apply (pending_cons _ _ _ Hl)).
    split; [rewrite HC, <- HC0; exact Hunk|].
    split; [rewrite HD0, Hl; reflexivity|].
    change (Scanner.Tok D0 = Scanner.Tok D). exact HT0.
  - right. left. rewrite HD0, Hl. cbn [app length]. rewrite length_app.
    cbn [length]. lia.
Qed.

Lemma X17_NextToken_progress_witness :
  exists D',
    NextToken (scanner_init "span id=0") = Some D'
    /\ strbuf_ok (Scanner.SVal D')
    /\ (exists consumed,
          pending (scanner_init "span id=0") = consumed ++ pending D')
    /\ ((pending D' = [] /\ Scanner.Tok D' = TOK_EOF)
        \/ (length (pending D')
            < length (pending (scanner_init "span id=0")))%nat
        \/ (unknown_char (Scanner.C (scanner_init "span id=0")) = true
            /\ pending D' = pending (scanner_init "span id=0")
            /\ Scanner.Tok D' = Scanner.Tok (scanner_init "span id=0"))).
Proof.
  apply X17_NextToken_progress.
  - assert (pending (scanner_init "span id=0")
            = [32; 115; 112; 97; 110; 32; 105; 100; 61; 48]) as ->
      by (vm_compute; reflexivity).
    repeat (apply Forall_cons; split; [unfold is_byte; lia|]). constructor.
  - split; [left; reflexivity|cbn; lia].
  - vm_compute. reflexivity.
Defined.

(** ** Spans by id *)

Lemma Info_ParseError (D : InputData.t) (t : cc65_error_severity)
  (msg : Message) : InputData.Info (ParseError D t msg) = InputData.Info D.
Proof. destruct t; reflexivity. Qed.

Lemma Info_UnknownKeywords (u : list string) :
  forall D : InputData.t,
    InputData.Info (UnknownKeywords D u) = InputData.Info D.
Proof.
  unfold UnknownKeywords. induction u as [|kw u IH]; intros D; [reflexivity|].
  cbn [fold_left]. rewrite IH. reflexivity.
Qed.

Lemma spans_view_Info (D D' : InputData.t) :
  InputData.Info D' = InputData.Info D -> spans_view D' = spans_view D.
Proof. unfold spans_view. now intros ->. Qed.

(** *** The parsers *)

(** One step through a parser: a missing attribute list, a test, a bind. *)
Ltac parser_step :=
  match goal with
  | H : None = Some _ |- _ => discriminate H
  | H : Some _ = Some _ |- _ => injection H as <-
  | H : mbind _ _ = Some _ |- _ =>
      apply bind_Some in H as (? & ? & H); cbv beta zeta in H
  | H : (if ?c then _ else _) = Some _ |- _ => destruct c
  | H : match ?x with _ => _ end = Some _ |- _ =>
      destruct x; cbv beta zeta in H
  end.

Ltac parser_view :=
  repeat parser_step;
  unfold spans_view; rewrite ?Info_ParseError, ?Info_UnknownKeywords;
  try reflexivity;
  cbn [InputData.Info InputData.set_Info]; unfold upd_Mem;
  cbn; rewrite ?Info_UnknownKeywords; reflexivity.

Lemma ParseFile_view (D D' : InputData.t) (u : list string)
  (a : option FileAttrs) :
  ParseFile D u a = Some D' -> spans_view D' = spans_view D.
Proof. unfold ParseFile, store_FileInfo. cbv zeta. intros H. parser_view. Qed.

Lemma ParseLibrary_view (D D' : InputData.t) (u : list string)
  (a : option LibAttrs) :
  ParseLibrary D u a = Some D' -> spans_view D' = spans_view D.
Proof.
  unfold ParseLibrary, store_LibInfo. cbv zeta. intros H. parser_view.
Qed.

Lemma ParseLine_view (D D' : InputData.t) (u : list string)
  (a : option LineAttrs) :
  ParseLine D u a = Some D' -> spans_view D' = spans_view D.
Proof. unfold ParseLine, store_LineInfo. cbv zeta. intros H. parser_view. Qed.

Lemma ParseModule_view (D D' : InputData.t) (u : list string)
  (a : option ModAttrs) :
  ParseModule D u a = Some D' -> spans_view D' = spans_view D.
Proof.
  unfold ParseModule, store_ModInfo. cbv zeta. intros H. parser_view.
Qed.

Lemma ParseScope_view (D D' : InputData.t) (u : list string)
  (a : option ScopeAttrs) :
  ParseScope D u a = Some D' -> spans_view D' = spans_view D.
Proof.
  unfold ParseScope, store_ScopeInfo. cbv zeta. intros H. parser_view.
Qed.

Lemma ParseSegment_view (D D' : InputData.t) (u : list string)
  (a : option SegAttrs) :
  ParseSegment D u a = Some D' -> spans_view D' = spans_view D.
Proof.
  unfold ParseSegment, store_SegInfo. cbv zeta. intros H. parser_view.
Qed.

Lemma ParseSym_view (D D' : InputData.t) (u : list string)
  (a : option SymAttrs) :
  ParseSym D u a = Some D' -> spans_view D' = spans_view D.
Proof. unfold ParseSym, store_SymInfo. cbv zeta. intros H. parser_view. Qed.

Lemma ParseInfo_grow_view (kvs : list (InfoKey * Z)) :
  forall I : DbgInfo.t,
    Items (DbgInfo.SpanInfoById (fold_left ParseInfo_grow kvs I))
    = Items (DbgInfo.SpanInfoById I)
    /\ DbgInfo.Mem (fold_left ParseInfo_grow kvs I) = DbgInfo.Mem I.
Proof.
  induction kvs as [|kv kvs IH]; intros I; [split; reflexivity|].
  cbn [fold_left]. destruct (IH (ParseInfo_grow I kv)) as [-> ->].
  unfold ParseInfo_grow. destruct (fst kv); cbn; rewrite ?CollGrow_Items;
    split; reflexivity.
Qed.

Lemma ParseInfo_view (D : InputData.t) (u : list string)
  (a : option (list (InfoKey * Z))) :
  spans_view (ParseInfo D u a) = spans_view D.
Proof.
  unfold ParseInfo. destruct a as [kvs|].
  - unfold spans_view, upd_Info. cbn [InputData.Info InputData.set_Info].
    destruct (ParseInfo_grow_view kvs
                (InputData.Info (UnknownKeywords D u))) as [-> ->].
    now rewrite Info_UnknownKeywords.
  - apply spans_view_Info. now rewrite Info_ParseError, Info_UnknownKeywords.
Qed.

Lemma span_ids_ok_view (D D' : InputData.t) :
  spans_view D' = spans_view D ->
  span_ids_ok (InputData.Info D) -> span_ids_ok (InputData.Info D').
Proof.
  unfold spans_view, span_ids_ok. intros [= HI Hm] H i e He.
  rewrite HI in He. rewrite Hm. now apply H.
Qed.

Lemma CollReplaceExpand_entries (C C' : Collection) (Item : option nat)
  (Index : Z) :
  0 <= Index ->
  CollReplaceExpand C Item Index = Some C' ->
  forall (j : nat) (e : CollEntry),
    Items C' !! j = Some e ->
    (j = Z.to_nat Index /\ e = EPtr Item)
    \/ Items C !! j = Some e \/ e = ENull.
Proof.
  intros H0. unfold CollReplaceExpand, CollCount.
  destruct (Z.ltb_spec Index (Z.of_nat (length (Items C)))) as [Hlt|Hge].
  - intros [= <-] j e. cbn [Items].
    destruct (decide (j = Z.to_nat Index)) as [->|Hne].
    + rewrite list_lookup_insert_eq by lia. intros [= <-]. auto.
    + rewrite list_lookup_insert_ne by auto. auto.
  - destruct (expand_size 33 Index _) as [Sz|]; cbn [mbind option_bind];
      [|discriminate].
    intros [= <-] j e. cbn [Items]. rewrite CollGrow_Items.
    destruct (Nat.lt_ge_cases j (length (Items C))) as [Hj|Hj].
    + rewrite lookup_app_l by assumption. auto.
    + rewrite lookup_app_r by assumption.
      set (n := (Z.to_nat Index - length (Items C))%nat).
      destruct (Nat.lt_ge_cases (j - length (Items C)) n) as [Hk|Hk].
      * rewrite lookup_app_l by (rewrite length_replicate; exact Hk).
        intros He. apply lookup_replicate in He as [-> _]. auto.
      * rewrite lookup_app_r by (rewrite length_replicate; exact Hk).
        rewrite length_replicate.
        destruct (j - length (Items C) - n)%nat as [|k] eqn:E;
          [|intros He; destruct k; discriminate He].
        intros [= <-]. left. split; [|reflexivity]. subst n. lia.
Qed.

Lemma uval_nonneg (o : option Z) : 0 <= uval o 0.
Proof.
  destruct o as [v|]; cbn [uval]; [|lia].
  pose proof (to_unsigned_range v). lia.
Qed.

Lemma span_ids_ok_error (D : InputData.t) (u : list string) (msg : Message) :
  span_ids_ok (InputData.Info D) ->
  span_ids_ok
    (InputData.Info (ParseError (UnknownKeywords D u) CC65_ERROR msg)).
Proof. now rewrite Info_ParseError, Info_UnknownKeywords. Qed.

(** [ParseSpan] stores the span at the index that is its id. *)
Lemma ParseSpan_ok (D D' : InputData.t) (u : list string)
  (a : option SpanAttrs) :
  span_ids_ok (InputData.Info D) ->
  ParseSpan D u a = Some D' ->
  span_ids_ok (InputData.Info D').
Proof.
  intros Hok. unfold ParseSpan. cbv zeta.
  destruct a as [a|];
    [|intros [= <-]; now apply span_ids_ok_error].
  destruct (negb _); [intros [= <-]; now apply span_ids_ok_error|].
  unfold store_SpanInfo. cbv zeta. rewrite Info_UnknownKeywords.
  intros H. apply bind_Some in H as (ById & HById & H). injection H as <-.
  cbn [SpanInfo.Id] in HById.
  intros i e He. cbn in He.
  destruct (CollReplaceExpand_entries _ _ _ _ (uval_nonneg _) HById i e He)
    as [[-> ->]|[Hold| ->]]; [right| |now left].
  - eexists. split; [reflexivity|]. cbn. unfold span_ids. cbn.
    rewrite fmap_app, lookup_app_r by (rewrite length_fmap; lia).
    rewrite length_fmap, Nat.sub_diag. cbn.
    rewrite Z2Nat.id by apply uval_nonneg. reflexivity.
  - cbn in Hold. destruct (Hok i e Hold) as [->|(p & -> & Hp)]; [now left|].
    right. exists p. split; [reflexivity|]. cbn. unfold span_ids in *. cbn.
    rewrite fmap_app. now apply lookup_app_l_Some.
Qed.

Lemma parse_line_ok (D D' : InputData.t) (l : InputLine) :
  span_ids_ok (InputData.Info D) ->
  parse_line D l = Some D' ->
  span_ids_ok (InputData.Info D').
Proof.
  intros Hok H. destruct l; cbn [parse_line] in H;
    try (injection H as <-).
  - exact Hok.
  - now apply (span_ids_ok_view D _ (ParseInfo_view D _ _)).
  - now apply (span_ids_ok_view D D' (ParseFile_view _ _ _ _ H)).
  - now apply (span_ids_ok_view D D' (ParseLibrary_view _ _ _ _ H)).
  - now apply (span_ids_ok_view D D' (ParseLine_view _ _ _ _ H)).
  - now apply (span_ids_ok_view D D' (ParseModule_view _ _ _ _ H)).
  - now apply (span_ids_ok_view D D' (ParseScope_view _ _ _ _ H)).
  - now apply (span_ids_ok_view D D' (ParseSegment_view _ _ _ _ H)).
  - now apply (ParseSpan_ok D D' _ _ Hok H).
  - now apply (span_ids_ok_view D D' (ParseSym_view _ _ _ _ H)).
  - exact Hok.
  - exact Hok.
Qed.

Lemma parse_lines_ok (ls : list InputLine) :
  forall D D' : InputData.t,
    span_ids_ok (InputData.Info D) ->
    parse_lines D ls = Some D' ->
    span_ids_ok (InputData.Info D').
Proof.
  unfold parse_lines. induction ls as [|l ls IH]; intros D D' Hok H.
  - cbn in H. now injection H as <-.
  - cbn [foldl] in H. cbn [mbind option_bind] in H.
    destruct (parse_line D l) as [D1|] eqn:E.
    + apply (IH D1 D'); [now apply (parse_line_ok D D1 l)|exact H].
    + exfalso. clear -H. induction ls as [|l' ls IH']; [discriminate H|].
      cbn [foldl mbind option_bind] in H. now apply IH'.
Qed.

(** *** The resolver passes *)

Lemma ParseError_ids (D : InputData.t) (t : cc65_error_severity)
  (msg : Message) : span_ids_of (ParseError D t msg) = span_ids_of D.
Proof. destruct t; reflexivity. Qed.

Lemma put_File_ids (D D' : InputData.t) (P : option nat) (r : FileInfo.t) :
  put_File D P r = Some D' -> span_ids_of D' = span_ids_of D.
Proof.
  unfold put_File. intros H. apply bind_Some in H as (l & _ & H).
  injection H as <-. reflexivity.
Qed.

Lemma put_Line_ids (D D' : InputData.t) (P : option nat) (r : LineInfo.t) :
  put_Line D P r = Some D' -> span_ids_of D' = span_ids_of D.
Proof.
  unfold put_Line. intros H. apply bind_Some in H as (l & _ & H).
  injection H as <-. reflexivity.
Qed.

Lemma put_Mod_ids (D D' : InputData.t) (P : option nat) (r : ModInfo.t) :
  put_Mod D P r = Some D' -> span_ids_of D' = span_ids_of D.
Proof.
  unfold put_Mod. intros H. apply bind_Some in H as (l & _ & H).
  injection H as <-. reflexivity.
Qed.

Lemma put_Scope_ids (D D' : InputData.t) (P : option nat) (r : ScopeInfo.t) :
  put_Scope D P r = Some D' -> span_ids_of D' = span_ids_of D.
Proof.
  unfold put_Scope. intros H. apply bind_Some in H as (l & _ & H).
  injection H as <-. reflexivity.
Qed.

Lemma put_Sym_ids (D D' : InputData.t) (P : option nat) (r : SymInfo.t) :
  put_Sym D P r = Some D' -> span_ids_of D' = span_ids_of D.
Proof.
  unfold put_Sym. intros H. apply bind_Some in H as (l & _ & H).
  injection H as <-. reflexivity.
Qed.

(** A span record is only ever replaced by one with the same id. *)
Lemma put_Span_ids (D D' : InputData.t) (P : option nat) (r r' : SpanInfo.t) :
  put_Span D P r' = Some D' ->
  deref (Store.SpanInfos (mem D)) P = Some r ->
  SpanInfo.Id r' = SpanInfo.Id r ->
  span_ids_of D' = span_ids_of D.
Proof.
  unfold put_Span, put, deref. intros H Hr Hid.
  apply bind_Some in H as (l & Hl & H). injection H as <-.
  apply bind_Some in Hl as (p & -> & Hl).
  apply bind_Some in Hl as (r0 & Hr0 & Hl). injection Hl as <-.
  cbn [mbind option_bind] in Hr.
  unfold span_ids_of, span_ids. cbn.
  rewrite list_fmap_insert. apply list_insert_id.
  rewrite list_lookup_fmap, Hr. cbn. now rewrite Hid.
Qed.

Ltac ids_step :=
  match goal with
  | H : put_File _ _ _ = Some _ |- _ => apply put_File_ids in H
  | H : put_Line _ _ _ = Some _ |- _ => apply put_Line_ids in H
  | H : put_Mod _ _ _ = Some _ |- _ => apply put_Mod_ids in H
  | H : put_Scope _ _ _ = Some _ |- _ => apply put_Scope_ids in H
  | H : put_Sym _ _ _ = Some _ |- _ => apply put_Sym_ids in H
  | H : mbind _ _ = Some _ |- _ =>
      apply bind_Some in H as (? & ? & H); cbv beta zeta in H
  | H : (if ?c then _ else _) = Some _ |- _ => destruct c
  | H : Some _ = Some _ |- _ => injection H as <-
  | H : None = Some _ |- _ => discriminate H
  end.

Ltac ids_kept :=
  repeat ids_step; simpl fst in *; simpl snd in *;
  rewrite ?ParseError_ids in *; try congruence; try assumption.

Lemma ProcessFileInfo_module_ids (F : option nat) (J : nat)
  (D D' : InputData.t) :
  ProcessFileInfo_module F J D = Some D' -> span_ids_of D' = span_ids_of D.
Proof. unfold ProcessFileInfo_module. intros H. ids_kept. Qed.

Lemma ProcessFileInfo_file_ids (I : nat) (D D' : InputData.t) :
  ProcessFileInfo_file I D = Some D' -> span_ids_of D' = span_ids_of D.
Proof.
  unfold ProcessFileInfo_file. intros H.
  apply bind_Some in H as (F & _ & H). apply bind_Some in H as (Fr & _ & H).
  apply bind_Some in H as (D1 & H1 & H).
  apply (for_range_kept span_ids_of _ (ProcessFileInfo_module_ids F)) in H1.
  ids_kept.
Qed.

Lemma ProcessFileInfo_sort_ids (I : nat) (D D' : InputData.t) :
  ProcessFileInfo_sort I D = Some D' -> span_ids_of D' = span_ids_of D.
Proof. unfold ProcessFileInfo_sort. intros H. ids_kept. Qed.

Lemma ProcessFileInfo_ids (D D' : InputData.t) :
  ProcessFileInfo D = Some D' -> span_ids_of D' = span_ids_of D.
Proof.
  unfold ProcessFileInfo. intros H.
  apply bind_Some in H as (D1 & H1 & H). apply bind_Some in H as (D2 & H2 & H).
  apply (for_range_kept span_ids_of _ ProcessFileInfo_file_ids) in H1.
  apply (for_range_kept span_ids_of _ ProcessFileInfo_sort_ids) in H2.
  apply bind_Some in H as (C & _ & H). injection H as <-.
  change (span_ids_of (upd_Info (DbgInfo.set_FileInfoByName C) D2))
    with (span_ids_of D2).
  congruence.
Qed.

Lemma ProcessLineInfo_loop_ids (fuel : nat) :
  forall (I : nat) (D D' : InputData.t),
    ProcessLineInfo_loop fuel I D = Some D' -> span_ids_of D' = span_ids_of D.
Proof.
  induction fuel as [|fuel IH]; intros I D D' H;
    cbn [ProcessLineInfo_loop] in H; cbv zeta in H;
    destruct (I <? count (DbgInfo.LineInfoById (InputData.Info D)))%nat;
    try discriminate H; try (injection H as <-; reflexivity).
  apply bind_Some in H as (L & _ & H). apply bind_Some in H as (Lr & _ & H).
  apply bind_Some in H as (FileId & _ & H).
  apply bind_Some in H as (D1 & H1 & H).
  apply IH in H. rewrite H. clear H. ids_kept.
Qed.

Lemma ProcessLineInfo_sort_ids (I : nat) (D D' : InputData.t) :
  ProcessLineInfo_sort I D = Some D' -> span_ids_of D' = span_ids_of D.
Proof. unfold ProcessLineInfo_sort. intros H. ids_kept. Qed.

Lemma ProcessLineInfo_ids (D D' : InputData.t) :
  ProcessLineInfo D = Some D' -> span_ids_of D' = span_ids_of D.
Proof.
  unfold ProcessLineInfo. intros H.
  apply bind_Some in H as (D1 & H1 & H).
  apply ProcessLineInfo_loop_ids in H1.
  apply (for_range_kept span_ids_of _ ProcessLineInfo_sort_ids) in H.
  congruence.
Qed.

Lemma ProcessModInfo_module_ids (I : nat) (D D' : InputData.t) :
  ProcessModInfo_module I D = Some D' -> span_ids_of D' = span_ids_of D.
Proof. unfold ProcessModInfo_module. cbv zeta. intros H. ids_kept. Qed.

Lemma ProcessModInfo_ids (D D' : InputData.t) :
  ProcessModInfo D = Some D' -> span_ids_of D' = span_ids_of D.
Proof.
  unfold ProcessModInfo. intros H.
  apply bind_Some in H as (D1 & H1 & H).
  apply (for_range_kept span_ids_of _ ProcessModInfo_module_ids) in H1.
  apply bind_Some in H as (C & _ & H). injection H as <-.
  change (span_ids_of (upd_Info (DbgInfo.set_ModInfoByName C) D1))
    with (span_ids_of D1).
  congruence.
Qed.

Lemma ProcessScopeInfo_span_ids (Sc : option nat) (J : nat)
  (D D' : InputData.t) :
  ProcessScopeInfo_span Sc J D = Some D' -> span_ids_of D' = span_ids_of D.
Proof.
  unfold ProcessScopeInfo_span. intros H.
  apply bind_Some in H as (Sr & _ & H).
  apply bind_Some in H as (SpanId & _ & H).
  destruct (SpanId >=? _); [ids_kept|].
  apply bind_Some in H as (SP & _ & H). apply bind_Some in H as (C & _ & H).
  apply bind_Some in H as (D1 & H1 & H). apply put_Scope_ids in H1.
  apply bind_Some in H as (SPr & HSPr & H).
  apply bind_Some in H as (L & _ & H).
  apply (put_Span_ids _ _ _ SPr) in H; [congruence|exact HSPr|reflexivity].
Qed.

Lemma ProcessScopeInfo_scope_ids (I : nat) (D D' : InputData.t) :
  ProcessScopeInfo_scope I D = Some D' -> span_ids_of D' = span_ids_of D.
Proof.
  unfold ProcessScopeInfo_scope. intros H.
  repeat match goal with
  | H : for_range _ _ _ _ = Some _ |- _ =>
      apply (for_range_kept span_ids_of _ (ProcessScopeInfo_span_ids _)) in H
  | _ => ids_step
  end.
  all: simpl fst in *; simpl snd in *; rewrite ?ParseError_ids in *;
    congruence.
Qed.

Lemma ProcessScopeInfo_module_ids (I : nat) (D D' : InputData.t) :
  ProcessScopeInfo_module I D = Some D' -> span_ids_of D' = span_ids_of D.
Proof.
  unfold ProcessScopeInfo_module. cbv zeta. intros H. ids_kept.
  all: destruct (ModInfo.MainScope _);
    rewrite ?ParseError_ids in *; congruence.
Qed.

Lemma ProcessScopeInfo_ids (D D' : InputData.t) :
  ProcessScopeInfo D = Some D' -> span_ids_of D' = span_ids_of D.
Proof.
  unfold ProcessScopeInfo. intros H.
  apply bind_Some in H as (D1 & H1 & H).
  apply (for_range_kept span_ids_of _ ProcessScopeInfo_scope_ids) in H1.
  apply (for_range_kept span_ids_of _ ProcessScopeInfo_module_ids) in H.
  congruence.
Qed.

Lemma ProcessSegInfo_ids (D D' : InputData.t) :
  ProcessSegInfo D = Some D' -> span_ids_of D' = span_ids_of D.
Proof.
  unfold ProcessSegInfo. intros H.
  apply bind_Some in H as (C & _ & H). injection H as <-. reflexivity.
Qed.

Lemma ProcessSpanInfo_span_ids (I : nat) (st st' : InputData.t * Collection) :
  ProcessSpanInfo_span I st = Some st' ->
  span_ids_of (fst st') = span_ids_of (fst st).
Proof.
  unfold ProcessSpanInfo_span. cbv zeta. intros H.
  apply bind_Some in H as (Sp & _ & H). apply bind_Some in H as (Sr & HSr & H).
  apply bind_Some in H as (SegId & _ & H).
  apply bind_Some in H as (D1 & H1 & H). apply bind_Some in H as (C & _ & H).
  injection H as <-. cbn [fst].
  destruct (SegId >=? _).
  - apply (put_Span_ids _ _ _ Sr) in H1; [|exact HSr|reflexivity].
    rewrite H1. reflexivity.
  - apply bind_Some in H1 as (Sg & _ & H1).
    apply bind_Some in H1 as (Sgr & _ & H1).
    apply (put_Span_ids _ _ _ Sr) in H1; [exact H1|exact HSr|reflexivity].
Qed.

Lemma ProcessSpanInfo_ids (D D' : InputData.t) :
  ProcessSpanInfo D = Some D' -> span_ids_of D' = span_ids_of D.
Proof.
  unfold ProcessSpanInfo. cbv zeta. intros H.
  apply bind_Some in H as (st & H1 & H).
  apply (for_range_kept (fun st => span_ids_of (fst st)) _
           ProcessSpanInfo_span_ids) in H1.
  apply bind_Some in H as (C & _ & H). apply bind_Some in H as (L & _ & H).
  injection H as <-. cbn [fst] in H1.
  change (span_ids_of (upd_Info (DbgInfo.set_SpanInfoByAddr L) (fst st)))
    with (span_ids_of (fst st)).
  exact H1.
Qed.

Lemma ProcessSymInfo_resolve_ids (I : nat) (D D' : InputData.t) :
  ProcessSymInfo_resolve I D = Some D' -> span_ids_of D' = span_ids_of D.
Proof.
  unfold ProcessSymInfo_resolve, resolve_ref. cbv zeta. intros H. ids_kept.
Qed.

Lemma ProcessSymInfo_inherit_ids (I : nat) (D D' : InputData.t) :
  ProcessSymInfo_inherit I D = Some D' -> span_ids_of D' = span_ids_of D.
Proof.
  unfold ProcessSymInfo_inherit. intros H.
  apply bind_Some in H as (Sy & _ & H). apply bind_Some in H as (Sr & _ & H).
  apply bind_Some in H as (Scope & _ & H).
  destruct Scope; [now injection H as <-|].
  apply bind_Some in H as (Parent & _ & H).
  destruct Parent; [|injection H as <-; reflexivity].
  apply bind_Some in H as (Pr & _ & H). apply bind_Some in H as (PScope & _ & H).
  destruct PScope; [now apply put_Sym_ids in H|].
  injection H as <-. reflexivity.
Qed.

Lemma ProcessSymInfo_inherit_by_id (I : nat) (D D' : InputData.t) :
  ProcessSymInfo_inherit I D = Some D' -> by_id D' = by_id D.
Proof.
  unfold ProcessSymInfo_inherit. intros H.
  apply bind_Some in H as (Sy & _ & H). apply bind_Some in H as (Sr & _ & H).
  apply bind_Some in H as (Scope & _ & H).
  destruct Scope; [now injection H as <-|].
  apply bind_Some in H as (Parent & _ & H).
  destruct Parent; [|injection H as <-; reflexivity].
  apply bind_Some in H as (Pr & _ & H). apply bind_Some in H as (PScope & _ & H).
  destruct PScope; [now apply put_Sym_by_id in H|].
  injection H as <-. reflexivity.
Qed.

Lemma ProcessSymInfo_kept (D D' : InputData.t) :
  ProcessSymInfo D = Some D' ->
  span_ids_of D' = span_ids_of D /\ by_id D' = by_id D.
Proof.
  unfold ProcessSymInfo. cbv zeta. intros H.
  apply bind_Some in H as (D1 & H1 & H). apply bind_Some in H as (D2 & H2 & H).
  pose proof (for_range_kept span_ids_of _ ProcessSymInfo_resolve_ids
                _ _ _ _ H1) as K1.
  pose proof (for_range_kept by_id _ ProcessSymInfo_resolve_by_id
                _ _ _ _ H1) as B1.
  pose proof (for_range_kept span_ids_of _ ProcessSymInfo_inherit_ids
                _ _ _ _ H2) as K2.
  pose proof (for_range_kept by_id _ ProcessSymInfo_inherit_by_id
                _ _ _ _ H2) as B2.
  apply bind_Some in H as (ByName & _ & H).
  apply bind_Some in H as (ByVal & _ & H). injection H as <-.
  split.
  - change (span_ids_of D2 = span_ids_of D). congruence.
  - change (by_id D2 = by_id D). congruence.
Qed.

Lemma spans_view_kept (D D' : InputData.t) :
  by_id D' = by_id D -> span_ids_of D' = span_ids_of D ->
  spans_view D' = spans_view D.
Proof.
  intros HB HI. apply by_id_fields in HB as (_ & _ & _ & _ & HB & _).
  unfold spans_view. rewrite HB. unfold span_ids_of, mem in HI.
  now rewrite HI.
Qed.

(** The resolver passes leave the by-id collection of the spans and the
    ids of the span records as they are. *)
Lemma CloseAndExit_ok (D : InputData.t) (errs : list cc65_parseerror)
  (h : DbgInfo.t) :
  span_ids_ok (InputData.Info D) ->
  CloseAndExit D = Some (errs, Some h) ->
  span_ids_ok h.
Proof.
  intros Hok. unfold CloseAndExit.
  destruct (InputData.Errors D >? 0); [discriminate|]. intros H.
  apply bind_Some in H as (D1 & H1 & H). apply bind_Some in H as (D2 & H2 & H).
  apply bind_Some in H as (D3 & H3 & H). apply bind_Some in H as (D4 & H4 & H).
  apply bind_Some in H as (D5 & H5 & H). apply bind_Some in H as (D6 & H6 & H).
  apply bind_Some in H as (D7 & H7 & H). injection H as _ <-.
  apply ProcessSymInfo_kept in H7 as [I7 B7].
  apply (span_ids_ok_view D6);
    [now apply spans_view_kept|].
  apply (span_ids_ok_view D5);
    [apply spans_view_kept;
     [now apply ProcessSpanInfo_by_id|now apply ProcessSpanInfo_ids]|].
  apply (span_ids_ok_view D4);
    [apply spans_view_kept;
     [now apply ProcessSegInfo_by_id|now apply ProcessSegInfo_ids]|].
  apply (span_ids_ok_view D3);
    [apply spans_view_kept;
     [now apply ProcessScopeInfo_by_id|now apply ProcessScopeInfo_ids]|].
  apply (span_ids_ok_view D2);
    [apply spans_view_kept;
     [now apply ProcessModInfo_by_id|now apply ProcessModInfo_ids]|].
  apply (span_ids_ok_view D1);
    [apply spans_view_kept;
     [now apply ProcessLineInfo_by_id|now apply ProcessLineInfo_ids]|].
  apply (span_ids_ok_view D);
    [apply spans_view_kept;
     [now apply ProcessFileInfo_by_id|now apply ProcessFileInfo_ids]|].
  exact Hok.
Qed.

Lemma NewDbgInfo_ok : span_ids_ok NewDbgInfo.
Proof. intros i e He. destruct i; discriminate He. Qed.

Lemma Info_ParseVersion (D : InputData.t) (u : list string)
  (a : VersionAttrs) (e : bool) :
  InputData.Info (ParseVersion D u a e) = InputData.Info D.
Proof.
  unfold ParseVersion. cbv zeta.
  destruct e; [rewrite Info_ParseError|destruct (_ =? 3);
                                        [|rewrite Info_ParseError]];
    destruct (vMinor a), (vMajor a); cbn [InputData.Info
      InputData.set_MajorVersion InputData.set_MinorVersion];
    apply Info_UnknownKeywords.
Qed.

Lemma cc65_read_dbginfo_ok (lines : list InputLine)
  (errs : list cc65_parseerror) (h : DbgInfo.t) :
  cc65_read_dbginfo lines = Some (errs, Some h) -> span_ids_ok h.
Proof.
  unfold cc65_read_dbginfo. cbv zeta.
  assert (forall msg,
            CloseAndExit (ParseError InputData_init CC65_ERROR msg)
            = Some (errs, Some h) -> span_ids_ok h) as Hnone.
  { intros msg. apply CloseAndExit_ok. exact NewDbgInfo_ok. }
  destruct lines as [|l rest]; [apply Hnone|].
  destruct l; try apply Hnone.
  set (D0 := ParseVersion InputData_init Unknown a syntax_error).
  assert (span_ids_ok (InputData.Info D0)) as H0
    by (subst D0; rewrite Info_ParseVersion; exact NewDbgInfo_ok).
  clearbody D0.
  destruct (InputData.MajorVersion D0 <? VER_MAJOR).
  { apply CloseAndExit_ok. now rewrite Info_ParseError. }
  intros H. apply bind_Some in H as (D1 & H1 & H).
  apply (CloseAndExit_ok D1 errs h); [|exact H].
  apply (parse_lines_ok rest _ D1) in H1; [exact H1|].
  destruct (_ && _); [now rewrite Info_ParseError|].
  destruct (_ >? _); [now rewrite Info_ParseError|exact H0].
Qed.

(** X18. In a database that [cc65_read_dbginfo] returns, whatever the
    file, a query for a span by its id that returns data returns exactly
    one record, and it is the span with the id asked for: the parser
    stores every span at the index that is its id, and nothing that
    follows moves the entries or changes the id of a record. *)
Theorem X18_span_by_id (lines : list InputLine)
  (errs : list cc65_parseerror) (h : DbgInfo.t) (id : Z)
  (ds : list cc65_spandata) :
  cc65_read_dbginfo lines = Some (errs, Some h) ->
  0 <= id < UINT_MOD ->
  cc65_spaninfo_byid h id = Some (Some ds) ->
  exists d, ds = [d] /\ span_id d = id.
Proof.
  intros Hread Hid. apply cc65_read_dbginfo_ok in Hread as Hok.
  unfold cc65_spaninfo_byid. cbv zeta.
  rewrite to_unsigned_small by exact Hid.
  destruct (id >=? _); [discriminate|]. intros H.
  apply bind_Some in H as (Sp & HSp & H). apply bind_Some in H as (d & Hd & H).
  injection H as <-. exists d. split; [reflexivity|].
  unfold CollAt in HSp. apply bind_Some in HSp as (e & He & HSp).
  unfold CopySpanInfo in Hd. apply bind_Some in Hd as (Sr & HSr & Hd).
  apply bind_Some in Hd as (Sg & _ & Hd).
  apply bind_Some in Hd as (Sgr & _ & Hd). injection Hd as <-.
  cbn [span_id].
  destruct (Hok _ e He) as [->|(p & -> & Hp)]; cbn in HSp;
    injection HSp as <-; [discriminate HSr|].
  cbn in HSr. unfold span_ids in Hp. rewrite list_lookup_fmap, HSr in Hp.
  cbn in Hp. injection Hp as ->. lia.
Qed.

Lemma X18_span_by_id_witness :
  exists d,
    default [] (default None
                  (cc65_spaninfo_byid (loaded input_overlapping_spans) 1))
    = [d]
    /\ span_id d = 1.
Proof.
  eapply (X18_span_by_id input_overlapping_spans _
            (loaded input_overlapping_spans) 1).
  - vm_compute. reflexivity.
  - unfold UINT_MOD. lia.
  - vm_compute. reflexivity.
Defined.

(** X19. In a database that [cc65_read_dbginfo] returns, the list that
    [cc65_get_spanlist] returns, when it returns, has one record for each
    entry of the by-id collection and is in the order of the ids: the
    record at position [i] is the span with the id [i]. *)
Theorem X19_span_list_by_id (lines : list InputLine)
  (errs : list cc65_parseerror) (h : DbgInfo.t) (ds : list cc65_spandata) :
  cc65_read_dbginfo lines = Some (errs, Some h) ->
  cc65_get_spanlist h = Some ds ->
  length ds = length (Items (DbgInfo.SpanInfoById h))
  /\ forall (i : nat) (d : cc65_spandata),
       ds !! i = Some d -> span_id d = Z.of_nat i.
Proof.
  intros Hread. apply cc65_read_dbginfo_ok in Hread as Hok.
  unfold cc65_get_spanlist. intros H. apply mapM_Some in H.
  split; [symmetry; exact (Forall2_length _ _ _ H)|].
  intros i d Hd.
  destruct (Forall2_lookup_r _ _ _ _ _ H Hd) as (e & He & Hcopy).
  apply bind_Some in Hcopy as (Sp & HSp & Hcopy).
  unfold CopySpanInfo in Hcopy. apply bind_Some in Hcopy as (Sr & HSr & Hcopy).
  apply bind_Some in Hcopy as (Sg & _ & Hcopy).
  apply bind_Some in Hcopy as (Sgr & _ & Hcopy). injection Hcopy as <-.
  cbn [span_id].
  destruct (Hok _ e He) as [->|(p & -> & Hp)]; cbn in HSp;
    injection HSp as <-; [discriminate HSr|].
  cbn in HSr. unfold span_ids in Hp. rewrite list_lookup_fmap, HSr in Hp.
  cbn in Hp. now injection Hp as ->.
Qed.

Lemma X19_span_list_witness :
  length (default [] (cc65_get_spanlist (loaded input_overlapping_spans)))
  = length (Items (DbgInfo.SpanInfoById (loaded input_overlapping_spans)))
  /\ forall (i : nat) (d : cc65_spandata),
       default [] (cc65_get_spanlist (loaded input_overlapping_spans)) !! i
       = Some d ->
       span_id d = Z.of_nat i.
Proof.
  eapply (X19_span_list_by_id input_overlapping_spans _
            (loaded input_overlapping_spans)).
  - vm_compute. reflexivity.
  - vm_compute. reflexivity.
Defined.

(** ** Spans relative to their segment *)

Lemma put_Span_effect (D D' : InputData.t) (P : option nat) (r : SpanInfo.t) :
  put_Span D P r = Some D' ->
  exists p,
    P = Some p
    /\ Store.SpanInfos (mem D') = <[p := r]> (Store.SpanInfos (mem D))
    /\ Store.SegInfos (mem D') = Store.SegInfos (mem D)
    /\ DbgInfo.SpanInfoById (InputData.Info D')
       = DbgInfo.SpanInfoById (InputData.Info D)
    /\ DbgInfo.SegInfoById (InputData.Info D')
       = DbgInfo.SegInfoById (InputData.Info D).
Proof.
  unfold put_Span, put. intros H. apply bind_Some in H as (l & Hl & H).
  injection H as <-. apply bind_Some in Hl as (p & -> & Hl).
  apply bind_Some in Hl as (r0 & _ & Hl). injection Hl as <-.
  exists p. repeat split.
Qed.

(** Two entries of the by-id collection never share a record. *)
Lemma span_ids_ok_inj (I : DbgInfo.t) (i j p : nat) :
  span_ids_ok I ->
  Items (DbgInfo.SpanInfoById I) !! i = Some (EPtr (Some p)) ->
  Items (DbgInfo.SpanInfoById I) !! j = Some (EPtr (Some p)) ->
  i = j.
Proof.
  intros Hok Hi' Hj.
  destruct (Hok i _ Hi') as [[=]|(p1 & [= <-] & H1)].
  destruct (Hok j _ Hj) as [[=]|(p2 & [= <-] & H2)].
  rewrite H1 in H2. injection H2 as H2. lia.
Qed.

Lemma ProcessSpanInfo_span_inv (D : InputData.t) (k : nat)
  (st st' : InputData.t * Collection) :
  span_ids_ok (InputData.Info D) ->
  ProcessSpanInfo_span k st = Some st' ->
  rebase_inv D k st -> rebase_inv D (S k) st'.
Proof.
  intros Hok H (I1 & I2 & I3 & I4).
  unfold ProcessSpanInfo_span in H. cbv zeta in H.
  apply bind_Some in H as (Sp & HSp & H). apply bind_Some in H as (Sr & HSr & H).
  apply bind_Some in H as (SegId & HSeg & H).
  apply bind_Some in H as (D1 & H1 & H). apply bind_Some in H as (C & _ & H).
  injection H as <-. cbn [fst].
  rewrite I1 in HSp. unfold CollAt in HSp.
  apply bind_Some in HSp as (e & He & HSp).
  unfold get_Span, deref in HSr. apply bind_Some in HSr as (pk & -> & HSr).
  destruct e as [?|pe]; [discriminate HSp|]. cbn in HSp.
  injection HSp as ->.
  destruct (Hok k _ He) as [[=]|(pk' & [= <-] & Hk)].
  unfold span_ids in Hk. rewrite list_lookup_fmap in Hk.
  change (DbgInfo.Mem (InputData.Info D)) with (mem D) in Hk.
  destruct (Store.SpanInfos (mem D) !! pk) as [rk|] eqn:Hrk; [|discriminate Hk].
  pose proof (I4 k pk rk He Hrk) as Hcur.
  destruct (decide (k < k)%nat) as [?|_]; [lia|].
  rewrite HSr in Hcur. injection Hcur as ->.
  assert (exists r',
            Store.SpanInfos (mem D1)
            = <[pk := r']> (Store.SpanInfos (mem (fst st)))
            /\ Store.SegInfos (mem D1) = Store.SegInfos (mem D)
            /\ DbgInfo.SpanInfoById (InputData.Info D1)
               = DbgInfo.SpanInfoById (InputData.Info D)
            /\ DbgInfo.SegInfoById (InputData.Info D1)
               = DbgInfo.SegInfoById (InputData.Info D)
            /\ rebased D rk r') as (r' & E1 & E2 & E3 & E4 & Hreb).
  { rewrite I2 in H1.
    destruct (SegId >=? CollCount _) eqn:Erange.
    - apply put_Span_effect in H1 as (p & [= <-] & P1 & P2 & P3 & P4).
      eexists. split; [exact P1|]. split; [rewrite P2; exact I3|].
      split; [rewrite P3; exact I1|]. split; [rewrite P4; exact I2|].
      split; [reflexivity|]. split; [reflexivity|]. split; [reflexivity|].
      exists SegId. split; [now destruct (SpanInfo.Seg rk); inversion HSeg|].
      rewrite Erange. repeat split.
    - apply bind_Some in H1 as (Sg & HSg & H1).
      apply bind_Some in H1 as (Sgr & HSgr & H1).
      unfold get_Seg, deref in HSgr.
      apply bind_Some in HSgr as (q & -> & HSgr). rewrite I3 in HSgr.
      apply put_Span_effect in H1 as (p & [= <-] & P1 & P2 & P3 & P4).
      eexists. split; [exact P1|]. split; [rewrite P2; exact I3|].
      split; [rewrite P3; exact I1|]. split; [rewrite P4; exact I2|].
      split; [reflexivity|]. split; [reflexivity|]. split; [reflexivity|].
      exists SegId. split; [now destruct (SpanInfo.Seg rk); inversion HSeg|].
      rewrite Erange. exists q, Sgr. repeat split; assumption. }
  split; [exact E3|]. split; [exact E4|]. split; [exact E2|].
  intros j p r Hj Hr. pose proof (I4 j p r Hj Hr) as Hold.
  cbn [fst]. rewrite E1.
  destruct (decide (j = k)) as [->|Hne].
  - rewrite He in Hj. injection Hj as <-. rewrite Hrk in Hr.
    injection Hr as <-.
    destruct (decide (k < S k)%nat) as [_|?]; [|lia].
    exists r'. split; [|exact Hreb].
    apply list_lookup_insert_eq. now apply lookup_lt_Some in HSr.
  - assert (p <> pk) as Hp.
    { intros ->. apply Hne.
      exact (span_ids_ok_inj _ j k pk Hok Hj He). }
    rewrite list_lookup_insert_ne by auto.
    destruct (decide (j < k)%nat), (decide (j < S k)%nat); try lia;
      exact Hold.
Qed.

(** X20. [ProcessSpanInfo], when it returns, has turned every span of the
    by-id collection (each entry pointing to a span with the id of its
    index) from relative to absolute: the segment id is replaced by the
    pointer to the segment, and the start and the end are moved by the
    start of the segment, modulo [2^32]; for a segment id that is out of
    range the segment is null and the addresses stay. Each span is moved
    once, and its id and its lists stay as they are. *)
Theorem X20_spans_rebased (D D' : InputData.t) (i p : nat) (r : SpanInfo.t) :
  span_ids_ok (InputData.Info D) ->
  ProcessSpanInfo D = Some D' ->
  Items (DbgInfo.SpanInfoById (InputData.Info D)) !! i
  = Some (EPtr (Some p)) ->
  Store.SpanInfos (mem D) !! p = Some r ->
  exists r', Store.SpanInfos (mem D') !! p = Some r' /\ rebased D r r'.
Proof.
  intros Hok H Hi' Hr. unfold ProcessSpanInfo in H. cbv zeta in H.
  apply bind_Some in H as (st & Hloop & H).
  apply bind_Some in H as (C & _ & H). apply bind_Some in H as (L & _ & H).
  injection H as <-.
  change (mem (upd_Info (DbgInfo.set_SpanInfoByAddr L) (fst st)))
    with (mem (fst st)).
  pose proof (for_range_inv ProcessSpanInfo_span (rebase_inv D) _ _ _ _ Hloop)
    as Hinv.
  destruct Hinv as (_ & _ & _ & I4).
  - repeat split. intros j q rq _ Hq.
    destruct (decide (j < 0)%nat); [lia|exact Hq].
  - intros j t t' _ Hbody Ht.
    exact (ProcessSpanInfo_span_inv D j t t' Hok Hbody Ht).
  - pose proof (I4 i p r Hi' Hr) as Hfin.
    apply lookup_lt_Some in Hi'. unfold count in Hfin.
    destruct (decide (i < 0 + length _)%nat); [exact Hfin|lia].
Qed.

Lemma X20_spans_rebased_witness :
  exists r',
    Store.SpanInfos
      (mem (default parsed_overlapping_spans
              (ProcessSpanInfo parsed_overlapping_spans))) !! 1%nat
    = Some r'
    /\ rebased parsed_overlapping_spans parsed_span_1 r'.
Proof.
  apply (X20_spans_rebased parsed_overlapping_spans _ 1 1 parsed_span_1).
  - intros i e He.
    destruct i as [|[|i]]; vm_compute in He; try discriminate He;
      injection He as <-; right; eexists; (split; [reflexivity|]);
      vm_compute; reflexivity.
  - vm_compute. reflexivity.
  - vm_compute. reflexivity.
  - vm_compute. reflexivity.
Defined.

(** ** Records with the same id *)









Ltac unfold_stores H :=
  unfold store_FileInfo, store_LibInfo, store_LineInfo, store_ModInfo,
    store_ScopeInfo, store_SegInfo, store_SpanInfo, store_SymInfo,
    NewSegInfo in H; cbv zeta in H.



Lemma ParseInfo_grow_items (k : InfoKey) (kvs : list (InfoKey * Z)) :
  forall I : DbgInfo.t,
    Items (by_id_of k (fold_left ParseInfo_grow kvs I)) = Items (by_id_of k I)
    /\ DbgInfo.Mem (fold_left ParseInfo_grow kvs I) = DbgInfo.Mem I.
Proof.
  induction kvs as [|kv kvs IH]; intros I; [split; reflexivity|].
  cbn [fold_left]. destruct (IH (ParseInfo_grow I kv)) as [-> ->].
  unfold ParseInfo_grow. destruct (fst kv), k; cbn; rewrite ?CollGrow_Items;
    split; reflexivity.
Qed.


Lemma parse_lines_cons (D D' : InputData.t) (l : InputLine)
  (ls : list InputLine) :
  parse_lines D (l :: ls) = Some D' ->
  exists D1, parse_line D l = Some D1 /\ parse_lines D1 ls = Some D'.
Proof.
  unfold parse_lines. cbn [foldl mbind option_bind]. intros H.
  destruct (parse_line D l) as [D1|]; [eauto|].
  now rewrite parse_lines_undefined in H.
Qed.

(** What every line keeps, the lines keep. *)
Lemma parse_lines_inv (P : InputData.t -> Prop) :
  (forall D D' l, P D -> parse_line D l = Some D' -> P D') ->
  forall (ls : list InputLine) (D D' : InputData.t),
    P D -> parse_lines D ls = Some D' -> P D'.
Proof.
  intros Hstep. induction ls as [|l ls IH]; intros D D' HP H.
  - injection H as <-. exact HP.
  - apply parse_lines_cons in H as (D1 & H1 & H).
    exact (IH D1 D' (Hstep D D1 l HP H1) H).
Qed.





(** ** What the passes leave alone *)

Section Frames.
Context {X : Type} (v : DbgInfo.t -> X).

Lemma put_length {A} (store l : list A) (P : option nat) (r : A) :
  put store P r = Some l -> length l = length store.
Proof.
  unfold put. intros H. apply bind_Some in H as (p & -> & H).
  apply bind_Some in H as (r0 & _ & H). injection H as <-.
  apply length_insert.
Qed.

Lemma put_File_ignored (D D' : InputData.t) (P : option nat) (r : FileInfo.t) :
  ignores_FileInfos v ->
  put_File D P r = Some D' -> v (InputData.Info D') = v (InputData.Info D).
Proof.
  intros Hv H. unfold put_File in H. apply bind_Some in H as (l & Hl & H).
  injection H as <-. apply Hv. exact (put_length _ _ _ _ Hl).
Qed.

Lemma put_Line_ignored (D D' : InputData.t) (P : option nat) (r : LineInfo.t) :
  ignores_LineInfos v ->
  put_Line D P r = Some D' -> v (InputData.Info D') = v (InputData.Info D).
Proof.
  intros Hv H. unfold put_Line in H. apply bind_Some in H as (l & Hl & H).
  injection H as <-. apply Hv. exact (put_length _ _ _ _ Hl).
Qed.

Lemma put_Mod_ignored (D D' : InputData.t) (P : option nat) (r : ModInfo.t) :
  ignores_ModInfos v ->
  put_Mod D P r = Some D' -> v (InputData.Info D') = v (InputData.Info D).
Proof.
  intros Hv H. unfold put_Mod in H. apply bind_Some in H as (l & Hl & H).
  injection H as <-. apply Hv. exact (put_length _ _ _ _ Hl).
Qed.

Lemma put_Scope_ignored (D D' : InputData.t) (P : option nat) (r : ScopeInfo.t) :
  ignores_ScopeInfos v ->
  put_Scope D P r = Some D' -> v (InputData.Info D') = v (InputData.Info D).
Proof.
  intros Hv H. unfold put_Scope in H. apply bind_Some in H as (l & Hl & H).
  injection H as <-. apply Hv. exact (put_length _ _ _ _ Hl).
Qed.

Lemma put_Span_ignored (D D' : InputData.t) (P : option nat) (r : SpanInfo.t) :
  ignores_SpanInfos v ->
  put_Span D P r = Some D' -> v (InputData.Info D') = v (InputData.Info D).
Proof.
  intros Hv H. unfold put_Span in H. apply bind_Some in H as (l & Hl & H).
  injection H as <-. apply Hv. exact (put_length _ _ _ _ Hl).
Qed.

Lemma put_Sym_ignored (D D' : InputData.t) (P : option nat) (r : SymInfo.t) :
  ignores_SymInfos v ->
  put_Sym D P r = Some D' -> v (InputData.Info D') = v (InputData.Info D).
Proof.
  intros Hv H. unfold put_Sym in H. apply bind_Some in H as (l & Hl & H).
  injection H as <-. apply Hv. exact (put_length _ _ _ _ Hl).
Qed.

(** One step through a body of the resolver, for a view [v] that ignores
    what the body writes to. *)
Ltac frame_step :=
  match goal with
  | Hv : ignores_FileInfos v, H : put_File _ _ _ = Some _ |- _ =>
      apply (put_File_ignored _ _ _ _ Hv) in H
  | Hv : ignores_LineInfos v, H : put_Line _ _ _ = Some _ |- _ =>
      apply (put_Line_ignored _ _ _ _ Hv) in H
  | Hv : ignores_ModInfos v, H : put_Mod _ _ _ = Some _ |- _ =>
      apply (put_Mod_ignored _ _ _ _ Hv) in H
  | Hv : ignores_ScopeInfos v, H : put_Scope _ _ _ = Some _ |- _ =>
      apply (put_Scope_ignored _ _ _ _ Hv) in H
  | Hv : ignores_SpanInfos v, H : put_Span _ _ _ = Some _ |- _ =>
      apply (put_Span_ignored _ _ _ _ Hv) in H
  | Hv : ignores_SymInfos v, H : put_Sym _ _ _ = Some _ |- _ =>
      apply (put_Sym_ignored _ _ _ _ Hv) in H
  | H : mbind _ _ = Some _ |- _ =>
      apply bind_Some in H as (? & ? & H); cbv beta zeta in H
  | H : (if ?c then _ else _) = Some _ |- _ => destruct c
  | H : match ?x with _ => _ end = Some _ |- _ => destruct x
  | H : Some _ = Some _ |- _ => injection H as <-
  | H : None = Some _ |- _ => discriminate H
  end.

Ltac frame :=
  repeat frame_step; simpl fst in *; simpl snd in *;
  rewrite ?Info_ParseError in *; try congruence; try assumption;
  try reflexivity.

Lemma ProcessFileInfo_ignored (D D' : InputData.t) :
  ignores_FileInfos v -> ignores_ModInfos v ->
  ignores v DbgInfo.set_FileInfoByName ->
  ProcessFileInfo D = Some D' -> v (InputData.Info D') = v (InputData.Info D).
Proof.
  intros HF HM HN.
  assert (forall F J D D', ProcessFileInfo_module F J D = Some D' ->
            v (InputData.Info D') = v (InputData.Info D)) as Hmod.
  { intros F J D1 D2 H. unfold ProcessFileInfo_module in H. frame. }
  assert (forall I D D', ProcessFileInfo_file I D = Some D' ->
            v (InputData.Info D') = v (InputData.Info D)) as Hfile.
  { intros I D1 D2 H. unfold ProcessFileInfo_file in H.
    apply bind_Some in H as (F & _ & H). apply bind_Some in H as (Fr & _ & H).
    apply bind_Some in H as (D3 & H3 & H).
    apply (for_range_kept (fun D => v (InputData.Info D)) _ (Hmod F)) in H3.
    frame. }
  assert (forall I D D', ProcessFileInfo_sort I D = Some D' ->
            v (InputData.Info D') = v (InputData.Info D)) as Hsort.
  { intros I D1 D2 H. unfold ProcessFileInfo_sort in H. frame. }
  unfold ProcessFileInfo. intros H.
  apply bind_Some in H as (D1 & H1 & H). apply bind_Some in H as (D2 & H2 & H).
  apply (for_range_kept (fun D => v (InputData.Info D)) _ Hfile) in H1.
  apply (for_range_kept (fun D => v (InputData.Info D)) _ Hsort) in H2.
  apply bind_Some in H as (C & _ & H). injection H as <-.
  unfold upd_Info. cbn [InputData.Info InputData.set_Info].
  rewrite HN. congruence.
Qed.

Lemma ProcessLineInfo_ignored (D D' : InputData.t) :
  ignores_FileInfos v -> ignores_LineInfos v ->
  ProcessLineInfo D = Some D' -> v (InputData.Info D') = v (InputData.Info D).
Proof.
  intros HF HL.
  assert (forall fuel I D D', ProcessLineInfo_loop fuel I D = Some D' ->
            v (InputData.Info D') = v (InputData.Info D)) as Hloop.
  { induction fuel as [|fuel IH]; intros I D1 D2 H;
      cbn [ProcessLineInfo_loop] in H; cbv zeta in H;
      destruct (I <? count (DbgInfo.LineInfoById (InputData.Info D1)))%nat;
      try discriminate H; try (injection H as <-; reflexivity).
    apply bind_Some in H as (L & _ & H). apply bind_Some in H as (Lr & _ & H).
    apply bind_Some in H as (FileId & _ & H).
    apply bind_Some in H as (D3 & H3 & H).
    apply IH in H. rewrite H. clear H. frame. }
  assert (forall I D D', ProcessLineInfo_sort I D = Some D' ->
            v (InputData.Info D') = v (InputData.Info D)) as Hsort.
  { intros I D1 D2 H. unfold ProcessLineInfo_sort in H. frame. }
  unfold ProcessLineInfo. intros H.
  apply bind_Some in H as (D1 & H1 & H). apply Hloop in H1.
  apply (for_range_kept (fun D => v (InputData.Info D)) _ Hsort) in H.
  congruence.
Qed.

Lemma ProcessModInfo_ignored (D D' : InputData.t) :
  ignores_ModInfos v -> ignores v DbgInfo.set_ModInfoByName ->
  ProcessModInfo D = Some D' -> v (InputData.Info D') = v (InputData.Info D).
Proof.
  intros HM HN.
  assert (forall I D D', ProcessModInfo_module I D = Some D' ->
            v (InputData.Info D') = v (InputData.Info D)) as Hmod.
  { intros I D1 D2 H. unfold ProcessModInfo_module in H. cbv zeta in H.
    frame. }
  unfold ProcessModInfo. intros H.
  apply bind_Some in H as (D1 & H1 & H).
  apply (for_range_kept (fun D => v (InputData.Info D)) _ Hmod) in H1.
  apply bind_Some in H as (C & _ & H). injection H as <-.
  unfold upd_Info. cbn [InputData.Info InputData.set_Info].
  rewrite HN. congruence.
Qed.

Lemma ProcessScopeInfo_ignored (D D' : InputData.t) :
  ignores_ScopeInfos v -> ignores_ModInfos v -> ignores_SpanInfos v ->
  ProcessScopeInfo D = Some D' -> v (InputData.Info D') = v (InputData.Info D).
Proof.
  intros HSc HM HSp.
  assert (forall Sc J D D', ProcessScopeInfo_span Sc J D = Some D' ->
            v (InputData.Info D') = v (InputData.Info D)) as Hspan.
  { intros Sc J D1 D2 H. unfold ProcessScopeInfo_span in H. frame. }
  assert (forall I D D', ProcessScopeInfo_scope I D = Some D' ->
            v (InputData.Info D') = v (InputData.Info D)) as Hscope.
  { intros I D1 D2 H. unfold ProcessScopeInfo_scope in H.
    repeat match goal with
    | H : for_range _ _ _ _ = Some _ |- _ =>
        apply (for_range_kept (fun D => v (InputData.Info D)) _ (Hspan _)) in H
    | _ => frame_step
    end.
    all: simpl fst in *; simpl snd in *; rewrite ?Info_ParseError in *;
      congruence. }
  assert (forall I D D', ProcessScopeInfo_module I D = Some D' ->
            v (InputData.Info D') = v (InputData.Info D)) as Hmod.
  { intros I D1 D2 H. unfold ProcessScopeInfo_module in H. cbv zeta in H.
    apply bind_Some in H as (M & _ & H). apply bind_Some in H as (Mr & _ & H).
    apply bind_Some in H as (C & _ & H).
    apply (put_Mod_ignored _ _ _ _ HM) in H. rewrite H.
    destruct (ModInfo.MainScope Mr); [reflexivity|apply f_equal, Info_ParseError]. }
  unfold ProcessScopeInfo. intros H.
  apply bind_Some in H as (D1 & H1 & H).
  apply (for_range_kept (fun D => v (InputData.Info D)) _ Hscope) in H1.
  apply (for_range_kept (fun D => v (InputData.Info D)) _ Hmod) in H.
  congruence.
Qed.

Lemma ProcessSegInfo_ignored (D D' : InputData.t) :
  ignores v DbgInfo.set_SegInfoByName ->
  ProcessSegInfo D = Some D' -> v (InputData.Info D') = v (InputData.Info D).
Proof.
  intros HN. unfold ProcessSegInfo. intros H.
  apply bind_Some in H as (C & _ & H). injection H as <-. apply HN.
Qed.

Lemma ProcessSpanInfo_ignored (D D' : InputData.t) :
  ignores_SpanInfos v -> ignores v DbgInfo.set_SpanInfoByAddr ->
  ProcessSpanInfo D = Some D' -> v (InputData.Info D') = v (InputData.Info D).
Proof.
  intros HSp HT.
  assert (forall I st st', ProcessSpanInfo_span I st = Some st' ->
            v (InputData.Info (fst st')) = v (InputData.Info (fst st)))
    as Hspan.
  { intros I st st' H. unfold ProcessSpanInfo_span in H. cbv zeta in H.
    frame. }
  unfold ProcessSpanInfo. cbv zeta. intros H.
  apply bind_Some in H as (st & H1 & H).
  apply (for_range_kept (fun st => v (InputData.Info (fst st))) _ Hspan) in H1.
  apply bind_Some in H as (C & _ & H). apply bind_Some in H as (L & _ & H).
  injection H as <-. cbn [fst] in H1.
  unfold upd_Info. cbn [InputData.Info InputData.set_Info].
  rewrite HT. exact H1.
Qed.

Lemma ProcessSymInfo_ignored (D D' : InputData.t) :
  ignores_SymInfos v -> ignores v DbgInfo.set_SymInfoByName ->
  ignores v DbgInfo.set_SymInfoByVal ->
  ProcessSymInfo D = Some D' -> v (InputData.Info D') = v (InputData.Info D).
Proof.
  intros HSy HN HV.
  assert (forall I D D', ProcessSymInfo_resolve I D = Some D' ->
            v (InputData.Info D') = v (InputData.Info D)) as Hres.
  { intros I D1 D2 H. unfold ProcessSymInfo_resolve, resolve_ref in H.
    cbv zeta in H. frame. }
  assert (forall I D D', ProcessSymInfo_inherit I D = Some D' ->
            v (InputData.Info D') = v (InputData.Info D)) as Hinh.
  { intros I D1 D2 H. unfold ProcessSymInfo_inherit in H. frame. }
  unfold ProcessSymInfo. cbv zeta. intros H.
  apply bind_Some in H as (D1 & H1 & H). apply bind_Some in H as (D2 & H2 & H).
  apply (for_range_kept (fun D => v (InputData.Info D)) _ Hres) in H1.
  apply (for_range_kept (fun D => v (InputData.Info D)) _ Hinh) in H2.
  apply bind_Some in H as (ByName & _ & H).
  apply bind_Some in H as (ByVal & _ & H). injection H as <-.
  unfold upd_Info. cbn [InputData.Info InputData.set_Info].
  rewrite HV, HN. congruence.
Qed.
End Frames.

(** ** The database that a load returns *)

Lemma cc65_read_dbginfo_parsed (lines : list InputLine)
  (r : list cc65_parseerror * option DbgInfo.t) :
  cc65_read_dbginfo lines = Some r ->
  exists (Dv D0 : InputData.t) (rest : list InputLine),
    InputData.Info Dv = NewDbgInfo
    /\ parse_lines Dv rest = Some D0
    /\ CloseAndExit D0 = Some r.
Proof.
  unfold cc65_read_dbginfo. cbv zeta.
  assert (forall msg,
            CloseAndExit (ParseError InputData_init CC65_ERROR msg) = Some r ->
            exists (Dv D0 : InputData.t) (rest : list InputLine),
              InputData.Info Dv = NewDbgInfo
              /\ parse_lines Dv rest = Some D0
              /\ CloseAndExit D0 = Some r) as Hnone.
  { intros msg H. eexists _, _, []. split; [|split; [reflexivity|exact H]].
    reflexivity. }
  destruct lines as [|l rest]; [apply Hnone|].
  destruct l; try apply Hnone.
  set (Dv := ParseVersion InputData_init Unknown a syntax_error).
  assert (InputData.Info Dv = NewDbgInfo) as Hv
    by (subst Dv; now rewrite Info_ParseVersion).
  clearbody Dv.
  destruct (InputData.MajorVersion Dv <? VER_MAJOR).
  { intros H. eexists _, _, []. split; [|split; [reflexivity|exact H]].
    now rewrite Info_ParseError. }
  intros H. apply bind_Some in H as (D0 & H0 & H).
  eexists _, D0, rest. split; [|split; [exact H0|exact H]].
  destruct (_ && _); [now rewrite Info_ParseError|].
  destruct (_ >? _); [now rewrite Info_ParseError|exact Hv].
Qed.

Lemma CloseAndExit_passes (D0 : InputData.t) (errs : list cc65_parseerror)
  (h : DbgInfo.t) :
  CloseAndExit D0 = Some (errs, Some h) ->
  exists D1 D2 D3 D4 D5 D6 D7 : InputData.t,
    ProcessFileInfo D0 = Some D1 /\ ProcessLineInfo D1 = Some D2
    /\ ProcessModInfo D2 = Some D3 /\ ProcessScopeInfo D3 = Some D4
    /\ ProcessSegInfo D4 = Some D5 /\ ProcessSpanInfo D5 = Some D6
    /\ ProcessSymInfo D6 = Some D7 /\ h = InputData.Info D7.
Proof.
  unfold CloseAndExit.
  destruct (InputData.Errors D0 >? 0); [discriminate|]. intros H.
  apply bind_Some in H as (D1 & H1 & H). apply bind_Some in H as (D2 & H2 & H).
  apply bind_Some in H as (D3 & H3 & H). apply bind_Some in H as (D4 & H4 & H).
  apply bind_Some in H as (D5 & H5 & H). apply bind_Some in H as (D6 & H6 & H).
  apply bind_Some in H as (D7 & H7 & H). injection H as _ <-.
  exists D1, D2, D3, D4, D5, D6, D7. auto 10.
Qed.

Lemma CollAppend_Items (C C' : Collection) (Item : option nat) :
  CollAppend C Item = Some C' -> Items C' = Items C ++ [EPtr Item].
Proof.
  unfold CollAppend. intros H. apply bind_Some in H as (C0 & H0 & H).
  injection H as <-. cbn [Items]. unfold CollPrepareAppend in H0.
  destruct (CollCount _ <? Size _) in H0; [|discriminate H0].
  injection H0 as <-. destruct (CollCount C >=? Size C); [|reflexivity].
  now rewrite CollGrow_Items.
Qed.

(** The spans that a resolved segment leaves behind: null for a segment id
    out of range, a segment record otherwise. *)
Lemma rebased_segment (D : InputData.t) (r r' : SpanInfo.t) :
  rebased D r r' ->
  SpanInfo.Seg r' = ENull
  \/ exists q, SpanInfo.Seg r' = EPtr (Some q)
               /\ is_Some (Store.SegInfos (mem D) !! q).
Proof.
  intros (_ & _ & _ & s & _ & H). destruct (s >=? _).
  - left. apply H.
  - right. destruct H as (q & g & _ & Hg & HS & _). eauto.
Qed.

Lemma ProcessSpanInfo_table (D D' : InputData.t) :
  span_ids_ok (InputData.Info D) ->
  ProcessSpanInfo D = Some D' ->
  exists (spans : list (nat * SpanInfo.t)) (C0 C' : Collection),
    fetch_spans (mem D') (DbgInfo.SpanInfoById (InputData.Info D'))
    = Some spans
    /\ Forall (fun Sp =>
                 SpanInfo.Seg (snd Sp) = ENull
                 \/ exists q, SpanInfo.Seg (snd Sp) = EPtr (Some q)
                              /\ is_Some (Store.SegInfos (mem D') !! q))
         spans
    /\ Items C0 = Items (DbgInfo.SpanInfoById (InputData.Info D'))
    /\ CollSort (CompareSpanInfoByAddr (mem D')) C0 = Some C'
    /\ CreateSpanInfoList (mem D') C'
       = Some (DbgInfo.SpanInfoByAddr (InputData.Info D')).
Proof.
  intros Hok H. unfold ProcessSpanInfo in H. cbv zeta in H.
  apply bind_Some in H as (st & Hloop & H).
  apply bind_Some in H as (C' & HSort & H). apply bind_Some in H as (L & HL & H).
  injection H as <-.
  set (ById := DbgInfo.SpanInfoById (InputData.Info D)) in *.
  pose proof (for_range_inv ProcessSpanInfo_span
                (fun k st =>
                   rebase_inv D k st
                   /\ Items (snd st) = take k (Items ById)
                   /\ forall j e, (j < k)%nat -> Items ById !! j = Some e ->
                        exists p r, e = EPtr (Some p)
                                    /\ Store.SpanInfos (mem D) !! p = Some r)
                _ _ _ _ Hloop) as Hinv.
  destruct Hinv as ((I1 & I2 & I3 & I4) & HItems & Hvalid).
  - split; [|split].
    + repeat split. intros j q rq _ Hq.
      destruct (decide (j < 0)%nat); [lia|exact Hq].
    + cbn [snd]. now rewrite CollGrow_Items.
    + intros j e Hj. lia.
  - intros j t t' Hj Hbody (Hreb & HIt & Hval).
    split; [exact (ProcessSpanInfo_span_inv D j t t' Hok Hbody Hreb)|].
    destruct Hreb as (J1 & J2 & J3 & J4).
    unfold ProcessSpanInfo_span in Hbody. cbv zeta in Hbody.
    apply bind_Some in Hbody as (Sp & HSp & Hbody).
    apply bind_Some in Hbody as (Sr & HSr & Hbody).
    apply bind_Some in Hbody as (SegId & _ & Hbody).
    apply bind_Some in Hbody as (D1 & _ & Hbody).
    apply bind_Some in Hbody as (C & HC & Hbody). injection Hbody as <-.
    cbn [snd]. rewrite J1 in HSp. fold ById in HSp.
    unfold CollAt in HSp. apply bind_Some in HSp as (e & He & HSp).
    destruct e as [?|pe]; [discriminate HSp|]. cbn in HSp. injection HSp as ->.
    unfold get_Span, deref in HSr. apply bind_Some in HSr as (pk & -> & HSr).
    split.
    + rewrite (CollAppend_Items _ _ _ HC), HIt.
      now rewrite (take_S_r _ _ _ He).
    + intros i e Hi Hie. destruct (decide (i = j)) as [->|Hne].
      * rewrite He in Hie. injection Hie as <-.
        destruct (Hok j _ He) as [[=]|(p & [= <-] & Hp)].
        unfold span_ids in Hp. rewrite list_lookup_fmap in Hp.
        change (DbgInfo.Mem (InputData.Info D)) with (mem D) in Hp.
        destruct (Store.SpanInfos (mem D) !! pk) as [r|] eqn:Hr;
          [eauto|discriminate].
      * apply (Hval i e); [lia|exact Hie].
  - change (mem (upd_Info (DbgInfo.set_SpanInfoByAddr L) (fst st)))
      with (mem (fst st)) in *.
    change (DbgInfo.SpanInfoById
              (InputData.Info (upd_Info (DbgInfo.set_SpanInfoByAddr L) (fst st))))
      with (DbgInfo.SpanInfoById (InputData.Info (fst st))).
    change (DbgInfo.SpanInfoByAddr
              (InputData.Info (upd_Info (DbgInfo.set_SpanInfoByAddr L) (fst st))))
      with L.
    rewrite I1. fold ById. rewrite Nat.add_0_l in *.
    unfold count in HItems, Hvalid, I4. fold ById in HItems, Hvalid, I4.
    rewrite firstn_all in HItems.
    assert (forall j e, Items ById !! j = Some e ->
              exists p r r',
                e = EPtr (Some p)
                /\ Store.SpanInfos (mem D) !! p = Some r
                /\ Store.SpanInfos (mem (fst st)) !! p = Some r'
                /\ rebased D r r') as Hall.
    { intros j e He. pose proof (lookup_lt_Some _ _ _ He) as Hj.
      destruct (Hvalid j e Hj He) as (p & r & -> & Hr).
      pose proof (I4 j p r He Hr) as Hcur.
      destruct (decide (j < length (Items ById))%nat); [|lia].
      destruct Hcur as (r' & Hr' & Hreb). eauto 10. }
    assert (is_Some (fetch_spans (mem (fst st)) ById)) as [spans Hf].
    { unfold fetch_spans. apply mapM_is_Some, Forall_forall. intros e He.
      apply list_elem_of_lookup_1 in He as [j He].
      destruct (Hall j e He) as (p & r & r' & -> & _ & Hr' & _).
      cbn. rewrite Hr'. cbn. eauto. }
    exists spans, (snd st), C'. split; [exact Hf|]. split; [|auto].
    apply Forall_forall. intros Sp HSp.
    apply list_elem_of_lookup_1 in HSp as [j HSp].
    pose proof (fetch_records_Forall2 _ _ _ Hf) as HF.
    destruct (Forall2_lookup_r _ _ _ _ _ HF HSp) as (e & He & Hp & Hs).
    destruct (Hall j e He) as (p & r & r' & -> & _ & Hr' & Hreb).
    cbn in Hp. injection Hp as ->. rewrite Hr' in Hs. injection Hs as <-.
    rewrite I3. exact (rebased_segment D r r' Hreb).
Qed.

Lemma distinct_addresses_Permutation (spans spans' : list (nat * SpanInfo.t)) :
  spans ≡ₚ spans' -> distinct_addresses spans ≡ₚ distinct_addresses spans'.
Proof.
  intros Hp. unfold distinct_addresses.
  apply NoDup_Permutation; try apply NoDup_remove_dups.
  intros a. rewrite !elem_of_remove_dups, !list_elem_of_bind.
  split; intros (Sp & Ha & HSp); exists Sp; split; auto.
  - now rewrite <- Hp.
  - now rewrite Hp.
Qed.

Lemma fetch_spans_Items (m : Store.t) (C C' : Collection) :
  Items C = Items C' -> fetch_spans m C = fetch_spans m C'.
Proof. unfold fetch_spans. now intros ->. Qed.

(** [ProcessSpanInfo] leaves the table of the spans in the order by
    (start, end). *)
Lemma ProcessSpanInfo_sorted (D D' : InputData.t) :
  span_ids_ok (InputData.Info D) ->
  ProcessSpanInfo D = Some D' ->
  exists spans : list (nat * SpanInfo.t),
    fetch_spans (mem D') (DbgInfo.SpanInfoById (InputData.Info D'))
    = Some spans
    /\ Forall (fun Sp =>
                 SpanInfo.Seg (snd Sp) = ENull
                 \/ exists q, SpanInfo.Seg (snd Sp) = EPtr (Some q)
                              /\ is_Some (Store.SegInfos (mem D') !! q))
         spans
    /\ (Z.of_nat (length spans) <= 1073741824 ->
        exists sorted : list (nat * SpanInfo.t),
          sorted ≡ₚ spans /\ sorted_spans sorted
          /\ (Forall span_ok spans -> Forall span_ends_early spans ->
              Z.of_nat (length (distinct_addresses spans)) < UINT_MOD ->
              DbgInfo.SpanInfoByAddr (InputData.Info D')
              = span_table sorted)).
Proof.
  intros Hok H.
  destruct (ProcessSpanInfo_table D D' Hok H)
    as (spans & C0 & C' & Hf & Hseg & HC0 & HSort & HL).
  exists spans. split; [exact Hf|]. split; [exact Hseg|]. intros Hn.
  rewrite <- (fetch_spans_Items _ C0 _ HC0) in Hf.
  destruct (CollSort_records (Store.SpanInfos (mem D')) any_record span_rec_le
              (CompareSpanInfoByAddr (mem D')) C0 spans
              (CompareSpanInfoByAddr_compares (mem D')) Hf)
    as (C'' & sorted & HSort' & _ & _ & Hf' & Hperm & Hsorted).
  { apply Forall_forall. intros r _. exact I. }
  { rewrite (fetch_records_length _ _ _ Hf). exact Hn. }
  rewrite HSort in HSort'. injection HSort' as <-.
  exists sorted. split; [exact Hperm|].
  assert (sorted_spans sorted) as Hs by (apply StronglySorted_Sorted, Hsorted).
  split; [exact Hs|]. intros Hspan Hearly Hd.
  assert (Forall span_ok sorted) as Hspan' by (now rewrite Hperm).
  assert (Forall span_ends_early sorted) as Hearly' by (now rewrite Hperm).
  rewrite (CreateSpanInfoList_spec (mem D') C' sorted Hf' Hs Hspan' Hearly') in HL.
  - now injection HL as <-.
  - rewrite (Permutation_length Hperm). unfold UINT_MOD. lia.
  - rewrite length_table_addresses by assumption.
    now rewrite (Permutation_length (distinct_addresses_Permutation _ _ Hperm)).
Qed.

Lemma span_tables_ignored :
  ignores_SymInfos span_tables
  /\ ignores span_tables DbgInfo.set_SymInfoByName
  /\ ignores span_tables DbgInfo.set_SymInfoByVal.
Proof. repeat split. Qed.

Lemma span_ids_ok_resolved (D0 D1 D2 D3 D4 D5 : InputData.t) :
  span_ids_ok (InputData.Info D0) ->
  ProcessFileInfo D0 = Some D1 -> ProcessLineInfo D1 = Some D2 ->
  ProcessModInfo D2 = Some D3 -> ProcessScopeInfo D3 = Some D4 ->
  ProcessSegInfo D4 = Some D5 ->
  span_ids_ok (InputData.Info D5).
Proof.
  intros Hok H1 H2 H3 H4 H5.
  apply (span_ids_ok_view D4);
    [apply spans_view_kept;
     [now apply ProcessSegInfo_by_id|now apply ProcessSegInfo_ids]|].
  apply (span_ids_ok_view D3);
    [apply spans_view_kept;
     [now apply ProcessScopeInfo_by_id|now apply ProcessScopeInfo_ids]|].
  apply (span_ids_ok_view D2);
    [apply spans_view_kept;
     [now apply ProcessModInfo_by_id|now apply ProcessModInfo_ids]|].
  apply (span_ids_ok_view D1);
    [apply spans_view_kept;
     [now apply ProcessLineInfo_by_id|now apply ProcessLineInfo_ids]|].
  apply (span_ids_ok_view D0);
    [apply spans_view_kept;
     [now apply ProcessFileInfo_by_id|now apply ProcessFileInfo_ids]|].
  exact Hok.
Qed.

(** The spans and the table of a database that a load returns. *)
Lemma loaded_span_table (lines : list InputLine)
  (errs : list cc65_parseerror) (h : DbgInfo.t) :
  cc65_read_dbginfo lines = Some (errs, Some h) ->
  exists spans : list (nat * SpanInfo.t),
    fetch_spans (DbgInfo.Mem h) (DbgInfo.SpanInfoById h) = Some spans
    /\ Forall (fun Sp =>
                 SpanInfo.Seg (snd Sp) = ENull
                 \/ exists q, SpanInfo.Seg (snd Sp) = EPtr (Some q)
                              /\ is_Some (Store.SegInfos (DbgInfo.Mem h) !! q))
         spans
    /\ (Z.of_nat (length spans) <= 1073741824 ->
        exists sorted : list (nat * SpanInfo.t),
          sorted ≡ₚ spans /\ sorted_spans sorted
          /\ (Forall span_ok spans -> Forall span_ends_early spans ->
              Z.of_nat (length (distinct_addresses spans)) < UINT_MOD ->
              DbgInfo.SpanInfoByAddr h = span_table sorted)).
Proof.
  intros H. apply cc65_read_dbginfo_parsed in H as (Dv & D0 & rest & Hv & Hp & H).
  apply CloseAndExit_passes in H
    as (D1 & D2 & D3 & D4 & D5 & D6 & D7 & H1 & H2 & H3 & H4 & H5 & H6 & H7 & ->).
  assert (span_ids_ok (InputData.Info D0)) as Hok0.
  { apply (parse_lines_ok rest Dv D0); [|exact Hp]. rewrite Hv.
    exact NewDbgInfo_ok. }
  pose proof (span_ids_ok_resolved _ _ _ _ _ _ Hok0 H1 H2 H3 H4 H5) as Hok5.
  destruct span_tables_ignored as (G1 & G2 & G3).
  pose proof (ProcessSymInfo_ignored span_tables D6 D7 G1 G2 G3 H7) as Hview.
  unfold span_tables in Hview. injection Hview as -> -> E3 E4.
  unfold fetch_spans. rewrite E3, E4.
  exact (ProcessSpanInfo_sorted D5 D6 Hok5 H6).
Qed.

Lemma CopySpanInfo_data (m : Store.t) (p q : nat) (r : SpanInfo.t)
  (g : SegInfo.t) :
  Store.SpanInfos m !! p = Some r ->
  SpanInfo.Seg r = EPtr (Some q) ->
  Store.SegInfos m !! q = Some g ->
  CopySpanInfo m (Some p)
  = Some (mk_spandata (SpanInfo.Id r) (SpanInfo.Start r) (SpanInfo.End_ r)
            (SegInfo.Id g)).
Proof.
  intros Hr HS Hg. unfold CopySpanInfo, deref. cbn [mbind option_bind].
  rewrite Hr. cbn [mbind option_bind]. rewrite HS. cbn [entry_ptr mbind option_bind].
  rewrite Hg. reflexivity.
Qed.

(** The copy of a span of the database that has a segment. *)
Lemma loaded_span_copy (m : Store.t) (C : Collection)
  (spans : list (nat * SpanInfo.t)) (Sp : nat * SpanInfo.t) :
  fetch_spans m C = Some spans ->
  Forall (fun Sp =>
            SpanInfo.Seg (snd Sp) = ENull
            \/ exists q, SpanInfo.Seg (snd Sp) = EPtr (Some q)
                         /\ is_Some (Store.SegInfos m !! q)) spans ->
  Forall has_segment spans ->
  Sp ∈ spans ->
  exists d, CopySpanInfo m (Some (fst Sp)) = Some d /\ span_data_of m Sp d.
Proof.
  intros Hf Hseg Hhas HSp.
  rewrite Forall_forall in Hseg, Hhas.
  destruct (Hseg Sp HSp) as [Hnull|(q & Hq & [g Hg])];
    [now apply (Hhas Sp HSp) in Hnull|].
  apply list_elem_of_lookup_1 in HSp as [j Hj].
  pose proof (fetch_records_Forall2 _ _ _ Hf) as HF.
  destruct (Forall2_lookup_r _ _ _ _ _ HF Hj) as (e & _ & _ & Hr).
  eexists. split; [exact (CopySpanInfo_data m _ q _ g Hr Hq Hg)|].
  repeat split. exists q, g. auto.
Qed.

Lemma copies_data (m : Store.t) (C : Collection)
  (spans l : list (nat * SpanInfo.t)) :
  fetch_spans m C = Some spans ->
  Forall (fun Sp =>
            SpanInfo.Seg (snd Sp) = ENull
            \/ exists q, SpanInfo.Seg (snd Sp) = EPtr (Some q)
                         /\ is_Some (Store.SegInfos m !! q)) spans ->
  Forall has_segment spans ->
  l ⊆ spans ->
  Forall2 (span_data_of m) l (copies m (fst <$> l)).
Proof.
  intros Hf Hseg Hhas. induction l as [|Sp l IH]; intros Hsub;
    [constructor|].
  destruct (loaded_span_copy m C spans Sp Hf Hseg Hhas) as (d & Hd & Hdata).
  { apply Hsub. now left. }
  unfold copies. cbn [fmap list_fmap omap list_omap]. rewrite Hd.
  constructor; [exact Hdata|]. apply IH. intros x Hx. apply Hsub. now right.
Qed.

(** The answer to a query by address on a loaded database, in terms of
    the spans in the order of the table. *)
Lemma loaded_spans_query (lines : list InputLine)
  (errs : list cc65_parseerror) (h : DbgInfo.t) :
  cc65_read_dbginfo lines = Some (errs, Some h) ->
  exists spans : list (nat * SpanInfo.t),
    fetch_spans (DbgInfo.Mem h) (DbgInfo.SpanInfoById h) = Some spans
    /\ (Forall span_ok spans -> Forall span_ends_early spans ->
        Forall has_segment spans ->
        Z.of_nat (length spans) <= 1073741824 ->
        Z.of_nat (length (distinct_addresses spans)) <= 1073741824 ->
        exists sorted : list (nat * SpanInfo.t),
          sorted ≡ₚ spans /\ sorted_spans sorted
          /\ forall a, 0 <= a <= UINT_MAX ->
               exists ds,
                 Forall2 (span_data_of (DbgInfo.Mem h))
                   (List.filter (fun Sp => covers Sp a) sorted) ds
                 /\ cc65_spaninfo_byaddr h a
                    = Some (match ds with [] => None | _ => Some ds end)).
Proof.
  intros H. destruct (loaded_span_table lines errs h H)
    as (spans & Hf & Hseg & Htable).
  exists spans. split; [exact Hf|].
  intros Hok Hearly Hhas Hn Hd.
  destruct (Htable Hn) as (sorted & Hperm & Hsorted & HT).
  exists sorted. split; [exact Hperm|]. split; [exact Hsorted|].
  intros a Ha.
  assert (Forall span_ok sorted) as Hok' by (now rewrite Hperm).
  assert (forall l, l ⊆ sorted ->
            Forall2 (span_data_of (DbgInfo.Mem h)) l
              (copies (DbgInfo.Mem h) (fst <$> l))) as Hdata.
  { intros l Hl. apply (copies_data _ _ spans l Hf Hseg Hhas).
    intros x Hx. rewrite <- Hperm. now apply Hl. }
  rewrite (cc65_spaninfo_byaddr_table h sorted a); try assumption.
  - unfold covering.
    pose proof (Hdata (List.filter (fun Sp => covers Sp a) sorted)) as HD.
    destruct (List.filter (fun Sp => covers Sp a) sorted) as [|Sp l] eqn:E.
    + exists []. split; [constructor|reflexivity].
    + eexists. split.
      * apply HD. intros x Hx. rewrite <- E in Hx.
        apply list_elem_of_In, List.filter_In in Hx as [Hx _].
        now apply list_elem_of_In.
      * unfold copies. cbn [fmap list_fmap omap list_omap].
        destruct (loaded_span_copy _ _ spans Sp Hf Hseg Hhas) as (d & -> & _);
          [|reflexivity].
        rewrite <- Hperm. assert (Sp ∈ Sp :: l) as Hin by left.
        rewrite <- E in Hin.
        apply list_elem_of_In, List.filter_In in Hin as [Hin _].
        now apply list_elem_of_In.
  - apply HT; try assumption. unfold UINT_MOD. lia.
  - rewrite length_table_addresses by assumption.
    now rewrite (Permutation_length (distinct_addresses_Permutation _ _ Hperm)).
  - apply Forall_forall. intros Sp HSp. rewrite Hperm in HSp.
    destruct (loaded_span_copy _ _ spans Sp Hf Hseg Hhas HSp) as (d & Hd' & _).
    now exists d.
Qed.

(** C2, as stated, fails on [input_wrapped_span], which loads without a
    diagnostic: the end of the second span wraps around, step 1 of
    [CreateSpanInfoList] counts 37 addresses, the walks enter only the five
    addresses of the first span, and the binary search for the address 7,
    which the first span covers, reads an entry that was never written: the
    run is undefined. *)
Lemma C2_wrapped_span_not_found :
  exists h,
    cc65_read_dbginfo input_wrapped_span = Some ([], Some h)
    /\ fetch_spans (DbgInfo.Mem h) (DbgInfo.SpanInfoById h)
       = Some wrapped_spans
    /\ (exists Sp, Sp ∈ wrapped_spans /\ covers Sp 7 = true)
    /\ SpanInfoList.Count (DbgInfo.SpanInfoByAddr h) = 37
    /\ cc65_spaninfo_byaddr h 7 = None.
Proof.
  eexists. split; [vm_compute; reflexivity|].
  split; [vm_compute; reflexivity|].
  split; [eexists; split; [left|reflexivity]|].
  split; vm_compute; reflexivity.
Qed.

(** C2, amended. Let [cc65_read_dbginfo] return a database, and let
    [spans] be its spans, as the by-id collection holds them after the
    rebasing. If every span has [0 <= start <= end + 1] (its end did not
    wrap around), an end below the largest [unsigned] and a segment, and
    there are at most [2^30] spans on at most [2^30] distinct addresses,
    then for every address [a]: for every span that covers [a],
    [cc65_spaninfo_byaddr] returns a result that contains the data of that
    span (its id, start, end and the id of its segment); and when no span
    covers [a], it returns null. *)
Theorem C2_spans_by_address (lines : list InputLine)
  (errs : list cc65_parseerror) (h : DbgInfo.t) :
  cc65_read_dbginfo lines = Some (errs, Some h) ->
  exists spans : list (nat * SpanInfo.t),
    fetch_spans (DbgInfo.Mem h) (DbgInfo.SpanInfoById h) = Some spans
    /\ (Forall span_ok spans -> Forall span_ends_early spans ->
        Forall has_segment spans ->
        Z.of_nat (length spans) <= 1073741824 ->
        Z.of_nat (length (distinct_addresses spans)) <= 1073741824 ->
        forall a, 0 <= a <= UINT_MAX ->
          (forall Sp, Sp ∈ spans -> covers Sp a = true ->
             exists ds d,
               cc65_spaninfo_byaddr h a = Some (Some ds)
               /\ d ∈ ds /\ span_data_of (DbgInfo.Mem h) Sp d)
          /\ ((forall Sp, Sp ∈ spans -> covers Sp a = false) ->
              cc65_spaninfo_byaddr h a = Some None)).
Proof.
  intros H. destruct (loaded_spans_query lines errs h H) as (spans & Hf & HQ).
  exists spans. split; [exact Hf|].
  intros Hok Hearly Hhas Hn Hd a Ha.
  destruct (HQ Hok Hearly Hhas Hn Hd) as (sorted & Hperm & _ & Hquery).
  destruct (Hquery a Ha) as (ds & Hdata & ->). split.
  - intros Sp HSp Hc.
    assert (Sp ∈ List.filter (fun Sp => covers Sp a) sorted) as Hin.
    { apply list_elem_of_In, List.filter_In. split; [|exact Hc].
      apply list_elem_of_In. now rewrite Hperm. }
    apply list_elem_of_lookup_1 in Hin as [i Hi].
    destruct (Forall2_lookup_l _ _ _ _ _ Hdata Hi) as (d & Hd' & HSpd).
    exists ds, d. split; [|split; [eapply list_elem_of_lookup_2, Hd'|exact HSpd]].
    destruct ds; [discriminate Hd'|reflexivity].
  - intros Hnone.
    assert (List.filter (fun Sp => covers Sp a) sorted = []) as E.
    { assert (covering sorted a = []) as Hnil.
      { apply covering_nil. intros Sp HSp. apply Hnone. now rewrite <- Hperm. }
      unfold covering in Hnil. now apply fmap_nil_inv in Hnil. }
    rewrite E in Hdata. now apply Forall2_nil_inv_l in Hdata as ->.
Qed.

Lemma C2_spans_by_address_witness :
  exists spans : list (nat * SpanInfo.t),
    fetch_spans (DbgInfo.Mem (loaded input_overlapping_spans))
      (DbgInfo.SpanInfoById (loaded input_overlapping_spans)) = Some spans
    /\ (forall Sp, Sp ∈ spans -> covers Sp 32770 = true ->
          exists ds d,
            cc65_spaninfo_byaddr (loaded input_overlapping_spans) 32770
            = Some (Some ds)
            /\ d ∈ ds
            /\ span_data_of (DbgInfo.Mem (loaded input_overlapping_spans))
                 Sp d)
    /\ ((forall Sp, Sp ∈ spans -> covers Sp 32774 = false) ->
        cc65_spaninfo_byaddr (loaded input_overlapping_spans) 32774
        = Some None).
Proof.
  assert (cc65_read_dbginfo input_overlapping_spans
          = Some ([], Some (loaded input_overlapping_spans))) as Hload
    by (vm_compute; reflexivity).
  destruct (C2_spans_by_address input_overlapping_spans []
              (loaded input_overlapping_spans) Hload)
    as (spans & Hf & H).
  exists spans. split; [exact Hf|].
  vm_compute in Hf. injection Hf as <-.
  assert (Forall has_segment overlapping_spans) as Hseg.
  { repeat (apply Forall_cons; split; [intros E; discriminate E|]).
    now apply Forall_nil. }
  assert (Z.of_nat (length overlapping_spans) <= 1073741824) as Hn
    by (vm_compute; intros E; discriminate E).
  assert (Z.of_nat (length (distinct_addresses overlapping_spans))
          <= 1073741824) as Hd
    by (vm_compute; intros E; discriminate E).
  pose proof (H overlapping_spans_ok overlapping_spans_early Hseg Hn Hd)
    as Ha.
  split.
  - apply Ha. unfold UINT_MAX. lia.
  - apply Ha. unfold UINT_MAX. lia.
Defined.

(** X9. Let [cc65_read_dbginfo] return a database whose spans, as the
    by-id collection holds them after the rebasing, have
    [0 <= start <= end + 1], an end below the largest [unsigned] and a
    segment, at most [2^30] of them on at most [2^30] distinct addresses.
    Then for every address [cc65_spaninfo_byaddr] returns one record for
    every span that covers the address and no other record, in the order
    of the spans by (start, end); each record carries the id, the start
    and the end of its span and the id of the segment of the span. When no
    span covers the address the result is null. *)
Theorem X9_spans_by_address_exact (lines : list InputLine)
  (errs : list cc65_parseerror) (h : DbgInfo.t) :
  cc65_read_dbginfo lines = Some (errs, Some h) ->
  exists spans : list (nat * SpanInfo.t),
    fetch_spans (DbgInfo.Mem h) (DbgInfo.SpanInfoById h) = Some spans
    /\ (Forall span_ok spans -> Forall span_ends_early spans ->
        Forall has_segment spans ->
        Z.of_nat (length spans) <= 1073741824 ->
        Z.of_nat (length (distinct_addresses spans)) <= 1073741824 ->
        exists sorted : list (nat * SpanInfo.t),
          sorted ≡ₚ spans /\ sorted_spans sorted
          /\ forall a, 0 <= a <= UINT_MAX ->
               exists ds,
                 Forall2 (span_data_of (DbgInfo.Mem h))
                   (List.filter (fun Sp => covers Sp a) sorted) ds
                 /\ cc65_spaninfo_byaddr h a
                    = Some (match ds with [] => None | _ => Some ds end)).
Proof. exact (loaded_spans_query lines errs h). Qed.

Lemma X9_spans_by_address_witness :
  exists (spans sorted : list (nat * SpanInfo.t)) (ds : list cc65_spandata),
    fetch_spans (DbgInfo.Mem (loaded input_overlapping_spans))
      (DbgInfo.SpanInfoById (loaded input_overlapping_spans)) = Some spans
    /\ sorted ≡ₚ spans /\ sorted_spans sorted
    /\ Forall2 (span_data_of (DbgInfo.Mem (loaded input_overlapping_spans)))
         (List.filter (fun Sp => covers Sp 32772) sorted) ds
    /\ cc65_spaninfo_byaddr (loaded input_overlapping_spans) 32772
       = Some (match ds with [] => None | _ => Some ds end).
Proof.
  assert (cc65_read_dbginfo input_overlapping_spans
          = Some ([], Some (loaded input_overlapping_spans))) as Hload
    by (vm_compute; reflexivity).
  destruct (X9_spans_by_address_exact input_overlapping_spans []
              (loaded input_overlapping_spans) Hload)
    as (spans & Hf & H).
  pose proof Hf as Hf'. vm_compute in Hf'. injection Hf' as <-.
  destruct H as (sorted & Hperm & Hsorted & Hquery).
  - exact overlapping_spans_ok.
  - exact overlapping_spans_early.
  - repeat (apply Forall_cons; split; [intros E; discriminate E|]).
    now apply Forall_nil.
  - vm_compute. intros E. discriminate E.
  - vm_compute. intros E. discriminate E.
  - destruct (Hquery 32772) as (ds & Hdata & Hq); [unfold UINT_MAX; lia|].
    exists overlapping_spans, sorted, ds. auto 6.
Defined.

(** ** The lines of a loaded database *)

(** Whatever the compare function says, sorting only exchanges entries. *)
Section SortPermutes.
Variable Compare : option nat -> option nat -> option Z.

Lemma swap_items_Permutation (Items Items' : list CollEntry) (i j : Z) :
  swap_items Items i j = Some Items' -> Items' ≡ₚ Items.
Proof.
  unfold swap_items. destruct ((i <? 0) || (j <? 0)); [discriminate|].
  intros H. apply bind_Some in H as (x & Hx & H).
  apply bind_Some in H as (y & Hy & H). injection H as <-.
  now apply swap_Permutation.
Qed.

Lemma partition_loop_Permutation (fuel : nat) :
  forall (Items : list CollEntry) (Lo I J : Z) (r : list CollEntry * Z),
    partition_loop Compare fuel Items Lo I J = Some r -> fst r ≡ₚ Items.
Proof.
  induction fuel as [|fuel IH]; intros Items Lo I J r H;
    cbn [partition_loop] in H.
  - destruct (I <=? J); [|now injection H as <-].
    apply bind_Some in H as (I1 & _ & H). apply bind_Some in H as (J1 & _ & H).
    destruct (I1 <=? J1); [|now injection H as <-].
    apply bind_Some in H as (Items1 & _ & H). discriminate H.
  - destruct (I <=? J); [|now injection H as <-].
    apply bind_Some in H as (I1 & _ & H). apply bind_Some in H as (J1 & _ & H).
    destruct (I1 <=? J1); [|now injection H as <-].
    apply bind_Some in H as (Items1 & H1 & H).
    apply bind_Some in H as (I2 & _ & H). apply bind_Some in H as (J2 & _ & H).
    apply IH in H. rewrite H. exact (swap_items_Permutation _ _ _ _ H1).
Qed.

Lemma CollQuickSort_Permutation (fuel : nat) :
  forall (Items Items' : list CollEntry) (Lo Hi : Z),
    CollQuickSort Compare fuel Items Lo Hi = Some Items' -> Items' ≡ₚ Items.
Proof.
  induction fuel as [|fuel IH]; intros Items Items' Lo Hi H;
    cbn [CollQuickSort] in H;
    (destruct (Hi >? Lo); [|now injection H as <-]); [discriminate H|].
  apply bind_Some in H as (I & _ & H). apply bind_Some in H as (r & Hr & H).
  apply partition_loop_Permutation in Hr. cbv zeta in H.
  apply bind_Some in H as (Items1 & H1 & H).
  assert (Items1 ≡ₚ Items) as P1.
  { rewrite <- Hr. destruct (snd r =? Lo); [now injection H1 as <-|].
    exact (swap_items_Permutation _ _ _ _ H1). }
  apply bind_Some in H as (Sum & _ & H).
  destruct (snd r >? Z.quot Sum 2).
  - apply bind_Some in H as (Lo' & _ & H). apply bind_Some in H as (Items2 & H2 & H).
    apply bind_Some in H as (Hi' & _ & H). apply IH in H2, H.
    now rewrite H, H2.
  - apply bind_Some in H as (Hi' & _ & H). apply bind_Some in H as (Items2 & H2 & H).
    apply bind_Some in H as (Lo' & _ & H). apply IH in H2, H.
    now rewrite H, H2.
Qed.

Lemma CollSort_Permutation (C C' : Collection) :
  CollSort Compare C = Some C' -> Items C' ≡ₚ Items C.
Proof.
  unfold CollSort. destruct (CollCount C >? 1); [|now intros [= <-]].
  intros H. apply bind_Some in H as (Items' & H & E). injection E as <-.
  exact (CollQuickSort_Permutation _ _ _ _ _ H).
Qed.
End SortPermutes.

(** *** Files without lines *)







(** *** The line lists of the files *)











Lemma fetch_records_returns {A} (store : list A) (C : Collection) :
  (forall e, e ∈ Items C ->
     exists p r, e = EPtr (Some p) /\ store !! p = Some r) ->
  exists rs, fetch_records store C = Some rs.
Proof.
  unfold fetch_records. induction (Items C) as [|e es IH]; intros H.
  - now exists [].
  - destruct (H e) as (p & r & -> & Hr); [left|].
    destruct IH as (rs & Hrs); [intros e He; apply H; now right|].
    exists ((p, r) :: rs). cbn. rewrite Hr. cbn.
    unfold fetch_records in Hrs. cbn in Hrs. now rewrite Hrs.
Qed.




(** ** The symbols of a loaded database *)

(** *** The parser *)

Lemma uval_range (o : option Z) (d : Z) : 0 <= d -> 0 <= uval o d.
Proof.
  intros Hd. destruct o as [v|]; cbn [uval]; [|exact Hd].
  apply to_unsigned_range.
Qed.

Lemma parse_line_by_id (k : InfoKey) (D D' : InputData.t) (l : InputLine) :
  parse_line D l = Some D' ->
  (Items (by_id_of k (InputData.Info D')) = Items (by_id_of k (InputData.Info D))
   /\ record_ids k (mem D') = record_ids k (mem D))
  \/ exists id,
       0 <= id
       /\ record_ids k (mem D') = record_ids k (mem D) ++ [id]
       /\ CollReplaceExpand (by_id_of k (InputData.Info D))
            (Some (length (record_ids k (mem D)))) id
          = Some (by_id_of k (InputData.Info D')).
Proof.
  intros H. destruct l; cbn [parse_line] in H.
  2:{ injection H as <-. left. unfold ParseInfo, mem. destruct a as [kvs|].
      - unfold upd_Info. cbn [InputData.Info InputData.set_Info].
        destruct (ParseInfo_grow_items k kvs
                    (InputData.Info (UnknownKeywords D Unknown))) as [-> ->].
        now rewrite Info_UnknownKeywords.
      - now rewrite Info_ParseError, Info_UnknownKeywords. }
  all: unfold ParseFile, ParseLibrary, ParseLine, ParseModule, ParseScope,
         ParseSegment, ParseSpan, ParseSym in H; cbv zeta in H.
  all: unfold_stores H.
  all: repeat parser_step.
  all: unfold mem; rewrite ?Info_ParseError, ?Info_UnknownKeywords.
  all: try (left; split; reflexivity).
  all: unfold upd_Mem in *.
  all: destruct k;
         cbn -[to_unsigned to_ulong to_long CollReplaceExpand] in *;
         rewrite ?Info_UnknownKeywords in *; rewrite ?fmap_app.
  all: try (left; split; reflexivity).
  all: right; eexists; (split; [|split; [reflexivity|]]).
  all: try (rewrite length_fmap; eassumption).
  all: try destruct (String.length _).
  all: cbn; apply uval_range; unfold CC65_INV_ID, UINT_MAX; lia.
Qed.

Lemma parse_line_valid (k : InfoKey) (D D' : InputData.t) (l : InputLine) :
  entries_valid k (InputData.Info D) -> parse_line D l = Some D' ->
  entries_valid k (InputData.Info D').
Proof.
  intros Hok H j e He.
  change (DbgInfo.Mem (InputData.Info D')) with (mem D').
  destruct (parse_line_by_id k D D' l H) as [[EI ER]|(id & Hid & ER & HC)].
  - rewrite ER. rewrite EI in He. exact (Hok j e He).
  - rewrite ER.
    destruct (CollReplaceExpand_entries _ _ _ _ Hid HC j e He)
      as [[-> ->]|[Hold| ->]]; [right|..|now left].
    + eexists. split; [reflexivity|].
      rewrite lookup_app_r by lia. rewrite Nat.sub_diag. cbn.
      now rewrite Z2Nat.id.
    + destruct (Hok j e Hold) as [->|(p & -> & Hp)]; [now left|right].
      exists p. split; [reflexivity|]. now apply lookup_app_l_Some.
Qed.

Lemma entries_valid_new (k : InfoKey) : entries_valid k NewDbgInfo.
Proof. intros j e He. destruct k; destruct j; discriminate He. Qed.

(** What a line of the file does to the symbols: nothing, or one new
    record whose references are ids. *)
Lemma parse_line_syms (D D' : InputData.t) (l : InputLine) :
  parse_line D l = Some D' ->
  (Items (DbgInfo.SymInfoById (InputData.Info D'))
   = Items (DbgInfo.SymInfoById (InputData.Info D))
   /\ Items (DbgInfo.SymInfoByVal (InputData.Info D'))
      = Items (DbgInfo.SymInfoByVal (InputData.Info D))
   /\ Items (DbgInfo.SymInfoByName (InputData.Info D'))
      = Items (DbgInfo.SymInfoByName (InputData.Info D))
   /\ Store.SymInfos (mem D') = Store.SymInfos (mem D))
  \/ exists r,
       0 <= SymInfo.Id r /\ refs_sound 0 0 0 r
       /\ Store.SymInfos (mem D') = Store.SymInfos (mem D) ++ [r]
       /\ CollReplaceExpand (DbgInfo.SymInfoById (InputData.Info D))
            (Some (length (Store.SymInfos (mem D)))) (SymInfo.Id r)
          = Some (DbgInfo.SymInfoById (InputData.Info D'))
       /\ CollAppend (DbgInfo.SymInfoByVal (InputData.Info D))
            (Some (length (Store.SymInfos (mem D))))
          = Some (DbgInfo.SymInfoByVal (InputData.Info D'))
       /\ CollAppend (DbgInfo.SymInfoByName (InputData.Info D))
            (Some (length (Store.SymInfos (mem D))))
          = Some (DbgInfo.SymInfoByName (InputData.Info D')).
Proof.
  intros H. destruct l; cbn [parse_line] in H.
  2:{ injection H as <-. left. unfold ParseInfo, mem. destruct a as [kvs|].
      - unfold upd_Info. cbn [InputData.Info InputData.set_Info].
        destruct (ParseInfo_grow_items IK_SYM kvs
                    (InputData.Info (UnknownKeywords D Unknown))) as [E1 E2].
        cbn [by_id_of] in E1. rewrite E1, E2.
        rewrite Info_UnknownKeywords. split; [reflexivity|].
        assert (forall I,
                  Items (DbgInfo.SymInfoByVal (fold_left ParseInfo_grow kvs I))
                  = Items (DbgInfo.SymInfoByVal I)
                  /\ Items (DbgInfo.SymInfoByName
                              (fold_left ParseInfo_grow kvs I))
                     = Items (DbgInfo.SymInfoByName I)) as Hgrow.
        { clear. induction kvs as [|kv kvs IH]; intros I; [now split|].
          cbn [fold_left]. destruct (IH (ParseInfo_grow I kv)) as [-> ->].
          unfold ParseInfo_grow.
          destruct (fst kv); cbn; rewrite ?CollGrow_Items; now split. }
        destruct (Hgrow (InputData.Info D)) as [-> ->]. auto.
      - now rewrite Info_ParseError, Info_UnknownKeywords. }
  all: unfold ParseFile, ParseLibrary, ParseLine, ParseModule, ParseScope,
         ParseSegment, ParseSpan, ParseSym in H; cbv zeta in H.
  all: unfold_stores H.
  all: repeat parser_step.
  all: unfold mem; rewrite ?Info_ParseError, ?Info_UnknownKeywords.
  all: try (left; repeat split; reflexivity).
  all: unfold upd_Mem in *.
  all: cbn -[to_unsigned to_ulong to_long CollReplaceExpand CollAppend] in *;
         rewrite ?Info_UnknownKeywords in *.
  all: try (left; repeat split; reflexivity).
  right. eexists. split; [|split; [|split; [reflexivity|]]].
  - cbn. apply uval_range. unfold CC65_INV_ID, UINT_MAX. lia.
  - repeat split.
  - repeat split; eassumption.
Qed.

Lemma CollReplaceExpand_keeps (C C' : Collection) (Item : option nat)
  (Index : Z) (j : nat) (e : CollEntry) :
  CollReplaceExpand C Item Index = Some C' ->
  Items C !! j = Some e -> j <> Z.to_nat Index ->
  Items C' !! j = Some e.
Proof.
  unfold CollReplaceExpand, CollCount.
  destruct (Z.ltb_spec Index (Z.of_nat (length (Items C)))) as [Hlt|Hge].
  - intros [= <-] He Hne. cbn [Items]. now rewrite list_lookup_insert_ne.
  - destruct (expand_size 33 Index _) as [Sz|]; cbn [mbind option_bind];
      [|discriminate].
    intros [= <-] He Hne. cbn [Items]. rewrite CollGrow_Items.
    now apply lookup_app_l_Some.
Qed.

Lemma parse_line_symbols (D D' : InputData.t) (l : InputLine) :
  symbols_parsed (InputData.Info D) -> parse_line D l = Some D' ->
  symbols_parsed (InputData.Info D').
Proof.
  intros (HV & HN & HS & HR) H.
  unfold symbols_parsed, sym_slots_taken, sym_ids.
  change (DbgInfo.Mem (InputData.Info D')) with (mem D').
  change (DbgInfo.Mem (InputData.Info D)) with (mem D) in *.
  destruct (parse_line_syms D D' l H)
    as [(EI & EV & EN & ES)|(r & Hid & Hr & ES & HC & HA & HB)].
  - rewrite ES, EI, EV, EN. auto.
  - rewrite ES. split; [|split; [|split]].
    + rewrite (CollAppend_Items _ _ _ HA), HV, length_app. cbn [length].
      rewrite Nat.add_1_r, seq_S, fmap_app. reflexivity.
    + rewrite (CollAppend_Items _ _ _ HB), HN, length_app. cbn [length].
      rewrite Nat.add_1_r, seq_S, fmap_app. reflexivity.
    + intros p id Hp. rewrite fmap_app in Hp.
      assert (0 <= id
              /\ (Z.to_nat id = Z.to_nat (SymInfo.Id r)
                  \/ exists q,
                       Items (DbgInfo.SymInfoById (InputData.Info D))
                         !! Z.to_nat id = Some (EPtr (Some q))))
        as [H0 Hslot].
      { apply lookup_app_Some in Hp as [Hp|[_ Hp]].
        - destruct (HS p id Hp) as [? ?]. auto.
        - destruct (p - _)%nat; [|destruct n; discriminate Hp].
          injection Hp as <-. auto. }
      split; [exact H0|].
      destruct (decide (Z.to_nat id = Z.to_nat (SymInfo.Id r))) as [E|Hne].
      * rewrite E. eexists.
        exact (proj2 (CollReplaceExpand_slot _ _ _ _ Hid HC)).
      * destruct Hslot as [?|[q Hq]]; [contradiction|]. exists q.
        exact (CollReplaceExpand_keeps _ _ _ _ _ _ HC Hq Hne).
    + apply Forall_app. split; [exact HR|]. now apply Forall_singleton.
Qed.

Lemma symbols_parsed_new : symbols_parsed NewDbgInfo.
Proof.
  split; [reflexivity|]. split; [reflexivity|].
  split; [|now apply Forall_nil].
  intros p id Hp. destruct p; discriminate Hp.
Qed.

(** *** The passes before the symbols *)

Ltac view_ignored :=
  let Hl := fresh in
  first [ intros ? ?; reflexivity
        | intros ? ? Hl; cbv beta delta [sym_tables]; cbn; rewrite ?Hl;
          reflexivity ].

Lemma sym_tables_resolved (D0 D1 D2 D3 D4 D5 D6 : InputData.t) :
  ProcessFileInfo D0 = Some D1 -> ProcessLineInfo D1 = Some D2 ->
  ProcessModInfo D2 = Some D3 -> ProcessScopeInfo D3 = Some D4 ->
  ProcessSegInfo D4 = Some D5 -> ProcessSpanInfo D5 = Some D6 ->
  sym_tables (InputData.Info D6) = sym_tables (InputData.Info D0).
Proof.
  intros H1 H2 H3 H4 H5 H6.
  apply (ProcessFileInfo_ignored sym_tables) in H1; [|view_ignored..].
  apply (ProcessLineInfo_ignored sym_tables) in H2; [|view_ignored..].
  apply (ProcessModInfo_ignored sym_tables) in H3; [|view_ignored..].
  apply (ProcessScopeInfo_ignored sym_tables) in H4; [|view_ignored..].
  apply (ProcessSegInfo_ignored sym_tables) in H5; [|view_ignored..].
  apply (ProcessSpanInfo_ignored sym_tables) in H6; [|view_ignored..].
  congruence.
Qed.

Lemma entries_valid_ptrs (k : InfoKey) (I : DbgInfo.t) :
  entries_valid k I ->
  ptrs_in (length (record_ids k (DbgInfo.Mem I))) (by_id_of k I).
Proof.
  intros Hok e He. apply list_elem_of_lookup in He as [j Hj].
  destruct (Hok j e Hj) as [->|(p & -> & Hp)].
  - now exists None.
  - exists (Some p). split; [reflexivity|]. now apply lookup_lt_Some in Hp.
Qed.

(** *** The resolver of the symbols *)

Lemma put_Sym_effect (D D' : InputData.t) (P : option nat) (r : SymInfo.t) :
  put_Sym D P r = Some D' ->
  exists p r0,
    P = Some p
    /\ Store.SymInfos (mem D) !! p = Some r0
    /\ InputData.Info D'
       = DbgInfo.set_Mem
           (Store.set_SymInfos (<[p := r]> (Store.SymInfos (mem D))) (mem D))
           (InputData.Info D).
Proof.
  unfold put_Sym, put. intros H. apply bind_Some in H as (l & Hl & H).
  injection H as <-. apply bind_Some in Hl as (p & -> & Hl).
  apply bind_Some in Hl as (r0 & Hr0 & Hl). injection Hl as <-.
  exists p, r0. auto.
Qed.

Lemma resolve_ref_effect (D : InputData.t) (C : Collection) (Id : Z)
  (Msg : Message) (r : InputData.t * CollEntry) :
  resolve_ref D C Id Msg = Some r ->
  InputData.Info (fst r) = InputData.Info D
  /\ exists P, snd r = EPtr P /\ (P = None \/ EPtr P ∈ Items C).
Proof.
  unfold resolve_ref. destruct (Id =? CC65_INV_ID).
  { intros [= <-]. split; [reflexivity|]. exists None. auto. }
  destruct (Id >=? CollCount C).
  { intros [= <-]. split; [reflexivity|]. exists None. auto. }
  intros H. apply bind_Some in H as (P & HP & H). injection H as <-.
  split; [reflexivity|]. exists P. split; [reflexivity|]. right.
  unfold CollAt in HP. apply bind_Some in HP as (e & He & HP).
  destruct e as [?|Q]; [discriminate HP|]. injection HP as ->.
  now apply list_elem_of_lookup_2 in He.
Qed.

Lemma ProcessSymInfo_resolve_effect (I : nat) (D D' : InputData.t) :
  ProcessSymInfo_resolve I D = Some D' ->
  exists (p : nat) (Sr : SymInfo.t) (P1 P2 P3 : option nat),
    Items (DbgInfo.SymInfoById (InputData.Info D)) !! I = Some (EPtr (Some p))
    /\ Store.SymInfos (mem D) !! p = Some Sr
    /\ (P1 = None \/ EPtr P1 ∈ Items (DbgInfo.SegInfoById (InputData.Info D)))
    /\ (P2 = None
        \/ EPtr P2 ∈ Items (DbgInfo.ScopeInfoById (InputData.Info D)))
    /\ (P3 = None \/ EPtr P3 ∈ Items (DbgInfo.SymInfoById (InputData.Info D)))
    /\ InputData.Info D'
       = DbgInfo.set_Mem
           (Store.set_SymInfos
              (<[p := SymInfo.set_Parent (EPtr P3)
                        (SymInfo.set_Scope (EPtr P2)
                           (SymInfo.set_Seg (EPtr P1) Sr))]>
                 (Store.SymInfos (mem D))) (mem D))
           (InputData.Info D).
Proof.
  unfold ProcessSymInfo_resolve. cbv zeta. intros H.
  apply bind_Some in H as (Sy & HSy & H). apply bind_Some in H as (Sr & HSr & H).
  apply bind_Some in H as (SegId & _ & H).
  apply bind_Some in H as (r1 & H1 & H).
  apply bind_Some in H as (ScopeId & _ & H).
  apply bind_Some in H as (r2 & H2 & H).
  apply bind_Some in H as (ParentId & _ & H).
  apply bind_Some in H as (r3 & H3 & H).
  apply resolve_ref_effect in H1 as (E1 & P1 & F1 & G1).
  apply resolve_ref_effect in H2 as (E2 & P2 & F2 & G2).
  apply resolve_ref_effect in H3 as (E3 & P3 & F3 & G3).
  apply put_Sym_effect in H as (p & r0 & -> & Hr0 & E).
  unfold get_Sym, deref in HSr. cbn [mbind option_bind] in HSr.
  unfold mem in *. rewrite E3, E2, E1 in *.
  rewrite HSr in Hr0. injection Hr0 as <-.
  unfold CollAt in HSy. apply bind_Some in HSy as (e & He & HSy).
  destruct e as [?|Q]; [discriminate HSy|]. injection HSy as ->.
  exists p, Sr, P1, P2, P3. rewrite F1, F2, F3 in E. auto 10.
Qed.

Lemma ProcessSymInfo_inherit_effect (I : nat) (D D' : InputData.t) :
  ProcessSymInfo_inherit I D = Some D' ->
  InputData.Info D' = InputData.Info D
  \/ exists (p pp q : nat) (Sr Pr : SymInfo.t),
       Items (DbgInfo.SymInfoById (InputData.Info D)) !! I
       = Some (EPtr (Some p))
       /\ Store.SymInfos (mem D) !! p = Some Sr
       /\ Store.SymInfos (mem D) !! pp = Some Pr
       /\ SymInfo.Scope Pr = EPtr (Some q)
       /\ InputData.Info D'
          = DbgInfo.set_Mem
              (Store.set_SymInfos
                 (<[p := SymInfo.set_Scope (EPtr (Some q)) Sr]>
                    (Store.SymInfos (mem D))) (mem D))
              (InputData.Info D).
Proof.
  unfold ProcessSymInfo_inherit. intros H.
  apply bind_Some in H as (Sy & HSy & H). apply bind_Some in H as (Sr & HSr & H).
  apply bind_Some in H as (Scope & _ & H).
  destruct Scope; [injection H as <-; now left|].
  apply bind_Some in H as (Parent & _ & H).
  destruct Parent as [pp|]; [|injection H as <-; left; reflexivity].
  apply bind_Some in H as (Pr & HPr & H).
  apply bind_Some in H as (PScope & HPS & H).
  destruct PScope as [q|]; [|injection H as <-; left; reflexivity].
  apply put_Sym_effect in H as (p & r0 & -> & Hr0 & E).
  unfold get_Sym, deref in HSr, HPr. cbn [mbind option_bind] in HSr, HPr.
  rewrite HSr in Hr0. injection Hr0 as <-.
  unfold CollAt in HSy. apply bind_Some in HSy as (e & He & HSy).
  destruct e as [?|Q]; [discriminate HSy|]. injection HSy as ->.
  right. exists p, pp, q, Sr, Pr. split; [exact He|].
  split; [exact HSr|]. split; [exact HPr|].
  split; [|exact E]. destruct (SymInfo.Scope Pr); [discriminate HPS|].
  now injection HPS as ->.
Qed.

Lemma by_id_ptrs_view (I I' : DbgInfo.t) :
  sym_view I' = sym_view I -> by_id_ptrs I -> by_id_ptrs I'.
Proof.
  unfold sym_view, by_id_ptrs. intros [= -> _ -> -> -> -> -> _]. auto.
Qed.

Lemma ref_sound_ptr (n : nat) (C : Collection) (P : option nat) :
  ptrs_in n C -> P = None \/ EPtr P ∈ Items C -> ref_sound n (EPtr P).
Proof.
  intros HC [->|HP]; [exact I|].
  destruct (HC _ HP) as (Q & [= ->] & HQ). exact HQ.
Qed.

(** Replacing a symbol record by a resolved one with the same id. *)
Lemma symbols_resolved_put (I : DbgInfo.t) (k k' p : nat)
  (Sr r' : SymInfo.t) :
  Store.SymInfos (DbgInfo.Mem I) !! p = Some Sr ->
  SymInfo.Id r' = SymInfo.Id Sr ->
  refs_sound (length (Store.SegInfos (DbgInfo.Mem I)))
    (length (Store.ScopeInfos (DbgInfo.Mem I)))
    (length (Store.SymInfos (DbgInfo.Mem I))) r' ->
  refs_resolved r' ->
  (forall j p', (j < k')%nat -> ~ (j < k)%nat ->
     Items (DbgInfo.SymInfoById I) !! j = Some (EPtr (Some p')) -> p' = p) ->
  symbols_resolved I k ->
  sym_view (with_symbol p r' I) = sym_view I
  /\ symbols_resolved (with_symbol p r' I) k'.
Proof.
  intros Hp Hid Hsound Hres Hnew [HS HR]. split.
  - unfold sym_view, with_symbol, sym_ids. cbn.
    rewrite list_fmap_insert, list_insert_id; [reflexivity|].
    rewrite list_lookup_fmap, Hp. cbn. now rewrite Hid.
  - unfold symbols_resolved, with_symbol. cbn. rewrite length_insert.
    split; [now apply Forall_insert|]. intros j p' Hj He.
    destruct (decide (p' = p)) as [->|Hne].
    + exists r'. split; [|exact Hres]. apply list_lookup_insert_eq.
      now apply lookup_lt_Some in Hp.
    + rewrite list_lookup_insert_ne by auto.
      destruct (decide (j < k)%nat) as [Hlt|Hge]; [now apply (HR j)|].
      now apply Hnew in He.
Qed.

Lemma ProcessSymInfo_resolve_step (I0 : DbgInfo.t) (k : nat)
  (D D' : InputData.t) :
  ProcessSymInfo_resolve k D = Some D' ->
  by_id_ptrs (InputData.Info D)
  /\ sym_view (InputData.Info D) = sym_view I0
  /\ symbols_resolved (InputData.Info D) k ->
  by_id_ptrs (InputData.Info D')
  /\ sym_view (InputData.Info D') = sym_view I0
  /\ symbols_resolved (InputData.Info D') (S k).
Proof.
  intros H (HP & HV & HR).
  apply ProcessSymInfo_resolve_effect in H
    as (p & Sr & P1 & P2 & P3 & Hk & Hp & G1 & G2 & G3 & E).
  destruct HP as (Q1 & Q2 & Q3).
  unfold sym_ids in Q3. rewrite length_fmap in Q3.
  destruct (symbols_resolved_put (InputData.Info D) k (S k) p Sr
              (SymInfo.set_Parent (EPtr P3)
                 (SymInfo.set_Scope (EPtr P2) (SymInfo.set_Seg (EPtr P1) Sr))))
    as [EV HR']; auto.
  - destruct Sr. cbn.
    split; [exact (ref_sound_ptr _ _ _ Q1 G1)|].
    split; [exact (ref_sound_ptr _ _ _ Q2 G2)|exact (ref_sound_ptr _ _ _ Q3 G3)].
  - destruct Sr. repeat split; eexists; reflexivity.
  - intros j p' Hj Hnj He. assert (j = k) as -> by lia.
    rewrite Hk in He. now injection He as <-.
  - unfold with_symbol in *. fold (mem D) in EV, HR'. rewrite <- E in EV, HR'.
    split; [|split; [congruence|exact HR']].
    apply (by_id_ptrs_view (InputData.Info D)); [exact EV|].
    unfold by_id_ptrs, sym_ids. rewrite length_fmap. auto.
Qed.

Lemma ProcessSymInfo_inherit_step (I0 : DbgInfo.t) (n i : nat)
  (D D' : InputData.t) :
  (i < n)%nat ->
  ProcessSymInfo_inherit i D = Some D' ->
  by_id_ptrs (InputData.Info D)
  /\ sym_view (InputData.Info D) = sym_view I0
  /\ symbols_resolved (InputData.Info D) n ->
  by_id_ptrs (InputData.Info D')
  /\ sym_view (InputData.Info D') = sym_view I0
  /\ symbols_resolved (InputData.Info D') n.
Proof.
  intros Hi H (HP & HV & HR).
  apply ProcessSymInfo_inherit_effect in H
    as [E|(p & pp & q & Sr & Pr & Hk & Hp & Hpp & HSc & E)];
    [rewrite E; auto|].
  pose proof HR as [HS HRes].
  destruct (HRes i p Hi Hk) as (r & Hr & Hres).
  fold (mem D) in Hr. rewrite Hp in Hr. injection Hr as <-.
  pose proof (proj1 (Forall_lookup _ _) HS p Sr Hp) as (S1 & S2 & S3).
  pose proof (proj1 (Forall_lookup _ _) HS pp Pr Hpp) as (_ & T2 & _).
  rewrite HSc in T2.
  destruct (symbols_resolved_put (InputData.Info D) n n p Sr
              (SymInfo.set_Scope (EPtr (Some q)) Sr))
    as [EV HR']; auto.
  - destruct Sr. cbn in *. repeat split; assumption.
  - destruct Hres as (R1 & _ & R3). destruct Sr. cbn in *.
    repeat split; try assumption. eexists; reflexivity.
  - intros j p' Hj Hnj. contradiction.
  - unfold with_symbol in *. fold (mem D) in EV, HR'. rewrite <- E in EV, HR'.
    split; [|split; [congruence|exact HR']].
    exact (by_id_ptrs_view (InputData.Info D) _ EV HP).
Qed.

Lemma ref_sound_mono (n : nat) (e : CollEntry) :
  ref_sound 0 e -> ref_sound n e.
Proof. destruct e as [?|[q|]]; cbn; auto. lia. Qed.

(** The resolver of the symbols up to the two sorts. *)
Lemma ProcessSymInfo_symbols (D D' : InputData.t) :
  ProcessSymInfo D = Some D' ->
  by_id_ptrs (InputData.Info D) ->
  Forall (refs_sound 0 0 0) (Store.SymInfos (mem D)) ->
  exists I2 : DbgInfo.t,
    sym_view I2 = sym_view (InputData.Info D)
    /\ symbols_resolved I2 (count (DbgInfo.SymInfoById I2))
    /\ DbgInfo.Mem (InputData.Info D') = DbgInfo.Mem I2
    /\ DbgInfo.SymInfoById (InputData.Info D') = DbgInfo.SymInfoById I2
    /\ CollSort (CompareSymInfoByVal (DbgInfo.Mem I2)) (DbgInfo.SymInfoByVal I2)
       = Some (DbgInfo.SymInfoByVal (InputData.Info D'))
    /\ CollSort (CompareSymInfoByName (DbgInfo.Mem I2))
         (DbgInfo.SymInfoByName I2)
       = Some (DbgInfo.SymInfoByName (InputData.Info D')).
Proof.
  unfold ProcessSymInfo. cbv zeta. intros H HP HS.
  apply bind_Some in H as (D1 & H1 & H). apply bind_Some in H as (D2 & H2 & H).
  apply bind_Some in H as (ByName & HN & H).
  apply bind_Some in H as (ByVal & HV & H). injection H as <-.
  set (n := count (DbgInfo.SymInfoById (InputData.Info D))) in *.
  pose proof (for_range_inv ProcessSymInfo_resolve
                (fun k t =>
                   by_id_ptrs (InputData.Info t)
                   /\ sym_view (InputData.Info t) = sym_view (InputData.Info D)
                   /\ symbols_resolved (InputData.Info t) k) _ _ _ _ H1)
    as Inv1.
  cbn beta in Inv1. destruct Inv1 as (P1 & V1 & R1).
  { split; [exact HP|]. split; [reflexivity|]. split; [|intros j p Hj; lia].
    eapply Forall_impl; [exact HS|]. intros r (S1 & S2 & S3).
    repeat split; now apply ref_sound_mono. }
  { intros j t t' _ Hb Ht.
    exact (ProcessSymInfo_resolve_step _ j t t' Hb Ht). }
  pose proof (for_range_inv ProcessSymInfo_inherit
                (fun _ t =>
                   by_id_ptrs (InputData.Info t)
                   /\ sym_view (InputData.Info t) = sym_view (InputData.Info D)
                   /\ symbols_resolved (InputData.Info t) n) _ _ _ _ H2)
    as Inv2.
  cbn beta in Inv2. destruct Inv2 as (P2 & V2 & R2).
  { auto. }
  { intros j t t' Hj Hb Ht.
    apply (ProcessSymInfo_inherit_step _ n j t t'); auto. lia. }
  exists (InputData.Info D2). split; [exact V2|].
  split.
  { replace (count (DbgInfo.SymInfoById (InputData.Info D2))) with n;
      [exact R2|].
    unfold sym_view in V2. now injection V2 as ->. }
  split; [reflexivity|]. split; [reflexivity|]. split; [exact HV|exact HN].
Qed.

Lemma sym_le_of_val_le (l : list (nat * SymInfo.t)) :
  StronglySorted (records_le sym_val_le) l -> sorted_by_value l.
Proof.
  intros H. apply StronglySorted_Sorted.
  induction H as [|x l Hs IH Hx]; constructor; [exact IH|].
  eapply Forall_impl; [exact Hx|]. intros y Hy.
  unfold records_le, sym_val_le, sym_le in *. lia.
Qed.

Lemma CollSort_symbols_sorted (m : Store.t) (C C' : Collection)
  (syms : list (nat * SymInfo.t)) :
  CollSort (CompareSymInfoByVal m) C = Some C' ->
  fetch_records (Store.SymInfos m) C' = Some syms ->
  Z.of_nat (length syms) <= 1073741824 ->
  sorted_by_value syms.
Proof.
  intros HSort Hf' Hlen.
  pose proof (CollSort_Permutation _ _ _ HSort) as Hperm.
  destruct (mapM_Permutation _ _ _ _ Hperm Hf') as (syms0 & Hf & HP).
  destruct (CollSort_records (Store.SymInfos m) any_record sym_val_le
              (CompareSymInfoByVal m) C syms0
              (CompareSymInfoByVal_compares m) Hf)
    as (C2 & rs & HSort2 & _ & _ & Hf2 & _ & Hsorted).
  { apply Forall_forall. intros r _. exact I. }
  { rewrite (fetch_records_length _ _ _ Hf), <- (Permutation_length HP).
    exact Hlen. }
  rewrite HSort in HSort2. injection HSort2 as <-.
  rewrite Hf' in Hf2. injection Hf2 as <-.
  now apply sym_le_of_val_le.
Qed.

Lemma CollSort_names_sorted (m : Store.t) (C C' : Collection)
  (syms : list (nat * SymInfo.t)) :
  CollSort (CompareSymInfoByName m) C = Some C' ->
  fetch_records (Store.SymInfos m) C' = Some syms ->
  Z.of_nat (length syms) <= 1073741824 ->
  sorted_by_name syms.
Proof.
  intros HSort Hf' Hlen.
  pose proof (CollSort_Permutation _ _ _ HSort) as Hperm.
  destruct (mapM_Permutation _ _ _ _ Hperm Hf') as (syms0 & Hf & HP).
  destruct (CollSort_records (Store.SymInfos m) any_record sym_name_le
              (CompareSymInfoByName m) C syms0
              (CompareSymInfoByName_compares m) Hf)
    as (C2 & rs & HSort2 & _ & _ & Hf2 & _ & Hsorted).
  { apply Forall_forall. intros r _. exact I. }
  { rewrite (fetch_records_length _ _ _ Hf), <- (Permutation_length HP).
    exact Hlen. }
  rewrite HSort in HSort2. injection HSort2 as <-.
  rewrite Hf' in Hf2. injection Hf2 as <-.
  now apply StronglySorted_Sorted.
Qed.

(** The symbols of a database that a load returns. *)
Lemma loaded_symbols (lines : list InputLine)
  (errs : list cc65_parseerror) (h : DbgInfo.t) :
  cc65_read_dbginfo lines = Some (errs, Some h) ->
  Items (DbgInfo.SymInfoByVal h)
  ≡ₚ (fun p => EPtr (Some p))
     <$> seq 0 (length (Store.SymInfos (DbgInfo.Mem h)))
  /\ (forall syms,
        fetch_records (Store.SymInfos (DbgInfo.Mem h)) (DbgInfo.SymInfoByVal h)
        = Some syms ->
        Z.of_nat (length syms) <= 1073741824 -> sorted_by_value syms)
  /\ Items (DbgInfo.SymInfoByName h)
     ≡ₚ (fun p => EPtr (Some p))
        <$> seq 0 (length (Store.SymInfos (DbgInfo.Mem h)))
  /\ (forall syms,
        fetch_records (Store.SymInfos (DbgInfo.Mem h))
          (DbgInfo.SymInfoByName h) = Some syms ->
        Z.of_nat (length syms) <= 1073741824 -> sorted_by_name syms)
  /\ Forall (refs_sound (length (Store.SegInfos (DbgInfo.Mem h)))
               (length (Store.ScopeInfos (DbgInfo.Mem h)))
               (length (Store.SymInfos (DbgInfo.Mem h))))
       (Store.SymInfos (DbgInfo.Mem h))
  /\ (NoDup (sym_ids (DbgInfo.Mem h)) ->
      Forall refs_resolved (Store.SymInfos (DbgInfo.Mem h))).
Proof.
  intros H. apply cc65_read_dbginfo_parsed in H as (Dv & D0 & rest & Hv & Hp & H).
  apply CloseAndExit_passes in H
    as (D1 & D2 & D3 & D4 & D5 & D6 & D7 & H1 & H2 & H3 & H4 & H5 & H6 & H7 & ->).
  assert (symbols_parsed (InputData.Info D0)) as (PV & PN & PS & PR).
  { apply (parse_lines_inv (fun D => symbols_parsed (InputData.Info D))
             parse_line_symbols rest Dv D0); [|exact Hp].
    rewrite Hv. exact symbols_parsed_new. }
  assert (forall k, entries_valid k (InputData.Info D0)) as Hvalid.
  { intros k.
    apply (parse_lines_inv (fun D => entries_valid k (InputData.Info D))
             (parse_line_valid k) rest Dv D0); [|exact Hp].
    rewrite Hv. apply entries_valid_new. }
  pose proof (sym_tables_resolved _ _ _ _ _ _ _ H1 H2 H3 H4 H5 H6) as Hview.
  unfold sym_tables in Hview. injection Hview as E1 E2 E3 E4 E5 E6 E7 E8.
  assert (by_id_ptrs (InputData.Info D6)) as HP6.
  { pose proof (entries_valid_ptrs _ _ (Hvalid IK_SEGMENT)) as Q1.
    pose proof (entries_valid_ptrs _ _ (Hvalid IK_SCOPE)) as Q2.
    pose proof (entries_valid_ptrs _ _ (Hvalid IK_SYM)) as Q3.
    cbn [record_ids by_id_of] in Q1, Q2, Q3.
    rewrite length_fmap in Q1. rewrite length_fmap in Q2.
    unfold by_id_ptrs, sym_ids. rewrite E1, E3, E4, E5, E6, E7. auto. }
  destruct (ProcessSymInfo_symbols D6 D7 H7 HP6)
    as (I2 & V & R & EM & EB & HSort & HSortN).
  { unfold mem. rewrite E3. exact PR. }
  unfold sym_view in V. injection V as V1 V2 V3 V4 V5 V6 V7 V8.
  pose proof (f_equal length V3) as HL. unfold sym_ids in HL.
  rewrite !length_fmap, E3 in HL.
  rewrite EM. destruct R as [RS RR].
  split; [|split; [|split; [|split; [|split; [exact RS|]]]]].
  - rewrite (CollSort_Permutation _ _ _ HSort), V2, E2, PV, HL. reflexivity.
  - intros syms Hf Hn. exact (CollSort_symbols_sorted _ _ _ syms HSort Hf Hn).
  - rewrite (CollSort_Permutation _ _ _ HSortN), V8, E8, PN, HL. reflexivity.
  - intros syms Hf Hn. exact (CollSort_names_sorted _ _ _ syms HSortN Hf Hn).
  - intros Hnd. apply Forall_lookup. intros p r Hr.
    assert (sym_ids (DbgInfo.Mem I2) !! p = Some (SymInfo.Id r)) as Hid
      by (unfold sym_ids; now rewrite list_lookup_fmap, Hr).
    pose proof Hid as Hid0. rewrite V3 in Hid0. unfold sym_ids in Hid0.
    rewrite E3 in Hid0.
    destruct (PS p _ Hid0) as (H0 & q & Hq).
    destruct (Hvalid IK_SYM _ _ Hq) as [[=]|(q' & [= <-] & Hq')].
    cbn [record_ids] in Hq'. rewrite Z2Nat.id in Hq' by exact H0.
    assert (sym_ids (DbgInfo.Mem I2) !! q = Some (SymInfo.Id r)) as Hidq
      by (rewrite V3; unfold sym_ids; now rewrite E3).
    pose proof (NoDup_lookup _ _ _ _ Hnd Hid Hidq) as ->.
    destruct (RR (Z.to_nat (SymInfo.Id r)) q) as (r' & Hr' & Hres).
    + unfold count. rewrite V1, E1. now apply lookup_lt_Some in Hq.
    + rewrite V1, E1. exact Hq.
    + rewrite Hr in Hr'. now injection Hr' as <-.
Qed.

(** *** The query *)

Lemma fetch_records_Items {A} (store : list A) (C : Collection)
  (rs : list (nat * A)) :
  fetch_records store C = Some rs ->
  Items C = (fun r => EPtr (Some (fst r))) <$> rs.
Proof.
  intros H. apply fetch_records_Forall2 in H.
  induction H as [|e r es rs [He _] _ IH]; [reflexivity|].
  cbn. rewrite <- IH. destruct e as [?|[q|]]; try discriminate He.
  cbn in He. now injection He as ->.
Qed.

Lemma pointers_Permutation (l k : list nat) :
  (fun p => EPtr (Some p)) <$> l ≡ₚ (fun p => EPtr (Some p)) <$> k -> l ≡ₚ k.
Proof.
  intros H.
  assert (forall l : list nat,
            omap (fun e => match e with EPtr P => P | EId _ => None end)
                 ((fun p => EPtr (Some p)) <$> l) = l) as Hinv.
  { clear. induction l as [|x l IH]; [reflexivity|]. cbn. now rewrite IH. }
  rewrite <- (Hinv l), <- (Hinv k). now apply omap_Permutation.
Qed.

Lemma mapM_Forall2 {A B C} (F : B -> option C) (g : A -> B)
  (Q : A -> C -> Prop) (l : list A) :
  Forall (fun x => exists d, F (g x) = Some d /\ Q x d) l ->
  exists ds, mapM F (g <$> l) = Some ds /\ Forall2 Q l ds.
Proof.
  induction 1 as [|x l (d & Hd & HQ) _ (ds & Hds & HF)].
  - exists []. split; [reflexivity|constructor].
  - exists (d :: ds). split; [|now constructor].
    cbn. rewrite Hd. cbn. cbn in Hds. now rewrite Hds.
Qed.

Lemma ref_id_copy {A} (store : list A) (Id : A -> Z) (P : option nat) :
  ref_sound (length store) (EPtr P) ->
  exists id,
    match P with
    | Some _ => r ← deref store P; Some (Id r)
    | None => Some CC65_INV_ID
    end = Some id
    /\ ref_id store Id (EPtr P) id.
Proof.
  destruct P as [q|]; cbn; intros Hq.
  - destruct (lookup_lt_is_Some_2 store q Hq) as [r Hr]. rewrite Hr. cbn.
    exists (Id r). split; [reflexivity|]. right. eauto.
  - exists CC65_INV_ID. split; [reflexivity|]. now left.
Qed.

Lemma CopySymInfo_data (m : Store.t) (s : nat * SymInfo.t) :
  Store.SymInfos m !! fst s = Some (snd s) ->
  refs_sound (length (Store.SegInfos m)) (length (Store.ScopeInfos m))
    (length (Store.SymInfos m)) (snd s) ->
  refs_resolved (snd s) ->
  has_scope s ->
  exists d, CopySymInfo m (Some (fst s)) = Some d /\ symbol_data_of m s d.
Proof.
  intros Hs (S1 & S2 & S3) ([P1 R1] & [P2 R2] & [P3 R3]) Hsc.
  unfold has_scope in Hsc. rewrite R1 in S1. rewrite R2 in S2, Hsc.
  rewrite R3 in S3.
  destruct P2 as [q|]; [|contradiction]. cbn in S2.
  destruct (lookup_lt_is_Some_2 _ q S2) as [c Hc].
  destruct (ref_id_copy (Store.SegInfos m) SegInfo.Id P1 S1) as (i1 & C1 & I1).
  destruct (ref_id_copy (Store.SymInfos m) SymInfo.Id P3 S3) as (i3 & C3 & I3).
  assert (deref (Store.SymInfos m) (Some (fst s)) = Some (snd s)) as D1
    by exact Hs.
  assert (deref (Store.ScopeInfos m) (Some q) = Some c) as D2 by exact Hc.
  unfold CopySymInfo. rewrite D1. cbn [mbind option_bind].
  rewrite R1, R2, R3. cbn [entry_ptr mbind option_bind].
  rewrite C1. cbn [mbind option_bind]. rewrite D2. cbn [mbind option_bind].
  rewrite C3. cbn [mbind option_bind].
  eexists. split; [reflexivity|]. unfold symbol_data_of. cbn.
  rewrite R1, R2, R3. repeat split; try assumption. eauto.
Qed.

(** The search and the scan of [cc65_symbol_inrange] find the labels in
    the range. *)
Lemma symbol_inrange_scan (h : DbgInfo.t) (syms : list (nat * SymInfo.t))
  (Start End_ : Z) :
  fetch_records (Store.SymInfos (DbgInfo.Mem h)) (DbgInfo.SymInfoByVal h)
  = Some syms ->
  sorted_by_value syms ->
  Z.of_nat (length syms) <= 1073741824 ->
  0 <= Start <= UINT_MAX ->
  0 <= End_ <= UINT_MAX ->
  cc65_symbol_inrange h Start End_
  = match (fun s => Some (fst s)) <$> labels_in_range syms Start End_ with
    | [] => Some None
    | l => d ← mapM (CopySymInfo (DbgInfo.Mem h)) l; Some (Some d)
    end.
Proof.
  intros Hf Hs Hn HStart HEnd. unfold cc65_symbol_inrange. cbv zeta.
  rewrite !to_unsigned_small by (unfold UINT_MOD, UINT_MAX in *; lia).
  destruct (FindSymInfoByValue_spec _ _ syms Start Hf Hs Hn)
    as (Found & L & HFind & HL & Hlow & Hhigh).
  rewrite HFind. cbn [mbind option_bind snd]. rewrite Nat2Z.id.
  pose proof (fetch_records_Forall2 _ _ _ Hf) as HF.
  rewrite (symbol_scan_spec _ End_ _ (drop L syms)).
  2:{ now apply Forall2_drop. }
  2:{ apply Sorted_StronglySorted in Hs; [|apply sym_le_trans].
      rewrite <- (take_drop L syms) in Hs.
      now apply StronglySorted_app in Hs as (_ & _ & Hs). }
  cbn [mbind option_bind].
  assert (List.filter
            (fun s => is_label s && (SymInfo.Value (snd s) <=? End_))
            (drop L syms)
          = labels_in_range syms Start End_) as ->;
    [|now destruct (_ <$> labels_in_range syms Start End_)].
  unfold labels_in_range. rewrite <- (take_drop L syms) at 2.
  rewrite List.filter_app.
  assert (List.filter
            (fun s => is_label s && (Start <=? SymInfo.Value (snd s))
                      && (SymInfo.Value (snd s) <=? End_)) (take L syms)
          = List.filter (fun _ => false) (take L syms)) as ->.
  { apply filter_ext_lookup. intros i x Hx.
    apply lookup_take_Some in Hx as [Hx Hi].
    pose proof (Hlow i x Hx Hi).
    destruct (Z.leb_spec Start (SymInfo.Value (snd x))); [lia|].
    now rewrite andb_false_r. }
  assert (List.filter (fun _ : nat * SymInfo.t => false) (take L syms) = [])
    as -> by (induction (take L syms); auto).
  cbn [app]. apply filter_ext_lookup. intros i x Hx.
  rewrite lookup_drop in Hx. pose proof (Hhigh _ x Hx ltac:(lia)).
  destruct (Z.leb_spec Start (SymInfo.Value (snd x))); [|lia].
  now rewrite andb_true_r.
Qed.

(** C9, as stated, fails on [input_duplicate_symbol]: the file is loaded
    without a diagnostic; the collection by value holds both records,
    and only the second one, which has the slot of the id, has been
    resolved. The label [a] has the value [0x8000], and the query for
    the range from [0x8000] to [0x8000] reads the scope id of its record
    as a pointer: it has no defined result. *)
Lemma C9_stale_symbol_not_returned :
  exists h syms,
    cc65_read_dbginfo input_duplicate_symbol = Some ([], Some h)
    /\ fetch_records (Store.SymInfos (DbgInfo.Mem h)) (DbgInfo.SymInfoByVal h)
       = Some syms
    /\ labels_in_range syms 32768 32768
       = [(0%nat, SymInfo.mk 0 CC65_SYM_LABEL 32768 0 (EId CC65_INV_ID)
                    (EId 0) (EId CC65_INV_ID) "a"%string)]
    /\ cc65_symbol_inrange h 32768 32768 = None.
Proof.
  eexists _, _. split; [vm_compute; reflexivity|].
  split; [vm_compute; reflexivity|]. split; vm_compute; reflexivity.
Qed.

(** A label whose scope id is out of range: the resolver reports the id
    and returns the database all the same; the query for the label reads
    the id of the scope through the null pointer. *)
Lemma label_without_scope_not_returned :
  exists errs h syms,
    cc65_read_dbginfo input_label_without_scope = Some (errs, Some h)
    /\ fetch_records (Store.SymInfos (DbgInfo.Mem h)) (DbgInfo.SymInfoByVal h)
       = Some syms
    /\ labels_in_range syms 32768 32768
       = [(0%nat, SymInfo.mk 0 CC65_SYM_LABEL 32768 0 ENull ENull ENull
                    "a"%string)]
    /\ cc65_symbol_inrange h 32768 32768 = None.
Proof.
  eexists _, _, _. split; [vm_compute; reflexivity|].
  split; [vm_compute; reflexivity|]. split; vm_compute; reflexivity.
Qed.

(** C9, amended. For every database that a load returns, the collection by
    value holds every symbol record once. If no two symbol records have
    the same id, there are at most [2^30] of them, the labels with a value
    from [Start] to [End_] have a scope, and [Start] and [End_] are
    [unsigned] values, then the collection is sorted by value and
    [cc65_symbol_inrange] returns one record for every label with a value
    from [Start] to [End_] and no other record, in the order of the
    collection, each with the id, name, type, size and value of its label
    and the ids of the segment, scope and parent of the label; it returns
    null when there is no such label. Equates are left out. *)
Theorem C9_labels_in_range (lines : list InputLine)
  (errs : list cc65_parseerror) (h : DbgInfo.t) (Start End_ : Z) :
  cc65_read_dbginfo lines = Some (errs, Some h) ->
  exists syms : list (nat * SymInfo.t),
    fetch_records (Store.SymInfos (DbgInfo.Mem h)) (DbgInfo.SymInfoByVal h)
    = Some syms
    /\ fst <$> syms ≡ₚ seq 0 (length (Store.SymInfos (DbgInfo.Mem h)))
    /\ (NoDup (sym_ids (DbgInfo.Mem h)) ->
        Z.of_nat (length syms) <= 1073741824 ->
        Forall has_scope (labels_in_range syms Start End_) ->
        0 <= Start <= UINT_MAX ->
        0 <= End_ <= UINT_MAX ->
        sorted_by_value syms
        /\ exists ds : list cc65_symboldata,
             Forall2 (symbol_data_of (DbgInfo.Mem h))
               (labels_in_range syms Start End_) ds
             /\ cc65_symbol_inrange h Start End_
                = Some (match ds with [] => None | _ => Some ds end)).
Proof.
  intros Hload.
  destruct (loaded_symbols lines errs h Hload)
    as (Hperm & Hsorted & _ & _ & HS & HR).
  destruct (fetch_records_returns (Store.SymInfos (DbgInfo.Mem h))
              (DbgInfo.SymInfoByVal h)) as (syms & Hf).
  { intros e He. rewrite Hperm in He.
    apply list_elem_of_fmap in He as (p & -> & Hp).
    apply elem_of_seq in Hp.
    destruct (lookup_lt_is_Some_2 (Store.SymInfos (DbgInfo.Mem h)) p)
      as [r Hr]; [lia|]. eauto. }
  exists syms. split; [exact Hf|]. split.
  { apply pointers_Permutation. rewrite <- Hperm.
    rewrite (fetch_records_Items _ _ _ Hf), <- list_fmap_compose.
    reflexivity. }
  intros Hnd Hn Hsc HStart HEnd.
  pose proof (Hsorted syms Hf Hn) as Hs. split; [exact Hs|].
  rewrite (symbol_inrange_scan h syms Start End_ Hf Hs Hn HStart HEnd).
  destruct (mapM_Forall2 (CopySymInfo (DbgInfo.Mem h))
              (fun s : nat * SymInfo.t => Some (fst s))
              (symbol_data_of (DbgInfo.Mem h))
              (labels_in_range syms Start End_)) as (ds & Hds & HF).
  { apply Forall_forall. intros s Hin.
    assert (s ∈ syms) as Hin'.
    { unfold labels_in_range in Hin. apply list_elem_of_In in Hin.
      apply List.filter_In in Hin as [Hin _]. now apply list_elem_of_In. }
    apply list_elem_of_lookup in Hin' as [i Hi].
    pose proof (fetch_records_Forall2 _ _ _ Hf) as HF2.
    destruct (Forall2_lookup_r _ _ _ _ _ HF2 Hi) as (e & _ & _ & Hst).
    apply CopySymInfo_data; [exact Hst|..].
    - exact (proj1 (Forall_lookup _ _) HS _ _ Hst).
    - exact (proj1 (Forall_lookup _ _) (HR Hnd) _ _ Hst).
    - exact (proj1 (Forall_forall _ _) Hsc s Hin). }
  exists ds. split; [exact HF|].
  destruct HF as [|s d l ds' _ _]; [reflexivity|].
  cbn [fmap list_fmap] in Hds |- *. rewrite Hds. reflexivity.
Qed.

Lemma C9_labels_in_range_witness :
  exists syms : list (nat * SymInfo.t),
    fetch_records (Store.SymInfos (DbgInfo.Mem (loaded input_symbols)))
      (DbgInfo.SymInfoByVal (loaded input_symbols)) = Some syms
    /\ sorted_by_value syms
    /\ exists ds : list cc65_symboldata,
         Forall2 (symbol_data_of (DbgInfo.Mem (loaded input_symbols)))
           (labels_in_range syms 32768 32770) ds
         /\ cc65_symbol_inrange (loaded input_symbols) 32768 32770
            = Some (match ds with [] => None | _ => Some ds end).
Proof.
  assert (cc65_read_dbginfo input_symbols
          = Some ([], Some (loaded input_symbols))) as Hload
    by (vm_compute; reflexivity).
  destruct (C9_labels_in_range input_symbols [] (loaded input_symbols)
              32768 32770 Hload) as (syms & Hf & _ & H).
  exists syms. split; [exact Hf|].
  vm_compute in Hf. injection Hf as <-.
  apply H.
  - vm_compute. repeat constructor; cbn; intros Hin;
      repeat (apply elem_of_cons in Hin as [Hin|Hin]; [discriminate Hin|]);
      inversion Hin.
  - vm_compute. intros E. discriminate E.
  - vm_compute. repeat constructor; intros E; discriminate E.
  - unfold UINT_MAX. lia.
  - unfold UINT_MAX. lia.
Defined.

(** *** The query by name *)

Lemma symbol_copies_data (m : Store.t) (l : list (nat * SymInfo.t)) :
  Forall (fun s => exists d, CopySymInfo m (Some (fst s)) = Some d
                             /\ symbol_data_of m s d) l ->
  Forall (symbol_copyable m) l
  /\ Forall2 (symbol_data_of m) l (symbol_copies m l).
Proof.
  induction 1 as [|s l (d & Hd & Hdata) _ [IH1 IH2]].
  - split; constructor.
  - split; [constructor; [now exists d|exact IH1]|].
    unfold symbol_copies. cbn [omap list_omap]. rewrite Hd.
    constructor; [exact Hdata|exact IH2].
Qed.

(** X11. For every database that a load returns, the collection by name
    holds every symbol record once. If no two symbol records have the same
    id, there are at most [2^30] of them and the symbols with the name have
    a scope, then the collection is sorted by name and
    [cc65_symbol_byname] returns one record for every symbol with the name
    and no other record, in the order of the collection, each with the id,
    name, type, size and value of its symbol and the ids of the segment,
    scope and parent of the symbol; it returns null when no symbol has the
    name. *)
Theorem X11_symbols_by_name (lines : list InputLine)
  (errs : list cc65_parseerror) (h : DbgInfo.t) (Name : string) :
  cc65_read_dbginfo lines = Some (errs, Some h) ->
  exists syms : list (nat * SymInfo.t),
    fetch_records (Store.SymInfos (DbgInfo.Mem h)) (DbgInfo.SymInfoByName h)
    = Some syms
    /\ fst <$> syms ≡ₚ seq 0 (length (Store.SymInfos (DbgInfo.Mem h)))
    /\ (NoDup (sym_ids (DbgInfo.Mem h)) ->
        Z.of_nat (length syms) <= 1073741824 ->
        Forall has_scope (symbols_named syms Name) ->
        sorted_by_name syms
        /\ exists ds : list cc65_symboldata,
             Forall2 (symbol_data_of (DbgInfo.Mem h))
               (symbols_named syms Name) ds
             /\ cc65_symbol_byname h Name
                = Some (match ds with [] => None | _ => Some ds end)).
Proof.
  intros Hload.
  destruct (loaded_symbols lines errs h Hload)
    as (_ & _ & Hperm & Hsorted & HS & HR).
  destruct (fetch_records_returns (Store.SymInfos (DbgInfo.Mem h))
              (DbgInfo.SymInfoByName h)) as (syms & Hf).
  { intros e He. rewrite Hperm in He.
    apply list_elem_of_fmap in He as (p & -> & Hp).
    apply elem_of_seq in Hp.
    destruct (lookup_lt_is_Some_2 (Store.SymInfos (DbgInfo.Mem h)) p)
      as [r Hr]; [lia|]. eauto. }
  exists syms. split; [exact Hf|]. split.
  { apply pointers_Permutation. rewrite <- Hperm.
    rewrite (fetch_records_Items _ _ _ Hf), <- list_fmap_compose.
    reflexivity. }
  intros Hnd Hn Hsc.
  pose proof (Hsorted syms Hf Hn) as Hs. split; [exact Hs|].
  destruct (symbol_copies_data (DbgInfo.Mem h) (symbols_named syms Name))
    as [Hcopy Hdata].
  { apply Forall_forall. intros s Hin.
    assert (s ∈ syms) as Hin'.
    { unfold symbols_named in Hin. apply list_elem_of_In in Hin.
      apply List.filter_In in Hin as [Hin _]. now apply list_elem_of_In. }
    apply list_elem_of_lookup in Hin' as [i Hi].
    pose proof (fetch_records_Forall2 _ _ _ Hf) as HF2.
    destruct (Forall2_lookup_r _ _ _ _ _ HF2 Hi) as (e & _ & _ & Hst).
    apply CopySymInfo_data; [exact Hst|..].
    - exact (proj1 (Forall_lookup _ _) HS _ _ Hst).
    - exact (proj1 (Forall_lookup _ _) (HR Hnd) _ _ Hst).
    - exact (proj1 (Forall_forall _ _) Hsc s Hin). }
  exists (symbol_copies (DbgInfo.Mem h) (symbols_named syms Name)).
  split; [exact Hdata|].
  rewrite (symbol_byname_copies h syms Name Hf Hs Hn Hcopy).
  destruct (symbols_named syms Name) as [|s l]; [reflexivity|].
  apply Forall_cons in Hcopy as [[d Hd] _].
  unfold symbol_copies. cbn [omap list_omap]. rewrite Hd. reflexivity.
Qed.

Lemma X11_symbols_by_name_witness :
  exists syms : list (nat * SymInfo.t),
    fetch_records (Store.SymInfos (DbgInfo.Mem (loaded input_symbols)))
      (DbgInfo.SymInfoByName (loaded input_symbols)) = Some syms
    /\ sorted_by_name syms
    /\ exists ds : list cc65_symboldata,
         Forall2 (symbol_data_of (DbgInfo.Mem (loaded input_symbols)))
           (symbols_named syms "c") ds
         /\ cc65_symbol_byname (loaded input_symbols) "c"
            = Some (match ds with [] => None | _ => Some ds end).
Proof.
  assert (cc65_read_dbginfo input_symbols
          = Some ([], Some (loaded input_symbols))) as Hload
    by (vm_compute; reflexivity).
  destruct (X11_symbols_by_name input_symbols [] (loaded input_symbols)
              "c" Hload) as (syms & Hf & _ & H).
  exists syms. split; [exact Hf|].
  vm_compute in Hf. injection Hf as <-.
  apply H.
  - vm_compute. repeat constructor; cbn; intros Hin;
      repeat (apply elem_of_cons in Hin as [Hin|Hin]; [discriminate Hin|]);
      inversion Hin.
  - vm_compute. intros E. discriminate E.
  - vm_compute. repeat constructor; intros E; discriminate E.
Defined.
